(** * EngageHub analytics engines: a shallow embedding and its properties

    The development follows the C++ sources under [cpp_extensions/]:
    the seeded MurmurHash3 fold, the Count-Min Sketch, the HyperLogLog
    register bank, the bounded ring in single-threaded use, the time decay,
    the indexed skip list, and the leaderboard with its JSON snapshot.

    Conventions.
    - [std::uint64_t] / [std::size_t] values are integers in [0, 2^64);
      every arithmetic operation that can leave that range is followed by
      [u64], the reduction modulo [2^64].
    - [double] is the kernel's binary64 type [float]; [NaN] is a value.
    - [std::string] is [string]; a character is a byte.
    - undefined behaviour (an out-of-range subscript, a null dereference)
      and a loop that runs out of its fuel are [None]. *)

From Stdlib Require Import ZArith List String Ascii Bool Lia.
From Stdlib Require Import Floats DecimalString.
From Stdlib Require DecimalZ DecimalN DecimalPos.
From Stdlib Require Uint63.
From stdpp Require Import base option list gmap strings sorting.

Local Open Scope Z_scope.

(** ** Machine integers *)

Module U64.

Definition modulus : Z := 2 ^ 64.
Definition UINT64_MAX : Z := 2 ^ 64 - 1.

Definition u64 (z : Z) : Z := z mod modulus.

Definition in_range (z : Z) : Prop := 0 <= z < modulus.

(** [static_cast<intptr_t>]: the two's complement reading of a 64-bit word. *)
Definition to_signed (z : Z) : Z :=
  let r := u64 z in if r <? 2 ^ 63 then r else r - modulus.

Definition shl (x n : Z) : Z := u64 (Z.shiftl x n).
Definition shr (x n : Z) : Z := Z.shiftr x n.

End U64.

Import U64.

(** The outcome of a call that may throw. *)
Inductive result (A : Type) : Type :=
| Ok (a : A)
| Throw (what : string).
Arguments Ok {A} a.
Arguments Throw {A} what.

(** [v[i]] for a [size_t] subscript: [None] when out of range. *)
Definition at_index {A : Type} (l : list A) (i : Z) : option A :=
  if (0 <=? i) && (i <? Z.of_nat (length l)) then l !! Z.to_nat i else None.

Lemma at_index_lookup {A : Type} (l : list A) (i : Z) :
  0 <= i -> at_index l i = l !! Z.to_nat i.
Proof.
  intros Hi. unfold at_index.
  destruct (Z.leb_spec 0 i); [|lia].
  destruct (Z.ltb_spec i (Z.of_nat (length l))); cbn [andb]; [reflexivity|].
  symmetry. apply lookup_ge_None. lia.
Qed.

Definition byte_of (c : ascii) : Z := Z.of_N (N_of_ascii c).

Fixpoint bytes_of (s : string) : list Z :=
  match s with
  | EmptyString => []
  | String c s' => byte_of c :: bytes_of s'
  end.

Fixpoint string_of_bytes (l : list Z) : string :=
  match l with
  | [] => EmptyString
  | b :: l' => String (ascii_of_N (Z.to_N b)) (string_of_bytes l')
  end.

(** ** MurmurHash3 x64, folded to 64 bits ([count_min_sketch.cpp], [hyperloglog.cpp]) *)

Module Murmur.

Definition rotl64 (x r : Z) : Z :=
  Z.lor (shl x r) (shr x (64 - r)).

Definition fmix64 (k : Z) : Z :=
  let k := Z.lxor k (shr k 33) in
  let k := u64 (k * 0xff51afd7ed558ccd) in
  let k := Z.lxor k (shr k 33) in
  let k := u64 (k * 0xc4ceb9fe1a85ec53) in
  let k := Z.lxor k (shr k 33) in
  k.

Definition c1 : Z := 0x87c37b91114253d5.
Definition c2 : Z := 0x4cf5ad432745937f.

(** [k ^= tail[j] << 8*j] for the bytes of [l], lowest index first: the
    fall-through cases of the tail switch, and the little-endian read of a
    block word. *)
Fixpoint xor_bytes (l : list Z) (shift : Z) (k : Z) : Z :=
  match l with
  | [] => k
  | b :: l' => xor_bytes l' (shift + 8) (Z.lxor k (shl b shift))
  end.

Definition word_le (l : list Z) : Z := xor_bytes l 0 0.

Definition mix_k1 (k1 : Z) : Z :=
  let k1 := u64 (k1 * c1) in
  let k1 := rotl64 k1 31 in
  u64 (k1 * c2).

Definition mix_k2 (k2 : Z) : Z :=
  let k2 := u64 (k2 * c2) in
  let k2 := rotl64 k2 33 in
  u64 (k2 * c1).

(** The body loop: [nblocks] blocks of 16 bytes. Returns the two lanes and
    the unread tail. *)
Fixpoint body (nblocks : nat) (data : list Z) (h1 h2 : Z) : Z * Z * list Z :=
  match nblocks with
  | O => (h1, h2, data)
  | S n =>
      let k1 := word_le (take 8 data) in
      let k2 := word_le (take 8 (drop 8 data)) in
      let h1 := Z.lxor h1 (mix_k1 k1) in
      let h1 := rotl64 h1 27 in
      let h1 := u64 (h1 + h2) in
      let h1 := u64 (h1 * 5 + 0x52dce729) in
      let h2 := Z.lxor h2 (mix_k2 k2) in
      let h2 := rotl64 h2 31 in
      let h2 := u64 (h2 + h1) in
      let h2 := u64 (h2 * 5 + 0x38495ab5) in
      body n (drop 16 data) h1 h2
  end.

Definition murmurhash3_64 (key : list Z) (seed : Z) : Z :=
  let len := Z.of_nat (length key) in
  let nblocks := Z.to_nat (len / 16) in
  let '(h1, h2, tail) := body nblocks key seed seed in
  (* switch (len & 15): cases 15..9 build k2, cases 8..1 build k1 *)
  let h2 :=
    if 9 <=? Z.land len 15
    then Z.lxor h2 (mix_k2 (xor_bytes (drop 8 tail) 0 0))
    else h2 in
  let h1 :=
    if 1 <=? Z.land len 15
    then Z.lxor h1 (mix_k1 (xor_bytes (take 8 tail) 0 0))
    else h1 in
  let h1 := Z.lxor h1 len in
  let h2 := Z.lxor h2 len in
  let h1 := u64 (h1 + h2) in
  let h2 := u64 (h2 + h1) in
  let h1 := fmix64 h1 in
  let h2 := fmix64 h2 in
  u64 (h1 + h2).

Definition hash_string (s : string) (seed : Z) : Z :=
  murmurhash3_64 (bytes_of s) seed.

End Murmur.

(** The reference digests of MurmurHash3_x64_128 (low word), seed 0. *)
Example murmur_hello : Murmur.hash_string "hello" 0 = 0xcbd8a7b341bd9b02.
Proof. vm_compute. reflexivity. Qed.

Example murmur_fox :
  Murmur.hash_string "The quick brown fox jumps over the lazy dog" 0
  = 0xe34bbc7bbc071b6c.
Proof. vm_compute. reflexivity. Qed.

(** ** Count-Min Sketch ([count_min_sketch.cpp]) *)

Module CMS.

Record CountMinSketch : Type := mk {
  width_ : Z;
  depth_ : Z;
  seed_ : Z;
  table_ : list Z
}.

(** The constructor. The member initialisers run first ([table_] gets
    [width * depth] zeroed counters, the product taken in [size_t]); the two
    checks follow. Memory is not part of the model: the table is always
    built, where [std::vector] throws [std::length_error] for a size above
    its [max_size()], and [std::bad_alloc] when memory runs out, before the
    checks are reached. *)
Definition new (width depth seed : Z) : result CountMinSketch :=
  let s := {| width_ := width; depth_ := depth; seed_ := seed;
              table_ := replicate (Z.to_nat (u64 (width * depth))) 0 |} in
  if negb (Z.land (width_ s) (u64 (width_ s - 1)) =? 0)
  then Throw "CountMinSketch width must be power of two"
  else if depth_ s =? 0
  then Throw "CountMinSketch depth must be greater than zero"
  else Ok s.

Definition hash (s : CountMinSketch) (key : string) (index : Z) : Z :=
  let salt := u64 (seed_ s + u64 (index * 0x9e3779b97f4a7c15)) in
  Murmur.hash_string key salt.

(** [idx = (i * width_) + (h & (width_ - 1))] *)
Definition slot (s : CountMinSketch) (key : string) (i : Z) : Z :=
  u64 (u64 (i * width_ s) + Z.land (hash s key i) (u64 (width_ s - 1))).

(** Rows [i, i+1, ..]; [n] rows are left. *)
Fixpoint increment_rows (n : nat) (i : Z) (s : CountMinSketch) (key : string)
    (count : Z) (table : list Z) : option (list Z) :=
  match n with
  | O => Some table
  | S n' =>
      let idx := slot s key i in
      match at_index table idx with
      | None => None
      | Some c =>
          increment_rows n' (i + 1) s key count
            (<[Z.to_nat idx := u64 (c + count)]> table)
      end
  end.

Definition increment (s : CountMinSketch) (key : string) (count : Z)
    : option CountMinSketch :=
  match increment_rows (Z.to_nat (depth_ s)) 0 s key count (table_ s) with
  | None => None
  | Some t => Some {| width_ := width_ s; depth_ := depth_ s; seed_ := seed_ s;
                      table_ := t |}
  end.

Fixpoint estimate_rows (n : nat) (i : Z) (s : CountMinSketch) (key : string)
    (result : Z) : option Z :=
  match n with
  | O => Some result
  | S n' =>
      match at_index (table_ s) (slot s key i) with
      | None => None
      | Some c => estimate_rows n' (i + 1) s key (Z.min result c)
      end
  end.

Definition estimate (s : CountMinSketch) (key : string) : option Z :=
  match estimate_rows (Z.to_nat (depth_ s)) 0 s key UINT64_MAX with
  | None => None
  | Some r => Some (if r =? UINT64_MAX then 0 else r)
  end.

(** A run of [increment] calls. *)
Fixpoint increments (ops : list (string * Z)) (s : CountMinSketch)
    : option CountMinSketch :=
  match ops with
  | [] => Some s
  | (k, c) :: ops' =>
      match increment s k c with
      | None => None
      | Some s' => increments ops' s'
      end
  end.

(** The number of times [key] was counted by [ops], as an integer. *)
Fixpoint true_count (key : string) (ops : list (string * Z)) : Z :=
  match ops with
  | [] => 0
  | (k, c) :: ops' =>
      (if String.eqb k key then c else 0) + true_count key ops'
  end.

(** The counter of row [i] that [key] addresses. *)
Definition counter (s : CountMinSketch) (key : string) (i : Z) : option Z :=
  at_index (table_ s) (slot s key i).

(** No counter wraps: each counter an [increment] touches stays below
    [2^64], along the whole run. *)
Fixpoint no_overflow (ops : list (string * Z)) (s : CountMinSketch) : Prop :=
  match ops with
  | [] => True
  | (k, c) :: ops' =>
      (forall i v, 0 <= i < depth_ s -> counter s k i = Some v -> v + c < modulus)
      /\ (forall s', increment s k c = Some s' -> no_overflow ops' s')
  end.

Definition is_power_of_two (w : Z) : Prop := exists n, 0 <= n /\ w = 2 ^ n.

End CMS.

(** *** Properties of the sketch *)

Module CMSFacts.
Import CMS.

Lemma u64_small z : 0 <= z < modulus -> u64 z = z.
Proof. intros H. unfold u64. apply Z.mod_small. exact H. Qed.

Lemma u64_range z : 0 <= u64 z < modulus.
Proof. unfold u64. apply Z.mod_pos_bound. reflexivity. Qed.

Lemma hash_nonneg s key i : 0 <= hash s key i.
Proof.
  unfold hash, Murmur.hash_string, Murmur.murmurhash3_64.
  destruct (Murmur.body _ _ _ _) as [[h1 h2] tl].
  apply u64_range.
Qed.

Lemma land_le_r a b : 0 <= b -> Z.land a b <= b.
Proof.
  intros Hb.
  assert (E : Z.ldiff (Z.land a b) b = 0).
  { apply Z.bits_inj'. intros n Hn.
    rewrite Z.ldiff_spec, Z.land_spec, Z.bits_0.
    destruct (Z.testbit a n), (Z.testbit b n); reflexivity. }
  pose proof (Z.sub_nocarry_ldiff _ _ E) as Hsub.
  assert (0 <= Z.ldiff b (Z.land a b)) by (apply Z.ldiff_nonneg; left; exact Hb).
  lia.
Qed.

Lemma land_mask_range h w : 0 <= h -> 1 <= w -> 0 <= Z.land h (w - 1) < w.
Proof.
  intros Hh Hw. split.
  - apply Z.land_nonneg. left. exact Hh.
  - pose proof (land_le_r h (w - 1)). lia.
Qed.

(** A sketch whose table holds [depth_] rows of [width_] counters. *)
Record shaped (s : CountMinSketch) : Prop := {
  shaped_width : 1 <= width_ s;
  shaped_depth : 1 <= depth_ s;
  shaped_fits : width_ s * depth_ s < modulus;
  shaped_table : Z.of_nat (length (table_ s)) = width_ s * depth_ s
}.

Lemma slot_nonneg s key i : 0 <= slot s key i.
Proof. unfold slot. apply u64_range. Qed.

Lemma counter_lookup s key i : counter s key i = table_ s !! Z.to_nat (slot s key i).
Proof. unfold counter. apply at_index_lookup, slot_nonneg. Qed.

Lemma slot_in_row s key i :
  shaped s -> 0 <= i < depth_ s ->
  i * width_ s <= slot s key i < (i + 1) * width_ s.
Proof.
  intros [Hw Hd Hf Ht] Hi. unfold slot.
  assert (Hwr : 0 <= width_ s - 1 < modulus) by nia.
  rewrite (u64_small (width_ s - 1)) by exact Hwr.
  pose proof (land_mask_range (hash s key i) (width_ s) (hash_nonneg s key i) Hw) as Hl.
  assert (Hiw : 0 <= i * width_ s < modulus) by nia.
  rewrite (u64_small (i * width_ s)) by exact Hiw.
  rewrite u64_small by nia. nia.
Qed.

Lemma slot_lt_length s key i :
  shaped s -> 0 <= i < depth_ s ->
  (Z.to_nat (slot s key i) < length (table_ s))%nat.
Proof.
  intros Hs Hi. pose proof (slot_in_row s key i Hs Hi) as Hr.
  destruct Hs as [Hw Hd Hf Ht]. nia.
Qed.

Lemma slot_rows_differ s k1 k2 i j :
  shaped s -> 0 <= i < depth_ s -> 0 <= j < depth_ s -> i <> j ->
  Z.to_nat (slot s k1 i) <> Z.to_nat (slot s k2 j).
Proof.
  intros Hs Hi Hj Hne.
  pose proof (slot_in_row s k1 i Hs Hi). pose proof (slot_in_row s k2 j Hs Hj).
  destruct Hs as [Hw Hd Hf Ht]. nia.
Qed.

(** What one pass over the rows [i .. i+n) does to the counter that [k]
    addresses in row [r]. *)
Lemma increment_rows_spec s key count n : forall i table,
  shaped s -> length table = length (table_ s) ->
  0 <= i -> i + Z.of_nat n <= depth_ s ->
  exists table',
    increment_rows n i s key count table = Some table'
    /\ length table' = length table
    /\ forall k r, 0 <= r < depth_ s ->
         table' !! Z.to_nat (slot s k r) =
         if bool_decide (i <= r < i + Z.of_nat n
                         /\ slot s key r = slot s k r)
         then (fun c => u64 (c + count)) <$> table !! Z.to_nat (slot s k r)
         else table !! Z.to_nat (slot s k r).
Proof.
  induction n as [|n IH]; intros i table Hs Hlen Hi Hn.
  - exists table. split; [reflexivity|]. split; [reflexivity|].
    intros k r Hr. rewrite bool_decide_eq_false_2; [reflexivity|lia].
  - cbn [increment_rows]. rewrite at_index_lookup by apply slot_nonneg.
    assert (Hir : 0 <= i < depth_ s) by lia.
    pose proof (slot_lt_length s key i Hs Hir) as Hlt. rewrite <- Hlen in Hlt.
    destruct (lookup_lt_is_Some_2 table _ Hlt) as [c Hc]. rewrite Hc.
    destruct (IH (i + 1) (<[Z.to_nat (slot s key i) := u64 (c + count)]> table))
      as (t' & Hrun & Hlen' & Hspec); try lia; try exact Hs.
    { rewrite length_insert. exact Hlen. }
    exists t'. split; [exact Hrun|]. split.
    { rewrite Hlen', length_insert. reflexivity. }
    intros k r Hr. rewrite (Hspec k r Hr).
    destruct (Z.eq_dec r i) as [->|Hri].
    + (* the row just written *)
      rewrite (bool_decide_eq_false_2 (i + 1 <= i < _ /\ _)) by lia.
      destruct (Z.eq_dec (slot s key i) (slot s k i)) as [E|E].
      * rewrite bool_decide_eq_true_2 by lia.
        rewrite <- E, list_lookup_insert_eq by exact Hlt. rewrite Hc. reflexivity.
      * rewrite bool_decide_eq_false_2 by tauto.
        apply list_lookup_insert_ne.
        pose proof (slot_in_row s key i Hs Hir). pose proof (slot_in_row s k i Hs Hir).
        destruct Hs. nia.
    + (* another row: the write is elsewhere *)
      assert (Hne : Z.to_nat (slot s key i) <> Z.to_nat (slot s k r))
        by (apply slot_rows_differ; auto).
      destruct (bool_decide_reflect (i + 1 <= r < i + 1 + Z.of_nat n
                                       /\ slot s key r = slot s k r)) as [[Hin E]|Hno].
      * rewrite bool_decide_eq_true_2 by (split; [lia|exact E]).
        rewrite list_lookup_insert_ne by exact Hne. reflexivity.
      * rewrite bool_decide_eq_false_2.
        -- apply list_lookup_insert_ne. exact Hne.
        -- intros [Hin E]. apply Hno. split; [lia|exact E].
Qed.

Lemma increment_shaped s key count s' :
  shaped s -> increment s key count = Some s' ->
  shaped s' /\ width_ s' = width_ s /\ depth_ s' = depth_ s /\ seed_ s' = seed_ s.
Proof.
  intros Hs. unfold increment.
  destruct (increment_rows_spec s key count (Z.to_nat (depth_ s)) 0 (table_ s))
    as (t' & Hrun & Hlen & _); auto; try lia.
  { destruct Hs. lia. }
  rewrite Hrun. intros [= <-]. cbn. repeat split; try apply Hs.
  cbn. rewrite Hlen. apply Hs.
Qed.

Lemma slot_same_geometry s s' k r :
  width_ s' = width_ s -> seed_ s' = seed_ s -> slot s' k r = slot s k r.
Proof. intros Hw Hsd. unfold slot, hash. rewrite Hw, Hsd. reflexivity. Qed.

(** One [increment]: every addressed counter of [key] grows by [count];
    a counter of another key grows by [count] or stays. *)
Lemma increment_counter s key count :
  shaped s ->
  exists s', increment s key count = Some s'
    /\ forall k r, 0 <= r < depth_ s ->
         counter s' k r =
         if bool_decide (slot s key r = slot s k r)
         then (fun c => u64 (c + count)) <$> counter s k r
         else counter s k r.
Proof.
  intros Hs. unfold increment.
  destruct (increment_rows_spec s key count (Z.to_nat (depth_ s)) 0 (table_ s))
    as (t' & Hrun & Hlen & Hspec); auto; try lia.
  { destruct Hs. lia. }
  rewrite Hrun. eexists. split; [reflexivity|].
  intros k r Hr. rewrite !counter_lookup. cbn [table_].
  rewrite (slot_same_geometry s) by reflexivity.
  rewrite (Hspec k r Hr).
  destruct (Z.eq_dec (slot s key r) (slot s k r)) as [E|E].
  - rewrite !bool_decide_eq_true_2; auto. split; [lia|exact E].
  - rewrite !bool_decide_eq_false_2; tauto.
Qed.

Lemma true_count_nonneg key ops :
  Forall (fun op : string * Z => 0 <= op.2) ops -> 0 <= true_count key ops.
Proof.
  induction 1 as [|[k c] ops Hc _ IH]; cbn; [lia|].
  cbn in Hc. destruct (String.eqb k key); lia.
Qed.

(** The invariant of a run: every addressed counter of [k] is a [u64] value
    that dominates [base k] plus what the run counted for [k]. *)
Lemma increments_dominate ops : forall s (base : string -> Z),
  shaped s ->
  Forall (fun op : string * Z => 0 <= op.2) ops ->
  no_overflow ops s ->
  (forall k, 0 <= base k) ->
  (forall k r, 0 <= r < depth_ s ->
     exists v, counter s k r = Some v /\ base k <= v <= UINT64_MAX) ->
  exists s',
    increments ops s = Some s' /\ shaped s' /\ depth_ s' = depth_ s
    /\ forall k r, 0 <= r < depth_ s ->
         exists v, counter s' k r = Some v
                   /\ base k + true_count k ops <= v <= UINT64_MAX.
Proof.
  induction ops as [|[key c] ops IH]; intros s base Hs Hpos Hno Hbase Hinv.
  - exists s. cbn [increments true_count].
    split; [reflexivity|]. split; [exact Hs|]. split; [reflexivity|].
    intros k r Hr. destruct (Hinv k r Hr) as (v & Hv & Hb). exists v. split; [exact Hv|lia].
  - cbn [increments]. destruct Hno as [Hfit Hnext].
    destruct (increment_counter s key c Hs) as (s1 & Hinc & Hcnt).
    rewrite Hinc.
    destruct (increment_shaped s key c s1 Hs Hinc) as (Hs1 & Hw1 & Hd1 & Hseed1).
    inversion Hpos as [|? ? Hc Hpos']; subst. cbn in Hc.
    destruct (IH s1 (fun k => base k + (if String.eqb key k then c else 0)))
      as (s' & Hrun & Hs' & Hd' & Hfin); auto.
    + intros k. specialize (Hbase k). destruct (String.eqb key k); lia.
    + intros k r Hr. rewrite Hd1 in Hr. rewrite (Hcnt k r Hr).
      destruct (Hinv k r Hr) as (v & Hv & Hb). rewrite Hv.
      destruct (bool_decide_reflect (slot s key r = slot s k r)) as [E|E].
      * cbn. eexists. split; [reflexivity|].
        assert (Hkv : counter s key r = Some v) by (unfold counter in *; rewrite E; exact Hv).
        pose proof (Hfit r v Hr Hkv) as Hlt. specialize (Hbase k).
        rewrite u64_small by lia. unfold UINT64_MAX, modulus in *.
        destruct (String.eqb key k); lia.
      * exists v. split; [reflexivity|].
        destruct (String.eqb_spec key k) as [->|_]; [congruence|lia].
    + exists s'. split; [exact Hrun|]. split; [exact Hs'|]. split; [congruence|].
      intros k r Hr. rewrite <- Hd1 in Hr. destruct (Hfin k r Hr) as (v & Hv & Hb).
      exists v. split; [exact Hv|]. cbn [true_count]. lia.
Qed.

(** The minimum loop of [estimate]. *)
Lemma estimate_rows_spec s key n : forall i result,
  (forall r, i <= r < i + Z.of_nat n -> is_Some (counter s key r)) ->
  exists m,
    estimate_rows n i s key result = Some m
    /\ m <= result
    /\ (forall r v, i <= r < i + Z.of_nat n -> counter s key r = Some v -> m <= v)
    /\ (m = result \/ exists r, i <= r < i + Z.of_nat n /\ counter s key r = Some m).
Proof.
  induction n as [|n IH]; intros i result Hall.
  - exists result. cbn. repeat split; auto; [lia|intros; lia].
  - cbn [estimate_rows]. destruct (Hall i ltac:(lia)) as [c Hc].
    unfold counter in Hc. rewrite Hc.
    destruct (IH (i + 1) (Z.min result c)) as (m & Hrun & Hle & Hmin & Hatt).
    { intros r Hr. apply Hall. lia. }
    exists m. split; [exact Hrun|]. split; [lia|]. split.
    + intros r v Hr Hv. destruct (Z.eq_dec r i) as [->|Hne].
      * unfold counter in Hv. rewrite Hc in Hv. injection Hv as <-. lia.
      * apply (Hmin r v); [lia|exact Hv].
    + destruct Hatt as [E|(r & Hr & Hv)].
      * destruct (Z.min_spec result c) as [[_ E']|[_ E']]; rewrite E' in E.
        -- left. exact E.
        -- right. exists i. split; [lia|]. unfold counter. rewrite Hc, E. reflexivity.
      * right. exists r. split; [lia|exact Hv].
Qed.

Lemma cms_new_shaped width depth seed :
  is_power_of_two width -> 1 <= depth -> width * depth < modulus ->
  exists s, new width depth seed = Ok s /\ shaped s
            /\ width_ s = width /\ depth_ s = depth
            /\ table_ s = replicate (Z.to_nat (width * depth)) 0.
Proof.
  intros (n & Hn & ->) Hd Hfit.
  assert (Hpos : 0 < 2 ^ n) by (apply Z.pow_pos_nonneg; lia).
  unfold new. cbn [width_ depth_].
  rewrite (u64_small (2 ^ n - 1)) by nia.
  replace (2 ^ n - 1) with (Z.ones n) by (rewrite Z.ones_equiv; lia).
  rewrite Z.land_ones by exact Hn. rewrite Z.mod_same by lia.
  cbn [negb Z.eqb]. destruct (Z.eqb_spec depth 0) as [E|_]; [lia|].
  eexists. split; [reflexivity|]. rewrite u64_small by nia.
  split; [|auto]. constructor; cbn; try lia.
  rewrite length_replicate. nia.
Qed.

(** The bit test of the constructor, on a nonzero width. *)
Lemma land_pred_zero_iff w :
  0 < w -> (Z.land w (w - 1) = 0 <-> is_power_of_two w).
Proof.
  intros Hw. split.
  - intros Hl. exists (Z.log2 w). split; [apply Z.log2_nonneg|].
    destruct (Z.log2_spec w Hw) as [Hlo Hhi].
    destruct (Z.eq_dec w (2 ^ Z.log2 w)) as [E|E]; [exact E|exfalso].
    assert (Hlog : Z.log2 (w - 1) = Z.log2 w).
    { apply Z.log2_unique; [apply Z.log2_nonneg|]. lia. }
    assert (Hb : Z.testbit (Z.land w (w - 1)) (Z.log2 w) = true).
    { rewrite Z.land_spec, Z.bit_log2 by exact Hw.
      rewrite <- Hlog. rewrite Z.bit_log2; [reflexivity|].
      pose proof (Z.pow_pos_nonneg 2 (Z.log2 w) ltac:(lia) (Z.log2_nonneg w)). lia. }
    rewrite Hl, Z.bits_0 in Hb. discriminate.
  - intros (n & Hn & ->).
    replace (2 ^ n - 1) with (Z.ones n) by (rewrite Z.ones_equiv; lia).
    rewrite Z.land_ones by exact Hn. apply Z.mod_same.
    pose proof (Z.pow_pos_nonneg 2 n ltac:(lia) Hn). lia.
Qed.

(** A bound on the whole table gives a run without overflow. *)
Lemma u64_le z : 0 <= z -> u64 z <= z.
Proof. intros H. unfold u64. apply Z.mod_le; [exact H|reflexivity]. Qed.

Lemma increment_rows_bound s key count n : forall i table B table',
  0 <= count -> Forall (fun v => 0 <= v <= B) table ->
  increment_rows n i s key count table = Some table' ->
  Forall (fun v => 0 <= v <= B + Z.of_nat n * count) table'.
Proof.
  induction n as [|n IH]; intros i table B table' Hc Hall; cbn [increment_rows].
  - intros [= <-]. eapply Forall_impl; [exact Hall|]. cbn. intros; lia.
  - rewrite at_index_lookup by apply slot_nonneg.
    destruct (table !! Z.to_nat (slot s key i)) as [c|] eqn:E; [|discriminate].
    intros Hrun.
    pose proof (Forall_lookup_1 _ _ _ _ Hall E) as Hb. cbn in Hb.
    eapply Forall_impl.
    + eapply (IH (i + 1) _ (B + count)); [exact Hc| |exact Hrun].
      apply Forall_insert.
      * eapply Forall_impl; [exact Hall|]. cbn. intros; lia.
      * pose proof (u64_range (c + count)). pose proof (u64_le (c + count)). lia.
    + cbn. intros; lia.
Qed.

Fixpoint total (ops : list (string * Z)) : Z :=
  match ops with
  | [] => 0
  | op :: ops' => op.2 + total ops'
  end.

Lemma no_overflow_of_bound ops : forall s B,
  1 <= depth_ s ->
  Forall (fun v => 0 <= v <= B) (table_ s) ->
  Forall (fun op : string * Z => 0 <= op.2) ops ->
  B + depth_ s * total ops < modulus ->
  no_overflow ops s.
Proof.
  induction ops as [|[key c] ops IH]; intros s B Hd Hall Hpos Hsum; cbn [no_overflow].
  - exact I.
  - inversion Hpos as [|? ? Hc Hpos']; subst. cbn in Hc. cbn [total snd] in Hsum.
    assert (Ht : 0 <= total ops).
    { clear -Hpos'. induction Hpos' as [|[] ? ? ? ?]; cbn in *; lia. }
    split.
    + intros i v _ Hv. rewrite counter_lookup in Hv.
      pose proof (Forall_lookup_1 _ _ _ _ Hall Hv) as Hb. cbn in Hb. nia.
    + intros s' Hinc. unfold increment in Hinc.
      destruct (increment_rows _ _ _ _ _ _) as [t|] eqn:E; [|discriminate].
      injection Hinc as <-.
      apply (IH _ (B + depth_ s * c)); cbn [depth_ table_]; auto; [|lia].
      pose proof (increment_rows_bound _ _ _ _ _ _ B _ Hc Hall E) as Hb.
      rewrite Z2Nat.id in Hb by lia. exact Hb.
Qed.

End CMSFacts.

(** C2, for a table whose size does not wrap. For a sketch built with a
    width that is a power of two, at least one row, and [width * depth]
    below [2^64] (so that the product taken in [size_t] is the number of
    counters), and a run of [increment] calls in which no counter wraps,
    [estimate k] is at least the count of [k] in the run, unless every
    counter that [k] addresses equals [UINT64_MAX], in which case
    [estimate] answers [0]. *)
Theorem cms_estimate_dominates_true_count width depth seed ops :
  CMS.is_power_of_two width -> 1 <= depth -> width * depth < modulus ->
  Forall (fun op : string * Z => 0 <= op.2) ops ->
  (forall s0, CMS.new width depth seed = Ok s0 -> CMS.no_overflow ops s0) ->
  exists s0 s,
    CMS.new width depth seed = Ok s0
    /\ CMS.increments ops s0 = Some s
    /\ forall k, exists e,
         CMS.estimate s k = Some e
         /\ ((forall r, 0 <= r < depth -> CMS.counter s k r = Some UINT64_MAX)
               /\ e = 0
             \/ CMS.true_count k ops <= e).
Proof.
  intros Hpow Hd Hfit Hpos Hno.
  destruct (CMSFacts.cms_new_shaped width depth seed Hpow Hd Hfit)
    as (s0 & Hnew & Hs0 & Hw0 & Hd0 & Ht0).
  destruct (CMSFacts.increments_dominate ops s0 (fun _ => 0) Hs0 Hpos (Hno s0 Hnew))
    as (s & Hrun & Hs & Hds & Hdom).
  { intros; lia. }
  { intros k r Hr. exists 0. split; [|unfold UINT64_MAX; lia].
    rewrite CMSFacts.counter_lookup, Ht0. apply lookup_replicate_2.
    pose proof (CMSFacts.slot_lt_length s0 k r Hs0 Hr) as Hlt.
    rewrite Ht0, length_replicate in Hlt. exact Hlt. }
  exists s0, s. split; [exact Hnew|]. split; [exact Hrun|].
  intros k. unfold CMS.estimate.
  destruct (CMSFacts.estimate_rows_spec s k (Z.to_nat (CMS.depth_ s)) 0 UINT64_MAX)
    as (m & Hest & Hle & Hmin & Hatt).
  { intros r Hr. rewrite Z2Nat.id in Hr by lia.
    destruct (Hdom k r) as (v & Hv & _); [lia|]. rewrite Hv. eauto. }
  rewrite Hest. eexists. split; [reflexivity|].
  rewrite Z2Nat.id in Hmin, Hatt by lia.
  destruct (Z.eqb_spec m UINT64_MAX) as [E|E].
  - left. split; [|reflexivity]. intros r Hr.
    destruct (Hdom k r) as (v & Hv & Hb); [lia|].
    pose proof (Hmin r v ltac:(lia) Hv). rewrite Hv. f_equal. lia.
  - right. destruct Hatt as [?|(r & Hr & Hv)]; [contradiction|].
    destruct (Hdom k r) as (v & Hv' & Hb); [lia|].
    rewrite Hv in Hv'. injection Hv' as <-. lia.
Qed.

(** The S1 scenario of the specification, with the counts passed at once. *)
Lemma cms_estimate_dominates_true_count_witness :
  exists s0 s,
    CMS.new 2048 4 1337 = Ok s0
    /\ CMS.increments [("alpha", 1000); ("beta", 500); ("gamma", 50)]%string s0 = Some s
    /\ forall k, exists e,
         CMS.estimate s k = Some e
         /\ ((forall r, 0 <= r < 4 -> CMS.counter s k r = Some UINT64_MAX)
               /\ e = 0
             \/ CMS.true_count k [("alpha", 1000); ("beta", 500); ("gamma", 50)]%string <= e).
Proof.
  apply (cms_estimate_dominates_true_count 2048 4 1337).
  - exists 11. split; [lia|reflexivity].
  - lia.
  - reflexivity.
  - repeat constructor; cbn; lia.
  - intros s0 Hnew.
    destruct (CMSFacts.cms_new_shaped 2048 4 1337) as (s & Hs & _ & _ & Hd & Ht);
      [exists 11; split; [lia|reflexivity] | lia | reflexivity |].
    rewrite Hnew in Hs. injection Hs as ->.
    apply (CMSFacts.no_overflow_of_bound _ _ 0); rewrite ?Hd, ?Ht.
    + lia.
    + apply Forall_replicate. lia.
    + repeat constructor; cbn; lia.
    + reflexivity.
Defined.

(** C2, as stated, fails where the size of the table wraps. The width
    [2^63] is a power of two and the depth [2] is at least one, so the
    constructor returns; but [width * depth] is [2^64], which is [0] in
    [size_t]: the table is empty. No counter can overflow, on any run, and
    yet no [increment] and no [estimate] is defined: each subscripts the
    empty table. *)
Lemma cms_estimate_undefined_on_wrapped_table :
  exists s0,
    CMS.new (2 ^ 63) 2 0 = Ok s0
    /\ CMS.is_power_of_two (2 ^ 63)
    /\ 1 <= 2
    /\ CMS.table_ s0 = []
    /\ (forall ops, CMS.no_overflow ops s0)
    /\ CMS.increments [] s0 = Some s0
    /\ (forall k, CMS.estimate s0 k = None)
    /\ (forall k c, CMS.increment s0 k c = None).
Proof.
  exists (CMS.mk (2 ^ 63) 2 0 []).
  assert (Hnone : forall i, at_index ([] : list Z) i = None).
  { intros i. unfold at_index. cbn [length]. destruct (Z.leb_spec 0 i); [|reflexivity].
    destruct (Z.ltb_spec i (Z.of_nat 0)); [lia|reflexivity]. }
  assert (Hinc : forall k c, CMS.increment (CMS.mk (2 ^ 63) 2 0 []) k c = None).
  { intros k c. unfold CMS.increment. cbn [CMS.depth_ CMS.table_].
    change (Z.to_nat 2) with 2%nat. cbn [CMS.increment_rows]. rewrite Hnone. reflexivity. }
  split; [reflexivity|]. split; [exists 63; split; [lia|reflexivity]|].
  split; [lia|]. split; [reflexivity|]. split.
  { intros [|[k c] ops]; [exact I|]. cbn [CMS.no_overflow]. split.
    - intros i v _. unfold CMS.counter. cbn [CMS.table_]. rewrite Hnone. discriminate.
    - intros s'. rewrite Hinc. discriminate. }
  split; [reflexivity|]. split; [|exact Hinc].
  intros k. unfold CMS.estimate. cbn [CMS.depth_].
  change (Z.to_nat 2) with 2%nat. cbn [CMS.estimate_rows CMS.table_]. rewrite Hnone.
  reflexivity.
Qed.

(** The case the claim names: one [increment] by [UINT64_MAX] wraps no
    counter, the one counter addressed equals [UINT64_MAX], and [estimate]
    answers [0]. *)
Lemma cms_estimate_zero_at_uint64_max :
  exists s0 s,
    CMS.new 1 1 0 = Ok s0
    /\ CMS.no_overflow [("k"%string, UINT64_MAX)] s0
    /\ CMS.increments [("k"%string, UINT64_MAX)] s0 = Some s
    /\ CMS.estimate s "k" = Some 0
    /\ ~ (CMS.true_count "k" [("k"%string, UINT64_MAX)] <= 0).
Proof.
  exists (CMS.mk 1 1 0 [0]), (CMS.mk 1 1 0 [UINT64_MAX]).
  split; [reflexivity|]. split; [|split; [vm_compute; reflexivity|]].
  - cbn [CMS.no_overflow]. split; [|intros; exact I].
    intros i v Hi. assert (i = 0) as -> by (cbn in Hi; lia).
    assert (E : CMS.counter (CMS.mk 1 1 0 [0]) "k" 0 = Some 0)
      by (vm_compute; reflexivity).
    rewrite E. intros [= <-]. reflexivity.
  - split; [vm_compute; reflexivity|]. intros H. vm_compute in H. apply H. reflexivity.
Qed.

(** C6. The constructor accepts a zero width: [0 & (0 - 1)] is [0], so the
    power-of-two test passes. *)
Theorem cms_new_accepts_zero_width :
  CMS.new 0 4 12345
  = Ok {| CMS.width_ := 0; CMS.depth_ := 4; CMS.seed_ := 12345; CMS.table_ := [] |}.
Proof. reflexivity. Qed.

(** X5. What the checks of the constructor decide, once the table is
    built: for a table of fewer than [2^60] counters, a size every
    [std::vector] of 8-byte elements accepts, the first check throws
    exactly when the width is neither zero nor a power of two, the second
    exactly when the width passes and the depth is zero, and the
    constructor returns exactly when the width passes and the depth is not
    zero. The width zero passes. *)
Lemma cms_new_throws_iff width depth seed :
  0 <= width < modulus ->
  u64 (width * depth) < 2 ^ 60 ->
  (CMS.new width depth seed = Throw "CountMinSketch width must be power of two"
   <-> width <> 0 /\ ~ CMS.is_power_of_two width)
  /\ (CMS.new width depth seed = Throw "CountMinSketch depth must be greater than zero"
      <-> (width = 0 \/ CMS.is_power_of_two width) /\ depth = 0)
  /\ ((exists s, CMS.new width depth seed = Ok s)
      <-> (width = 0 \/ CMS.is_power_of_two width) /\ depth <> 0).
Proof.
  intros Hw _. unfold CMS.new. cbn [CMS.width_ CMS.depth_].
  assert (Hbit : (Z.land width (u64 (width - 1)) =? 0) = true
                 <-> width = 0 \/ CMS.is_power_of_two width).
  { destruct (Z.eq_dec width 0) as [->|Hnz]; [split; [auto|reflexivity]|].
    rewrite (CMSFacts.u64_small (width - 1)) by lia.
    rewrite Z.eqb_eq, (CMSFacts.land_pred_zero_iff width ltac:(lia)).
    split; [auto|]. intros [?|?]; [contradiction|assumption]. }
  destruct (Z.land width (u64 (width - 1)) =? 0) eqn:Ebit; cbn [negb].
  - assert (Hok : width = 0 \/ CMS.is_power_of_two width) by (apply Hbit; reflexivity).
    destruct (Z.eqb_spec depth 0) as [E0|E0].
    + split; [split; [discriminate|]|].
      { intros [Hnz Hn]. destruct Hok; contradiction. }
      split; [split; [auto|reflexivity]|].
      split; [intros [? [=]]|intros [_ ?]; contradiction].
    + split; [split; [discriminate|]|].
      { intros [Hnz Hn]. destruct Hok; contradiction. }
      split; [split; [discriminate|intros [_ ?]; contradiction]|].
      split; [auto|eauto].
  - assert (Hbad : ~ (width = 0 \/ CMS.is_power_of_two width)).
    { intros H. apply Hbit in H. discriminate. }
    split; [split; [|reflexivity]|].
    { intros _. split; [intros ->; apply Hbad; auto|intros H; apply Hbad; auto]. }
    split; [split; [discriminate|intros [? _]; contradiction]|].
    split; [intros [? [=]]|intros [? _]; contradiction].
Qed.

(** On the sketch of zero width every subscript is out of range. *)
Lemma cms_zero_width_increment_undefined :
  forall s, CMS.new 0 4 12345 = Ok s -> CMS.increment s "alpha" 1 = None.
Proof. intros s [= <-]. vm_compute. reflexivity. Qed.

(** ** Floating point: [double] and the C library *)

(** [static_cast<double>(n)] for an integer [n]: the nearest binary64. *)
Definition double_of_Z (z : Z) : float :=
  SF2Prim (binary_normalize prec emax z 0 false).

(** [static_cast<std::uint64_t>(x)]: truncation toward zero; undefined when
    the truncated value is not a [uint64_t] (or [x] is a NaN or infinite). *)
Definition u64_of_double (x : float) : option Z :=
  match Prim2SF x with
  | S754_zero _ => Some 0
  | S754_finite s m e =>
      let mag := if 0 <=? e then Z.pos m * 2 ^ e else Z.pos m / 2 ^ (- e) in
      let v := if s then - mag else mag in
      if (0 <=? v) && (v <? modulus) then Some v else None
  | S754_infinity _ | S754_nan => None
  end.

(** The two functions of [<cmath>] the sources call. They are taken as given:
    every statement below holds for any pair of functions. *)
Record libm : Type := Libm {
  pow : float -> float -> float;
  log : float -> float
}.

(** *** Rounding in the normal range

    What the theorems on [TimeDecay::apply] need of binary64: a positive
    number of seconds below 2^63 converts to a positive [double], and its
    quotient by 86400 is positive. *)

Module FloatFacts.

Lemma digits_log2 m : 0 < m -> Zdigits2 m = Z.log2 m + 1.
Proof.
  destruct m as [|p|p]; try lia. intros _. cbn [Zdigits2].
  induction p as [p IH|p IH|]; cbn [digits2_pos Z.log2].
  - rewrite Pos2Z.inj_succ, IH. destruct p; cbn [Z.log2 Pos.size]; lia.
  - rewrite Pos2Z.inj_succ, IH. destruct p; cbn [Z.log2 Pos.size]; lia.
  - reflexivity.
Qed.

Lemma shr_1_m mrs : 0 <= shr_m mrs -> shr_m (shr_1 mrs) = shr_m mrs / 2.
Proof.
  destruct mrs as [m r s]. cbn [shr_m]. intros Hm. rewrite <- Z.div2_div.
  destruct m as [|[p|p|]|p]; try reflexivity; lia.
Qed.

Lemma iter_shr_1 n : forall mrs,
  0 <= shr_m mrs -> shr_m (SpecFloat.iter_pos shr_1 n mrs) = shr_m mrs / 2 ^ Z.pos n.
Proof.
  induction n as [n IH|n IH|]; intros mrs Hm; cbn [SpecFloat.iter_pos].
  - assert (H1 : 0 <= shr_m (shr_1 mrs)) by (rewrite shr_1_m by exact Hm; apply Z.div_pos; lia).
    assert (H2 : 0 <= shr_m (SpecFloat.iter_pos shr_1 n (shr_1 mrs)))
      by (rewrite IH by exact H1; apply Z.div_pos; lia).
    rewrite IH by exact H2. rewrite IH by exact H1. rewrite shr_1_m by exact Hm.
    rewrite !Z.div_div by lia. f_equal.
    replace (Z.pos n~1) with (1 + Z.pos n + Z.pos n) by lia.
    rewrite !Z.pow_add_r by lia. lia.
  - assert (H2 : 0 <= shr_m (SpecFloat.iter_pos shr_1 n mrs))
      by (rewrite IH by exact Hm; apply Z.div_pos; lia).
    rewrite IH by exact H2. rewrite IH by exact Hm.
    rewrite !Z.div_div by lia. f_equal.
    replace (Z.pos n~0) with (Z.pos n + Z.pos n) by lia.
    rewrite !Z.pow_add_r by lia. lia.
  - rewrite shr_1_m by exact Hm. reflexivity.
Qed.

(** In the normal range [shr_fexp] keeps the mantissa positive and the
    magnitude [digits + exponent]. *)
Lemma shr_fexp_spec m e l :
  0 < m -> -1021 <= Zdigits2 m + e ->
  exists mrs e',
    shr_fexp prec emax m e l = (mrs, e')
    /\ 0 < shr_m mrs /\ Zdigits2 (shr_m mrs) + e' = Zdigits2 m + e.
Proof.
  intros Hm Hrange. unfold shr_fexp, fexp, SpecFloat.emin, prec, emax.
  assert (Hrec : shr_m (shr_record_of_loc m l) = m) by (destruct l as [|[]]; reflexivity).
  rewrite digits_log2 in * by exact Hm.
  pose proof (Z.log2_nonneg m) as Hlog.
  replace (Z.max (Z.log2 m + 1 + e - 53) (3 - 1024 - 53) - e) with (Z.log2 m - 52) by lia.
  destruct (Z.log2 m - 52) as [|n|n] eqn:En; cbn [shr].
  - eexists _, _. split; [reflexivity|]. rewrite Hrec.
    rewrite digits_log2 by exact Hm. lia.
  - eexists _, _. split; [reflexivity|].
    rewrite iter_shr_1 by (rewrite Hrec; lia). rewrite Hrec.
    rewrite <- Z.shiftr_div_pow2 by lia.
    assert (Hl : Z.log2 (Z.shiftr m (Z.pos n)) = Z.log2 m - Z.pos n)
      by (rewrite Z.log2_shiftr by exact Hm; lia).
    assert (Hpos : 0 < Z.shiftr m (Z.pos n)).
    { rewrite Z.shiftr_div_pow2 by lia. apply Z.div_str_pos. split; [lia|].
      apply Z.log2_le_pow2; [exact Hm|lia]. }
    split; [exact Hpos|]. rewrite digits_log2 by exact Hpos. lia.
  - eexists _, _. split; [reflexivity|]. rewrite Hrec.
    rewrite digits_log2 by exact Hm. lia.
Qed.

Lemma round_nearest_even_range m l :
  m <= round_nearest_even m l <= m + 1.
Proof. destruct l as [|[]]; cbn; try lia. destruct (Z.even m); lia. Qed.

(** Rounding a positive value of the normal range: the result is positive,
    and no smaller in magnitude. *)
Lemma binary_round_aux_pos s m e l :
  0 < m -> -1021 <= Zdigits2 m + e ->
  binary_round_aux prec emax s m e l = S754_infinity s
  \/ exists m' e',
       binary_round_aux prec emax s m e l = S754_finite s m' e'
       /\ Zdigits2 m + e <= Zdigits2 (Z.pos m') + e'.
Proof.
  intros Hm Hrange. unfold binary_round_aux.
  destruct (shr_fexp_spec m e l Hm Hrange) as (mrs1 & e1 & -> & Hm1 & Hd1).
  pose proof (round_nearest_even_range (shr_m mrs1) (loc_of_shr_record mrs1)) as Hr.
  set (m2 := round_nearest_even (shr_m mrs1) (loc_of_shr_record mrs1)) in *.
  assert (Hm2 : 0 < m2) by lia.
  assert (Hd2 : Zdigits2 (shr_m mrs1) <= Zdigits2 m2).
  { rewrite !digits_log2 by assumption.
    pose proof (Z.log2_le_mono (shr_m mrs1) m2 ltac:(lia)). lia. }
  destruct (shr_fexp_spec m2 e1 loc_Exact Hm2 ltac:(lia)) as (mrs3 & e3 & -> & Hm3 & Hd3).
  destruct (shr_m mrs3) as [|m3|m3] eqn:E3; try lia.
  destruct (e3 <=? emax - prec); [right|left; reflexivity].
  exists m3, e3. split; [reflexivity|]. lia.
Qed.

(** The quotient of two positive numbers, when it is in the normal range. *)
Lemma SFdiv_pos mx ex my ey :
  -1021 <= Zdigits2 (Z.pos mx) + ex - (Zdigits2 (Z.pos my) + ey) ->
  SFdiv prec emax (S754_finite false mx ex) (S754_finite false my ey) = S754_infinity false
  \/ exists m e,
       SFdiv prec emax (S754_finite false mx ex) (S754_finite false my ey)
       = S754_finite false m e.
Proof.
  intros Hrange. unfold SFdiv, SFdiv_core_binary. cbv zeta.
  rewrite !digits_log2 in * by lia.
  pose proof (Z.log2_nonneg (Z.pos mx)) as HL1.
  pose proof (Z.log2_nonneg (Z.pos my)) as HL2.
  set (L1 := Z.log2 (Z.pos mx)) in *. set (L2 := Z.log2 (Z.pos my)) in *.
  unfold fexp, SpecFloat.emin, prec, emax.
  set (e' := Z.min (Z.max (L1 + 1 + ex - (L2 + 1 + ey) - 53) (3 - 1024 - 53)) (ex - ey)).
  set (s := ex - ey - e').
  assert (Hs : 0 <= s /\ 53 - L1 + L2 <= s /\ (s = 0 \/ s = 53 - L1 + L2)) by lia.
  set (m' := match s with Z.pos _ => Z.shiftl (Z.pos mx) s | 0 => Z.pos mx | Z.neg _ => 0 end).
  assert (Hm' : m' = Z.pos mx * 2 ^ s).
  { unfold m'. destruct s as [|p|p] eqn:Es; [lia| |lia].
    apply Z.shiftl_mul_pow2. lia. }
  assert (Hlog : Z.log2 m' = s + L1) by (rewrite Hm'; apply Z.log2_mul_pow2; lia).
  assert (Hpos : 0 < m') by (rewrite Hm'; apply Z.mul_pos_pos; [lia|apply Z.pow_pos_nonneg; lia]).
  pose proof (Z.div_eucl_eq m' (Z.pos my) ltac:(lia)) as Hdiv.
  pose proof (Z.mod_pos_bound m' (Z.pos my) ltac:(lia)) as Hmod.
  unfold Z.modulo in Hmod.
  destruct (Z.div_eucl m' (Z.pos my)) as [q r].
  set (k := s + L1 - L2 - 1).
  assert (Hk : 2 ^ k <= q).
  { destruct (Z.log2_spec m' Hpos) as [Hlo _].
    destruct (Z.log2_spec (Z.pos my) ltac:(lia)) as [_ Hhi]. fold L2 in Hhi.
    rewrite Hlog in Hlo.
    assert (E : 2 ^ (s + L1) = 2 ^ k * 2 ^ Z.succ L2)
      by (rewrite <- Z.pow_add_r by lia; f_equal; lia).
    assert (H2k : 0 < 2 ^ k) by (apply Z.pow_pos_nonneg; lia).
    nia. }
  assert (Hq : 0 < q) by (pose proof (Z.pow_pos_nonneg 2 k ltac:(lia) ltac:(lia)); lia).
  assert (Hlq : k <= Z.log2 q) by (apply Z.log2_le_pow2; assumption).
  destruct (binary_round_aux_pos false q e' (new_location (Z.pos my) r) Hq) as [H|(m & e & H & _)].
  - rewrite digits_log2 by exact Hq. lia.
  - left. exact H.
  - right. exists m, e. exact H.
Qed.

Lemma shl_align_spec mx ex ex' :
  let '(mz, ez) := shl_align mx ex ex' in
  Zdigits2 (Z.pos mz) + ez = Zdigits2 (Z.pos mx) + ex.
Proof.
  unfold shl_align. destruct (ex' - ex) as [|d|d] eqn:E; try reflexivity.
  assert (H : Z.pos (Pos.iter xO mx d) = Z.pos mx * 2 ^ Z.pos d).
  { clear E. induction d as [|d IH] using Pos.peano_ind.
    - cbn [Pos.iter]. lia.
    - rewrite Pos.iter_succ, Pos2Z.inj_xO, IH, Pos2Z.inj_succ, Z.pow_succ_r by lia. lia. }
  rewrite !digits_log2 by lia. rewrite H, Z.log2_mul_pow2 by lia. lia.
Qed.

(** The conversion of a positive 63-bit integer. *)
Lemma double_of_Z_pos z :
  1 <= z < 2 ^ 63 ->
  Prim2SF (double_of_Z z) = S754_infinity false
  \/ exists m e, Prim2SF (double_of_Z z) = S754_finite false m e /\ 1 <= Zdigits2 (Z.pos m) + e.
Proof.
  intros Hz. unfold double_of_Z.
  assert (Hspec : binary_normalize prec emax z 0 false = Prim2SF (of_uint63 (Uint63.of_Z z))).
  { rewrite FloatAxioms.of_uint63_spec, Uint63.of_Z_spec. f_equal.
    symmetry. apply Z.mod_small. change Uint63.wB with (2 ^ 63). lia. }
  rewrite Prim2SF_SF2Prim by (rewrite Hspec; apply Prim2SF_valid).
  destruct z as [|p|p]; try lia. cbn [binary_normalize]. unfold binary_round.
  pose proof (shl_align_spec p 0 (fexp prec emax (Z.pos (digits2_pos p) + 0))) as Ha.
  destruct (shl_align p 0 _) as [mz ez].
  assert (Hd : 1 <= Zdigits2 (Z.pos p)) by (cbn; lia).
  destruct (binary_round_aux_pos false (Z.pos mz) ez loc_Exact ltac:(lia) ltac:(lia))
    as [H|(m & e & H & Hle)].
  - left. exact H.
  - right. exists m, e. split; [exact H|lia].
Qed.

(** A positive number of seconds is a positive number of days. *)
Lemma days_positive delta :
  1 <= delta < 2 ^ 63 -> (double_of_Z delta / 86400 <=? 0)%float = false.
Proof.
  intros Hd. rewrite FloatAxioms.leb_spec, FloatAxioms.div_spec.
  change (Prim2SF 86400) with (S754_finite false 5937362789990400 (-36)).
  change (Prim2SF 0) with (S754_zero false).
  destruct (double_of_Z_pos delta Hd) as [->|(m & e & -> & Hm)]; [reflexivity|].
  destruct (SFdiv_pos m e 5937362789990400 (-36)) as [H|(m' & e' & H)].
  - change (Zdigits2 (Z.pos 5937362789990400)) with 53. lia.
  - unfold SF64div. rewrite H. reflexivity.
  - unfold SF64div. rewrite H. reflexivity.
Qed.

End FloatFacts.

(** ** HyperLogLog ([hyperloglog.cpp]) *)

Module HLL.

Record HyperLogLog : Type := mk {
  precision_ : Z;
  register_count_ : Z;
  registers_ : list Z
}.

Definition u8 (z : Z) : Z := z mod 256.

(** The constructor: [register_count_] is [1ULL << precision] and the bank is
    zeroed; a precision outside [4, 18] throws. The check is written first
    here; in the source the member initialisers run before it, so that for
    a refused precision the shift and the allocation come first (the shift
    is undefined from [64] on). The statements below are about the
    precisions the constructor accepts. *)
Definition new (precision : Z) : result HyperLogLog :=
  if (precision <? 4) || (18 <? precision)
  then Throw "HyperLogLog precision must be between 4 and 18"
  else Ok {| precision_ := precision;
             register_count_ := shl 1 precision;
             registers_ := replicate (Z.to_nat (shl 1 precision)) 0 |}.

(** The loop of [rho]; [count] is a [uint8_t]. The fuel covers every value
    [count] can take. *)
Fixpoint rho_loop (fuel : nat) (x max_bits count : Z) : option Z :=
  match fuel with
  | O => None
  | S fuel' =>
      if count <=? max_bits
      then if negb (Z.land x (shl 1 (64 - 1)) =? 0)
           then Some count
           else rho_loop fuel' (shl x 1) max_bits (u8 (count + 1))
      else Some count
  end.

Definition rho (x max_bits : Z) : option Z := rho_loop 256 x max_bits 1.

Definition hash_of (value : string) : Z := Murmur.hash_string value 0xadc83b19.

Definition index_of (s : HyperLogLog) (value : string) : Z :=
  shr (hash_of value) (64 - precision_ s).

Definition rank_of (s : HyperLogLog) (value : string) : option Z :=
  let remaining := shl (hash_of value) (precision_ s) in
  rho remaining (u8 (64 - precision_ s)).

Definition add (s : HyperLogLog) (value : string) : option HyperLogLog :=
  let index := index_of s value in
  match rank_of s value with
  | None => None
  | Some rank =>
      match at_index (registers_ s) index with
      | None => None
      | Some r =>
          Some {| precision_ := precision_ s;
                  register_count_ := register_count_ s;
                  registers_ := <[Z.to_nat index := Z.max r rank]> (registers_ s) |}
      end
  end.

(** The loop of [merge] over [i = 0 .. register_count_ - 1]. *)
Fixpoint merge_loop (n : nat) (i : Z) (mine theirs : list Z) : option (list Z) :=
  match n with
  | O => Some mine
  | S n' =>
      match at_index mine i, at_index theirs i with
      | Some a, Some b => merge_loop n' (i + 1) (<[Z.to_nat i := Z.max a b]> mine) theirs
      | _, _ => None
      end
  end.

Definition merge (s other : HyperLogLog) : result (option HyperLogLog) :=
  if negb (precision_ other =? precision_ s)
  then Throw "Cannot merge HyperLogLog with different precision"
  else Ok (match merge_loop (Z.to_nat (register_count_ s)) 0
                   (registers_ s) (registers_ other) with
           | None => None
           | Some regs => Some {| precision_ := precision_ s;
                                  register_count_ := register_count_ s;
                                  registers_ := regs |}
           end).

(** The decimal constants are read as the nearest binary64, as a C++
    compiler reads them. *)
#[local] Set Warnings "-inexact-float".

Definition alpha (m : Z) : float :=
  if m =? 16 then 0.673%float
  else if m =? 32 then 0.697%float
  else if m =? 64 then 0.709%float
  else (0.7213 / (1.0 + 1.079 / double_of_Z m))%float.

Definition two_pow_32 : float := double_of_Z (2 ^ 32).

Definition cardinality (lm : libm) (s : HyperLogLog) : option Z :=
  let m := double_of_Z (register_count_ s) in
  let alpha_m := alpha (register_count_ s) in
  let sum :=
    fold_left (fun acc reg => (acc + pow lm 2.0 (double_of_Z (- reg)))%float)
              (registers_ s) 0.0%float in
  let estimate := (alpha_m * m * m / sum)%float in
  let zeros := Z.of_nat (length (filter (fun reg => reg = 0) (registers_ s))) in
  let estimate :=
    if (estimate <=? 5.0 * m)%float
    then if negb (zeros =? 0)
         then (m * log lm (m / double_of_Z zeros))%float
         else estimate
    else if (two_pow_32 / 30.0 <? estimate)%float
         then (- two_pow_32 * log lm (1.0 - estimate / two_pow_32))%float
         else estimate in
  let estimate := if (estimate <? 0.0)%float then 0.0%float else estimate in
  u64_of_double (estimate + 0.5)%float.

(** A run of [add] calls. *)
Fixpoint adds (values : list string) (s : HyperLogLog) : option HyperLogLog :=
  match values with
  | [] => Some s
  | v :: values' =>
      match add s v with
      | None => None
      | Some s' => adds values' s'
      end
  end.

(** The states of precision [p] a program can build: a fresh bank, an [add],
    a [merge] of two such states. *)
Inductive reachable (p : Z) : HyperLogLog -> Prop :=
| reachable_new s : new p = Ok s -> reachable p s
| reachable_add s v s' : reachable p s -> add s v = Some s' -> reachable p s'
| reachable_merge s o s' :
    reachable p s -> reachable p o -> merge s o = Ok (Some s') -> reachable p s'.

End HLL.

(** *** Properties of the register bank *)

Module HLLFacts.
Import HLL CMSFacts.

Lemma top_bit_test x : (Z.land x (shl 1 (64 - 1)) =? 0) = negb (Z.testbit x 63).
Proof.
  change (shl 1 (64 - 1)) with (2 ^ 63).
  destruct (Z.testbit x 63) eqn:Hb; cbn [negb].
  - apply Z.eqb_neq. intros E.
    assert (Ht : Z.testbit (Z.land x (2 ^ 63)) 63 = true).
    { rewrite Z.land_spec, Hb, Z.pow2_bits_true by lia. reflexivity. }
    rewrite E, Z.bits_0 in Ht. discriminate.
  - apply Z.eqb_eq, Z.bits_inj'. intros n Hn.
    rewrite Z.land_spec, Z.bits_0, Z.pow2_bits_eqb by lia.
    destruct (Z.eqb_spec 63 n) as [<-|_]; [rewrite Hb; reflexivity|apply andb_false_r].
Qed.

Lemma shl_one_testbit x m : 0 <= m < 64 -> Z.testbit (shl x 1) m = Z.testbit x (m - 1).
Proof.
  intros Hm. unfold shl, u64, modulus.
  rewrite Z.mod_pow2_bits_low by lia. apply Z.shiftl_spec. lia.
Qed.

(** [rho] stops at the first set bit from the top, or after [max_bits]
    clear bits. *)
Lemma rho_loop_spec max_bits : forall fuel x count,
  max_bits <= 254 -> 1 <= count <= max_bits + 1 ->
  (Z.to_nat (max_bits + 1 - count) < fuel)%nat ->
  exists r,
    rho_loop fuel x max_bits count = Some r
    /\ count <= r <= max_bits + 1
    /\ (forall j, 0 <= j < r - count -> Z.testbit x (63 - j) = false)
    /\ (r <= max_bits -> Z.testbit x (63 - (r - count)) = true).
Proof.
  induction fuel as [|fuel IH]; intros x count Hmb Hc Hfuel; [lia|].
  cbn [rho_loop]. destruct (Z.leb_spec count max_bits) as [Hle|Hgt].
  - rewrite top_bit_test, negb_involutive.
    destruct (Z.testbit x 63) eqn:Hb.
    + exists count. split; [reflexivity|]. split; [lia|]. split; [intros; lia|].
      intros _. replace (63 - (count - count)) with 63 by lia. exact Hb.
    + assert (Hu : u8 (count + 1) = count + 1) by (unfold u8; apply Z.mod_small; lia).
      rewrite Hu.
      destruct (IH (shl x 1) (count + 1)) as (r & Hr & Hrange & Hzero & Hone); try lia.
      exists r. split; [exact Hr|]. split; [lia|]. split.
      * intros j Hj. destruct (Z.eq_dec j 0) as [->|Hj0]; [exact Hb|].
        destruct (Z_lt_le_dec 63 j) as [Hbig|Hsmall].
        { apply Z.testbit_neg_r. lia. }
        specialize (Hzero (j - 1) ltac:(lia)).
        rewrite shl_one_testbit in Hzero by lia.
        replace (63 - (j - 1) - 1) with (63 - j) in Hzero by lia. exact Hzero.
      * intros Hrm. specialize (Hone Hrm).
        destruct (Z_lt_le_dec 64 (r - count)) as [Hbig|Hsmall].
        { rewrite Z.testbit_neg_r in Hone by lia. discriminate. }
        rewrite shl_one_testbit in Hone by lia.
        replace (63 - (r - (count + 1)) - 1) with (63 - (r - count)) in Hone by lia.
        exact Hone.
  - exists count. split; [reflexivity|]. split; [lia|]. split; intros; lia.
Qed.

Lemma rho_spec x max_bits :
  0 <= max_bits <= 254 ->
  exists r,
    rho x max_bits = Some r
    /\ 1 <= r <= max_bits + 1
    /\ (forall j, 0 <= j < r - 1 -> Z.testbit x (63 - j) = false)
    /\ (r <= max_bits -> Z.testbit x (64 - r) = true).
Proof.
  intros Hmb. unfold rho.
  destruct (rho_loop_spec max_bits 256 x 1) as (r & Hr & Hrange & Hzero & Hone); try lia.
  exists r. split; [exact Hr|]. split; [lia|]. split; [exact Hzero|].
  intros Hrm. specialize (Hone Hrm).
  replace (63 - (r - 1)) with (64 - r) in Hone by lia. exact Hone.
Qed.

(** The shape of a bank of precision [p]. *)
Record shaped (p : Z) (s : HyperLogLog) : Prop := {
  shaped_precision : precision_ s = p;
  shaped_count : register_count_ s = 2 ^ p;
  shaped_length : Z.of_nat (length (registers_ s)) = 2 ^ p
}.

Lemma shl_one_pow p : 0 <= p < 64 -> shl 1 p = 2 ^ p.
Proof.
  intros Hp. unfold shl. rewrite Z.shiftl_1_l. apply u64_small.
  unfold modulus. split; [apply Z.pow_nonneg; lia|apply Z.pow_lt_mono_r; lia].
Qed.

Lemma hll_new_shaped p :
  4 <= p <= 18 ->
  exists s, new p = Ok s /\ shaped p s /\ registers_ s = replicate (Z.to_nat (2 ^ p)) 0.
Proof.
  intros Hp. unfold new.
  destruct (Z.ltb_spec p 4); [lia|]. destruct (Z.ltb_spec 18 p); [lia|]. cbn [orb].
  eexists. split; [reflexivity|]. rewrite shl_one_pow by lia.
  split; [|reflexivity]. constructor; cbn; try reflexivity.
  rewrite length_replicate, Z2Nat.id; [reflexivity|]. apply Z.pow_nonneg. lia.
Qed.

Lemma hash_of_range v : 0 <= hash_of v < modulus.
Proof.
  unfold hash_of, Murmur.hash_string, Murmur.murmurhash3_64.
  destruct (Murmur.body _ _ _ _) as [[h1 h2] tl]. apply u64_range.
Qed.

Lemma index_of_range p s v :
  4 <= p <= 18 -> shaped p s -> 0 <= index_of s v < Z.of_nat (length (registers_ s)).
Proof.
  intros Hp [Hprec Hcount Hlen]. unfold index_of, shr. rewrite Hprec, Hlen.
  pose proof (hash_of_range v) as Hh. unfold modulus in Hh.
  rewrite Z.shiftr_div_pow2 by lia. split.
  - apply Z.div_pos; [lia|]. apply Z.pow_pos_nonneg; lia.
  - apply Z.div_lt_upper_bound; [apply Z.pow_pos_nonneg; lia|].
    rewrite <- Z.pow_add_r by lia. replace (64 - p + p) with 64 by lia. lia.
Qed.

Lemma rank_of_spec p s v :
  4 <= p <= 18 -> precision_ s = p ->
  exists rank,
    rank_of s v = Some rank
    /\ 1 <= rank <= 64 - p + 1
    /\ (forall j, 0 <= j < rank - 1 ->
          Z.testbit (shl (hash_of v) p) (63 - j) = false)
    /\ (rank <= 64 - p -> Z.testbit (shl (hash_of v) p) (64 - rank) = true).
Proof.
  intros Hp Hprec. unfold rank_of. rewrite Hprec.
  assert (Hu : u8 (64 - p) = 64 - p) by (unfold u8; apply Z.mod_small; lia).
  rewrite Hu. apply rho_spec. lia.
Qed.

Lemma add_spec p s v :
  4 <= p <= 18 -> shaped p s ->
  exists rank r,
    rank_of s v = Some rank
    /\ registers_ s !! Z.to_nat (index_of s v) = Some r
    /\ add s v = Some {| precision_ := precision_ s;
                         register_count_ := register_count_ s;
                         registers_ := <[Z.to_nat (index_of s v) := Z.max r rank]>
                                         (registers_ s) |}.
Proof.
  intros Hp Hs. destruct (rank_of_spec p s v Hp (shaped_precision _ _ Hs))
    as (rank & Hrank & _).
  pose proof (index_of_range p s v Hp Hs) as Hidx.
  destruct (lookup_lt_is_Some_2 (registers_ s) (Z.to_nat (index_of s v))) as [r Hr]; [lia|].
  exists rank, r. split; [exact Hrank|]. split; [exact Hr|].
  unfold add. rewrite Hrank, at_index_lookup, Hr by lia. reflexivity.
Qed.

Lemma add_shaped p s v s' :
  4 <= p <= 18 -> shaped p s -> add s v = Some s' -> shaped p s'.
Proof.
  intros Hp Hs Hadd. destruct (add_spec p s v Hp Hs) as (rank & r & _ & _ & E).
  rewrite E in Hadd. injection Hadd as <-. destruct Hs as [H1 H2 H3].
  constructor; cbn; auto. rewrite length_insert. exact H3.
Qed.

Lemma merge_loop_spec B theirs n : forall i mine regs,
  Forall (fun r => 0 <= r <= B) mine -> Forall (fun r => 0 <= r <= B) theirs ->
  merge_loop n i mine theirs = Some regs ->
  Forall (fun r => 0 <= r <= B) regs /\ length regs = length mine.
Proof.
  induction n as [|n IH]; intros i mine regs Hm Ht; cbn [merge_loop].
  - intros [= <-]. auto.
  - unfold at_index at 1 2.
    destruct ((0 <=? i) && (i <? Z.of_nat (length mine))); [|discriminate].
    destruct (mine !! Z.to_nat i) as [a|] eqn:Ea; [|discriminate].
    destruct ((0 <=? i) && (i <? Z.of_nat (length theirs))); [|discriminate].
    destruct (theirs !! Z.to_nat i) as [b|] eqn:Eb; [|discriminate].
    intros Hrun. apply IH in Hrun; auto.
    + rewrite length_insert in Hrun. exact Hrun.
    + apply Forall_insert; [exact Hm|].
      pose proof (Forall_lookup_1 _ _ _ _ Hm Ea) as Ha.
      pose proof (Forall_lookup_1 _ _ _ _ Ht Eb) as Hb. cbn in Ha, Hb. lia.
Qed.

(** Every state a program can build is shaped and keeps its registers
    within [0, 64 - p + 1]. *)
Lemma reachable_bounded p s :
  4 <= p <= 18 -> reachable p s ->
  shaped p s /\ Forall (fun r => 0 <= r <= 64 - p + 1) (registers_ s).
Proof.
  intros Hp Hreach. induction Hreach as [s Hnew|s v s' _ [Hs Hb] Hadd
                                        |s o s' _ [Hs Hb] _ [Ho Hbo] Hm].
  - destruct (hll_new_shaped p Hp) as (s0 & Hnew0 & Hs0 & Hregs).
    rewrite Hnew in Hnew0. injection Hnew0 as ->. split; [exact Hs0|].
    rewrite Hregs. apply Forall_replicate. lia.
  - split; [eapply add_shaped; eauto|].
    destruct (add_spec p s v Hp Hs) as (rank & r & Hrank & Hr & E).
    rewrite E in Hadd. injection Hadd as <-. cbn [registers_].
    destruct (rank_of_spec p s v Hp (shaped_precision _ _ Hs)) as (rank' & Hrank' & Hrg & _).
    rewrite Hrank in Hrank'. injection Hrank' as <-.
    apply Forall_insert; [exact Hb|].
    pose proof (Forall_lookup_1 _ _ _ _ Hb Hr) as Hr'. cbn in Hr'. lia.
  - unfold merge in Hm. destruct (negb _); [discriminate|].
    destruct (merge_loop _ _ _ _) as [regs|] eqn:E; [|discriminate].
    injection Hm as <-. destruct (merge_loop_spec _ _ _ _ _ _ Hb Hbo E) as [Hall Hlen].
    destruct Hs as [H1 H2 H3]. split; [|exact Hall].
    constructor; cbn; auto. rewrite Hlen. exact H3.
Qed.

End HLLFacts.

(** C4. Register cap. For a precision [p] in [4, 18], [add v] computes a
    rank that is one plus the number of leading zeros of the remaining
    [64 - p] hash bits; it is at most [64 - p + 1], the value taken when all
    of those bits are zero; and every register of every reachable state is
    at most [64 - p + 1]. *)
Theorem hll_register_cap p s :
  4 <= p <= 18 -> HLL.reachable p s ->
  Forall (fun r => 0 <= r <= 64 - p + 1) (HLL.registers_ s)
  /\ forall v, exists rank r,
       HLL.rank_of s v = Some rank
       /\ 1 <= rank <= 64 - p + 1
       /\ (forall j, 0 <= j < rank - 1 ->
             Z.testbit (shl (HLL.hash_of v) p) (63 - j) = false)
       /\ (rank <= 64 - p -> Z.testbit (shl (HLL.hash_of v) p) (64 - rank) = true)
       /\ HLL.registers_ s !! Z.to_nat (HLL.index_of s v) = Some r
       /\ HLL.add s v
          = Some {| HLL.precision_ := HLL.precision_ s;
                    HLL.register_count_ := HLL.register_count_ s;
                    HLL.registers_ :=
                      <[Z.to_nat (HLL.index_of s v) := Z.max r rank]> (HLL.registers_ s) |}.
Proof.
  intros Hp Hreach.
  destruct (HLLFacts.reachable_bounded p s Hp Hreach) as [Hs Hb].
  split; [exact Hb|]. intros v.
  destruct (HLLFacts.rank_of_spec p s v Hp (HLLFacts.shaped_precision _ _ Hs))
    as (rank & Hrank & Hrange & Hzero & Hone).
  destruct (HLLFacts.add_spec p s v Hp Hs) as (rank' & r & Hrank' & Hr & Hadd).
  rewrite Hrank in Hrank'. injection Hrank' as <-.
  exists rank, r. repeat (split; [assumption|]). exact Hadd.
Qed.

Lemma hll_register_cap_witness :
  exists s0, HLL.new 14 = Ok s0
  /\ Forall (fun r => 0 <= r <= 64 - 14 + 1) (HLL.registers_ s0)
  /\ exists rank, HLL.rank_of s0 "user-0" = Some rank /\ 1 <= rank <= 64 - 14 + 1.
Proof.
  destruct (HLLFacts.hll_new_shaped 14 ltac:(lia)) as (s0 & Hnew & _).
  exists s0. split; [exact Hnew|].
  destruct (hll_register_cap 14 s0 ltac:(lia) (HLL.reachable_new 14 s0 Hnew)) as [Hb Hv].
  split; [exact Hb|].
  destruct (Hv "user-0"%string) as (rank & r & Hrank & Hrange & _).
  exists rank. split; [exact Hrank|exact Hrange].
Defined.

(** A value whose hash is zero under the seed of [add]. *)
Definition zero_hash_value : string :=
  string_of_bytes
    [171; 89; 78; 208; 55; 128; 230; 161; 169; 38; 198; 248; 156; 21; 4; 89].

(** C4, as stated, fails on a value whose remaining hash bits are all zero:
    at precision 4 the register receives 61, above 64 - 4. *)
Lemma hll_rank_exceeds_64_minus_p :
  exists s0 s,
    HLL.new 4 = Ok s0
    /\ HLL.hash_of zero_hash_value = 0
    /\ HLL.rank_of s0 zero_hash_value = Some 61
    /\ HLL.add s0 zero_hash_value = Some s
    /\ HLL.registers_ s !! 0%nat = Some 61
    /\ ~ (61 <= 64 - 4).
Proof.
  eexists. eexists. split; [reflexivity|].
  split; [vm_compute; reflexivity|]. split; [vm_compute; reflexivity|].
  split; [vm_compute; reflexivity|]. split; [reflexivity|]. lia.
Qed.

(** *** [add] as a set operation *)

Section FoldSet.
(** A partial step [f] that is idempotent and commutes with itself folds a
    list to a result that depends on the set of its elements only. *)
Context {S V : Type} `{EqDecision V} (f : S -> V -> option S).

Fixpoint fold_opt (l : list V) (s : S) : option S :=
  match l with
  | [] => Some s
  | v :: l' =>
      match f s v with
      | None => None
      | Some s' => fold_opt l' s'
      end
  end.

Hypothesis f_idem : forall s v s', f s v = Some s' -> f s' v = Some s'.
Hypothesis f_comm : forall s a b,
  match f s a with Some s1 => f s1 b | None => None end
  = match f s b with Some s1 => f s1 a | None => None end.

Lemma fold_opt_perm l1 l2 : l1 ≡ₚ l2 -> forall s, fold_opt l1 s = fold_opt l2 s.
Proof.
  induction 1 as [|x l1 l2 _ IH|x y l|l1 l2 l3 _ IH1 _ IH2]; intros s; cbn.
  - reflexivity.
  - destruct (f s x); [apply IH|reflexivity].
  - pose proof (f_comm s y x) as Hc.
    destruct (f s y) as [s1|], (f s x) as [s2|]; cbn in *.
    + destruct (f s1 x), (f s2 y); congruence.
    + rewrite Hc. reflexivity.
    + rewrite <- Hc. reflexivity.
    + reflexivity.
  - rewrite IH1. apply IH2.
Qed.

Lemma fold_opt_dup v l s : v ∈ l -> fold_opt (v :: l) s = fold_opt l s.
Proof.
  intros Hin. apply elem_of_Permutation in Hin as [l' Hl'].
  rewrite (fold_opt_perm (v :: l) (v :: v :: l')) by (rewrite Hl'; reflexivity).
  rewrite (fold_opt_perm l (v :: l') Hl'). cbn.
  destruct (f s v) as [s1|] eqn:E; [|reflexivity].
  rewrite (f_idem _ _ _ E). reflexivity.
Qed.

Lemma fold_opt_remove_dups l : forall s, fold_opt (remove_dups l) s = fold_opt l s.
Proof.
  induction l as [|v l IH]; intros s; [reflexivity|]. cbn [remove_dups].
  destruct (decide_rel elem_of v l) as [Hin|Hnin].
  - rewrite IH. symmetry. apply fold_opt_dup. exact Hin.
  - cbn. destruct (f s v); [apply IH|reflexivity].
Qed.

Lemma fold_opt_same_set l1 l2 s :
  (forall v, v ∈ l1 <-> v ∈ l2) -> fold_opt l1 s = fold_opt l2 s.
Proof.
  intros Hset. rewrite <- (fold_opt_remove_dups l1), <- (fold_opt_remove_dups l2).
  apply fold_opt_perm. apply NoDup_Permutation; try apply NoDup_remove_dups.
  intros v. rewrite !elem_of_remove_dups. apply Hset.
Qed.

End FoldSet.

Module HLLSet.
Import HLL.

Lemma adds_fold l s : adds l s = fold_opt add l s.
Proof. revert s. induction l as [|v l IH]; intros s; cbn; [reflexivity|].
  destruct (add s v); [apply IH|reflexivity]. Qed.

Lemma at_index_Some {A : Type} (l : list A) i x :
  at_index l i = Some x -> 0 <= i /\ (Z.to_nat i < length l)%nat /\ l !! Z.to_nat i = Some x.
Proof.
  unfold at_index. destruct (Z.leb_spec 0 i); [|discriminate].
  destruct (Z.ltb_spec i (Z.of_nat (length l))); [|discriminate]. cbn.
  intros Hx. split; [assumption|]. split; [lia|exact Hx].
Qed.

Lemma at_index_insert_eq {A : Type} (l : list A) i x y :
  at_index l i = Some x -> at_index (<[Z.to_nat i := y]> l) i = Some y.
Proof.
  intros H. apply at_index_Some in H as (Hi & Hlt & _).
  rewrite at_index_lookup by exact Hi. apply list_lookup_insert_eq. exact Hlt.
Qed.

Lemma at_index_insert_ne {A : Type} (l : list A) i j y :
  0 <= i -> 0 <= j -> i <> j -> at_index (<[Z.to_nat i := y]> l) j = at_index l j.
Proof.
  intros Hi Hj Hne. rewrite !at_index_lookup by exact Hj.
  apply list_lookup_insert_ne. lia.
Qed.

Lemma index_of_nonneg s v : 0 <= index_of s v.
Proof.
  unfold index_of, shr. apply Z.shiftr_nonneg. apply HLLFacts.hash_of_range.
Qed.

(** [registers_[index] = max(registers_[index], rank)] on given operands. *)
Definition bump (s : HyperLogLog) (index : Z) (rank : option Z) : option HyperLogLog :=
  match rank with
  | None => None
  | Some rank =>
      match at_index (registers_ s) index with
      | None => None
      | Some r =>
          Some {| precision_ := precision_ s;
                  register_count_ := register_count_ s;
                  registers_ := <[Z.to_nat index := Z.max r rank]> (registers_ s) |}
      end
  end.

Lemma add_bump s v : add s v = bump s (index_of s v) (rank_of s v).
Proof. unfold add, bump. destruct (rank_of s v); reflexivity. Qed.

Lemma bump_precision s i r s' : bump s i r = Some s' -> precision_ s' = precision_ s.
Proof.
  unfold bump. destruct r; [|discriminate].
  destruct (at_index _ _); [|discriminate]. intros [= <-]. reflexivity.
Qed.

Lemma operands_precision s s' v :
  precision_ s' = precision_ s ->
  index_of s' v = index_of s v /\ rank_of s' v = rank_of s v.
Proof. intros E. unfold index_of, rank_of. rewrite E. split; reflexivity. Qed.

Lemma bump_idempotent s i r s' : bump s i r = Some s' -> bump s' i r = Some s'.
Proof.
  unfold bump. destruct r as [rank|]; [|discriminate].
  destruct (at_index (registers_ s) i) as [x|] eqn:Hx; [|discriminate].
  intros [= <-]. cbn [precision_ registers_ register_count_].
  rewrite (at_index_insert_eq _ _ _ _ Hx), list_insert_insert_eq.
  do 3 f_equal. lia.
Qed.

Lemma bump_commute s ia ra ib rb :
  0 <= ia -> 0 <= ib ->
  match bump s ia ra with Some s1 => bump s1 ib rb | None => None end
  = match bump s ib rb with Some s1 => bump s1 ia ra | None => None end.
Proof.
  intros Hia Hib. unfold bump.
  destruct ra as [ra|], rb as [rb|];
    [|destruct (at_index (registers_ s) ia); reflexivity
     |destruct (at_index (registers_ s) ib); reflexivity|reflexivity].
  destruct (Z.eq_dec ia ib) as [E|E].
  - subst ib. destruct (at_index (registers_ s) ia) as [r|] eqn:Hr; [|reflexivity].
    cbn [precision_ registers_ register_count_].
    rewrite !(at_index_insert_eq _ _ _ _ Hr), !list_insert_insert_eq.
    do 3 f_equal. lia.
  - destruct (at_index (registers_ s) ia) as [xa|] eqn:Hxa;
      destruct (at_index (registers_ s) ib) as [xb|] eqn:Hxb;
      cbn [precision_ registers_ register_count_];
      rewrite ?at_index_insert_ne by auto; rewrite ?Hxa, ?Hxb; try reflexivity.
    do 2 f_equal. apply list_insert_insert_ne. lia.
Qed.

Lemma add_idempotent s v s' : add s v = Some s' -> add s' v = Some s'.
Proof.
  rewrite (add_bump s v), (add_bump s' v). intros H.
  destruct (operands_precision s s' v (bump_precision _ _ _ _ H)) as [-> ->].
  apply (bump_idempotent s). exact H.
Qed.

Lemma add_commute s a b :
  match add s a with Some s1 => add s1 b | None => None end
  = match add s b with Some s1 => add s1 a | None => None end.
Proof.
  pose proof (bump_commute s (index_of s a) (rank_of s a) (index_of s b) (rank_of s b)
                (index_of_nonneg s a) (index_of_nonneg s b)) as Hc.
  rewrite (add_bump s a), (add_bump s b).
  destruct (bump s (index_of s a) (rank_of s a)) as [s1|] eqn:E1;
    destruct (bump s (index_of s b) (rank_of s b)) as [s2|] eqn:E2;
    try rewrite (add_bump s1 b); try rewrite (add_bump s2 a).
  - destruct (operands_precision s s1 b (bump_precision _ _ _ _ E1)) as [-> ->].
    destruct (operands_precision s s2 a (bump_precision _ _ _ _ E2)) as [-> ->].
    exact Hc.
  - destruct (operands_precision s s1 b (bump_precision _ _ _ _ E1)) as [-> ->].
    exact Hc.
  - destruct (operands_precision s s2 a (bump_precision _ _ _ _ E2)) as [-> ->].
    exact Hc.
  - reflexivity.
Qed.

(** On a well-formed bank [add] returns, with a well-formed bank, and so
    does every run of adds. *)
Lemma add_returns p s v :
  4 <= p <= 18 -> HLLFacts.shaped p s ->
  exists s', add s v = Some s' /\ HLLFacts.shaped p s'.
Proof.
  intros Hp Hs. destruct (HLLFacts.add_spec p s v Hp Hs) as (rank & r & _ & _ & E).
  eexists. split; [exact E|]. apply (HLLFacts.add_shaped p s v _ Hp Hs E).
Qed.

Lemma adds_return p l : forall s,
  4 <= p <= 18 -> HLLFacts.shaped p s -> exists bank, adds l s = Some bank.
Proof.
  induction l as [|v l IH]; intros s Hp Hs; cbn [adds]; [eauto|].
  destruct (add_returns p s v Hp Hs) as (s' & -> & Hs'). apply (IH s' Hp Hs').
Qed.

End HLLSet.

(** C10. [add] has set semantics. On every state a program can build,
    for every precision the constructor accepts: [add] returns, and adding
    the same value again returns the same bank; two adds return, and in
    either order they return the same bank; and after two lists of values
    with the same elements both runs of [add] return one and the same bank,
    so that [cardinality] after either run is [cardinality] of that bank. *)
Theorem hll_add_set_semantics (lm : libm) p s l1 l2 :
  4 <= p <= 18 ->
  HLL.reachable p s ->
  (forall v, v ∈ l1 <-> v ∈ l2) ->
  (forall v, exists s', HLL.add s v = Some s' /\ HLL.add s' v = Some s')
  /\ (forall a b, exists sa sb sab,
        HLL.add s a = Some sa /\ HLL.add s b = Some sb
        /\ HLL.add sa b = Some sab /\ HLL.add sb a = Some sab)
  /\ exists bank,
       HLL.adds l1 s = Some bank
       /\ HLL.adds l2 s = Some bank
       /\ (HLL.adds l1 s ≫= HLL.cardinality lm) = HLL.cardinality lm bank
       /\ (HLL.adds l2 s ≫= HLL.cardinality lm) = HLL.cardinality lm bank.
Proof.
  intros Hp Hreach Hset.
  destruct (HLLFacts.reachable_bounded p s Hp Hreach) as [Hs _].
  split.
  { intros v. destruct (HLLFacts.add_spec p s v Hp Hs) as (rank & r & _ & _ & E).
    eexists. split; [exact E|]. apply (HLLSet.add_idempotent s v), E. }
  split.
  { intros a b.
    destruct (HLLSet.add_returns p s a Hp Hs) as (sa & Ea & Hsa).
    destruct (HLLSet.add_returns p s b Hp Hs) as (sb & Eb & Hsb).
    destruct (HLLSet.add_returns p sa b Hp Hsa) as (sab & Eab & _).
    exists sa, sb, sab. split; [exact Ea|]. split; [exact Eb|]. split; [exact Eab|].
    pose proof (HLLSet.add_commute s a b) as Hc. rewrite Ea, Eb, Eab in Hc.
    symmetry. exact Hc. }
  destruct (HLLSet.adds_return p l1 s Hp Hs) as (bank & E1).
  assert (E : HLL.adds l1 s = HLL.adds l2 s).
  { rewrite !HLLSet.adds_fold.
    apply fold_opt_same_set;
      [apply HLLSet.add_idempotent | apply HLLSet.add_commute | exact Hset]. }
  exists bank. split; [exact E1|]. split; [rewrite <- E; exact E1|].
  rewrite <- E, E1. split; reflexivity.
Qed.

Lemma hll_add_set_semantics_witness :
  exists s0,
    HLL.new 4 = Ok s0
    /\ 4 <= 4 <= 18
    /\ HLL.reachable 4 s0
    /\ (forall v, v ∈ ["alice"; "bob"; "alice"]%string <-> v ∈ ["bob"; "alice"]%string)
    /\ exists bank,
         HLL.adds ["alice"; "bob"; "alice"]%string s0 = Some bank
         /\ HLL.adds ["bob"; "alice"]%string s0 = Some bank.
Proof.
  destruct (HLLFacts.hll_new_shaped 4 ltac:(lia)) as (s0 & Hnew & _).
  assert (Hset : forall v : string,
             v ∈ ["alice"; "bob"; "alice"]%string <-> v ∈ ["bob"; "alice"]%string)
    by (intros v; rewrite !elem_of_cons, elem_of_nil; tauto).
  exists s0. split; [exact Hnew|]. split; [lia|].
  split; [apply HLL.reachable_new, Hnew|]. split; [exact Hset|].
  destruct (hll_add_set_semantics (Libm (fun x _ => x) (fun x => x)) 4 s0
              ["alice"; "bob"; "alice"]%string ["bob"; "alice"]%string
              ltac:(lia) (HLL.reachable_new 4 s0 Hnew) Hset)
    as (_ & _ & bank & E1 & E2 & _).
  exists bank. split; [exact E1|exact E2].
Defined.

(** ** The bounded ring in single-threaded use ([ring_buffer.hpp]) *)

Module Ring.

Section Ring.
Context {T : Type}.

Record Cell : Type := mkCell {
  sequence : Z;
  storage : option T
}.

(** The runtime-sized specialisation [LockFreeRingBuffer<T, 0>]. *)
Record LockFreeRingBuffer : Type := mk {
  size_ : Z;
  mask_ : Z;
  buffer_ : list Cell;
  enqueue_pos_ : Z;
  dequeue_pos_ : Z
}.

(** [for (i = 1; i < 64; i <<= 1) value |= value >> i] *)
Fixpoint smear (fuel : nat) (i value : Z) : Z :=
  match fuel with
  | O => value
  | S fuel' =>
      if i <? 64 then smear fuel' (shl i 1) (Z.lor value (shr value i)) else value
  end.

Definition round_up_to_power_of_two (value : Z) : Z :=
  if value <=? 1 then 1 else u64 (smear 64 1 (value - 1) + 1).

Definition new (size : Z) : LockFreeRingBuffer :=
  let size_ := round_up_to_power_of_two (if size =? 0 then 1 else size) in
  {| size_ := size_;
     mask_ := u64 (size_ - 1);
     buffer_ := (fun i => {| sequence := i; storage := None |}) <$> seqZ 0 size_;
     enqueue_pos_ := 0;
     dequeue_pos_ := 0 |}.

(** What the ticket loop of [emplace] / [pop] ends with. *)
Inductive ticket : Type :=
| Acquired (pos : Z)
| Refused.

(** The loop of [emplace]. With one thread the compare-exchange succeeds,
    and a reload of [enqueue_pos_] reads the value the loop started from.
    [diff] is the difference of the two words read as [intptr_t]. *)
Fixpoint emplace_loop (fuel : nat) (q : LockFreeRingBuffer) (pos : Z) : option ticket :=
  match fuel with
  | O => None
  | S fuel' =>
      match at_index (buffer_ q) (Z.land pos (mask_ q)) with
      | None => None
      | Some cell =>
          let diff := to_signed (sequence cell - pos) in
          if diff =? 0 then Some (Acquired pos)
          else if diff <? 0 then Some Refused
          else emplace_loop fuel' q (enqueue_pos_ q)
      end
  end.

Definition emplace (fuel : nat) (q : LockFreeRingBuffer) (value : T)
    : option (bool * LockFreeRingBuffer) :=
  match emplace_loop fuel q (enqueue_pos_ q) with
  | None => None
  | Some Refused => Some (false, q)
  | Some (Acquired pos) =>
      Some (true,
            {| size_ := size_ q;
               mask_ := mask_ q;
               buffer_ := <[Z.to_nat (Z.land pos (mask_ q)) :=
                              {| sequence := u64 (pos + 1); storage := Some value |}]>
                            (buffer_ q);
               enqueue_pos_ := u64 (pos + 1);
               dequeue_pos_ := dequeue_pos_ q |})
  end.

Definition push := emplace.

Fixpoint pop_loop (fuel : nat) (q : LockFreeRingBuffer) (pos : Z) : option ticket :=
  match fuel with
  | O => None
  | S fuel' =>
      match at_index (buffer_ q) (Z.land pos (mask_ q)) with
      | None => None
      | Some cell =>
          let diff := to_signed (sequence cell - u64 (pos + 1)) in
          if diff =? 0 then Some (Acquired pos)
          else if diff <? 0 then Some Refused
          else pop_loop fuel' q (dequeue_pos_ q)
      end
  end.

(** [pop]: the flag returned, the value moved out (when the flag is set),
    and the ring afterwards. *)
Definition pop (fuel : nat) (q : LockFreeRingBuffer)
    : option (bool * option T * LockFreeRingBuffer) :=
  match pop_loop fuel q (dequeue_pos_ q) with
  | None => None
  | Some Refused => Some (false, None, q)
  | Some (Acquired pos) =>
      match at_index (buffer_ q) (Z.land pos (mask_ q)) with
      | Some {| sequence := _; storage := Some v |} =>
          Some (true, Some v,
                {| size_ := size_ q;
                   mask_ := mask_ q;
                   buffer_ := <[Z.to_nat (Z.land pos (mask_ q)) :=
                                  {| sequence := u64 (pos + size_ q); storage := None |}]>
                                (buffer_ q);
                   enqueue_pos_ := enqueue_pos_ q;
                   dequeue_pos_ := u64 (pos + 1) |})
      | _ => None
      end
  end.

Definition capacity (q : LockFreeRingBuffer) : Z := size_ q.

Definition empty (q : LockFreeRingBuffer) : bool :=
  enqueue_pos_ q =? dequeue_pos_ q.

(** A script of calls, with the flags and values it observes. *)
Inductive call : Type :=
| Push (value : T)
| Pop.

Inductive observed : Type :=
| Pushed (ok : bool)
| Popped (ok : bool) (value : option T).

Fixpoint run (fuel : nat) (script : list call) (q : LockFreeRingBuffer)
    : option (list observed * LockFreeRingBuffer) :=
  match script with
  | [] => Some ([], q)
  | Push v :: script' =>
      match push fuel q v with
      | None => None
      | Some (ok, q') =>
          match run fuel script' q' with
          | None => None
          | Some (obs, q'') => Some (Pushed ok :: obs, q'')
          end
      end
  | Pop :: script' =>
      match pop fuel q with
      | None => None
      | Some (ok, v, q') =>
          match run fuel script' q' with
          | None => None
          | Some (obs, q'') => Some (Popped ok v :: obs, q'')
          end
      end
  end.

End Ring.

Arguments Cell : clear implicits.
Arguments LockFreeRingBuffer : clear implicits.
Arguments call : clear implicits.
Arguments observed : clear implicits.

End Ring.

(** *** The ring at concrete capacities *)

Module RingFacts.
Import Ring.

Section Fuel.
Context {T : Type}.
Implicit Types q : LockFreeRingBuffer T.

(** A loop that returns with some fuel returns the same with more. *)
Lemma emplace_loop_mono q f : forall pos r f',
  emplace_loop f q pos = Some r -> (f <= f')%nat -> emplace_loop f' q pos = Some r.
Proof.
  induction f as [|f IH]; intros pos r f' Hrun Hle; [discriminate|].
  destruct f' as [|f']; [lia|]. cbn [emplace_loop] in *.
  destruct (at_index _ _) as [cell|]; [|discriminate].
  destruct (_ =? 0); [exact Hrun|]. destruct (_ <? 0); [exact Hrun|].
  apply IH; [exact Hrun|lia].
Qed.

Lemma pop_loop_mono q f : forall pos r f',
  pop_loop f q pos = Some r -> (f <= f')%nat -> pop_loop f' q pos = Some r.
Proof.
  induction f as [|f IH]; intros pos r f' Hrun Hle; [discriminate|].
  destruct f' as [|f']; [lia|]. cbn [pop_loop] in *.
  destruct (at_index _ _) as [cell|]; [|discriminate].
  destruct (_ =? 0); [exact Hrun|]. destruct (_ <? 0); [exact Hrun|].
  apply IH; [exact Hrun|lia].
Qed.

Lemma push_mono q f f' v r :
  push f q v = Some r -> (f <= f')%nat -> push f' q v = Some r.
Proof.
  unfold push, emplace. intros Hrun Hle.
  destruct (emplace_loop f q (enqueue_pos_ q)) as [t|] eqn:E; [|discriminate].
  rewrite (emplace_loop_mono _ _ _ _ _ E Hle). exact Hrun.
Qed.

Lemma pop_mono q f f' r :
  pop f q = Some r -> (f <= f')%nat -> pop f' q = Some r.
Proof.
  unfold pop. intros Hrun Hle.
  destruct (pop_loop f q (dequeue_pos_ q)) as [t|] eqn:E; [|discriminate].
  rewrite (pop_loop_mono _ _ _ _ _ E Hle). exact Hrun.
Qed.

Lemma run_mono f f' script : forall q r,
  run f script q = Some r -> (f <= f')%nat -> run f' script q = Some r.
Proof.
  induction script as [|[v|] script IH]; intros q r Hrun Hle; cbn [run] in *.
  - exact Hrun.
  - destruct (push f q v) as [[ok q']|] eqn:E; [|discriminate].
    rewrite (push_mono _ _ _ _ _ E Hle).
    destruct (run f script q') as [[obs q'']|] eqn:E'; [|discriminate].
    rewrite (IH _ _ E' Hle). exact Hrun.
  - destruct (pop f q) as [[[ok v] q']|] eqn:E; [|discriminate].
    rewrite (pop_mono _ _ _ _ E Hle).
    destruct (run f script q') as [[obs q'']|] eqn:E'; [|discriminate].
    rewrite (IH _ _ E' Hle). exact Hrun.
Qed.

End Fuel.
End RingFacts.

(** The S3 scenario: capacity 8, push 0..7, a ninth push, eight pops, a
    ninth pop. Every call returns within the first turn of its loop. *)
Lemma ring_capacity_8_scenario (fuel : nat) :
  exists q,
    Ring.run (S fuel)
      ([Ring.Push 0; Ring.Push 1; Ring.Push 2; Ring.Push 3;
        Ring.Push 4; Ring.Push 5; Ring.Push 6; Ring.Push 7; Ring.Push 42]
       ++ replicate 9 Ring.Pop)
      (Ring.new 8)
    = Some ([Ring.Pushed true; Ring.Pushed true; Ring.Pushed true; Ring.Pushed true;
             Ring.Pushed true; Ring.Pushed true; Ring.Pushed true; Ring.Pushed true;
             Ring.Pushed false;
             Ring.Popped true (Some 0); Ring.Popped true (Some 1);
             Ring.Popped true (Some 2); Ring.Popped true (Some 3);
             Ring.Popped true (Some 4); Ring.Popped true (Some 5);
             Ring.Popped true (Some 6); Ring.Popped true (Some 7);
             Ring.Popped false None], q)
    /\ Ring.capacity q = 8 /\ Ring.empty q = true.
Proof.
  eexists. split.
  - apply (RingFacts.run_mono 1); [vm_compute; reflexivity|lia].
  - split; reflexivity.
Qed.

(** The ring of capacity one after one push, and after two. *)
Definition ring_one_full : Ring.LockFreeRingBuffer Z :=
  {| Ring.size_ := 1; Ring.mask_ := 0;
     Ring.buffer_ := [ {| Ring.sequence := 1; Ring.storage := Some 10 |} ];
     Ring.enqueue_pos_ := 1; Ring.dequeue_pos_ := 0 |}.

Definition ring_one_overrun : Ring.LockFreeRingBuffer Z :=
  {| Ring.size_ := 1; Ring.mask_ := 0;
     Ring.buffer_ := [ {| Ring.sequence := 2; Ring.storage := Some 20 |} ];
     Ring.enqueue_pos_ := 2; Ring.dequeue_pos_ := 0 |}.

Lemma ring_one_pop_spins (fuel : nat) :
  Ring.pop_loop fuel ring_one_overrun 0 = None.
Proof.
  induction fuel as [|fuel IH]; [reflexivity|].
  cbn [Ring.pop_loop].
  replace (at_index (Ring.buffer_ ring_one_overrun) (Z.land 0 (Ring.mask_ ring_one_overrun)))
    with (Some {| Ring.sequence := 2; Ring.storage := Some 20 |})
    by (vm_compute; reflexivity).
  cbn [Ring.sequence].
  replace (to_signed (2 - u64 (0 + 1))) with 1 by (vm_compute; reflexivity).
  exact IH.
Qed.

(** C7. A ring of capacity one is not a bounded queue: a requested size of
    1 gives capacity 1, both of two pushes report success (the second
    overwrites the slot), and the following pop never returns: its loop
    finds [diff > 0] on every turn. *)
Theorem ring_capacity_one_overrun :
  Ring.capacity (@Ring.new Z 1) = 1
  /\ (forall fuel, Ring.push (S fuel) (Ring.new 1) 10 = Some (true, ring_one_full))
  /\ (forall fuel, Ring.push (S fuel) ring_one_full 20 = Some (true, ring_one_overrun))
  /\ (forall fuel, Ring.pop fuel ring_one_overrun = None).
Proof.
  split; [vm_compute; reflexivity|]. split; [|split].
  - intros fuel. apply (RingFacts.push_mono _ 1); [vm_compute; reflexivity|lia].
  - intros fuel. apply (RingFacts.push_mono _ 1); [vm_compute; reflexivity|lia].
  - intros fuel. unfold Ring.pop.
    change (Ring.dequeue_pos_ ring_one_overrun) with 0.
    rewrite ring_one_pop_spins. reflexivity.
Qed.

(** *** The ring as a bounded queue, at every capacity from 2 *)

Module RingFifo.
Import Ring.

Section Fifo.
Context {T : Type}.
Implicit Types q : LockFreeRingBuffer T.

(** The queue of the claim: a list that holds at most [cap] items. *)
Fixpoint fifo (cap : Z) (script : list (call T)) (items : list T) : list (observed T) :=
  match script with
  | [] => []
  | Push v :: script' =>
      if Z.of_nat (length items) <? cap
      then Pushed true :: fifo cap script' (items ++ [v])
      else Pushed false :: fifo cap script' items
  | Pop :: script' =>
      match items with
      | [] => Popped false None :: fifo cap script' []
      | x :: items' => Popped true (Some x) :: fifo cap script' items'
      end
  end.

(** The ring after [E] pushes and [D] pops that succeeded, holding
    [items]: the cell of position [p] holds the item and [p + 1] while the
    item waits, and [p] while the cell is free. *)
Record rep (k : Z) q (E D : Z) (items : list T) : Prop := {
  rep_size : size_ q = 2 ^ k;
  rep_mask : mask_ q = 2 ^ k - 1;
  rep_length : Z.of_nat (length (buffer_ q)) = 2 ^ k;
  rep_enqueue : enqueue_pos_ q = u64 E;
  rep_dequeue : dequeue_pos_ q = u64 D;
  rep_order : 0 <= D <= E;
  rep_items : Z.of_nat (length items) = E - D;
  rep_bound : E - D <= 2 ^ k;
  rep_taken : forall p x, D <= p < E -> items !! Z.to_nat (p - D) = Some x ->
    buffer_ q !! Z.to_nat (p mod 2 ^ k)
    = Some {| sequence := u64 (p + 1); storage := Some x |};
  rep_free : forall p, E <= p < D + 2 ^ k ->
    buffer_ q !! Z.to_nat (p mod 2 ^ k) = Some {| sequence := u64 p; storage := None |}
}.

Lemma pow2_pos k : 0 <= k -> 0 < 2 ^ k.
Proof. intros. apply Z.pow_pos_nonneg; lia. Qed.

Lemma pow2_le_63 k : 0 <= k <= 63 -> 2 ^ k <= 2 ^ 63.
Proof. intros. apply Z.pow_le_mono_r; lia. Qed.

(** The slot of a position. *)
Lemma slot_of k P : 0 <= k <= 63 -> 0 <= P -> Z.land (u64 P) (2 ^ k - 1) = P mod 2 ^ k.
Proof.
  intros Hk HP. replace (2 ^ k - 1) with (Z.ones k) by (rewrite Z.ones_equiv; lia).
  rewrite Z.land_ones by lia. unfold u64, modulus.
  pose proof (pow2_pos k ltac:(lia)).
  apply Z.mod_mod_divide.
  exists (2 ^ (64 - k)). rewrite <- Z.pow_add_r by lia. f_equal. lia.
Qed.

Lemma to_signed_diff a b :
  - 2 ^ 63 <= a - b < 2 ^ 63 -> to_signed (u64 a - u64 b) = a - b.
Proof.
  intros H. unfold to_signed, u64, modulus.
  rewrite <- Zminus_mod.
  destruct (Z.le_gt_cases 0 (a - b)).
  - rewrite Z.mod_small by lia. destruct (Z.ltb_spec (a - b) (2 ^ 63)); lia.
  - replace ((a - b) mod 2 ^ 64) with (a - b + 2 ^ 64).
    + destruct (Z.ltb_spec (a - b + 2 ^ 64) (2 ^ 63)); lia.
    + symmetry. rewrite <- (Z.mod_add _ 1) by lia. apply Z.mod_small. lia.
Qed.

(** Two positions of one window have different slots. *)
Lemma slots_differ k p p' :
  0 <= k -> 0 <= p - p' < 2 ^ k -> p mod 2 ^ k = p' mod 2 ^ k -> p = p'.
Proof.
  intros Hk Hd Hm. pose proof (pow2_pos k Hk).
  assert (E : (p - p') mod 2 ^ k = 0) by (rewrite Zminus_mod, Hm, Z.sub_diag; apply Z.mod_0_l; lia).
  rewrite Z.mod_small in E by lia. lia.
Qed.

Lemma slot_range k p : 0 <= k -> 0 <= p mod 2 ^ k < 2 ^ k.
Proof. intros. apply Z.mod_pos_bound, pow2_pos; lia. Qed.

Lemma push_rep k q E D items v fuel :
  1 <= k <= 63 -> rep k q E D items ->
  if Z.of_nat (length items) <? 2 ^ k
  then exists q', push (S fuel) q v = Some (true, q') /\ rep k q' (E + 1) D (items ++ [v])
  else push (S fuel) q v = Some (false, q).
Proof.
  intros Hk [Hsize Hmask Hlen He Hd Hord Hitems Hbound Htaken Hfree].
  pose proof (pow2_pos k ltac:(lia)) as Hpos. pose proof (pow2_le_63 k ltac:(lia)) as H63.
  pose proof (slot_range k E ltac:(lia)) as Hslot.
  unfold push, emplace. cbn [emplace_loop].
  rewrite He, Hmask, slot_of by lia. rewrite at_index_lookup by lia.
  destruct (Z.ltb_spec (Z.of_nat (length items)) (2 ^ k)) as [Hroom|Hfull].
  - rewrite (Hfree E ltac:(lia)). cbn [sequence].
    rewrite Z.sub_diag. change (to_signed 0 =? 0) with true. cbn match.
    assert (Hsucc : u64 (u64 E + 1) = u64 (E + 1))
      by (unfold u64, modulus; rewrite Zplus_mod_idemp_l; reflexivity).
    rewrite Hsucc, !slot_of by lia.
    eexists. split; [reflexivity|].
    constructor; cbn [size_ mask_ buffer_ enqueue_pos_ dequeue_pos_].
    + exact Hsize.
    + first [exact Hmask|reflexivity].
    + rewrite length_insert. exact Hlen.
    + reflexivity.
    + exact Hd.
    + lia.
    + rewrite length_app. cbn [length]. lia.
    + lia.
    + intros p x Hp Hx. destruct (decide (p = E)) as [->|Hne].
      * rewrite lookup_app_r in Hx by lia.
        replace (Z.to_nat (E - D) - length items)%nat with 0%nat in Hx by lia.
        injection Hx as <-. apply list_lookup_insert_eq. lia.
      * rewrite lookup_app_l in Hx by lia.
        rewrite list_lookup_insert_ne; [apply Htaken; [lia|exact Hx]|].
        intros Heq. apply Hne. symmetry. apply (slots_differ k E p); [lia|lia|].
        pose proof (slot_range k p ltac:(lia)). lia.
    + intros p Hp. rewrite list_lookup_insert_ne; [apply Hfree; lia|].
      intros Heq. assert (p = E); [|lia]. apply (slots_differ k p E); [lia|lia|].
      pose proof (slot_range k p ltac:(lia)). lia.
  - assert (HE : E = D + 2 ^ k) by lia.
    assert (H2 : 2 ^ 1 <= 2 ^ k) by (apply Z.pow_le_mono_r; lia).
    assert (Hm : E mod 2 ^ k = D mod 2 ^ k).
    { rewrite HE. rewrite <- (Z.mul_1_l (2 ^ k)) at 1. apply Z.mod_add. lia. }
    rewrite Hm. destruct items as [|x items']; [cbn in Hitems; lia|].
    rewrite (Htaken D x ltac:(lia)) by (rewrite Z.sub_diag; reflexivity).
    cbn [sequence]. rewrite to_signed_diff by lia.
    destruct (Z.eqb_spec (D + 1 - E) 0); [lia|].
    destruct (Z.ltb_spec (D + 1 - E) 0); [reflexivity|lia].
Qed.

Lemma pop_rep k q E D items fuel :
  1 <= k <= 63 -> rep k q E D items ->
  match items with
  | [] => pop (S fuel) q = Some (false, None, q)
  | x :: items' =>
      exists q', pop (S fuel) q = Some (true, Some x, q') /\ rep k q' E (D + 1) items'
  end.
Proof.
  intros Hk [Hsize Hmask Hlen He Hd Hord Hitems Hbound Htaken Hfree].
  pose proof (pow2_pos k ltac:(lia)) as Hpos. pose proof (pow2_le_63 k ltac:(lia)) as H63.
  pose proof (slot_range k D ltac:(lia)) as Hslot.
  unfold pop. cbn [pop_loop].
  rewrite Hd, Hmask, slot_of by lia. rewrite at_index_lookup by lia.
  destruct items as [|x items'].
  - cbn [length] in Hitems. rewrite (Hfree D ltac:(lia)). cbn [sequence].
    assert (Hsucc : u64 (u64 D + 1) = u64 (D + 1))
      by (unfold u64, modulus; rewrite Zplus_mod_idemp_l; reflexivity).
    rewrite Hsucc, to_signed_diff by lia.
    replace (D - (D + 1)) with (-1) by lia. reflexivity.
  - cbn [length] in Hitems.
    rewrite (Htaken D x ltac:(lia)) by (rewrite Z.sub_diag; reflexivity). cbn [sequence].
    assert (Hsucc : u64 (u64 D + 1) = u64 (D + 1))
      by (unfold u64, modulus; rewrite Zplus_mod_idemp_l; reflexivity).
    rewrite Hsucc, Z.sub_diag. change (to_signed 0 =? 0) with true. cbn match.
    rewrite at_index_lookup by (rewrite slot_of by lia; lia).
    rewrite !slot_of by lia.
    rewrite (Htaken D x ltac:(lia)) by (rewrite Z.sub_diag; reflexivity).
    eexists. split; [reflexivity|].
    constructor; cbn [size_ mask_ buffer_ enqueue_pos_ dequeue_pos_].
    + exact Hsize.
    + first [exact Hmask|reflexivity].
    + rewrite length_insert. exact Hlen.
    + exact He.
    + first [exact Hsucc|reflexivity].
    + lia.
    + lia.
    + lia.
    + intros p y Hp Hy. rewrite list_lookup_insert_ne.
      * apply Htaken; [lia|]. replace (Z.to_nat (p - D)) with (S (Z.to_nat (p - (D + 1)))) by lia.
        exact Hy.
      * intros Heq. assert (p = D); [|lia]. apply (slots_differ k p D); [lia|lia|].
        pose proof (slot_range k p ltac:(lia)). lia.
    + intros p Hp. destruct (decide (p = D + 2 ^ k)) as [->|Hne].
      * assert (Hm : (D + 2 ^ k) mod 2 ^ k = D mod 2 ^ k).
        { rewrite <- (Z.mul_1_l (2 ^ k)) at 1. apply Z.mod_add. lia. }
        rewrite Hm, list_lookup_insert_eq by lia. f_equal. f_equal.
        rewrite Hsize. unfold u64, modulus. rewrite Zplus_mod_idemp_l. reflexivity.
      * rewrite list_lookup_insert_ne; [apply Hfree; lia|].
        intros Heq. assert (p = D); [|lia]. apply (slots_differ k p D); [lia|lia|].
        pose proof (slot_range k p ltac:(lia)). lia.
Qed.

Lemma run_rep k script : forall q E D items fuel,
  1 <= k <= 63 -> rep k q E D items ->
  exists q', run (S fuel) script q = Some (fifo (2 ^ k) script items, q').
Proof.
  induction script as [|[v|] script IH]; intros q E D items fuel Hk Hrep; cbn [run fifo].
  - eauto.
  - pose proof (push_rep k q E D items v fuel Hk Hrep) as Hpush.
    destruct (Z.of_nat (length items) <? 2 ^ k).
    + destruct Hpush as (q1 & -> & Hrep1).
      destruct (IH q1 _ _ _ fuel Hk Hrep1) as (q' & ->). eauto.
    + rewrite Hpush. destruct (IH q _ _ _ fuel Hk Hrep) as (q' & ->). eauto.
  - pose proof (pop_rep k q E D items fuel Hk Hrep) as Hpop.
    destruct items as [|x items'].
    + rewrite Hpop. destruct (IH q _ _ _ fuel Hk Hrep) as (q' & ->). eauto.
    + destruct Hpop as (q1 & -> & Hrep1).
      destruct (IH q1 _ _ _ fuel Hk Hrep1) as (q' & ->). eauto.
Qed.

Lemma new_rep k size :
  0 <= k <= 63 -> size_ (@new T size) = 2 ^ k -> rep k (new size) 0 0 [].
Proof.
  intros Hk Hsize. pose proof (pow2_pos k ltac:(lia)) as Hpos.
  pose proof (pow2_le_63 k ltac:(lia)) as H63.
  unfold new in *. cbn [size_] in Hsize.
  set (n := round_up_to_power_of_two (if size =? 0 then 1 else size)) in *.
  constructor; cbn [size_ mask_ buffer_ enqueue_pos_ dequeue_pos_ length].
  - exact Hsize.
  - rewrite Hsize. unfold u64, modulus. apply Z.mod_small. lia.
  - rewrite length_fmap, length_seqZ, Hsize. lia.
  - reflexivity.
  - reflexivity.
  - lia.
  - reflexivity.
  - lia.
  - intros p x Hp. lia.
  - intros p Hp. rewrite Z.mod_small by lia.
    rewrite list_lookup_fmap, lookup_seqZ_lt by lia. cbn.
    rewrite Z2Nat.id by lia. unfold u64, modulus. rewrite Z.mod_small by lia. reflexivity.
Qed.

End Fifo.
End RingFifo.

Module RingCapacity.
Import Ring.

(** One turn of the loop of [round_up_to_power_of_two]. *)
Definition smear_step (i value : Z) : Z := Z.lor value (shr value i).

Lemma smear_steps value :
  smear 64 1 value
  = smear_step 32 (smear_step 16 (smear_step 8 (smear_step 4 (smear_step 2
      (smear_step 1 value))))).
Proof. reflexivity. Qed.

(** The bits from [n - r] to [n] are set, and none above [n]. *)
Definition smeared (n r value : Z) : Prop :=
  (forall b, n < b -> Z.testbit value b = false)
  /\ (forall b, 0 <= b -> n - r <= b <= n -> Z.testbit value b = true).

Lemma smear_step_smeared n r i value :
  0 <= n -> 0 <= r -> i = r + 1 ->
  smeared n r value -> smeared n (r + i) (smear_step i value).
Proof.
  intros Hn Hr -> [Hhigh Hset]. unfold smear_step, shr. split.
  - intros b Hb. rewrite Z.lor_spec, Z.shiftr_spec by lia.
    rewrite !Hhigh by lia. reflexivity.
  - intros b Hb0 Hb. rewrite Z.lor_spec, Z.shiftr_spec by lia.
    destruct (Z.le_gt_cases (n - r) b).
    + rewrite Hset by lia. reflexivity.
    + rewrite (Hset (b + (r + 1))) by lia. apply orb_true_r.
Qed.

(** The smallest power of two that is at least [value], for a value from 2
    to 2^63. *)
Lemma round_up_spec value :
  2 <= value <= 2 ^ 63 ->
  exists k, 1 <= k <= 63
            /\ round_up_to_power_of_two value = 2 ^ k
            /\ 2 ^ (k - 1) < value <= 2 ^ k.
Proof.
  intros Hv. unfold round_up_to_power_of_two.
  destruct (Z.leb_spec value 1); [lia|].
  set (w := value - 1). assert (Hw : 1 <= w < 2 ^ 63) by (unfold w; lia).
  set (n := Z.log2 w).
  assert (Hn : 0 <= n < 63).
  { split; [apply Z.log2_nonneg|]. apply Z.log2_lt_pow2; lia. }
  destruct (Z.log2_spec w ltac:(lia)) as [Hlo Hhi]. fold n in Hlo, Hhi.
  assert (H0 : smeared n 0 w).
  { split.
    - intros b Hb. apply Z.bits_above_log2; [lia|exact Hb].
    - intros b _ Hb. replace b with n by lia. apply Z.bit_log2. lia. }
  pose proof (smear_step_smeared n 0 1 _ ltac:(lia) ltac:(lia) eq_refl H0) as H1.
  pose proof (smear_step_smeared n 1 2 _ ltac:(lia) ltac:(lia) eq_refl H1) as H2.
  pose proof (smear_step_smeared n 3 4 _ ltac:(lia) ltac:(lia) eq_refl H2) as H3.
  pose proof (smear_step_smeared n 7 8 _ ltac:(lia) ltac:(lia) eq_refl H3) as H4.
  pose proof (smear_step_smeared n 15 16 _ ltac:(lia) ltac:(lia) eq_refl H4) as H5.
  pose proof (smear_step_smeared n 31 32 _ ltac:(lia) ltac:(lia) eq_refl H5) as [Hhigh Hset].
  cbn [Z.add Pos.add Pos.succ] in Hhigh, Hset.
  rewrite smear_steps.
  set (s := smear_step 32 _) in *.
  assert (Hs : s = Z.ones (n + 1)).
  { apply Z.bits_inj'. intros b Hb.
    destruct (Z.le_gt_cases b n).
    - rewrite Z.ones_spec_low by lia. apply Hset; lia.
    - rewrite Z.ones_spec_high by lia. apply Hhigh. lia. }
  rewrite Hs, Z.ones_equiv.
  replace (Z.pred (2 ^ (n + 1)) + 1) with (2 ^ (n + 1)) by lia.
  exists (n + 1). split; [lia|].
  assert (Hp : 2 ^ (n + 1) <= 2 ^ 63) by (apply Z.pow_le_mono_r; lia).
  assert (H2n : 0 < 2 ^ (n + 1)) by (apply Z.pow_pos_nonneg; lia).
  split.
  - unfold u64, modulus. apply Z.mod_small. lia.
  - replace (n + 1 - 1) with n by lia. replace (Z.succ n) with (n + 1) in Hhi by lia.
    unfold w in *. lia.
Qed.

End RingCapacity.

(** X1. In single-threaded use, for a requested size from 2 to 2^63, the ring
    is a FIFO queue bounded by its capacity, the least power of two that is
    at least the size: every script of pushes and pops returns, with the
    flags and values of the bounded queue. *)
Theorem ring_is_bounded_fifo {T : Type} (size : Z) (script : list (Ring.call T)) (fuel : nat) :
  2 <= size <= 2 ^ 63 ->
  exists k q,
    1 <= k <= 63
    /\ Ring.capacity (@Ring.new T size) = 2 ^ k
    /\ 2 ^ (k - 1) < size <= 2 ^ k
    /\ Ring.run (S fuel) script (Ring.new size)
       = Some (RingFifo.fifo (2 ^ k) script [], q).
Proof.
  intros Hsize.
  destruct (RingCapacity.round_up_spec size Hsize) as (k & Hk & Hcap & Hrange).
  assert (Hnew : Ring.capacity (@Ring.new T size) = 2 ^ k).
  { unfold Ring.capacity, Ring.new. cbn [Ring.size_].
    destruct (Z.eqb_spec size 0); [lia|exact Hcap]. }
  destruct (RingFifo.run_rep k script (Ring.new size) 0 0 [] fuel Hk
              (RingFifo.new_rep k size ltac:(lia) Hnew)) as (q & Hrun).
  exists k, q. auto.
Qed.

Lemma ring_is_bounded_fifo_witness :
  exists q,
    Ring.run 1 [Ring.Push 7; Ring.Push 8; Ring.Push 9; Ring.Pop; Ring.Pop; Ring.Pop]
      (Ring.new 2)
    = Some ([Ring.Pushed true; Ring.Pushed true; Ring.Pushed false;
             Ring.Popped true (Some 7); Ring.Popped true (Some 8); Ring.Popped false None], q).
Proof.
  destruct (@ring_is_bounded_fifo Z 2
              [Ring.Push 7; Ring.Push 8; Ring.Push 9; Ring.Pop; Ring.Pop; Ring.Pop] 0
              ltac:(lia))
    as (k & q & Hk & Hcap & _ & Hrun).
  exists q. rewrite Hrun. f_equal. f_equal.
  assert (E : 2 ^ k = 2) by (rewrite <- Hcap; reflexivity).
  rewrite E. reflexivity.
Defined.

(** ** The ordering key of the leaderboard: [(-score, user_id)] *)

Module Key.

(** [x == x]: the score is not a NaN. *)
Definition not_nan (x : float) : Prop := (x =? x)%float = true.

(** [SkipList::comes_before] on the fields it reads: the stored entry
    [(lhs_score, lhs_id)] precedes the key [(score, user_id)]. The string
    comparison of [std::string] is by unsigned bytes, then by length. *)
Definition comes_before (lhs_score : float) (lhs_id : string)
    (score : float) (user_id : string) : bool :=
  if (score <? lhs_score)%float then true
  else if (lhs_score <? score)%float then false
  else String.ltb lhs_id user_id.

(** *** The byte order of strings *)

Lemma ascii_compare_N a b : Ascii.compare a b = N.compare (N_of_ascii a) (N_of_ascii b).
Proof. reflexivity. Qed.

Lemma ascii_compare_refl a : Ascii.compare a a = Eq.
Proof. rewrite ascii_compare_N. apply N.compare_refl. Qed.

Lemma ascii_compare_eq a b : Ascii.compare a b = Eq -> a = b.
Proof. apply Ascii.compare_eq_iff. Qed.

Lemma ascii_compare_lt_trans a b c :
  Ascii.compare a b = Lt -> Ascii.compare b c = Lt -> Ascii.compare a c = Lt.
Proof.
  rewrite !ascii_compare_N, !N.compare_lt_iff. apply N.lt_trans.
Qed.

Lemma string_compare_lt_trans s1 : forall s2 s3,
  String.compare s1 s2 = Lt -> String.compare s2 s3 = Lt -> String.compare s1 s3 = Lt.
Proof.
  induction s1 as [|c1 s1 IH]; intros [|c2 s2] [|c3 s3]; cbn; try congruence.
  destruct (Ascii.compare c1 c2) eqn:E12; try discriminate;
    destruct (Ascii.compare c2 c3) eqn:E23; try discriminate; intros H1 H2.
  - apply ascii_compare_eq in E12, E23. subst. rewrite ascii_compare_refl. eauto.
  - apply ascii_compare_eq in E12. subst. rewrite E23. reflexivity.
  - apply ascii_compare_eq in E23. subst. rewrite E12. reflexivity.
  - rewrite (ascii_compare_lt_trans _ _ _ E12 E23). reflexivity.
Qed.

Lemma string_ltb_trans s1 s2 s3 :
  String.ltb s1 s2 = true -> String.ltb s2 s3 = true -> String.ltb s1 s3 = true.
Proof.
  unfold String.ltb. intros H1 H2.
  destruct (String.compare s1 s2) eqn:E1; try discriminate.
  destruct (String.compare s2 s3) eqn:E2; try discriminate.
  rewrite (string_compare_lt_trans _ _ _ E1 E2). reflexivity.
Qed.

Lemma string_ltb_asym s1 s2 : String.ltb s1 s2 = true -> String.ltb s2 s1 = false.
Proof.
  unfold String.ltb. rewrite (String.compare_antisym s1 s2).
  destruct (String.compare s2 s1); cbn; congruence.
Qed.

Lemma string_ltb_total s1 s2 :
  s1 <> s2 -> String.ltb s1 s2 = true \/ String.ltb s2 s1 = true.
Proof.
  unfold String.ltb. intros Hne. rewrite (String.compare_antisym s1 s2).
  destruct (String.compare s2 s1) eqn:E; cbn; auto.
  apply String.compare_eq_iff in E. congruence.
Qed.

(** *** The order of binary64 values that are not NaN *)

Definition sf_nan (x : spec_float) : bool :=
  match x with S754_nan => true | _ => false end.

Lemma SFcompare_some x y :
  sf_nan x = false -> sf_nan y = false -> exists c, SFcompare x y = Some c.
Proof. destruct x as [?|?| |? ? ?], y as [?|?| |? ? ?]; cbn; try discriminate; eauto. Qed.

(** The comparison is that of a pair (rank, magnitude): the proofs go by
    cases on the values, and arithmetic on exponents and mantissas. *)
Ltac sf_cases :=
  repeat match goal with
  | |- context [Z.compare ?a ?b] => destruct (Z.compare_spec a b)
  | |- context [Pos.compare_cont Eq ?a ?b] =>
      change (Pos.compare_cont Eq a b) with (Pos.compare a b);
      destruct (Pos.compare_spec a b)
  | H : context [Z.compare ?a ?b] |- _ => destruct (Z.compare_spec a b)
  | H : context [Pos.compare_cont Eq ?a ?b] |- _ =>
      change (Pos.compare_cont Eq a b) with (Pos.compare a b) in H;
      destruct (Pos.compare_spec a b)
  end.

Lemma SFcompare_antisym x y c :
  SFcompare x y = Some c -> SFcompare y x = Some (CompOpp c).
Proof.
  destruct x as [sx|sx| |sx mx ex], y as [sy|sy| |sy my ey]; cbn;
    try discriminate; intros [= <-]; try reflexivity;
    try (destruct sx; reflexivity); try (destruct sy; reflexivity);
    try (destruct sx, sy; reflexivity).
  destruct sx, sy; try reflexivity; sf_cases; cbn; try reflexivity;
    exfalso; subst; lia.
Qed.

Lemma SFcompare_lt_trans x y z :
  SFcompare x y = Some Lt -> SFcompare y z = Some Lt -> SFcompare x z = Some Lt.
Proof.
  destruct x as [sx|sx| |sx mx ex], y as [sy|sy| |sy my ey], z as [sz|sz| |sz mz ez];
    cbn; try discriminate; try congruence;
    try (destruct sx; try discriminate); try (destruct sy; try discriminate);
    try (destruct sz; try discriminate); try congruence;
    intros H1 H2; sf_cases; cbn in *; try discriminate; try reflexivity;
    try (exfalso; lia); subst; try lia.
Qed.

Lemma SFcompare_eq_l x y z c :
  SFcompare x y = Some Eq -> SFcompare y z = Some c -> SFcompare x z = Some c.
Proof.
  destruct x as [sx|sx| |sx mx ex], y as [sy|sy| |sy my ey], z as [sz|sz| |sz mz ez];
    cbn; try discriminate; try congruence;
    try (destruct sx; try discriminate); try (destruct sy; try discriminate);
    try (destruct sz; try discriminate); try congruence;
    intros H1 H2; sf_cases; cbn in *; try discriminate; subst;
    try (exfalso; lia); try exact H2; try congruence.
Qed.

Definition fcmp (a b : float) : option comparison :=
  SFcompare (Prim2SF a) (Prim2SF b).

Lemma ltb_fcmp a b :
  (a <? b)%float = match fcmp a b with Some Lt => true | _ => false end.
Proof. rewrite FloatAxioms.ltb_spec. reflexivity. Qed.

Lemma not_nan_sf a : not_nan a <-> sf_nan (Prim2SF a) = false.
Proof.
  unfold not_nan. rewrite FloatAxioms.eqb_spec. unfold SFeqb.
  destruct (Prim2SF a) as [s|s| |s m e]; cbn; try tauto; try (destruct s; tauto).
  - split; [discriminate|discriminate].
  - rewrite Z.compare_refl.
    change (Pos.compare_cont Eq m m) with (Pos.compare m m).
    rewrite Pos.compare_refl. destruct s; tauto.
Qed.

Lemma fcmp_some a b : not_nan a -> not_nan b -> exists c, fcmp a b = Some c.
Proof. rewrite !not_nan_sf. apply SFcompare_some. Qed.

Lemma fcmp_antisym a b c : fcmp a b = Some c -> fcmp b a = Some (CompOpp c).
Proof. apply SFcompare_antisym. Qed.

Lemma fcmp_gt_trans a b c :
  fcmp a b = Some Gt -> fcmp b c = Some Gt -> fcmp a c = Some Gt.
Proof.
  intros H1%fcmp_antisym H2%fcmp_antisym. cbn in H1, H2.
  apply (fcmp_antisym c a Lt). exact (SFcompare_lt_trans _ _ _ H2 H1).
Qed.

Lemma fcmp_eq_l a b c x : fcmp a b = Some Eq -> fcmp b c = Some x -> fcmp a c = Some x.
Proof. apply SFcompare_eq_l. Qed.

Lemma fcmp_eq_r a b c x : fcmp a b = Some x -> fcmp b c = Some Eq -> fcmp a c = Some x.
Proof.
  intros H1%fcmp_antisym H2%fcmp_antisym. cbn in H2.
  pose proof (fcmp_antisym _ _ _ (fcmp_eq_l _ _ _ _ H2 H1)) as H.
  rewrite H. destruct x; reflexivity.
Qed.

(** [comes_before] through the three-way comparison of the scores. *)
Lemma comes_before_cmp s1 i1 s2 i2 c :
  fcmp s1 s2 = Some c ->
  comes_before s1 i1 s2 i2
  = match c with Gt => true | Lt => false | Eq => String.ltb i1 i2 end.
Proof.
  intros Hc. unfold comes_before. rewrite !ltb_fcmp, Hc, (fcmp_antisym _ _ _ Hc).
  destruct c; reflexivity.
Qed.

Lemma comes_before_trans s1 i1 s2 i2 s3 i3 :
  not_nan s1 -> not_nan s2 -> not_nan s3 ->
  comes_before s1 i1 s2 i2 = true -> comes_before s2 i2 s3 i3 = true ->
  comes_before s1 i1 s3 i3 = true.
Proof.
  intros N1 N2 N3.
  destruct (fcmp_some s1 s2 N1 N2) as [c12 H12].
  destruct (fcmp_some s2 s3 N2 N3) as [c23 H23].
  rewrite (comes_before_cmp _ i1 _ i2 _ H12), (comes_before_cmp _ i2 _ i3 _ H23).
  destruct c12, c23; try discriminate.
  - rewrite (comes_before_cmp _ _ _ _ _ (fcmp_eq_l _ _ _ _ H12 H23)).
    apply string_ltb_trans.
  - rewrite (comes_before_cmp _ _ _ _ _ (fcmp_eq_l _ _ _ _ H12 H23)). reflexivity.
  - rewrite (comes_before_cmp _ _ _ _ _ (fcmp_eq_r _ _ _ _ H12 H23)). reflexivity.
  - rewrite (comes_before_cmp _ _ _ _ _ (fcmp_gt_trans _ _ _ H12 H23)). reflexivity.
Qed.

Lemma comes_before_asym s1 i1 s2 i2 :
  not_nan s1 -> not_nan s2 ->
  comes_before s1 i1 s2 i2 = true -> comes_before s2 i2 s1 i1 = false.
Proof.
  intros N1 N2. destruct (fcmp_some s1 s2 N1 N2) as [c H].
  rewrite (comes_before_cmp _ i1 _ i2 _ H), (comes_before_cmp _ i2 _ i1 _ (fcmp_antisym _ _ _ H)).
  destruct c; cbn; try congruence. apply string_ltb_asym.
Qed.

Lemma comes_before_total s1 i1 s2 i2 :
  not_nan s1 -> not_nan s2 -> i1 <> i2 ->
  comes_before s1 i1 s2 i2 = true \/ comes_before s2 i2 s1 i1 = true.
Proof.
  intros N1 N2 Hne. destruct (fcmp_some s1 s2 N1 N2) as [c H].
  rewrite (comes_before_cmp _ i1 _ i2 _ H), (comes_before_cmp _ i2 _ i1 _ (fcmp_antisym _ _ _ H)).
  destruct c; cbn; auto. apply string_ltb_total. exact Hne.
Qed.

End Key.

(** ** The indexed skip list ([skip_list.cpp]) *)

Module SkipList.

(** A [Node*]: the address of a node; [nullptr] is [None]. *)
Definition handle : Type := nat.

Record Node : Type := mkNode {
  user_id : string;
  score : float;
  last_update : Z;
  forward : list (option handle)
}.

(** The list: the nodes alive (the header among them, at [header_]), and
    the fields of the class. [rng_] is the sequence of values that
    [dist(rng_)] returns, [rng_drawn] how many were consumed; [next_node]
    is the address the next [new Node] returns. *)
Record SkipList : Type := mk {
  nodes : gmap handle Node;
  max_levels_ : Z;
  probability_ : float;
  current_level_ : Z;
  size_ : Z;
  rng_ : nat -> float;
  rng_drawn : nat;
  index_ : gmap string handle;
  next_node : handle
}.

Definition header_ : handle := 0%nat.

Definition kMaxSupportedLevels : Z := 32.

Definition new (max_levels : Z) (probability : float) (rng : nat -> float)
    : result SkipList :=
  if (max_levels <=? 0) || (kMaxSupportedLevels <? max_levels)
  then Throw "SkipList max_levels out of supported range"
  else if ((probability <=? 0)%float || (1 <=? probability)%float)%bool
  then Throw "SkipList probability must be in (0,1)"
  else Ok {| nodes := {[ header_ := {| user_id := ""; score := 0%float; last_update := 0;
                                        forward := replicate (Z.to_nat max_levels) None |} ]};
             max_levels_ := max_levels;
             probability_ := probability;
             current_level_ := 1;
             size_ := 0;
             rng_ := rng;
             rng_drawn := 0%nat;
             index_ := ∅;
             next_node := 1%nat |}.

(** [while (level < max_levels_ && dist(rng_) < probability_) ++level] *)
Fixpoint random_level_loop (fuel : nat) (sl : SkipList) (drawn : nat) (level : Z)
    : option (Z * nat) :=
  match fuel with
  | O => None
  | S fuel' =>
      if level <? max_levels_ sl
      then if (rng_ sl drawn <? probability_ sl)%float
           then random_level_loop fuel' sl (S drawn) (level + 1)
           else Some (level, S drawn)
      else Some (level, drawn)
  end.

Definition random_level (sl : SkipList) : option (Z * nat) :=
  random_level_loop (Z.to_nat (max_levels_ sl)) sl (rng_drawn sl) 1.

Definition comes_before (lhs : Node) (score : float) (user_id : string) : bool :=
  Key.comes_before (SkipList.score lhs) (SkipList.user_id lhs) score user_id.

(** [h->forward[level]] *)
Definition forward_at (ns : gmap handle Node) (h : handle) (level : nat)
    : option (option handle) :=
  nd ← ns !! h; forward nd !! level.

(** [h->forward[level] = v] *)
Definition set_forward (ns : gmap handle Node) (h : handle) (level : nat)
    (v : option handle) : option (gmap handle Node) :=
  nd ← ns !! h;
  if decide (level < length (forward nd))%nat
  then Some (<[h := {| user_id := user_id nd; score := score nd;
                       last_update := last_update nd;
                       forward := <[level := v]> (forward nd) |}]> ns)
  else None.

(** The inner [while] of the two searches: move right on [level] while the
    next node exists and [advance] holds of it. *)
Fixpoint walk (fuel : nat) (ns : gmap handle Node) (level : nat)
    (advance : handle -> Node -> bool) (current : handle) : option handle :=
  match fuel with
  | O => None
  | S fuel' =>
      next ← forward_at ns current level;
      match next with
      | None => Some current
      | Some n =>
          nd ← ns !! n;
          if advance n nd then walk fuel' ns level advance n else Some current
      end
  end.

(** [for (level = current_level_ - 1; level >= 0; --level) { while ...;
    update[level] = current; }] with [levels] levels left. *)
Fixpoint descend (ns : gmap handle Node) (advance : handle -> Node -> bool)
    (levels : nat) (current : handle) (update : list (option handle))
    : option (list (option handle)) :=
  match levels with
  | O => Some update
  | S level =>
      current' ← walk (S (size ns)) ns level advance current;
      if decide (level < length update)%nat
      then descend ns advance level current' (<[level := Some current']> update)
      else None
  end.

(** [for (level = current_level_; level < node_level; ++level)
    update[level] = header_.get()] *)
Fixpoint fill_header (n : nat) (level : nat) (update : list (option handle))
    : option (list (option handle)) :=
  match n with
  | O => Some update
  | S n' =>
      if decide (level < length update)%nat
      then fill_header n' (S level) (<[level := Some header_]> update)
      else None
  end.

Fixpoint insert_node (n : nat) (i : nat) (ns : gmap handle Node) (node : handle)
    (update : list (option handle)) : option (gmap handle Node) :=
  match n with
  | O => Some ns
  | S n' =>
      u ← update !! i; u ← u;
      f ← forward_at ns u i;
      ns ← set_forward ns node i f;
      ns ← set_forward ns u i (Some node);
      insert_node n' (S i) ns node update
  end.

(** The splice loop of [erase] over the levels of the target. *)
Fixpoint unlink (n : nat) (level : nat) (ns : gmap handle Node) (target : handle)
    (update : list (option handle)) (removed : bool)
    : option (gmap handle Node * bool) :=
  match n with
  | O => Some (ns, removed)
  | S n' =>
      u ← update !! level; u ← u;
      f ← forward_at ns u level;
      if decide (f = Some target)
      then tf ← forward_at ns target level;
           ns ← set_forward ns u level tf;
           unlink n' (S level) ns target update true
      else unlink n' (S level) ns target update removed
  end.

(** [while (current_level_ > 1 && header_->forward[current_level_ - 1] ==
    nullptr) --current_level_] *)
Fixpoint shrink (ns : gmap handle Node) (current_level : nat) : option nat :=
  match current_level with
  | S (S _ as lower) =>
      f ← forward_at ns header_ lower;
      match f with
      | None => shrink ns lower
      | Some _ => Some current_level
      end
  | _ => Some current_level
  end.

Definition erase (sl : SkipList) (user_id : string) : option (bool * SkipList) :=
  match index_ sl !! user_id with
  | None => Some (false, sl)
  | Some target =>
      tnode ← nodes sl !! target;
      update ←
        descend (nodes sl)
          (fun h nd => negb (Nat.eqb h target)
                       && comes_before nd (score tnode) (SkipList.user_id tnode))
          (Z.to_nat (current_level_ sl)) header_
          (replicate (Z.to_nat (max_levels_ sl)) None);
      '(ns, removed) ← unlink (length (forward tnode)) 0 (nodes sl) target update false;
      if negb removed then Some (false, sl)
      else
        level ← shrink ns (Z.to_nat (current_level_ sl));
        Some (true,
              {| nodes := delete target ns;
                 max_levels_ := max_levels_ sl;
                 probability_ := probability_ sl;
                 current_level_ := Z.of_nat level;
                 size_ := u64 (size_ sl - 1);
                 rng_ := rng_ sl;
                 rng_drawn := rng_drawn sl;
                 index_ := delete user_id (index_ sl);
                 next_node := next_node sl |})
  end.

(** [upsert] after its first statement, [erase(user_id)]: draw the level,
    allocate the node, search, raise [current_level_], link. *)
Definition link_new (sl : SkipList) (user_id : string) (score : float) (timestamp : Z)
    : option SkipList :=
  '(node_level, drawn) ← random_level sl;
  let node := next_node sl in
  let ns := <[node := {| user_id := user_id; score := score; last_update := timestamp;
                         forward := replicate (Z.to_nat node_level) None |}]> (nodes sl) in
  update ←
    descend ns (fun _ nd => comes_before nd score user_id)
      (Z.to_nat (current_level_ sl)) header_
      (replicate (Z.to_nat (max_levels_ sl)) None);
  update ←
    (if current_level_ sl <? node_level
     then fill_header (Z.to_nat (node_level - current_level_ sl))
            (Z.to_nat (current_level_ sl)) update
     else Some update);
  ns ← insert_node (Z.to_nat node_level) 0 ns node update;
  Some {| nodes := ns;
          max_levels_ := max_levels_ sl;
          probability_ := probability_ sl;
          current_level_ := Z.max (current_level_ sl) node_level;
          size_ := u64 (size_ sl + 1);
          rng_ := rng_ sl;
          rng_drawn := drawn;
          index_ := <[user_id := node]> (index_ sl);
          next_node := S node |}.

Definition upsert (sl : SkipList) (user_id : string) (score : float) (timestamp : Z)
    : option SkipList :=
  '(_, sl) ← erase sl user_id;
  link_new sl user_id score timestamp.

Definition find (sl : SkipList) (user_id : string) : option handle :=
  index_ sl !! user_id.

Definition size (sl : SkipList) : Z := size_ sl.

(** The level-0 walk of [for_each], [top_k] and [rank_of]. *)
Fixpoint traverse (fuel : nat) (ns : gmap handle Node) (current : option handle)
    : option (list Node) :=
  match current with
  | None => Some []
  | Some h =>
      match fuel with
      | O => None
      | S fuel' =>
          nd ← ns !! h;
          next ← forward nd !! 0%nat;
          rest ← traverse fuel' ns next;
          Some (nd :: rest)
      end
  end.

Definition for_each (sl : SkipList) : option (list Node) :=
  first ← forward_at (nodes sl) header_ 0;
  traverse (S (base.size (nodes sl))) (nodes sl) first.

(** The loop of [tail]: [while (current->forward[0]) current =
    current->forward[0]]. *)
Fixpoint tail_loop (fuel : nat) (ns : gmap handle Node) (current : handle)
    : option handle :=
  match fuel with
  | O => None
  | S fuel' =>
      next ← forward_at ns current 0;
      match next with
      | None => Some current
      | Some h => tail_loop fuel' ns h
      end
  end.

(** [tail]: the last node of level 0, [nullptr] on the empty list. *)
Definition tail (sl : SkipList) : option (option handle) :=
  first ← forward_at (nodes sl) header_ 0;
  match first with
  | None => Some None
  | Some h => last ← tail_loop (base.size (nodes sl)) (nodes sl) h; Some (Some last)
  end.

(** The first loop of [clear]: [next = current->forward[0]; delete
    current; current = next]. *)
Fixpoint delete_chain (fuel : nat) (ns : gmap handle Node) (current : option handle)
    : option (gmap handle Node) :=
  match current with
  | None => Some ns
  | Some h =>
      match fuel with
      | O => None
      | S fuel' =>
          next ← forward_at ns h 0;
          delete_chain fuel' (delete h ns) next
      end
  end.

Definition clear (sl : SkipList) : option SkipList :=
  first ← forward_at (nodes sl) header_ 0;
  ns ← delete_chain (base.size (nodes sl)) (nodes sl) first;
  hd ← ns !! header_;
  Some {| nodes := <[header_ := {| user_id := user_id hd; score := score hd;
                                   last_update := last_update hd;
                                   forward := replicate (length (forward hd)) None |}]> ns;
          max_levels_ := max_levels_ sl;
          probability_ := probability_ sl;
          current_level_ := 1;
          size_ := 0;
          rng_ := rng_ sl;
          rng_drawn := rng_drawn sl;
          index_ := ∅;
          next_node := next_node sl |}.

(** A program over the list: calls of [upsert] and [erase]. *)
Inductive op : Type :=
| Upsert (user_id : string) (score : float) (timestamp : Z)
| Erase (user_id : string).

Fixpoint run (ops : list op) (sl : SkipList) : option SkipList :=
  match ops with
  | [] => Some sl
  | Upsert id s ts :: ops' => sl' ← upsert sl id s ts; run ops' sl'
  | Erase id :: ops' => '(_, sl') ← erase sl id; run ops' sl'
  end.

(** The users present after a program, with their score and time stamp. *)
Fixpoint present (ops : list op) (m : gmap string (float * Z)) : gmap string (float * Z) :=
  match ops with
  | [] => m
  | Upsert id s ts :: ops' => present ops' (<[id := (s, ts)]> m)
  | Erase id :: ops' => present ops' (delete id m)
  end.

(** No score passed to [upsert] is a NaN. *)
Definition scores_ordered (ops : list op) : Prop :=
  Forall (fun o => match o with
                   | Upsert _ s _ => Key.not_nan s
                   | Erase _ => True
                   end) ops.

End SkipList.

(** *** The heap of nodes: pointers, segments, searches *)

Module SkipListFacts.
Import SkipList.

Implicit Types (ns : gmap handle Node) (h from : handle) (hs : list handle)
  (L : nat) (to : option handle).

(** The fields of a node that no operation changes once it is linked. *)
Definition same_fields (a b : Node) : Prop :=
  user_id a = user_id b /\ score a = score b /\ last_update a = last_update b
  /\ length (forward a) = length (forward b).

Lemma forward_at_set_forward ns ns' h L v h' L' :
  set_forward ns h L v = Some ns' ->
  forward_at ns' h' L'
  = if decide (h' = h /\ L' = L) then Some v else forward_at ns h' L'.
Proof.
  unfold set_forward, forward_at. destruct (ns !! h) as [nd|] eqn:Hnd; [|discriminate].
  cbn. case_decide as Hlt; [|discriminate]. intros [= <-].
  destruct (decide (h' = h)) as [->|Hne].
  - rewrite lookup_insert_eq, Hnd. cbn.
    destruct (decide (L' = L)) as [->|HL].
    + rewrite decide_True by auto. apply list_lookup_insert_eq. exact Hlt.
    + rewrite decide_False by tauto. apply list_lookup_insert_ne. congruence.
  - rewrite lookup_insert_ne by congruence. rewrite decide_False by tauto. reflexivity.
Qed.

Lemma set_forward_lookup ns ns' h L v h' :
  set_forward ns h L v = Some ns' ->
  match ns !! h', ns' !! h' with
  | Some a, Some b => same_fields a b
  | None, None => True
  | _, _ => False
  end.
Proof.
  unfold set_forward. destruct (ns !! h) as [nd|] eqn:Hnd; [|discriminate].
  cbn. case_decide as Hlt; [|discriminate]. intros [= <-].
  destruct (decide (h' = h)) as [->|Hne].
  - rewrite lookup_insert_eq, Hnd. repeat split. cbn. rewrite length_insert. reflexivity.
  - rewrite lookup_insert_ne by congruence. destruct (ns !! h'); [repeat split|exact I].
Qed.

Lemma set_forward_Some ns h L nd v :
  ns !! h = Some nd -> (L < length (forward nd))%nat ->
  exists ns', set_forward ns h L v = Some ns'.
Proof.
  intros Hnd Hlt. unfold set_forward. rewrite Hnd. cbn.
  rewrite decide_True by exact Hlt. eauto.
Qed.

(** The segment of level [L] that starts after [from], visits [hs] and
    ends with the pointer [to]. *)
Fixpoint seg ns L from hs to : Prop :=
  match hs with
  | [] => forward_at ns from L = Some to
  | h :: hs' => forward_at ns from L = Some (Some h) /\ seg ns L h hs' to
  end.

Fixpoint last_from from hs : handle :=
  match hs with
  | [] => from
  | h :: hs' => last_from h hs'
  end.

Definition head_or hs to : option handle :=
  match hs with
  | [] => to
  | h :: _ => Some h
  end.

Lemma last_from_app from xs ys :
  last_from from (xs ++ ys) = last_from (last_from from xs) ys.
Proof. revert from. induction xs as [|x xs IH]; intros from; cbn; auto. Qed.

Lemma last_from_elem from xs : last_from from xs ∈ from :: xs.
Proof.
  revert from. induction xs as [|x xs IH]; intros from; cbn.
  - apply list_elem_of_here.
  - apply list_elem_of_further, IH.
Qed.

Lemma seg_app ns L from xs ys to :
  seg ns L from (xs ++ ys) to
  <-> seg ns L from xs (head_or ys to) /\ seg ns L (last_from from xs) ys to.
Proof.
  revert from. induction xs as [|x xs IH]; intros from; cbn.
  - destruct ys; cbn; tauto.
  - rewrite IH. tauto.
Qed.

(** A segment reads the pointers of level [L] of [from :: hs] only. *)
Lemma seg_ext ns ns' L from hs to :
  (forall h, h ∈ from :: hs -> forward_at ns' h L = forward_at ns h L) ->
  seg ns L from hs to -> seg ns' L from hs to.
Proof.
  revert from. induction hs as [|x hs IH]; intros from Hext; cbn.
  - rewrite Hext by apply list_elem_of_here. auto.
  - rewrite Hext by apply list_elem_of_here. intros [H1 H2]. split; [exact H1|].
    apply IH; [|exact H2]. intros h Hh. apply Hext. apply list_elem_of_further, Hh.
Qed.

Lemma seg_end ns L from hs to :
  seg ns L from hs to -> forward_at ns (last_from from hs) L = Some to.
Proof. revert from. induction hs as [|x hs IH]; intros from; cbn; [auto|]. intros [_ H]. auto. Qed.

(** The inner search loop on a segment: it passes the nodes on which
    [advance] holds and stops before the first on which it fails. *)
Lemma walk_seg ns L advance mid : forall from rest fuel,
  seg ns L from (mid ++ rest) None ->
  (forall h, h ∈ mid -> exists nd, ns !! h = Some nd /\ advance h nd = true) ->
  (forall h, head rest = Some h -> exists nd, ns !! h = Some nd /\ advance h nd = false) ->
  (length mid < fuel)%nat ->
  walk fuel ns L advance from = Some (last_from from mid).
Proof.
  induction mid as [|m mid IH]; intros from rest fuel Hseg Hmid Hrest Hfuel.
  - destruct fuel as [|fuel]; [cbn in Hfuel; lia|]. cbn [walk last_from].
    cbn [app] in Hseg. destruct rest as [|r rest]; cbn in Hseg.
    + rewrite Hseg. reflexivity.
    + destruct Hseg as [Hf _]. rewrite Hf. cbn.
      destruct (Hrest r eq_refl) as (nd & Hnd & Hadv). rewrite Hnd. cbn. rewrite Hadv.
      reflexivity.
  - destruct fuel as [|fuel]; [cbn in Hfuel; lia|]. cbn [walk last_from].
    cbn in Hseg. destruct Hseg as [Hf Hseg]. rewrite Hf. cbn.
    destruct (Hmid m) as (nd & Hnd & Hadv); [apply list_elem_of_here|].
    rewrite Hnd. cbn. rewrite Hadv.
    apply (IH m rest); auto.
    + intros h Hh. apply Hmid. apply list_elem_of_further, Hh.
    + cbn in Hfuel. lia.
Qed.

(** Changing the pointer of the last node of a segment changes its end. *)
Lemma seg_set_end ns ns' L hs : forall from to to',
  NoDup (from :: hs) ->
  (forall h, h ∈ from :: hs ->
     forward_at ns' h L
     = if decide (h = last_from from hs) then Some to' else forward_at ns h L) ->
  seg ns L from hs to -> seg ns' L from hs to'.
Proof.
  induction hs as [|x hs IH]; intros from to to' Hnd Hfw; cbn.
  - intros _. rewrite Hfw by apply list_elem_of_here. cbn. rewrite decide_True; auto.
  - intros [H1 H2]. apply NoDup_cons in Hnd as [Hfrom Hnd].
    split.
    + rewrite Hfw by apply list_elem_of_here. cbn [last_from].
      rewrite decide_False; [exact H1|].
      intros ->. apply Hfrom, last_from_elem.
    + apply (IH x to to' Hnd); [|exact H2].
      intros h Hh. apply Hfw. apply list_elem_of_further, Hh.
Qed.

(** Linking [node] between the prefix [xs] and the suffix [ys] of a level. *)
Lemma seg_link ns ns' L node xs ys :
  seg ns L header_ (xs ++ ys) None ->
  NoDup (header_ :: xs ++ ys) ->
  node ∉ header_ :: xs ++ ys ->
  (forall h, h ∈ header_ :: xs ++ ys ->
     forward_at ns' h L
     = if decide (h = last_from header_ xs) then Some (Some node)
       else forward_at ns h L) ->
  forward_at ns' node L = Some (head_or ys None) ->
  seg ns' L header_ (xs ++ node :: ys) None.
Proof.
  intros Hseg Hnd Hnode Hfw Hnew.
  apply seg_app in Hseg as [Hpre Hsuf]. apply seg_app. split.
  - cbn [head_or]. apply (seg_set_end ns ns' L xs header_ (head_or ys None)).
    + rewrite app_comm_cons in Hnd. apply NoDup_app in Hnd as [Hnd _]. exact Hnd.
    + intros h Hh. apply Hfw. rewrite app_comm_cons. apply elem_of_app. left. exact Hh.
    + exact Hpre.
  - cbn [seg]. split.
    + rewrite Hfw.
      * rewrite decide_True; auto.
      * rewrite app_comm_cons. apply elem_of_app. left. apply last_from_elem.
    + destruct ys as [|y ys]; cbn [seg head_or] in *; [exact Hnew|].
      split; [exact Hnew|]. destruct Hsuf as [_ Hsuf].
      apply (seg_ext ns); [|exact Hsuf].
      intros h Hh. rewrite Hfw.
      * rewrite decide_False; [reflexivity|]. intros ->.
        rewrite app_comm_cons in Hnd. apply NoDup_app in Hnd as (_ & Hdisj & _).
        apply (Hdisj (last_from header_ xs)); [apply last_from_elem|exact Hh].
      * apply list_elem_of_further. apply elem_of_app. right. exact Hh.
Qed.

(** Unlinking [t] from between the prefix [xs] and the suffix [ys]. *)
Lemma seg_unlink ns ns' L t xs ys :
  seg ns L header_ (xs ++ t :: ys) None ->
  NoDup (header_ :: xs ++ t :: ys) ->
  (forall h, h ∈ header_ :: xs ++ ys ->
     forward_at ns' h L
     = if decide (h = last_from header_ xs) then Some (head_or ys None)
       else forward_at ns h L) ->
  seg ns' L header_ (xs ++ ys) None.
Proof.
  intros Hseg Hnd Hfw.
  apply seg_app in Hseg as [Hpre Hsuf]. cbn [seg head_or] in Hpre, Hsuf.
  destruct Hsuf as [_ Hsuf].
  rewrite app_comm_cons in Hnd. apply NoDup_app in Hnd as (Hnd1 & Hdisj & Hnd2).
  apply seg_app. split.
  - apply (seg_set_end ns ns' L xs header_ (Some t)).
    + exact Hnd1.
    + intros h Hh. apply Hfw. rewrite app_comm_cons. apply elem_of_app. left. exact Hh.
    + exact Hpre.
  - assert (Hu : forward_at ns' (last_from header_ xs) L = Some (head_or ys None)).
    { rewrite Hfw.
      - rewrite decide_True; auto.
      - rewrite app_comm_cons. apply elem_of_app. left. apply last_from_elem. }
    destruct ys as [|y ys]; cbn [seg head_or] in *; [exact Hu|].
    split; [exact Hu|]. destruct Hsuf as [_ Hsuf].
    apply (seg_ext ns); [|exact Hsuf].
    intros h Hh. rewrite Hfw.
    + rewrite decide_False; [reflexivity|]. intros ->.
      apply (Hdisj (last_from header_ xs)); [apply last_from_elem|].
      apply list_elem_of_further. exact Hh.
    + apply list_elem_of_further. apply elem_of_app. right. exact Hh.
Qed.

(** The heaps [ns] and [ns'] hold the same nodes up to their pointers. *)
Definition same_nodes ns ns' : Prop :=
  forall h, match ns !! h, ns' !! h with
            | Some a, Some b => same_fields a b
            | None, None => True
            | _, _ => False
            end.

Lemma same_nodes_refl ns : same_nodes ns ns.
Proof. intros h. destruct (ns !! h); [repeat split|exact I]. Qed.

Lemma same_nodes_trans ns1 ns2 ns3 :
  same_nodes ns1 ns2 -> same_nodes ns2 ns3 -> same_nodes ns1 ns3.
Proof.
  intros H12 H23 h. specialize (H12 h). specialize (H23 h).
  destruct (ns1 !! h), (ns2 !! h), (ns3 !! h); try tauto.
  destruct H12 as (?&?&?&?), H23 as (?&?&?&?). repeat split; congruence.
Qed.

Lemma same_nodes_set_forward ns ns' h L v :
  set_forward ns h L v = Some ns' -> same_nodes ns ns'.
Proof. intros H h'. exact (set_forward_lookup _ _ _ _ _ h' H). Qed.

Lemma same_nodes_lookup ns ns' h nd :
  same_nodes ns ns' -> ns !! h = Some nd ->
  exists nd', ns' !! h = Some nd' /\ same_fields nd nd'.
Proof.
  intros Hs Hnd. specialize (Hs h). rewrite Hnd in Hs.
  destruct (ns' !! h) as [nd'|]; [eauto|contradiction].
Qed.

Lemma same_nodes_size ns ns' : same_nodes ns ns' -> base.size ns = base.size ns'.
Proof.
  intros Hs. rewrite <- !size_dom. f_equal. apply set_eq. intros h.
  rewrite !elem_of_dom. specialize (Hs h).
  destruct (ns !! h), (ns' !! h); try tauto; split; intros [? ?]; eauto; discriminate.
Qed.

(** *** The list the nodes represent *)

(** What a linked node stands for: its address, its key and time stamp, and
    the number of levels it is linked on. *)
Record entry : Type := mkEntry {
  e_h : handle;
  e_id : string;
  e_score : float;
  e_ts : Z;
  e_height : nat
}.

Definition models ns (e : entry) : Prop :=
  exists nd, ns !! e_h e = Some nd
    /\ user_id nd = e_id e /\ score nd = e_score e /\ last_update nd = e_ts e
    /\ length (forward nd) = e_height e.

(** The addresses on level [L], in list order. *)
Definition level L (l : list entry) : list handle :=
  e_h <$> filter (fun e => (L < e_height e)%nat) l.

Definition before (a b : entry) : Prop :=
  Key.comes_before (e_score a) (e_id a) (e_score b) (e_id b) = true.

Lemma level_app L l1 l2 : level L (l1 ++ l2) = level L l1 ++ level L l2.
Proof. unfold level. rewrite filter_app, fmap_app. reflexivity. Qed.

Lemma level_cons L e l :
  level L (e :: l) = if decide (L < e_height e)%nat then e_h e :: level L l else level L l.
Proof. unfold level. rewrite filter_cons. case_decide; reflexivity. Qed.

Lemma elem_of_level L l h :
  h ∈ level L l <-> exists e, e ∈ l /\ e_h e = h /\ (L < e_height e)%nat.
Proof.
  unfold level. rewrite list_elem_of_fmap. split.
  - intros (e & -> & He). apply list_elem_of_filter in He as [Ht He]. eauto.
  - intros (e & He & <- & Ht). exists e. split; [reflexivity|].
    apply list_elem_of_filter. auto.
Qed.

Lemma level_mono L l h : h ∈ level (S L) l -> h ∈ level L l.
Proof. rewrite !elem_of_level. intros (e & ? & ? & ?). exists e. repeat split; auto; lia. Qed.

Lemma length_level L l : (length (level L l) <= length l)%nat.
Proof. unfold level. rewrite length_fmap. apply length_filter. Qed.

Lemma level_nil_of_heights L l :
  (forall e, e ∈ l -> (e_height e <= L)%nat) -> level L l = [].
Proof.
  intros Hh. unfold level. induction l as [|e l IH]; [reflexivity|].
  rewrite filter_cons_False.
  - apply IH. intros e' He'. apply Hh. apply list_elem_of_further, He'.
  - specialize (Hh e (list_elem_of_here _ _)). lia.
Qed.

Lemma NoDup_level L l : NoDup (e_h <$> l) -> NoDup (level L l).
Proof.
  unfold level. induction l as [|e l IH]; intros Hnd; [constructor|].
  rewrite fmap_cons in Hnd. apply NoDup_cons in Hnd as [Hnin Hnd].
  rewrite filter_cons.
  case_decide; [|auto]. rewrite fmap_cons. apply NoDup_cons. split; [|auto].
  intros Hin. apply Hnin. apply list_elem_of_fmap in Hin as (e' & -> & He').
  apply list_elem_of_filter in He' as [_ He']. apply list_elem_of_fmap_2, He'.
Qed.

(** *** The search over the levels *)

Section Descend.
Variables (ns : gmap handle Node) (advance : handle -> Node -> bool).
Variables (A B : list entry) (top : nat).

Hypothesis chains : forall L, (L < top)%nat ->
  seg ns L header_ (level L A ++ level L B) None.
Hypothesis advance_A : forall e, e ∈ A ->
  exists nd, ns !! e_h e = Some nd /\ advance (e_h e) nd = true.
Hypothesis advance_B : forall e, e ∈ B ->
  exists nd, ns !! e_h e = Some nd /\ advance (e_h e) nd = false.
Hypothesis enough_fuel : (length A <= base.size ns)%nat.

(** The node the search stops at on level [L]: the last of the nodes of
    [A] linked there, or the header. *)
Definition pred_at (L : nat) : handle := last_from header_ (level L A).

Lemma walk_level L cur :
  (L < top)%nat -> cur ∈ header_ :: level L A ->
  walk (S (base.size ns)) ns L advance cur = Some (pred_at L).
Proof.
  intros HL Hcur. pose proof (chains L HL) as Hseg.
  assert (Hrest : forall h, head (level L B) = Some h ->
            exists nd, ns !! h = Some nd /\ advance h nd = false).
  { intros h Hh. apply head_Some_elem_of in Hh.
    apply elem_of_level in Hh as (e & He & <- & _). apply advance_B, He. }
  assert (Hmid : forall h, h ∈ level L A ->
            exists nd, ns !! h = Some nd /\ advance h nd = true).
  { intros h Hh. apply elem_of_level in Hh as (e & He & <- & _). apply advance_A, He. }
  pose proof (length_level L A) as Hlen.
  apply elem_of_cons in Hcur as [->|Hcur].
  - apply (walk_seg ns L advance (level L A) header_ (level L B)); auto. lia.
  - apply list_elem_of_split in Hcur as (xs & ys & Hsplit).
    unfold pred_at. rewrite Hsplit in Hseg, Hmid, Hlen |- *.
    rewrite (assoc_L _ xs [cur] ys : xs ++ cur :: ys = (xs ++ [cur]) ++ ys) in Hseg |- *.
    rewrite <- (assoc_L _ (xs ++ [cur]) ys (level L B)) in Hseg.
    apply seg_app in Hseg as [_ Hseg].
    assert (Hl : last_from header_ (xs ++ [cur]) = cur)
      by (rewrite last_from_app; reflexivity).
    rewrite (last_from_app header_ (xs ++ [cur]) ys). rewrite Hl in Hseg |- *.
    apply (walk_seg ns L advance ys cur (level L B)); auto.
    + intros h Hh. apply Hmid. apply elem_of_app. right. apply list_elem_of_further, Hh.
    + rewrite length_app in Hlen. cbn in Hlen. lia.
Qed.

Lemma descend_spec : forall levels cur update,
  (levels <= top)%nat -> (levels <= length update)%nat ->
  cur ∈ header_ :: level levels A ->
  exists update',
    descend ns advance levels cur update = Some update'
    /\ length update' = length update
    /\ (forall L, (L < levels)%nat -> update' !! L = Some (Some (pred_at L)))
    /\ (forall L, (levels <= L)%nat -> update' !! L = update !! L).
Proof.
  induction levels as [|L IH]; intros cur update Htop Hlen Hcur.
  - exists update. cbn. repeat split; auto. intros; lia.
  - cbn [descend].
    assert (Hcur' : cur ∈ header_ :: level L A).
    { apply elem_of_cons in Hcur as [->|Hcur]; [apply list_elem_of_here|].
      apply list_elem_of_further, level_mono, Hcur. }
    rewrite (walk_level L cur) by (auto; lia). cbn.
    rewrite decide_True by lia.
    destruct (IH (pred_at L) (<[L := Some (pred_at L)]> update))
      as (update' & Hrun & Hlen' & Hlow & Hhigh).
    + lia.
    + rewrite length_insert. lia.
    + apply last_from_elem.
    + exists update'. split; [exact Hrun|]. split; [rewrite Hlen', length_insert; reflexivity|].
      split.
      * intros L' HL'. destruct (decide (L' = L)) as [->|Hne].
        -- rewrite Hhigh by lia. apply list_lookup_insert_eq. lia.
        -- apply Hlow. lia.
      * intros L' HL'. rewrite Hhigh by lia. apply list_lookup_insert_ne. lia.
Qed.

End Descend.

Lemma level_subseteq L l h : h ∈ level L l -> h ∈ e_h <$> l.
Proof. rewrite elem_of_level. intros (e & He & <- & _). apply list_elem_of_fmap_2, He. Qed.

Lemma NoDup_header_level L l :
  NoDup (header_ :: (e_h <$> l)) -> NoDup (header_ :: level L l).
Proof.
  intros [Hnin Hnd]%NoDup_cons. apply NoDup_cons. split.
  - intros Hin. apply Hnin. eapply level_subseteq, Hin.
  - apply NoDup_level, Hnd.
Qed.

Lemma not_elem_header_level L l h :
  h ∉ header_ :: (e_h <$> l) -> h ∉ header_ :: level L l.
Proof.
  intros Hnin Hin. apply Hnin. apply elem_of_cons in Hin as [->|Hin].
  - apply list_elem_of_here.
  - apply list_elem_of_further. eapply level_subseteq, Hin.
Qed.

(** *** Linking a new node: [insert_node] *)

Section InsertNode.
Variables (ns0 : gmap handle Node) (A B : list entry) (top : nat).
Variables (node : handle) (node_level : nat) (update : list (option handle)).

Hypothesis header_node : exists hd,
  ns0 !! header_ = Some hd /\ length (forward hd) = top.
Hypothesis entries : forall e, e ∈ A ++ B -> models ns0 e.
Hypothesis new_node : exists nd,
  ns0 !! node = Some nd /\ length (forward nd) = node_level.
Hypothesis distinct : NoDup (header_ :: (e_h <$> A ++ B)).
Hypothesis fresh : node ∉ header_ :: (e_h <$> A ++ B).
Hypothesis update_pred : forall L, (L < node_level)%nat ->
  update !! L = Some (Some (pred_at A L)).
Hypothesis level_top : (node_level <= top)%nat.

(** The chain of level [L] once the levels below [i] are linked. *)
Definition linked_below (i L : nat) : list handle :=
  level L A ++ (if decide (L < i)%nat then node :: level L B else level L B).

Lemma pred_at_has_level ns L :
  same_nodes ns0 ns -> (L < top)%nat ->
  exists nd, ns !! pred_at A L = Some nd /\ (L < length (forward nd))%nat.
Proof.
  intros Hs HL. pose proof (last_from_elem header_ (level L A)) as Hin.
  fold (pred_at A L) in Hin. apply elem_of_cons in Hin as [->|Hin].
  - destruct header_node as (hd & Hhd & Hlen).
    destruct (same_nodes_lookup _ _ _ _ Hs Hhd) as (nd & Hnd & (_&_&_&Hl)).
    exists nd. split; [exact Hnd|]. lia.
  - apply elem_of_level in Hin as (e & He & <- & Ht).
    destruct (entries e) as (nd0 & Hnd0 & _ & _ & _ & Hl0);
      [apply elem_of_app; left; exact He|].
    destruct (same_nodes_lookup _ _ _ _ Hs Hnd0) as (nd & Hnd & (_&_&_&Hl)).
    exists nd. split; [exact Hnd|]. lia.
Qed.

Lemma insert_node_loop n : forall i ns,
  (i + n = node_level)%nat ->
  same_nodes ns0 ns ->
  (forall L, (L < top)%nat -> seg ns L header_ (linked_below i L) None) ->
  exists ns',
    insert_node n i ns node update = Some ns'
    /\ same_nodes ns0 ns'
    /\ forall L, (L < top)%nat -> seg ns' L header_ (linked_below node_level L) None.
Proof.
  induction n as [|n IH]; intros i ns Hi Hs Hsegs.
  - exists ns. replace node_level with i by lia. auto.
  - cbn [insert_node]. rewrite update_pred by lia. cbn.
    assert (HiT : (i < top)%nat) by lia.
    pose proof (Hsegs i HiT) as Hseg. unfold linked_below in Hseg.
    rewrite decide_False in Hseg by lia.
    pose proof (proj1 (proj1 (seg_app _ _ _ _ _ _) Hseg)) as Hpre.
    apply seg_end in Hpre. fold (pred_at A i) in Hpre. rewrite Hpre. cbn.
    destruct new_node as (nd0 & Hnd0 & Hlen0).
    destruct (same_nodes_lookup _ _ _ _ Hs Hnd0) as (nd & Hnd & (_&_&_&Hl)).
    destruct (set_forward_Some ns node i nd (head_or (level i B) None) Hnd ltac:(lia))
      as [ns1 Hset1].
    rewrite Hset1. cbn.
    pose proof (same_nodes_trans _ _ _ Hs (same_nodes_set_forward _ _ _ _ _ Hset1)) as Hs1.
    destruct (pred_at_has_level ns1 i Hs1 HiT) as (ndu & Hndu & Hlu).
    destruct (set_forward_Some ns1 (pred_at A i) i ndu (Some node) Hndu Hlu) as [ns2 Hset2].
    rewrite Hset2. cbn.
    pose proof (same_nodes_trans _ _ _ Hs1 (same_nodes_set_forward _ _ _ _ _ Hset2)) as Hs2.
    assert (Hfw : forall h L, forward_at ns2 h L
              = if decide (h = pred_at A i /\ L = i) then Some (Some node)
                else if decide (h = node /\ L = i) then Some (head_or (level i B) None)
                else forward_at ns h L).
    { intros h L. rewrite (forward_at_set_forward _ _ _ _ _ h L Hset2).
      case_decide; [reflexivity|].
      apply (forward_at_set_forward _ _ _ _ _ h L Hset1). }
    assert (Hne : pred_at A i <> node).
    { intros E. apply (not_elem_header_level i _ _ fresh).
      rewrite <- E, level_app, app_comm_cons. apply elem_of_app. left.
      apply last_from_elem. }
    apply (IH (S i) ns2); [lia|exact Hs2|].
    intros L HL. unfold linked_below.
    destruct (decide (L = i)) as [->|HLi].
    + rewrite decide_True by lia.
      apply (seg_link ns ns2 i node (level i A) (level i B)).
      * exact Hseg.
      * rewrite <- level_app. apply NoDup_header_level, distinct.
      * rewrite <- level_app. apply not_elem_header_level, fresh.
      * intros h Hh. rewrite Hfw. fold (pred_at A i).
        destruct (decide (h = pred_at A i)) as [->|Hhu].
        -- rewrite decide_True by auto. reflexivity.
        -- rewrite decide_False by tauto. rewrite decide_False; [reflexivity|].
           intros [-> _]. apply (not_elem_header_level i _ _ fresh).
           rewrite level_app. exact Hh.
      * rewrite Hfw. rewrite decide_False by (intros [? _]; congruence).
        rewrite decide_True by auto. reflexivity.
    + specialize (Hsegs L HL). unfold linked_below in Hsegs.
      assert (E : (if decide (L < S i)%nat then node :: level L B else level L B)
                  = (if decide (L < i)%nat then node :: level L B else level L B)).
      { destruct (decide (L < i)%nat), (decide (L < S i)%nat); auto; lia. }
      rewrite E. apply (seg_ext ns); [|exact Hsegs].
      intros h _. rewrite Hfw. rewrite !decide_False by tauto. reflexivity.
Qed.

End InsertNode.

Lemma seg_head ns L from hs to :
  seg ns L from hs to -> forward_at ns from L = Some (head_or hs to).
Proof. destruct hs; cbn; [auto|]. intros [H _]. exact H. Qed.

(** *** Splicing a node out: the loop of [erase] *)

Section Unlink.
Variables (ns0 : gmap handle Node) (A B : list entry) (t : entry) (top : nat).
Variable (update : list (option handle)).

Hypothesis header_node : exists hd,
  ns0 !! header_ = Some hd /\ length (forward hd) = top.
Hypothesis entries : forall e, e ∈ A ++ t :: B -> models ns0 e.
Hypothesis distinct : NoDup (header_ :: (e_h <$> A ++ t :: B)).
Hypothesis update_pred : forall L, (L < e_height t)%nat ->
  update !! L = Some (Some (pred_at A L)).
Hypothesis height_top : (e_height t <= top)%nat.

(** The chain of level [L] once the levels below [i] are spliced. *)
Definition unlinked_below (i L : nat) : list handle :=
  level L A ++ (if decide (L < i)%nat then level L B else level L (t :: B)).

Lemma unlink_pred_has_level ns L :
  same_nodes ns0 ns -> (L < top)%nat ->
  exists nd, ns !! pred_at A L = Some nd /\ (L < length (forward nd))%nat.
Proof.
  intros Hs HL. pose proof (last_from_elem header_ (level L A)) as Hin.
  fold (pred_at A L) in Hin. apply elem_of_cons in Hin as [->|Hin].
  - destruct header_node as (hd & Hhd & Hlen).
    destruct (same_nodes_lookup _ _ _ _ Hs Hhd) as (nd & Hnd & (_&_&_&Hl)).
    exists nd. split; [exact Hnd|]. lia.
  - apply elem_of_level in Hin as (e & He & <- & Ht).
    destruct (entries e) as (nd0 & Hnd0 & _ & _ & _ & Hl0);
      [apply elem_of_app; left; exact He|].
    destruct (same_nodes_lookup _ _ _ _ Hs Hnd0) as (nd & Hnd & (_&_&_&Hl)).
    exists nd. split; [exact Hnd|]. lia.
Qed.

Lemma unlink_loop n : forall i ns removed,
  (i + n = e_height t)%nat ->
  same_nodes ns0 ns ->
  (forall L, (L < top)%nat -> seg ns L header_ (unlinked_below i L) None) ->
  exists ns',
    unlink n i ns (e_h t) update removed
    = Some (ns', match n with O => removed | S _ => true end)
    /\ same_nodes ns0 ns'
    /\ forall L, (L < top)%nat -> seg ns' L header_ (unlinked_below (e_height t) L) None.
Proof.
  induction n as [|n IH]; intros i ns removed Hi Hs Hsegs.
  - exists ns. replace (e_height t) with i by lia. auto.
  - cbn [unlink]. rewrite update_pred by lia. cbn.
    assert (HiT : (i < top)%nat) by lia.
    pose proof (Hsegs i HiT) as Hseg. unfold unlinked_below in Hseg.
    rewrite decide_False in Hseg by lia.
    rewrite level_cons, decide_True in Hseg by lia.
    pose proof (proj1 (seg_app _ _ _ _ _ _) Hseg) as [Hpre Hsuf].
    apply seg_end in Hpre. fold (pred_at A i) in Hpre, Hsuf. cbn [head_or] in Hpre.
    rewrite Hpre. cbn. rewrite decide_True by reflexivity.
    destruct Hsuf as [_ Hsuf]. apply seg_head in Hsuf. rewrite Hsuf. cbn.
    destruct (unlink_pred_has_level ns i Hs HiT) as (ndu & Hndu & Hlu).
    destruct (set_forward_Some ns (pred_at A i) i ndu (head_or (level i B) None) Hndu Hlu)
      as [ns1 Hset1].
    rewrite Hset1. cbn.
    pose proof (same_nodes_trans _ _ _ Hs (same_nodes_set_forward _ _ _ _ _ Hset1)) as Hs1.
    destruct (IH (S i) ns1 true) as (ns' & Hrun & Hs' & Hsegs'); [lia|exact Hs1| |].
    + intros L HL. unfold unlinked_below.
      destruct (decide (L = i)) as [->|HLi].
      * rewrite decide_True by lia.
        apply (seg_unlink ns ns1 i (e_h t) (level i A) (level i B)).
        -- exact Hseg.
        -- pose proof (NoDup_header_level i _ distinct) as Hnd.
           rewrite level_app, level_cons, decide_True in Hnd by lia. exact Hnd.
        -- intros h Hh. rewrite (forward_at_set_forward _ _ _ _ _ h i Hset1).
           fold (pred_at A i).
           destruct (decide (h = pred_at A i)) as [->|Hne].
           ++ rewrite decide_True by auto. reflexivity.
           ++ rewrite decide_False by tauto. reflexivity.
      * specialize (Hsegs L HL). unfold unlinked_below in Hsegs.
        assert (E : (if decide (L < S i)%nat then level L B else level L (t :: B))
                    = (if decide (L < i)%nat then level L B else level L (t :: B))).
        { destruct (decide (L < i)%nat), (decide (L < S i)%nat); auto; lia. }
        rewrite E. apply (seg_ext ns); [|exact Hsegs].
        intros h _. rewrite (forward_at_set_forward _ _ _ _ _ h L Hset1).
        rewrite decide_False by tauto. reflexivity.
    + exists ns'. split; [|auto]. rewrite Hrun. destruct n; reflexivity.
Qed.

End Unlink.

Lemma unlinked_all A B t L : unlinked_below A B t (e_height t) L = level L (A ++ B).
Proof.
  unfold unlinked_below. rewrite level_app. f_equal.
  case_decide; [reflexivity|]. rewrite level_cons, decide_False by lia. reflexivity.
Qed.

(** *** The small loops *)

Lemma shrink_spec ns : forall cl,
  (forall L, (L < cl)%nat -> is_Some (forward_at ns header_ L)) ->
  exists cl',
    shrink ns cl = Some cl' /\ (cl' <= cl)%nat /\ ((1 <= cl)%nat -> (1 <= cl')%nat)
    /\ forall L, (cl' <= L < cl)%nat -> forward_at ns header_ L = Some None.
Proof.
  induction cl as [|cl IH]; intros Hdef.
  - exists 0%nat. cbn. repeat split; auto; intros; lia.
  - destruct cl as [|cl].
    + exists 1%nat. cbn. repeat split; auto; intros; lia.
    + cbn [shrink]. destruct (Hdef (S cl) ltac:(lia)) as [f Hf]. rewrite Hf. cbn.
      destruct f as [h|].
      * exists (S (S cl)). repeat split; auto; intros; lia.
      * destruct IH as (cl' & Hrun & Hle & Hpos & Hnull).
        { intros L HL. apply Hdef. lia. }
        exists cl'. split; [exact Hrun|]. split; [lia|]. split; [intros; apply Hpos; lia|].
        intros L HL. destruct (decide (L = S cl)) as [->|Hne]; [exact Hf|].
        apply Hnull. lia.
Qed.

Lemma fill_header_spec n : forall lv update,
  (lv + n <= length update)%nat ->
  exists update',
    fill_header n lv update = Some update'
    /\ length update' = length update
    /\ (forall L, (lv <= L < lv + n)%nat -> update' !! L = Some (Some header_))
    /\ (forall L, (L < lv \/ lv + n <= L)%nat -> update' !! L = update !! L).
Proof.
  induction n as [|n IH]; intros lv update Hlen.
  - exists update. cbn. repeat split; auto. intros; lia.
  - cbn [fill_header]. rewrite decide_True by lia.
    destruct (IH (S lv) (<[lv := Some header_]> update)) as (u' & Hrun & Hlen' & Hin & Hout).
    { rewrite length_insert. lia. }
    exists u'. split; [exact Hrun|]. split; [rewrite Hlen', length_insert; reflexivity|].
    split.
    + intros L HL. destruct (decide (L = lv)) as [->|Hne].
      * rewrite Hout by lia. apply list_lookup_insert_eq. lia.
      * apply Hin. lia.
    + intros L HL. rewrite Hout by lia. apply list_lookup_insert_ne. lia.
Qed.

Lemma random_level_loop_spec sl fuel : forall drawn lv,
  1 <= lv <= max_levels_ sl ->
  (Z.to_nat (max_levels_ sl - lv) < fuel)%nat ->
  exists node_level drawn',
    random_level_loop fuel sl drawn lv = Some (node_level, drawn')
    /\ lv <= node_level <= max_levels_ sl.
Proof.
  induction fuel as [|fuel IH]; intros drawn lv Hlv Hfuel; [lia|].
  cbn [random_level_loop]. destruct (Z.ltb_spec lv (max_levels_ sl)).
  - destruct (rng_ sl drawn <? probability_ sl)%float.
    + destruct (IH (S drawn) (lv + 1)) as (nl & d & Hrun & Hr); [lia|lia|].
      exists nl, d. split; [exact Hrun|lia].
    + eexists _, _. split; [reflexivity|lia].
  - eexists _, _. split; [reflexivity|lia].
Qed.

Lemma random_level_spec sl :
  1 <= max_levels_ sl ->
  exists node_level drawn,
    random_level sl = Some (node_level, drawn) /\ 1 <= node_level <= max_levels_ sl.
Proof.
  intros Hm. unfold random_level. apply random_level_loop_spec; lia.
Qed.

(** *** The invariant of the list *)

Record inv (sl : SkipList) (l : list entry) : Prop := {
  inv_levels :
    1 <= current_level_ sl <= max_levels_ sl /\ max_levels_ sl <= kMaxSupportedLevels;
  inv_header : exists hd,
    nodes sl !! header_ = Some hd /\ length (forward hd) = Z.to_nat (max_levels_ sl);
  inv_models : forall e, e ∈ l -> models (nodes sl) e;
  inv_heights : forall e, e ∈ l -> (1 <= e_height e <= Z.to_nat (current_level_ sl))%nat;
  inv_alloc : forall h, is_Some (nodes sl !! h) -> (h < next_node sl)%nat;
  inv_distinct : NoDup (header_ :: (e_h <$> l));
  inv_ids : NoDup (e_id <$> l);
  inv_count : base.size (nodes sl) = S (length l);
  inv_chain : forall L, (L < Z.to_nat (max_levels_ sl))%nat ->
    seg (nodes sl) L header_ (level L l) None;
  inv_sorted : StronglySorted before l;
  inv_scores : forall e, e ∈ l -> Key.not_nan (e_score e);
  inv_index : forall id h,
    index_ sl !! id = Some h <-> exists e, e ∈ l /\ e_h e = h /\ e_id e = id;
  inv_size : size_ sl = u64 (Z.of_nat (length l))
}.

(** Removing the entry of [id] from a list whose ids are distinct. *)
Lemma filter_id_absent id (l : list entry) :
  id ∉ e_id <$> l -> filter (fun e => e_id e <> id) l = l.
Proof.
  induction l as [|e l IH]; intros Hnin; [reflexivity|].
  rewrite fmap_cons in Hnin. apply not_elem_of_cons in Hnin as [Hne Hnin].
  rewrite filter_cons_True by congruence. rewrite IH by exact Hnin. reflexivity.
Qed.

Lemma filter_id_present id (A : list entry) t B :
  NoDup (e_id <$> A ++ t :: B) -> e_id t = id ->
  filter (fun e => e_id e <> id) (A ++ t :: B) = A ++ B.
Proof.
  intros Hnd Ht. rewrite fmap_app, fmap_cons in Hnd.
  apply NoDup_app in Hnd as (_ & Hdisj & [Hnin _]%NoDup_cons).
  rewrite filter_app, filter_cons_False by (intros H; apply H; exact Ht).
  rewrite !filter_id_absent; [reflexivity| |].
  - rewrite <- Ht. exact Hnin.
  - rewrite <- Ht. intros Hin. apply (Hdisj _ Hin). apply list_elem_of_here.
Qed.

(** The fields an operation leaves alone. *)
Definition same_config (sl sl' : SkipList) : Prop :=
  max_levels_ sl' = max_levels_ sl /\ probability_ sl' = probability_ sl
  /\ rng_ sl' = rng_ sl.

Lemma erase_absent sl l id :
  inv sl l -> id ∉ e_id <$> l -> erase sl id = Some (false, sl).
Proof.
  intros Hinv Hnin. unfold erase.
  destruct (index_ sl !! id) as [h|] eqn:E; [|reflexivity].
  apply (inv_index _ _ Hinv) in E as (e & He & _ & Hid).
  exfalso. apply Hnin. rewrite <- Hid. apply list_elem_of_fmap_2, He.
Qed.

Lemma models_same_nodes ns ns' e : same_nodes ns ns' -> models ns e -> models ns' e.
Proof.
  intros Hs (nd & Hnd & H1 & H2 & H3 & H4).
  destruct (same_nodes_lookup _ _ _ _ Hs Hnd) as (nd' & Hnd' & (E1 & E2 & E3 & E4)).
  exists nd'. split; [exact Hnd'|]. repeat split; congruence.
Qed.

Lemma u64_pred_succ n : u64 (u64 (Z.of_nat (S n)) - 1) = u64 (Z.of_nat n).
Proof.
  unfold u64. rewrite Zminus_mod_idemp_l. f_equal. lia.
Qed.

Lemma u64_succ n : u64 (u64 (Z.of_nat n) + 1) = u64 (Z.of_nat (S n)).
Proof.
  unfold u64. rewrite Zplus_mod_idemp_l. f_equal. lia.
Qed.

Lemma erase_present sl A t B :
  inv sl (A ++ t :: B) ->
  exists sl',
    erase sl (e_id t) = Some (true, sl')
    /\ inv sl' (A ++ B)
    /\ same_config sl sl' /\ rng_drawn sl' = rng_drawn sl
    /\ next_node sl' = next_node sl.
Proof.
  intros Hinv. pose proof Hinv as [Hlv Hhd Hmod Hht Halloc Hdist Hids Hcount Hchain
                                     Hsorted Hscores Hindex Hsize].
  assert (Ht : t ∈ A ++ t :: B) by (apply elem_of_app; right; apply list_elem_of_here).
  destruct (Hmod t Ht) as (tnode & Htnode & Hid & Hscore & Hts & Hlen).
  unfold erase.
  assert (Hidx : index_ sl !! e_id t = Some (e_h t)) by (apply Hindex; eauto).
  rewrite Hidx, Htnode. cbn.
  set (adv := fun (h : handle) (nd : Node) =>
                negb (h =? e_h t)%nat
                && comes_before nd (score tnode) (user_id tnode)).
  set (top := Z.to_nat (max_levels_ sl)).
  pose proof (proj1 (StronglySorted_app _ _ _) Hsorted) as (HAB & HsA & HsB).
  apply StronglySorted_cons in HsB as [HtB HsB].
  pose proof Hdist as [Hhdr Hnd]%NoDup_cons.
  (* the search *)
  destruct (descend_spec (nodes sl) adv A (t :: B) top) with
    (levels := Z.to_nat (current_level_ sl)) (cur := header_)
    (update := replicate top (@None handle))
    as (update & Hdesc & Hulen & Hupd & _).
  { intros L HL. rewrite <- level_app. apply Hchain, HL. }
  { intros e He. destruct (Hmod e) as (nd & Hnd' & Hi & Hs & _);
      [apply elem_of_app; left; exact He|].
    exists nd. split; [exact Hnd'|]. unfold adv, comes_before.
    rewrite Hi, Hs, Hid, Hscore. apply andb_true_intro. split.
    - apply negb_true_iff, Nat.eqb_neq. intros E.
      rewrite fmap_app, fmap_cons in Hnd. apply NoDup_app in Hnd as (_ & Hdisj & _).
      apply (Hdisj (e_h e)); [apply list_elem_of_fmap_2, He|].
      rewrite E. apply list_elem_of_here.
    - apply (HAB e t He). apply list_elem_of_here. }
  { intros e He. destruct (Hmod e) as (nd & Hnd' & Hi & Hs & _);
      [apply elem_of_app; right; exact He|].
    exists nd. split; [exact Hnd'|]. unfold adv, comes_before.
    apply elem_of_cons in He as [->|He].
    - rewrite Nat.eqb_refl. reflexivity.
    - rewrite Hi, Hs, Hid, Hscore. apply andb_false_intro2.
      apply Key.comes_before_asym.
      + apply Hscores, Ht.
      + apply Hscores. apply elem_of_app. right. apply list_elem_of_further, He.
      + rewrite Forall_forall in HtB. apply (HtB e He). }
  { rewrite Hcount, length_app. cbn. lia. }
  { unfold top. lia. }
  { rewrite length_replicate. unfold top. lia. }
  { apply list_elem_of_here. }
  fold top. fold adv. rewrite Hdesc. cbn.
  (* the splice *)
  destruct (unlink_loop (nodes sl) A B t top update) with
    (n := length (forward tnode)) (i := 0%nat) (ns := nodes sl) (removed := false)
    as (ns1 & Hunl & Hs1 & Hsegs).
  { exact Hhd. }
  { exact Hmod. }
  { exact Hdist. }
  { intros L HL. apply Hupd. specialize (Hht t Ht). lia. }
  { specialize (Hht t Ht). unfold top. lia. }
  { lia. }
  { apply same_nodes_refl. }
  { intros L HL. unfold unlinked_below. rewrite decide_False by lia.
    rewrite <- level_app. apply Hchain, HL. }
  rewrite Hunl. cbn.
  assert (Hpos : (1 <= length (forward tnode))%nat) by (specialize (Hht t Ht); lia).
  destruct (length (forward tnode)) as [|k] eqn:Ek; [lia|]. cbn [negb].
  (* the level *)
  destruct (shrink_spec ns1 (Z.to_nat (current_level_ sl)))
    as (cl' & Hshr & Hcl & Hcl1 & Hnull).
  { intros L HL. specialize (Hsegs L ltac:(unfold top; lia)).
    apply seg_head in Hsegs. rewrite Hsegs. eauto. }
  rewrite Hshr. cbn. eexists. split; [reflexivity|].
  assert (HtAB : forall e, e ∈ A ++ B -> e_h e <> e_h t).
  { intros e He E. rewrite fmap_app, fmap_cons in Hnd.
    apply NoDup_app in Hnd as (_ & Hdisj & [Hnin _]%NoDup_cons).
    apply elem_of_app in He as [He|He].
    - apply (Hdisj (e_h e)); [apply list_elem_of_fmap_2, He|].
      rewrite E. apply list_elem_of_here.
    - apply Hnin. rewrite <- E. apply list_elem_of_fmap_2, He. }
  assert (HinAB : forall e, e ∈ A ++ B -> e ∈ A ++ t :: B).
  { intros e He. apply elem_of_app in He as [He|He]; apply elem_of_app; auto.
    right. apply list_elem_of_further, He. }
  split; [|repeat split; reflexivity].
  constructor; cbn [nodes max_levels_ current_level_ size_ index_ next_node].
  - specialize (Hcl1 ltac:(lia)). lia.
  - destruct Hhd as (hd & Hhd & Hl).
    destruct (same_nodes_lookup _ _ _ _ Hs1 Hhd) as (hd' & Hhd' & (_&_&_&Hl')).
    exists hd'. split; [|lia]. rewrite lookup_delete_ne; [exact Hhd'|].
    intros E. apply Hhdr. rewrite <- E. apply list_elem_of_fmap_2, Ht.
  - intros e He. destruct (models_same_nodes _ _ e Hs1 (Hmod e (HinAB e He)))
      as (nd & Hnd' & Hrest).
    exists nd. split; [|exact Hrest]. rewrite lookup_delete_ne; [exact Hnd'|].
    intros E. apply (HtAB e He). congruence.
  - intros e He. specialize (Hht e (HinAB e He)). split; [lia|].
    rewrite Nat2Z.id. destruct (le_lt_dec (e_height e) cl') as [Hle|Hgt]; [exact Hle|].
    exfalso. specialize (Hnull cl' ltac:(lia)).
    specialize (Hsegs cl' ltac:(unfold top; lia)).
    rewrite unlinked_all in Hsegs. apply seg_head in Hsegs. rewrite Hnull in Hsegs.
    assert (Hin : e_h e ∈ level cl' (A ++ B)) by (apply elem_of_level; eauto).
    destruct (level cl' (A ++ B)); [apply elem_of_nil in Hin; exact Hin|discriminate].
  - intros h [nd Hh]. apply Halloc.
    apply lookup_delete_Some in Hh as [_ Hh].
    specialize (Hs1 h). rewrite Hh in Hs1. destruct (nodes sl !! h); [eauto|contradiction].
  - rewrite fmap_app in Hdist |- *. rewrite fmap_cons in Hdist.
    apply NoDup_cons in Hdist as [Hh Hd]. apply NoDup_cons. split.
    + intros Hin. apply Hh. apply elem_of_app in Hin as [Hin|Hin]; apply elem_of_app; auto.
      right. apply list_elem_of_further, Hin.
    + apply NoDup_app in Hd as (H1 & H2 & [_ H3]%NoDup_cons). apply NoDup_app.
      split; [exact H1|]. split; [|exact H3].
      intros x Hx Hx'. apply (H2 x Hx). apply list_elem_of_further, Hx'.
  - rewrite fmap_app in Hids |- *. rewrite fmap_cons in Hids.
    apply NoDup_app in Hids as (H1 & H2 & [_ H3]%NoDup_cons). apply NoDup_app.
    split; [exact H1|]. split; [|exact H3].
    intros x Hx Hx'. apply (H2 x Hx). apply list_elem_of_further, Hx'.
  - rewrite map_size_delete_Some.
    + rewrite <- (same_nodes_size _ _ Hs1), Hcount, !length_app. cbn. lia.
    + destruct (same_nodes_lookup _ _ _ _ Hs1 Htnode) as (nd & Hnd' & _). eauto.
  - intros L HL. specialize (Hsegs L HL). rewrite unlinked_all in Hsegs.
    apply (seg_ext ns1); [|exact Hsegs].
    intros h Hh. unfold forward_at. rewrite lookup_delete_ne; [reflexivity|].
    intros E. apply elem_of_cons in Hh as [->|Hh].
    + apply Hhdr. rewrite <- E. apply list_elem_of_fmap_2, Ht.
    + apply elem_of_level in Hh as (e & He & Heh & _). apply (HtAB e He). congruence.
  - apply StronglySorted_app. split; [|split; [exact HsA|exact HsB]].
    intros x1 x2 H1 H2. apply (HAB x1 x2 H1). apply list_elem_of_further, H2.
  - intros e He. apply Hscores, HinAB, He.
  - intros id h. rewrite lookup_delete_Some, Hindex. split.
    + intros (Hne & e & He & Heh & Hei). exists e. split; [|auto].
      apply elem_of_app in He as [He|He]; [apply elem_of_app; auto|].
      apply elem_of_cons in He as [->|He]; [congruence|]. apply elem_of_app; auto.
    + intros (e & He & Heh & Hei). split.
      * intros E. rewrite fmap_app, fmap_cons in Hids.
        apply NoDup_app in Hids as (_ & H2 & [H3 _]%NoDup_cons).
        apply elem_of_app in He as [He|He].
        -- apply (H2 (e_id e)); [apply list_elem_of_fmap_2, He|].
           rewrite Hei, <- E. apply list_elem_of_here.
        -- apply H3. rewrite E, <- Hei. apply list_elem_of_fmap_2, He.
      * exists e. split; [apply HinAB, He|auto].
  - rewrite Hsize, !length_app. cbn [length].
    replace (length A + S (length B))%nat with (S (length A + length B)) by lia.
    apply u64_pred_succ.
Qed.

(** *** Linking a key that is not in the list *)

(** A sorted list splits at a key into the entries that come before it and
    those that do not. *)
Lemma sorted_split (l : list entry) s id :
  StronglySorted before l ->
  (forall e, e ∈ l -> Key.not_nan (e_score e)) -> Key.not_nan s ->
  exists A B,
    l = A ++ B
    /\ (forall a, a ∈ A -> Key.comes_before (e_score a) (e_id a) s id = true)
    /\ (forall b, b ∈ B -> Key.comes_before (e_score b) (e_id b) s id = false).
Proof.
  intros Hsorted Hnan Hs. induction l as [|x l IH].
  - exists [], []. repeat split; intros ? []%elem_of_nil.
  - apply StronglySorted_cons in Hsorted as [Hx Hsorted].
    destruct (Key.comes_before (e_score x) (e_id x) s id) eqn:Ex.
    + destruct IH as (A & B & -> & HA & HB); [exact Hsorted| |].
      { intros e He. apply Hnan. apply list_elem_of_further, He. }
      exists (x :: A), B. split; [reflexivity|]. split; [|exact HB].
      intros a [->|Ha]%elem_of_cons; auto.
    + exists [], (x :: l). split; [reflexivity|]. split; [intros ? []%elem_of_nil|].
      intros b [->|Hb]%elem_of_cons; [exact Ex|].
      destruct (Key.comes_before (e_score b) (e_id b) s id) eqn:Eb; [|reflexivity].
      rewrite Forall_forall in Hx.
      rewrite (Key.comes_before_trans _ _ _ _ _ _
                 (Hnan x (list_elem_of_here _ _))
                 (Hnan b (list_elem_of_further _ _ _ Hb)) Hs (Hx b Hb) Eb) in Ex.
      discriminate.
Qed.

Lemma link_new_inv sl l id s ts :
  inv sl l -> id ∉ e_id <$> l -> Key.not_nan s ->
  exists sl' A B e,
    link_new sl id s ts = Some sl'
    /\ l = A ++ B
    /\ e_id e = id /\ e_score e = s /\ e_ts e = ts
    /\ inv sl' (A ++ e :: B)
    /\ same_config sl sl'.
Proof.
  intros Hinv Hfresh Hs.
  pose proof Hinv as [Hlv Hhd Hmod Hht Halloc Hdist Hids Hcount Hchain
                       Hsorted Hscores Hindex Hsize].
  unfold kMaxSupportedLevels in Hlv.
  destruct (random_level_spec sl ltac:(lia)) as (nl & drawn & Hrl & Hnl).
  unfold link_new. rewrite Hrl. cbn.
  set (node := next_node sl).
  set (newnd := {| user_id := id; score := s; last_update := ts;
                   forward := replicate (Z.to_nat nl) None |}).
  set (ns := <[node := newnd]> (nodes sl)).
  set (top := Z.to_nat (max_levels_ sl)).
  assert (Hnone : nodes sl !! node = None).
  { destruct (nodes sl !! node) eqn:E; [|reflexivity].
    specialize (Halloc node ltac:(eauto)). unfold node in Halloc. lia. }
  assert (Hold : forall h, h <> node -> ns !! h = nodes sl !! h).
  { intros h Hne. unfold ns. apply lookup_insert_ne. congruence. }
  assert (Hlive : forall h, h ∈ header_ :: (e_h <$> l) -> h <> node).
  { intros h Hh E. subst h. apply elem_of_cons in Hh as [E|Hh].
    - destruct Hhd as (hd & Hhd & _). rewrite E in Hnone. congruence.
    - apply list_elem_of_fmap in Hh as (e & E & He).
      destruct (Hmod e He) as (nd & Hnd & _). rewrite E in Hnone. congruence. }
  destruct (sorted_split l s id Hsorted Hscores Hs) as (A & B & -> & HA & HB).
  assert (HinA : forall e, e ∈ A -> e ∈ A ++ B) by (intros; apply elem_of_app; auto).
  assert (HinB : forall e, e ∈ B -> e ∈ A ++ B) by (intros; apply elem_of_app; auto).
  assert (Hmod' : forall e, e ∈ A ++ B -> models ns e).
  { intros e He. destruct (Hmod e He) as (nd & Hnd & Hrest). exists nd.
    split; [|exact Hrest]. rewrite Hold; [exact Hnd|].
    apply Hlive. apply list_elem_of_further, list_elem_of_fmap_2, He. }
  assert (Hchain' : forall L, (L < top)%nat ->
            seg ns L header_ (level L A ++ level L B) None).
  { intros L HL. rewrite <- level_app. apply (seg_ext (nodes sl)); [|apply Hchain, HL].
    intros h Hh. unfold forward_at. rewrite Hold; [reflexivity|].
    apply Hlive. apply elem_of_cons in Hh as [->|Hh]; [apply list_elem_of_here|].
    apply list_elem_of_further. eapply level_subseteq, Hh. }
  (* the search *)
  destruct (descend_spec ns (fun _ nd => comes_before nd s id) A B top) with
    (levels := Z.to_nat (current_level_ sl)) (cur := header_)
    (update := replicate top (@None handle))
    as (update1 & Hdesc & Hulen & Hupd & Hrest).
  { exact Hchain'. }
  { intros e He. destruct (Hmod' e (HinA e He)) as (nd & Hnd & Hi & Hsc & _).
    exists nd. split; [exact Hnd|]. unfold comes_before. rewrite Hi, Hsc. apply HA, He. }
  { intros e He. destruct (Hmod' e (HinB e He)) as (nd & Hnd & Hi & Hsc & _).
    exists nd. split; [exact Hnd|]. unfold comes_before. rewrite Hi, Hsc. apply HB, He. }
  { unfold ns. rewrite map_size_insert_None by exact Hnone.
    rewrite Hcount, length_app. lia. }
  { unfold top. lia. }
  { rewrite length_replicate. unfold top. lia. }
  { apply list_elem_of_here. }
  fold top. rewrite Hdesc. cbn.
  (* the levels above the current one *)
  assert (Hpred_hi : forall L, (Z.to_nat (current_level_ sl) <= L)%nat ->
            pred_at A L = header_).
  { intros L HL. unfold pred_at. rewrite level_nil_of_heights; [reflexivity|].
    intros e He. specialize (Hht e (HinA e He)). lia. }
  assert (Hfill : exists update2,
            (if current_level_ sl <? nl
             then fill_header (Z.to_nat (nl - current_level_ sl))
                    (Z.to_nat (current_level_ sl)) update1
             else Some update1) = Some update2
            /\ forall L, (L < Z.to_nat nl)%nat ->
                 update2 !! L = Some (Some (pred_at A L))).
  { destruct (Z.ltb_spec (current_level_ sl) nl) as [Hlt|Hge].
    - destruct (fill_header_spec (Z.to_nat (nl - current_level_ sl))
                  (Z.to_nat (current_level_ sl)) update1)
        as (u2 & Hrun & _ & Hin & Hout).
      { rewrite Hulen, length_replicate. unfold top. lia. }
      exists u2. split; [exact Hrun|]. intros L HL.
      destruct (le_lt_dec (Z.to_nat (current_level_ sl)) L) as [Hhi|Hlo].
      + rewrite Hin by lia. rewrite Hpred_hi by exact Hhi. reflexivity.
      + rewrite Hout by lia. apply Hupd, Hlo.
    - exists update1. split; [reflexivity|]. intros L HL. apply Hupd. lia. }
  destruct Hfill as (update2 & -> & Hupd2). cbn.
  (* the links *)
  assert (Hnewnd : ns !! node = Some newnd) by apply lookup_insert_eq.
  destruct (insert_node_loop ns A B top node (Z.to_nat nl) update2) with
    (n := Z.to_nat nl) (i := 0%nat) (ns := ns) as (ns' & Hins & Hs' & Hsegs).
  { destruct Hhd as (hd & Hhd & Hl). exists hd. split; [|exact Hl].
    rewrite Hold; [exact Hhd|]. apply Hlive, list_elem_of_here. }
  { exact Hmod'. }
  { exists newnd. split; [exact Hnewnd|]. cbn. apply length_replicate. }
  { exact Hdist. }
  { intros Hin. apply (Hlive node Hin). reflexivity. }
  { exact Hupd2. }
  { unfold top. lia. }
  { lia. }
  { apply same_nodes_refl. }
  { intros L HL. unfold linked_below. rewrite decide_False by lia. apply Hchain', HL. }
  rewrite Hins. cbn.
  set (e := {| e_h := node; e_id := id; e_score := s; e_ts := ts;
               e_height := Z.to_nat nl |}).
  eexists _, A, B, e. split; [reflexivity|]. split; [reflexivity|].
  split; [reflexivity|]. split; [reflexivity|]. split; [reflexivity|].
  split; [|repeat split; reflexivity].
  assert (Hin' : forall x, x ∈ A ++ e :: B -> x = e \/ x ∈ A ++ B).
  { intros x [Hx|[->|Hx]%elem_of_cons]%elem_of_app; auto. }
  pose proof (proj1 (StronglySorted_app _ _ _) Hsorted) as (HAB & HsA & HsB).
  constructor; cbn [nodes max_levels_ current_level_ size_ index_ next_node].
  - unfold kMaxSupportedLevels. lia.
  - destruct Hhd as (hd & Hhd & Hl).
    assert (Hhd0 : ns !! header_ = Some hd).
    { rewrite Hold; [exact Hhd|]. apply Hlive, list_elem_of_here. }
    destruct (same_nodes_lookup _ _ _ _ Hs' Hhd0) as (hd' & Hhd' & (_&_&_&Hl')).
    exists hd'. split; [exact Hhd'|]. lia.
  - intros x Hx. apply (models_same_nodes ns ns' x Hs').
    destruct (Hin' x Hx) as [->|Hx']; [|apply Hmod', Hx'].
    exists newnd. split; [exact Hnewnd|]. cbn. rewrite length_replicate. auto.
  - intros x Hx. destruct (Hin' x Hx) as [->|Hx'].
    + cbn. lia.
    + specialize (Hht x Hx'). lia.
  - intros h [nd Hh]. pose proof (Hs' h) as Hsh. rewrite Hh in Hsh.
    destruct (ns !! h) as [nd0|] eqn:E0; [|contradiction].
    destruct (decide (h = node)) as [->|Hne]; [lia|].
    rewrite Hold in E0 by exact Hne. specialize (Halloc h ltac:(eauto)).
    fold node in Halloc. lia.
  - rewrite fmap_app, fmap_cons. rewrite fmap_app in Hdist.
    apply NoDup_cons in Hdist as [Hh Hd]. apply NoDup_cons. split.
    + intros [Hin|[E|Hin]%elem_of_cons]%elem_of_app.
      * apply Hh. apply elem_of_app. auto.
      * apply (Hlive header_ (list_elem_of_here _ _)). exact E.
      * apply Hh. apply elem_of_app. auto.
    + apply NoDup_app in Hd as (H1 & H2 & H3). apply NoDup_app. split; [exact H1|].
      split.
      * intros x Hx [->|Hx']%elem_of_cons; [|apply (H2 x Hx Hx')].
        apply (Hlive (e_h e)); [|reflexivity].
        apply list_elem_of_further. rewrite fmap_app. apply elem_of_app. auto.
      * apply NoDup_cons. split; [|exact H3]. intros Hin.
        apply (Hlive (e_h e)); [|reflexivity].
        apply list_elem_of_further. rewrite fmap_app. apply elem_of_app. auto.
  - rewrite fmap_app, fmap_cons. rewrite fmap_app in Hids, Hfresh.
    apply NoDup_app in Hids as (H1 & H2 & H3). apply NoDup_app. split; [exact H1|].
    split.
    + intros x Hx [->|Hx']%elem_of_cons; [|apply (H2 x Hx Hx')].
      apply Hfresh. apply elem_of_app. auto.
    + apply NoDup_cons. split; [|exact H3]. intros Hin.
      apply Hfresh. apply elem_of_app. auto.
  - rewrite <- (same_nodes_size _ _ Hs'). unfold ns.
    rewrite map_size_insert_None by exact Hnone.
    rewrite Hcount, !length_app. cbn. lia.
  - intros L HL. specialize (Hsegs L HL). unfold linked_below in Hsegs.
    rewrite level_app, level_cons. cbn [e_height e_h e].
    destruct (decide (L < Z.to_nat nl)%nat); exact Hsegs.
  - apply StronglySorted_app. split; [|split; [exact HsA|]].
    + intros x1 x2 H1 [->|H2]%elem_of_cons; [apply HA, H1|apply (HAB x1 x2 H1 H2)].
    + apply StronglySorted_cons. split; [|exact HsB].
      apply Forall_forall. intros b Hb. unfold before. cbn [e_score e_id e].
      destruct (Key.comes_before_total (e_score b) (e_id b) s id) as [Hc|Hc].
      * apply Hscores, HinB, Hb.
      * exact Hs.
      * intros E. apply Hfresh. rewrite <- E. apply list_elem_of_fmap_2, HinB, Hb.
      * rewrite (HB b Hb) in Hc. discriminate.
      * exact Hc.
  - intros x Hx. destruct (Hin' x Hx) as [->|Hx']; [exact Hs|apply Hscores, Hx'].
  - intros id' h. destruct (decide (id' = id)) as [->|Hne].
    + rewrite lookup_insert_eq. split.
      * intros [= <-]. exists e. split; [|auto].
        apply elem_of_app. right. apply list_elem_of_here.
      * intros (x & Hx & Hxh & Hxi). destruct (Hin' x Hx) as [->|Hx'].
        -- cbn in Hxh. congruence.
        -- exfalso. apply Hfresh. rewrite <- Hxi. apply list_elem_of_fmap_2, Hx'.
    + rewrite lookup_insert_ne by congruence. rewrite Hindex. split.
      * intros (x & Hx & Hxh & Hxi). exists x. split; [|auto].
        apply elem_of_app in Hx as [Hx|Hx]; apply elem_of_app; auto.
        right. apply list_elem_of_further, Hx.
      * intros (x & Hx & Hxh & Hxi). destruct (Hin' x Hx) as [->|Hx'].
        -- cbn in Hxi. congruence.
        -- exists x. auto.
  - rewrite Hsize, !length_app. cbn [length].
    replace (length A + S (length B))%nat with (S (length A + length B)) by lia.
    apply u64_succ.
Qed.

Lemma elem_of_ids_split (l : list entry) id :
  id ∈ e_id <$> l -> exists A t B, l = A ++ t :: B /\ e_id t = id.
Proof.
  intros (t & -> & Ht)%list_elem_of_fmap.
  apply list_elem_of_split in Ht as (A & B & ->). eauto.
Qed.

Lemma filter_id_not_elem id (l : list entry) :
  id ∉ e_id <$> filter (fun e => e_id e <> id) l.
Proof.
  intros (e & -> & He)%list_elem_of_fmap.
  apply list_elem_of_filter in He as [Hne _]. congruence.
Qed.

(** [erase] on any list that satisfies the invariant. *)
Lemma erase_inv sl l id :
  inv sl l ->
  exists sl',
    erase sl id = Some (bool_decide (id ∈ e_id <$> l), sl')
    /\ inv sl' (filter (fun e => e_id e <> id) l)
    /\ same_config sl sl'.
Proof.
  intros Hinv. destruct (decide (id ∈ e_id <$> l)) as [Hin|Hnin].
  - rewrite bool_decide_eq_true_2 by exact Hin.
    destruct (elem_of_ids_split l id Hin) as (A & t & B & -> & <-).
    destruct (erase_present sl A t B Hinv) as (sl' & Hrun & Hinv' & Hcfg & _).
    exists sl'. split; [exact Hrun|]. split; [|exact Hcfg].
    rewrite filter_id_present; [exact Hinv'|apply (inv_ids _ _ Hinv)|reflexivity].
  - rewrite bool_decide_eq_false_2 by exact Hnin.
    exists sl. split; [apply (erase_absent sl l id Hinv Hnin)|].
    rewrite filter_id_absent by exact Hnin. split; [exact Hinv|].
    repeat split; reflexivity.
Qed.

(** [upsert] on any list that satisfies the invariant. *)
Lemma upsert_inv sl l id s ts :
  inv sl l -> Key.not_nan s ->
  exists sl' A B e,
    upsert sl id s ts = Some sl'
    /\ filter (fun e => e_id e <> id) l = A ++ B
    /\ e_id e = id /\ e_score e = s /\ e_ts e = ts
    /\ inv sl' (A ++ e :: B)
    /\ same_config sl sl'.
Proof.
  intros Hinv Hs.
  destruct (erase_inv sl l id Hinv) as (sl1 & Herase & Hinv1 & Hc1).
  destruct (link_new_inv sl1 _ id s ts Hinv1 (filter_id_not_elem id l) Hs)
    as (sl' & A & B & e & Hlink & Hsplit & Hid & Hsc & Hts & Hinv' & Hc2).
  exists sl', A, B, e. unfold upsert. rewrite Herase. cbn.
  split; [exact Hlink|]. repeat (split; [assumption|]).
  destruct Hc1 as (?&?&?), Hc2 as (?&?&?). repeat split; congruence.
Qed.

(** *** The list against the map of present users *)

Definition represents (l : list entry) (m : gmap string (float * Z)) : Prop :=
  forall id s ts,
    (exists e, e ∈ l /\ e_id e = id /\ e_score e = s /\ e_ts e = ts)
    <-> m !! id = Some (s, ts).

Lemma represents_erase l m id :
  represents l m -> represents (filter (fun e => e_id e <> id) l) (delete id m).
Proof.
  intros Hr id' s ts. rewrite lookup_delete_Some. rewrite <- (Hr id' s ts). split.
  - intros (e & [Hne He]%list_elem_of_filter & Hid & Hrest).
    split; [congruence|]. exists e. auto.
  - intros (Hne & e & He & Hid & Hrest). exists e. split; [|auto].
    apply list_elem_of_filter. split; [congruence|exact He].
Qed.

Lemma represents_upsert l m A B e :
  represents l m -> NoDup (e_id <$> A ++ e :: B) ->
  filter (fun x => e_id x <> e_id e) l = A ++ B ->
  represents (A ++ e :: B) (<[e_id e := (e_score e, e_ts e)]> m).
Proof.
  intros Hr Hnd Hsplit id s ts.
  pose proof (represents_erase l m (e_id e) Hr id s ts) as Hd. rewrite Hsplit in Hd.
  destruct (decide (id = e_id e)) as [->|Hne].
  - rewrite lookup_insert_eq. split.
    + intros (x & Hx & Hid & <- & <-).
      assert (x = e); [|subst; reflexivity].
      rewrite fmap_app, fmap_cons in Hnd.
      apply NoDup_app in Hnd as (_ & H2 & [H3 _]%NoDup_cons).
      apply elem_of_app in Hx as [Hx|[->|Hx]%elem_of_cons]; [exfalso|reflexivity|exfalso].
      * apply (H2 (e_id x)); [apply list_elem_of_fmap_2, Hx|].
        rewrite Hid. apply list_elem_of_here.
      * apply H3. rewrite <- Hid. apply list_elem_of_fmap_2, Hx.
    + intros [= <- <-]. exists e. split; [|auto].
      apply elem_of_app. right. apply list_elem_of_here.
  - rewrite lookup_insert_ne by congruence.
    rewrite lookup_delete_ne in Hd by congruence. rewrite <- Hd. split.
    + intros (x & Hx & Hrest). exists x. split; [|exact Hrest].
      apply elem_of_app in Hx as [Hx|[->|Hx]%elem_of_cons]; [| |];
        try (apply elem_of_app; auto; fail).
      destruct Hrest as [E _]. congruence.
    + intros (x & Hx & Hrest). exists x. split; [|exact Hrest].
      apply elem_of_app in Hx as [Hx|Hx]; apply elem_of_app; auto.
      right. apply list_elem_of_further, Hx.
Qed.

(** Every program whose scores are ordered keeps the invariant, and the
    list represents the users present. *)
Lemma run_inv ops : forall sl l m,
  inv sl l -> represents l m -> scores_ordered ops ->
  exists sl' l',
    run ops sl = Some sl' /\ inv sl' l' /\ represents l' (present ops m).
Proof.
  induction ops as [|[id s ts|id] ops IH]; intros sl l m Hinv Hrep Hok.
  - exists sl, l. auto.
  - apply Forall_cons in Hok as [Hs Hok]. cbn [run present].
    destruct (upsert_inv sl l id s ts Hinv Hs)
      as (sl1 & A & B & e & Hrun & Hsplit & Hid & Hsc & Hts & Hinv1 & _).
    rewrite Hrun. cbn. apply (IH sl1 (A ++ e :: B)); [exact Hinv1| |exact Hok].
    rewrite <- Hid, <- Hsc, <- Hts. apply (represents_upsert l); auto.
    + apply (inv_ids _ _ Hinv1).
    + rewrite Hid. exact Hsplit.
  - apply Forall_cons in Hok as [_ Hok]. cbn [run present].
    destruct (erase_inv sl l id Hinv) as (sl1 & Hrun & Hinv1 & _).
    rewrite Hrun. cbn. apply (IH sl1 _ _ Hinv1); [|exact Hok].
    apply represents_erase, Hrep.
Qed.

Lemma new_inv max_levels probability rng sl :
  new max_levels probability rng = Ok sl -> inv sl [].
Proof.
  unfold new, kMaxSupportedLevels.
  destruct (Z.leb_spec max_levels 0); [discriminate|].
  destruct (Z.ltb_spec 32 max_levels); [discriminate|]. cbn [orb].
  destruct (_ || _)%bool; [discriminate|]. intros [= <-].
  constructor; cbn [nodes max_levels_ current_level_ size_ index_ next_node];
    unfold kMaxSupportedLevels.
  - lia.
  - eexists. split; [apply lookup_singleton_eq|]. cbn. apply length_replicate.
  - intros e []%elem_of_nil.
  - intros e []%elem_of_nil.
  - intros h [nd Hh]. apply lookup_singleton_Some in Hh as [<- _]. unfold header_. lia.
  - apply NoDup_singleton.
  - constructor.
  - apply map_size_singleton.
  - intros L HL. unfold level. rewrite filter_nil, fmap_nil. cbn [seg].
    unfold forward_at. rewrite lookup_singleton_eq. cbn [mbind option_bind forward].
    apply lookup_replicate_2. exact HL.
  - constructor.
  - intros e []%elem_of_nil.
  - intros id h. rewrite lookup_empty. split; [discriminate|].
    intros (e & []%elem_of_nil & _).
  - reflexivity.
Qed.

(** *** The level-0 traversal *)

Definition agrees (nd : Node) (e : entry) : Prop :=
  user_id nd = e_id e /\ score nd = e_score e /\ last_update nd = e_ts e.

Lemma traverse_seg ns (l : list entry) : forall from fuel,
  seg ns 0 from (e_h <$> l) None ->
  (forall e, e ∈ l -> models ns e /\ (1 <= e_height e)%nat) ->
  (length l <= fuel)%nat ->
  exists nds,
    traverse fuel ns (head_or (e_h <$> l) None) = Some nds /\ Forall2 agrees nds l.
Proof.
  induction l as [|e l IH]; intros from fuel Hseg Hmod Hfuel.
  - exists []. split; [destruct fuel; reflexivity|constructor].
  - destruct fuel as [|fuel]; [cbn in Hfuel; lia|].
    rewrite fmap_cons in Hseg |- *. cbn [seg head_or traverse] in *.
    destruct Hseg as [_ Hseg].
    destruct (Hmod e (list_elem_of_here _ _)) as [(nd & Hnd & Hid & Hsc & Hts & Hlen) Hh].
    rewrite Hnd. cbn.
    pose proof (seg_head _ _ _ _ _ Hseg) as Hfw. unfold forward_at in Hfw.
    rewrite Hnd in Hfw. cbn in Hfw. rewrite Hfw. cbn.
    destruct (IH (e_h e) fuel Hseg) as (nds & Hrun & Hall).
    { intros x Hx. apply Hmod. apply list_elem_of_further, Hx. }
    { cbn in Hfuel. lia. }
    rewrite Hrun. cbn. exists (nd :: nds). split; [reflexivity|].
    constructor; [repeat split; assumption|exact Hall].
Qed.

Lemma level_zero (l : list entry) :
  (forall e, e ∈ l -> (1 <= e_height e)%nat) -> level 0 l = e_h <$> l.
Proof.
  intros Hh. unfold level. f_equal. induction l as [|e l IH]; [reflexivity|].
  rewrite filter_cons_True by (apply Hh, list_elem_of_here).
  f_equal. apply IH. intros x Hx. apply Hh. apply list_elem_of_further, Hx.
Qed.

Lemma for_each_inv sl l :
  inv sl l -> exists nds, for_each sl = Some nds /\ Forall2 agrees nds l.
Proof.
  intros Hinv. unfold for_each.
  pose proof (inv_levels _ _ Hinv) as Hlv.
  pose proof (inv_chain _ _ Hinv 0%nat ltac:(lia)) as Hseg.
  rewrite level_zero in Hseg by (intros e He; apply (inv_heights _ _ Hinv e He)).
  rewrite (seg_head _ _ _ _ _ Hseg). cbn [mbind option_bind].
  apply (traverse_seg _ l header_); [exact Hseg| |].
  - intros e He. split; [apply (inv_models _ _ Hinv e He)|].
    apply (inv_heights _ _ Hinv e He).
  - rewrite (inv_count _ _ Hinv). lia.
Qed.

(** The key order and the contents pass from the entries to the nodes. *)
Lemma agrees_sorted nds l :
  Forall2 agrees nds l -> StronglySorted before l ->
  StronglySorted (fun a b => comes_before a (score b) (user_id b) = true) nds.
Proof.
  induction 1 as [|nd e nds l Hag Hall IH]; intros Hs; [constructor|].
  apply StronglySorted_cons in Hs as [He Hs]. apply StronglySorted_cons.
  split; [|apply IH, Hs]. clear IH Hs.
  induction Hall as [|nd' e' nds l Hag' Hall IH]; [constructor|].
  apply Forall_cons in He as [Hee' He]. constructor; [|apply IH, He].
  destruct Hag as (E1 & E2 & _), Hag' as (E1' & E2' & _).
  unfold comes_before. rewrite E1, E2, E1', E2'. exact Hee'.
Qed.

Definition contents (nd : Node) : string * (float * Z) :=
  (user_id nd, (score nd, last_update nd)).

Lemma agrees_contents nds l :
  Forall2 agrees nds l ->
  contents <$> nds = (fun e => (e_id e, (e_score e, e_ts e))) <$> l.
Proof.
  induction 1 as [|nd e nds l (E1 & E2 & E3) _ IH]; [reflexivity|].
  rewrite !fmap_cons, IH. unfold contents. rewrite E1, E2, E3. reflexivity.
Qed.

Lemma represents_permutation (l : list entry) m :
  NoDup (e_id <$> l) -> represents l m ->
  (fun e => (e_id e, (e_score e, e_ts e))) <$> l ≡ₚ map_to_list m.
Proof.
  intros Hnd Hrep. apply NoDup_Permutation.
  - apply (NoDup_fmap_1 fst). rewrite <- list_fmap_compose. exact Hnd.
  - apply NoDup_map_to_list.
  - intros [id [s ts]]. rewrite elem_of_map_to_list, <- (Hrep id s ts).
    rewrite list_elem_of_fmap. split.
    + intros (e & [= -> -> ->] & He). eauto.
    + intros (e & He & <- & <- & <-). eauto.
Qed.

(** *** [tail] and [clear] *)

Lemma tail_loop_seg ns hs : forall h fuel,
  seg ns 0 h hs None -> (length hs < fuel)%nat ->
  tail_loop fuel ns h = Some (last_from h hs).
Proof.
  induction hs as [|x hs IH]; intros h fuel Hseg Hfuel;
    (destruct fuel as [|fuel]; [cbn in Hfuel; lia|]); cbn [tail_loop last_from seg] in *.
  - rewrite Hseg. reflexivity.
  - destruct Hseg as [-> Hseg]. cbn. apply IH; [exact Hseg|cbn in Hfuel; lia].
Qed.

Lemma last_last_from (h : handle) hs : last (h :: hs) = Some (last_from h hs).
Proof. revert h. induction hs as [|x hs IH]; intros h; [reflexivity|]. apply IH. Qed.

(** [tail] returns the node of the last entry. *)
Lemma tail_inv sl l : inv sl l -> tail sl = Some (last (e_h <$> l)).
Proof.
  intros Hinv. unfold tail.
  pose proof (inv_levels _ _ Hinv) as Hlv.
  pose proof (inv_chain _ _ Hinv 0%nat ltac:(lia)) as Hseg.
  rewrite level_zero in Hseg by (intros e He; apply (inv_heights _ _ Hinv e He)).
  rewrite (seg_head _ _ _ _ _ Hseg). cbn [mbind option_bind].
  destruct (e_h <$> l) as [|h hs] eqn:E; [reflexivity|]. cbn [head_or seg] in *.
  destruct Hseg as [_ Hseg].
  rewrite (tail_loop_seg _ hs h _ Hseg).
  - cbn. rewrite last_last_from. reflexivity.
  - rewrite (inv_count _ _ Hinv).
    assert (Hlen : length (e_h <$> l) = S (length hs)) by (rewrite E; reflexivity).
    rewrite length_fmap in Hlen. lia.
Qed.

(** Every node of [hs] points, on level 0, to the next one. *)
Fixpoint links (ns : gmap handle Node) (hs : list handle) : Prop :=
  match hs with
  | [] => True
  | h :: hs' => forward_at ns h 0 = Some (head_or hs' None) /\ links ns hs'
  end.

Lemma seg_links ns hs : forall from, seg ns 0 from hs None -> links ns hs.
Proof.
  induction hs as [|h hs IH]; intros from Hseg; [exact I|].
  cbn [seg links] in *. destruct Hseg as [_ Hseg].
  split; [apply (seg_head _ _ _ _ _ Hseg)|apply (IH h Hseg)].
Qed.

Lemma links_delete ns h hs : h ∉ hs -> links ns hs -> links (delete h ns) hs.
Proof.
  induction hs as [|x hs IH]; intros Hnin Hl; [exact I|].
  apply not_elem_of_cons in Hnin as [Hne Hnin]. destruct Hl as [Hx Hl].
  split; [|apply IH; assumption].
  unfold forward_at in *. rewrite lookup_delete_ne by congruence. exact Hx.
Qed.

Lemma delete_chain_links hs : forall ns fuel,
  links ns hs -> NoDup hs -> (length hs <= fuel)%nat ->
  exists ns',
    delete_chain fuel ns (head_or hs None) = Some ns'
    /\ (forall h, h ∉ hs -> ns' !! h = ns !! h)
    /\ (base.size ns' + length hs = base.size ns)%nat.
Proof.
  induction hs as [|h hs IH]; intros ns fuel Hl Hnd Hfuel.
  - exists ns. cbn. destruct fuel; auto.
  - destruct fuel as [|fuel]; [cbn in Hfuel; lia|].
    cbn [head_or delete_chain links] in *. destruct Hl as [Hh Hl].
    apply NoDup_cons in Hnd as [Hnin Hnd].
    rewrite Hh. cbn [mbind option_bind].
    destruct (IH (delete h ns) fuel (links_delete _ _ _ Hnin Hl) Hnd ltac:(cbn in Hfuel; lia))
      as (ns' & Hrun & Hkeep & Hsize).
    exists ns'. split; [exact Hrun|]. split.
    + intros k Hk. apply not_elem_of_cons in Hk as [Hne Hk].
      rewrite Hkeep by exact Hk. apply lookup_delete_ne. congruence.
    + assert (Hp : is_Some (ns !! h)).
      { unfold forward_at in Hh. destruct (ns !! h); [eauto|discriminate]. }
      rewrite map_size_delete_Some in Hsize by exact Hp.
      destruct Hp as [nd Hp].
      assert (base.size ns <> 0%nat).
      { intros H0. apply map_size_empty_inv in H0. rewrite H0, lookup_empty in Hp. discriminate. }
      cbn [length]. lia.
Qed.

(** [clear] leaves the empty list, with its configuration. *)
Lemma clear_inv sl l :
  inv sl l ->
  exists sl', clear sl = Some sl' /\ inv sl' [] /\ same_config sl sl'.
Proof.
  intros Hinv. pose proof Hinv as [Hlv Hhd Hmod Hht Halloc Hdist Hids Hcount Hchain
                                     Hsorted Hscores Hindex Hsize].
  pose proof (Hchain 0%nat ltac:(lia)) as Hseg.
  rewrite level_zero in Hseg by (intros e He; apply (Hht e He)).
  apply NoDup_cons in Hdist as [Hhnin Hnd].
  destruct (delete_chain_links (e_h <$> l) (nodes sl) (base.size (nodes sl))
              (seg_links _ _ _ Hseg) Hnd)
    as (ns' & Hrun & Hkeep & Hsz).
  { rewrite Hcount, length_fmap. lia. }
  destruct Hhd as (hd & Hhd & Hlen).
  assert (Hhd' : ns' !! header_ = Some hd) by (rewrite Hkeep by exact Hhnin; exact Hhd).
  unfold clear. rewrite (seg_head _ _ _ _ _ Hseg). cbn [mbind option_bind].
  rewrite Hrun. cbn [mbind option_bind]. rewrite Hhd'. cbn [mbind option_bind].
  eexists. split; [reflexivity|]. split; [|repeat split].
  constructor; cbn [nodes max_levels_ current_level_ size_ index_ next_node].
  - lia.
  - eexists. split; [apply lookup_insert_eq|]. cbn [forward]. rewrite length_replicate. exact Hlen.
  - intros e []%elem_of_nil.
  - intros e []%elem_of_nil.
  - intros h [nd Hh]. apply Halloc.
    destruct (decide (h = header_)) as [->|Hne]; [eauto|].
    rewrite lookup_insert_ne in Hh by congruence.
    destruct (decide (h ∈ e_h <$> l)) as [Hin|Hnin].
    + apply list_elem_of_fmap in Hin as (e & -> & He).
      destruct (Hmod e He) as (nd' & Hnd' & _). eauto.
    + rewrite Hkeep in Hh by exact Hnin. eauto.
  - apply NoDup_singleton.
  - apply NoDup_nil_2.
  - rewrite map_size_insert_Some by eauto. rewrite length_fmap in Hsz. cbn [length]. lia.
  - intros L HL. unfold level. rewrite filter_nil, fmap_nil. cbn [seg].
    unfold forward_at. rewrite lookup_insert_eq. cbn [mbind option_bind forward].
    apply lookup_replicate_2. lia.
  - constructor.
  - intros e []%elem_of_nil.
  - intros id h. rewrite lookup_empty. split; [discriminate|].
    intros (e & []%elem_of_nil & _).
  - reflexivity.
Qed.

End SkipListFacts.

(** C3. Sorted order of the level-0 traversal. Starting from a freshly
    constructed list, after any program of [upsert] and [erase] calls whose
    scores are not NaN, the traversal visits exactly the users present, one
    node each, by descending score and, for equal scores, ascending user
    id: a sorted permutation of the present entries. *)
Theorem skiplist_traversal_sorted max_levels probability rng sl0 ops :
  SkipList.new max_levels probability rng = Ok sl0 ->
  SkipList.scores_ordered ops ->
  exists sl nds,
    SkipList.run ops sl0 = Some sl
    /\ SkipList.for_each sl = Some nds
    /\ StronglySorted
         (fun a b => SkipList.comes_before a (SkipList.score b) (SkipList.user_id b) = true)
         nds
    /\ NoDup (SkipList.user_id <$> nds)
    /\ SkipListFacts.contents <$> nds ≡ₚ map_to_list (SkipList.present ops ∅).
Proof.
  intros Hnew Hok.
  destruct (SkipListFacts.run_inv ops sl0 [] ∅ (SkipListFacts.new_inv _ _ _ _ Hnew))
    as (sl & l & Hrun & Hinv & Hrep); [|exact Hok|].
  { intros id s ts. rewrite lookup_empty. split; [|discriminate].
    intros (e & []%elem_of_nil & _). }
  destruct (SkipListFacts.for_each_inv sl l Hinv) as (nds & Hfe & Hag).
  exists sl, nds. split; [exact Hrun|]. split; [exact Hfe|].
  split; [apply (SkipListFacts.agrees_sorted nds l Hag), (SkipListFacts.inv_sorted _ _ Hinv)|].
  pose proof (SkipListFacts.agrees_contents nds l Hag) as Hc.
  split.
  - replace (SkipList.user_id <$> nds) with (fst <$> (SkipListFacts.contents <$> nds))
      by (rewrite <- list_fmap_compose; reflexivity).
    rewrite Hc, <- list_fmap_compose. apply (SkipListFacts.inv_ids _ _ Hinv).
  - rewrite Hc. apply SkipListFacts.represents_permutation; [|exact Hrep].
    apply (SkipListFacts.inv_ids _ _ Hinv).
Qed.

(** A run of the theorem: five calls over a list whose random source
    gives nodes of different heights. *)
Definition demo_rng (n : nat) : float :=
  if (n mod 3 =? 0)%nat then 0.75%float else 0.25%float.

Definition demo_ops : list SkipList.op :=
  [SkipList.Upsert "alice" 50 1000; SkipList.Upsert "bob" 150 1000;
   SkipList.Upsert "carol" 100 1000; SkipList.Upsert "alice" 120 2000;
   SkipList.Erase "bob"].

Lemma skiplist_traversal_sorted_witness :
  exists sl0,
    SkipList.new 16 0.5 demo_rng = Ok sl0
    /\ SkipList.scores_ordered demo_ops
    /\ exists sl nds,
         SkipList.run demo_ops sl0 = Some sl
         /\ SkipList.for_each sl = Some nds
         /\ StronglySorted
              (fun a b => SkipList.comes_before a (SkipList.score b) (SkipList.user_id b) = true)
              nds
         /\ NoDup (SkipList.user_id <$> nds)
         /\ SkipListFacts.contents <$> nds ≡ₚ map_to_list (SkipList.present demo_ops ∅).
Proof.
  eexists. split; [reflexivity|].
  split; [repeat constructor|].
  apply (skiplist_traversal_sorted 16 0.5 demo_rng _ demo_ops).
  - reflexivity.
  - repeat constructor.
Defined.

(** The user ids a traversal visits after a program, and [size()]. *)
Definition visited (ops : list SkipList.op) (sl0 : SkipList.SkipList)
    : option (list string * Z) :=
  match SkipList.run ops sl0 with
  | Some sl =>
      match SkipList.for_each sl with
      | Some nds => Some (map SkipList.user_id nds, SkipList.size_ sl)
      | None => None
      end
  | None => None
  end.

(** The same run, evaluated: alice (120) before carol (100). *)
Example skiplist_demo_traversal :
  forall sl0, SkipList.new 16 0.5 demo_rng = Ok sl0 ->
  visited demo_ops sl0 = Some (["alice"; "carol"]%string, 2).
Proof. intros sl0 [= <-]. vm_compute. reflexivity. Qed.

(** A NaN score compares false with every score, so a node that holds one
    stops every search that reaches it. *)
Definition flat_rng (n : nat) : float := 0.75%float.

Definition nan_ops : list SkipList.op :=
  [SkipList.Upsert "z" 3 1000; SkipList.Upsert "c" 0.5 1000;
   SkipList.Upsert "m" nan 1000; SkipList.Upsert "c" 9 1000].

(** C3, as stated, fails when a score is a NaN: after [nan_ops] the user c
    is present once, yet the traversal visits two nodes for c (scores 9,
    NaN, 3, 0.5): the search of [erase] stops at the header, in front of
    the NaN, and never reaches the old node of c. *)
Lemma skiplist_nan_duplicates_user :
  exists sl0 sl nds,
    SkipList.new 16 0.5 flat_rng = Ok sl0
    /\ SkipList.run nan_ops sl0 = Some sl
    /\ SkipList.for_each sl = Some nds
    /\ SkipList.user_id <$> nds = ["c"; "m"; "z"; "c"]%string
    /\ SkipList.size_ sl = 4
    /\ base.size (SkipList.present nan_ops ∅) = 3%nat
    /\ ~ NoDup (SkipList.user_id <$> nds).
Proof.
  eexists. eexists. eexists.
  split; [reflexivity|]. split; [vm_compute; reflexivity|].
  split; [vm_compute; reflexivity|]. split; [reflexivity|].
  split; [reflexivity|]. split; [vm_compute; reflexivity|].
  cbn. intros Hnd. apply NoDup_cons in Hnd as [Hnot _].
  apply Hnot. set_solver.
Qed.

(** ** [std::string] *)

Module Str.

Definition npos : Z := UINT64_MAX.

Definition size (s : string) : Z := Z.of_nat (String.length s).

Definition char (n : nat) : string := String (ascii_of_nat n) EmptyString.

(** The characters the sources name: the double quote, the backslash, the
    line feed, the tab and the carriage return. *)
Definition quote : string := char 34.
Definition backslash : string := char 92.
Definition nl : string := char 10.
Definition tab : string := char 9.
Definition cr : string := char 13.

Fixpoint drop (n : nat) (s : string) : string :=
  match n, s with
  | S n', String _ s' => drop n' s'
  | _, _ => s
  end.

Fixpoint take (n : nat) (s : string) : string :=
  match n, s with
  | S n', String c s' => String c (take n' s')
  | _, _ => EmptyString
  end.

Fixpoint mem (c : ascii) (chars : string) : bool :=
  match chars with
  | EmptyString => false
  | String d chars' => Ascii.eqb c d || mem c chars'
  end.

(** The first position from [i], the position of the head of [s], at
    which [needle] starts. *)
Fixpoint find_at (needle s : string) (i : Z) : Z :=
  if String.prefix needle s then i
  else match s with
       | EmptyString => npos
       | String _ s' => find_at needle s' (i + 1)
       end.

(** [s.find(needle, pos)] *)
Definition find (s needle : string) (pos : Z) : Z :=
  if size s <? pos then npos else find_at needle (drop (Z.to_nat pos) s) pos.

(** The first position from [i] whose character is in [chars], or is not
    when [negate] is set. *)
Fixpoint first_at (chars : string) (negate : bool) (s : string) (i : Z) : Z :=
  match s with
  | EmptyString => npos
  | String c s' =>
      if xorb (mem c chars) negate then i else first_at chars negate s' (i + 1)
  end.

(** [s.find_first_of(chars, pos)] *)
Definition find_first_of (s chars : string) (pos : Z) : Z :=
  if size s <? pos then npos else first_at chars false (drop (Z.to_nat pos) s) pos.

(** [s.find_first_not_of(chars)] *)
Definition find_first_not_of (s chars : string) : Z := first_at chars true s 0.

Fixpoint last_not_at (chars : string) (s : string) (i : Z) (found : Z) : Z :=
  match s with
  | EmptyString => found
  | String c s' => last_not_at chars s' (i + 1) (if mem c chars then found else i)
  end.

(** [s.find_last_not_of(chars)] *)
Definition find_last_not_of (s chars : string) : Z := last_not_at chars s 0 npos.

(** [s.substr(pos, n)], with [n] a [size_t]: [std::out_of_range] when
    [pos > size()], and otherwise at most [n] characters. *)
Definition substr (s : string) (pos n : Z) : result string :=
  if size s <? pos then Throw "basic_string::substr"
  else Ok (take (Z.to_nat (Z.min n (size s - pos))) (drop (Z.to_nat pos) s)).

End Str.

Definition ws : string := (" " ++ Str.tab ++ Str.nl ++ Str.cr)%string.

(** [trim] of [leaderboard.cpp] *)
Definition trim (input : string) : result string :=
  let begin := Str.find_first_not_of input ws in
  if begin =? Str.npos then Ok EmptyString
  else
    let end_ := Str.find_last_not_of input ws in
    Str.substr input begin (u64 (end_ - begin + 1)).

(** [escape_json] of [leaderboard.cpp] *)
Fixpoint escape_json (input : string) : string :=
  match input with
  | EmptyString => EmptyString
  | String ch rest =>
      (if Ascii.eqb ch (ascii_of_nat 34) then Str.backslash ++ Str.quote
       else if Ascii.eqb ch (ascii_of_nat 92) then Str.backslash ++ Str.backslash
       else String ch EmptyString) ++ escape_json rest
  end%string.


(** ** Numbers as text: [operator<<] and [std::sto*] *)

Module Num.

Definition code (c : ascii) : Z := Z.of_nat (nat_of_ascii c).

(** [isspace] in the C locale *)
Definition isspace (c : ascii) : bool :=
  let n := code c in (n =? 32) || ((9 <=? n) && (n <=? 13)).

Fixpoint skip_space (s : string) : string :=
  match s with
  | String c s' => if isspace c then skip_space s' else s
  | EmptyString => s
  end.

Definition digit_of (c : ascii) : option Z :=
  let n := code c in if (48 <=? n) && (n <=? 57) then Some (n - 48) else None.

(** The longest run of decimal digits at the head of [s]: its value after
    [acc], its length after [seen], and what follows. *)
Fixpoint digits (s : string) (acc : Z) (seen : Z) : Z * Z * string :=
  match s with
  | String c s' =>
      match digit_of c with
      | Some d => digits s' (10 * acc + d) (seen + 1)
      | None => (acc, seen, s)
      end
  | EmptyString => (acc, seen, s)
  end.

(** An optional sign: whether it is a minus, and what follows. *)
Definition sign (s : string) : bool * string :=
  match s with
  | String c s' =>
      if Ascii.eqb c "-" then (true, s')
      else if Ascii.eqb c "+" then (false, s')
      else (false, s)
  | EmptyString => (false, s)
  end.

(** [std::stoull(s)]: [strtoull] in base 10; [std::invalid_argument] when
    there is no digit, [std::out_of_range] when the digits exceed
    [ULLONG_MAX]; a minus sign negates in [unsigned long long]. *)
Definition stoull (s : string) : result Z :=
  let '(neg, s1) := sign (skip_space s) in
  let '(v, seen, _) := digits s1 0 0 in
  if seen =? 0 then Throw "stoull"
  else if UINT64_MAX <? v then Throw "stoull"
  else Ok (if neg then u64 (- v) else v).

(** [std::stoll(s)]: [strtoll] in base 10. *)
Definition stoll (s : string) : result Z :=
  let '(neg, s1) := sign (skip_space s) in
  let '(v, seen, _) := digits s1 0 0 in
  if seen =? 0 then Throw "stoll"
  else if neg then (if 2 ^ 63 <? v then Throw "stoll" else Ok (- v))
  else (if 2 ^ 63 - 1 <? v then Throw "stoll" else Ok v).

(** [out << n] for an integer. *)
Definition print_int (n : Z) : string := NilZero.string_of_int (Z.to_int n).

(** *** Decimal text to [double] *)

Definition lower (c : ascii) : ascii :=
  let n := code c in
  if (65 <=? n) && (n <=? 90) then ascii_of_nat (Z.to_nat (n + 32)) else c.

Fixpoint lower_prefix (p s : string) : bool :=
  match p, s with
  | EmptyString, _ => true
  | String a p', String b s' => Ascii.eqb a (lower b) && lower_prefix p' s'
  | String _ _, EmptyString => false
  end.

(** The decimal number at the head of [s]: digits, an optional point and
    more digits, an optional exponent. [Some (n, e)] stands for [n * 10^e];
    [None] when there is no digit. *)
Definition decimal (s : string) : option (Z * Z) :=
  let '(n1, seen1, s1) := digits s 0 0 in
  let '(n2, seen2, s2) :=
    match s1 with
    | String c s1' => if Ascii.eqb c "." then digits s1' n1 0 else (n1, 0, s1)
    | EmptyString => (n1, 0, s1)
    end in
  if seen1 + seen2 =? 0 then None
  else
    let e :=
      match s2 with
      | String c s2' =>
          if Ascii.eqb (lower c) "e"
          then let '(neg, s3) := sign s2' in
               let '(x, seenx, _) := digits s3 0 0 in
               if seenx =? 0 then 0 else if neg then - x else x
          else 0
      | EmptyString => 0
      end in
    Some (n2, e - seen2).

(** [n * 10^e] for [0 < n], rounded to nearest, ties to even. *)
Definition round_decimal (neg : bool) (n e : Z) : spec_float :=
  if 0 <=? e then binary_normalize prec emax (if neg then - (n * 10 ^ e) else n * 10 ^ e) 0 false
  else
    let '(q, e', l) := SFdiv_core_binary prec emax n 0 (10 ^ (- e)) 0 in
    binary_round_aux prec emax neg q e' l.

(** Whether [n * 10^e], [0 < n], is below the least normal [double]. *)
Definition tiny (n e : Z) : bool :=
  if 0 <=? e then false else n * 2 ^ 1022 <? 10 ^ (- e).

(** [std::stod(s)]: [strtod]. [std::invalid_argument] when nothing
    converts, [std::out_of_range] when the value overflows. Two cases are
    left undefined ([None]): the hexadecimal form, and a value below the
    least normal [double], where whether [strtod] reports a range error is
    implementation-defined. *)
Definition stod (s : string) : option (result float) :=
  let '(neg, s1) := sign (skip_space s) in
  if lower_prefix "inf" s1 then Some (Ok (if neg then neg_infinity else infinity))
  else if lower_prefix "nan" s1 then Some (Ok nan)
  else if lower_prefix "0x" s1 then None
  else
    match decimal s1 with
    | None => Some (Throw "stod")
    | Some (n, e) =>
        if n =? 0 then Some (Ok (if neg then (-0)%float else 0%float))
        else if tiny n e then None
        else
          match round_decimal neg n e with
          | S754_infinity _ => Some (Throw "stod")
          | r => Some (Ok (SF2Prim r))
          end
    end.

(** *** [double] to decimal text *)

(** The comparison [10^x <= num / den]. *)
Definition pow10_le (x num den : Z) : bool :=
  if 0 <=? x then 10 ^ x * den <=? num else den <=? num * 10 ^ (- x).

(** The largest [x], at most [x0], with [10^x <= num / den]. *)
Fixpoint exponent10 (fuel : nat) (x0 num den : Z) : Z :=
  match fuel with
  | O => x0
  | S fuel' => if pow10_le x0 num den then x0 else exponent10 fuel' (x0 - 1) num den
  end.

(** [num / den] rounded to an integer, ties to even. *)
Definition round_div (num den : Z) : Z :=
  let q := num / den in
  let r := num mod den in
  match 2 * r ?= den with
  | Lt => q
  | Gt => q + 1
  | Eq => if Z.even q then q else q + 1
  end.

Fixpoint strip_zeros_rev (rev : list ascii) : list ascii :=
  match rev with
  | c :: rev' => if Ascii.eqb c "0" then strip_zeros_rev rev' else rev
  | [] => []
  end.

(** Without its trailing zeros. *)
Definition strip_zeros (s : string) : string :=
  string_of_list_ascii (rev (strip_zeros_rev (rev (list_ascii_of_string s)))).

Definition zeros (n : nat) : string := string_of_list_ascii (repeat "0"%char n).

Definition with_fraction (int_part frac : string) : string :=
  match strip_zeros frac with
  | EmptyString => int_part
  | f => (int_part ++ "." ++ f)%string
  end.

(** The positive value [num / den] as [printf("%g")] writes it: six
    significant digits, fixed notation for a decimal exponent in [-4, 6),
    trailing zeros removed. *)
Definition print_g (num den : Z) : string :=
  let x0 := exponent10 700 330 num den in
  let k := x0 - 5 in
  let d0 := if 0 <=? k then round_div num (den * 10 ^ k) else round_div (num * 10 ^ (- k)) den in
  let '(d, x) := if d0 =? 1000000 then (100000, x0 + 1) else (d0, x0) in
  let ds := print_int d in
  if (-4 <=? x) && (x <? 6) then
    if 0 <=? x
    then with_fraction (Str.take (Z.to_nat (x + 1)) ds) (Str.drop (Z.to_nat (x + 1)) ds)
    else with_fraction "0" (zeros (Z.to_nat (- x - 1)) ++ ds)
  else
    let ax := Z.abs x in
    let sgn : string := if x <? 0 then "-" else "+" in
    let pad : string := if ax <? 10 then "0" else EmptyString in
    (with_fraction (Str.take 1 ds) (Str.drop 1 ds) ++ "e" ++ sgn ++ pad ++ print_int ax)%string.

(** [out << x] for a [double], with the stream's defaults. The sign of a
    NaN is not part of a [float]: its text is left undefined. *)
Definition print_double (x : float) : option string :=
  match Prim2SF x with
  | S754_zero s => Some (if s then "-0" else "0")
  | S754_infinity s => Some (if s then "-inf" else "inf")
  | S754_nan => None
  | S754_finite s m e =>
      let body := if 0 <=? e then print_g (Z.pos m * 2 ^ e) 1 else print_g (Z.pos m) (2 ^ (- e)) in
      Some (if s then String "-" body else body)
  end.

End Num.


(** ** The leaderboard ([time_decay.cpp], [leaderboard.cpp]) *)

Module TimeDecay.

Record TimeDecay : Type := mk { decay_factor_ : float }.

Definition new (decay_factor : float) : result TimeDecay :=
  if ((decay_factor <=? 0)%float || (1 <? decay_factor)%float)%bool
  then Throw "Decay factor must be in (0, 1]"
  else Ok {| decay_factor_ := decay_factor |}.

Definition INT64_MAX : Z := 2 ^ 63 - 1.
Definition INT64_MIN : Z := - 2 ^ 63.

(** [apply]. The difference of the two time stamps is an [int64_t]
    subtraction: where it overflows the behaviour is undefined ([None]). *)
Definition apply (lm : libm) (td : TimeDecay) (base_score : float)
    (last_update_timestamp current_timestamp : Z) : option float :=
  if current_timestamp <=? last_update_timestamp then Some base_score
  else
    let diff := current_timestamp - last_update_timestamp in
    if INT64_MAX <? diff then None
    else
      let delta := double_of_Z diff in
      let days := (delta / 86400)%float in
      if (days <=? 0)%float then Some base_score
      else Some (base_score * pow lm (decay_factor_ td) days)%float.

End TimeDecay.

Module Leaderboard.

(** The fields the operations below read. The time source is not a field
    here: [update_user] receives the value that [clock_fn_()] returns. The
    file of [save_to_json] and [load_from_json] is its content. *)
Record Leaderboard : Type := mk {
  skip_list_ : SkipList.SkipList;
  decay_ : TimeDecay.TimeDecay;
  max_users_ : Z
}.

Definition new (decay_factor : float) (max_users : Z) (rng : nat -> float)
    : result Leaderboard :=
  match SkipList.new 16 0.5 rng with
  | Throw e => Throw e
  | Ok sl =>
      match TimeDecay.new decay_factor with
      | Throw e => Throw e
      | Ok td => Ok {| skip_list_ := sl; decay_ := td; max_users_ := max_users |}
      end
  end.

Definition size (lb : Leaderboard) : Z := SkipList.size (skip_list_ lb).

Definition with_list (lb : Leaderboard) (sl : SkipList.SkipList) : Leaderboard :=
  {| skip_list_ := sl; decay_ := decay_ lb; max_users_ := max_users_ lb |}.

(** [timestamp > 0 ? timestamp : clock_fn_()] *)
Definition now_of (timestamp clock : Z) : Z :=
  if 0 <? timestamp then timestamp else clock.

(** The score [update_user] stores: the points, added to the decayed score
    of the user when there is one. *)
Definition new_score (lm : libm) (lb : Leaderboard) (user_id : string) (points : float)
    (now : Z) : option float :=
  match SkipList.find (skip_list_ lb) user_id with
  | None => Some points
  | Some h =>
      existing ← SkipList.nodes (skip_list_ lb) !! h;
      decayed ← TimeDecay.apply lm (decay_ lb) (SkipList.score existing)
                  (SkipList.last_update existing) now;
      Some (decayed + points)%float
  end.

(** The last statement of [update_user]: the eviction. *)
Definition evict (max_users : Z) (user_id : string) (sl : SkipList.SkipList)
    : option SkipList.SkipList :=
  if (0 <? max_users) && (max_users <? SkipList.size sl)
  then
    tail ← SkipList.tail sl;
    match tail with
    | None => Some sl
    | Some t =>
        tnode ← SkipList.nodes sl !! t;
        if negb (String.eqb (SkipList.user_id tnode) user_id)
           || (max_users <? SkipList.size sl)
        then '(_, sl') ← SkipList.erase sl (SkipList.user_id tnode); Some sl'
        else Some sl
    end
  else Some sl.

Definition update_user (lm : libm) (lb : Leaderboard) (user_id : string) (points : float)
    (timestamp clock : Z) : option Leaderboard :=
  let now := now_of timestamp clock in
  if (points =? 0)%float && negb (bool_decide (is_Some (SkipList.find (skip_list_ lb) user_id)))
  then Some lb
  else
    score ← new_score lm lb user_id points now;
    sl ← SkipList.upsert (skip_list_ lb) user_id score now;
    sl ← evict (max_users_ lb) user_id sl;
    Some (with_list lb sl).

(** A call of [update_user]: user, points, time stamp, clock. *)
Definition call : Type := string * float * Z * Z.

Fixpoint updates (lm : libm) (calls : list call) (lb : Leaderboard) : option Leaderboard :=
  match calls with
  | [] => Some lb
  | (user_id, points, timestamp, clock) :: calls' =>
      lb' ← update_user lm lb user_id points timestamp clock;
      updates lm calls' lb'
  end.

(** The stored entries, in rank order. *)
Definition entries (lb : Leaderboard) : option (list (string * (float * Z))) :=
  match SkipList.for_each (skip_list_ lb) with
  | Some nds => Some (SkipListFacts.contents <$> nds)
  | None => None
  end.

(** The states that calls of [update_user] reach from the constructor
    while no score they store is a NaN. *)
Inductive reachable (lm : libm) : Leaderboard -> Prop :=
| reachable_new decay_factor max_users rng lb :
    new decay_factor max_users rng = Ok lb -> reachable lm lb
| reachable_update lb user_id points timestamp clock score lb' :
    reachable lm lb ->
    new_score lm lb user_id points (now_of timestamp clock) = Some score ->
    Key.not_nan score ->
    update_user lm lb user_id points timestamp clock = Some lb' ->
    reachable lm lb'.

(** *** [save_to_json] *)

Definition field (key : string) : string := (Str.quote ++ key ++ Str.quote ++ ": ")%string.

(** One object of the entries array. *)
Definition save_entry (node : SkipList.Node) : option string :=
  score ← Num.print_double (SkipList.score node);
  Some ("    {" ++ field "user_id" ++ Str.quote ++ escape_json (SkipList.user_id node)
        ++ Str.quote ++ ", " ++ field "score" ++ score
        ++ ", " ++ field "last_update" ++ Num.print_int (SkipList.last_update node)
        ++ "}")%string.

Fixpoint save_entries (nodes : list SkipList.Node) (first : bool) : option string :=
  match nodes with
  | [] => Some EmptyString
  | node :: nodes' =>
      row ← save_entry node;
      rest ← save_entries nodes' false;
      Some ((if first then EmptyString else "," ++ Str.nl) ++ row ++ rest)%string
  end.

(** The text [save_to_json] writes to a file it could open. *)
Definition save_to_json (lb : Leaderboard) : option string :=
  decay ← Num.print_double (TimeDecay.decay_factor_ (decay_ lb));
  nodes ← SkipList.for_each (skip_list_ lb);
  rows ← save_entries nodes true;
  Some ("{" ++ Str.nl
        ++ "  " ++ field "decay_factor" ++ decay ++ "," ++ Str.nl
        ++ "  " ++ field "max_users" ++ Num.print_int (max_users_ lb) ++ "," ++ Str.nl
        ++ "  " ++ Str.quote ++ "entries" ++ Str.quote ++ ": [" ++ Str.nl
        ++ rows
        ++ Str.nl ++ "  ]" ++ Str.nl
        ++ "}" ++ Str.nl)%string.

(** *** [load_from_json] *)

(** A computation on the leaderboard that may throw: the state it leaves,
    and its value or its exception; [None] is undefined behaviour. *)
Definition M (A : Type) : Type := Leaderboard -> option (Leaderboard * result A).

Definition ret {A} (a : A) : M A := fun lb => Some (lb, Ok a).

Definition bind {A B} (m : M A) (k : A -> M B) : M B :=
  fun lb =>
    match m lb with
    | None => None
    | Some (lb', Ok a) => k a lb'
    | Some (lb', Throw what) => Some (lb', Throw what)
    end.

Definition of_result {A} (r : result A) : M A := fun lb => Some (lb, r).

Definition of_defined {A} (r : option (result A)) : M A :=
  fun lb => match r with Some r' => Some (lb, r') | None => None end.

Definition modify (f : Leaderboard -> option Leaderboard) : M unit :=
  fun lb => match f lb with Some lb' => Some (lb', Ok tt) | None => None end.

Notation "'let*' x ':=' e 'in' k" := (bind e (fun x => k))
  (at level 10, x name, e at level 100, k at level 200, only parsing).

Definition delimiters : string := (",}" ++ Str.nl)%string.

(** The lambda [extract_numeric]. *)
Definition extract_numeric (content key : string) : result (option string) :=
  let needle := (Str.quote ++ key ++ Str.quote)%string in
  let key_pos := Str.find content needle 0 in
  if key_pos =? Str.npos then Ok None
  else
    let colon := Str.find content ":" key_pos in
    if colon =? Str.npos then Ok None
    else
      let end_ := Str.find_first_of content delimiters (u64 (colon + 1)) in
      match Str.substr content (u64 (colon + 1)) (u64 (end_ - colon - 1)) with
      | Throw what => Throw what
      | Ok text =>
          match trim text with
          | Throw what => Throw what
          | Ok value => Ok (Some value)
          end
      end.

(** The lambda [extract_value] on the text [obj] of one object. *)
Definition extract_value (obj key : string) : result (option string) :=
  let needle := (Str.quote ++ key ++ Str.quote)%string in
  let key_position := Str.find obj needle 0 in
  if key_position =? Str.npos then Ok None
  else
    let colon_pos := Str.find obj ":" key_position in
    if colon_pos =? Str.npos then Ok None
    else if String.eqb key "user_id" then
      let first_quote := Str.find obj Str.quote (u64 (colon_pos + 1)) in
      if first_quote =? Str.npos then Ok None
      else
        let second_quote := Str.find obj Str.quote (u64 (first_quote + 1)) in
        if second_quote =? Str.npos then Ok None
        else
          match Str.substr obj (u64 (first_quote + 1))
                  (u64 (second_quote - first_quote - 1)) with
          | Throw what => Throw what
          | Ok value => Ok (Some value)
          end
    else
      let value_end := Str.find_first_of obj delimiters (u64 (colon_pos + 1)) in
      match Str.substr obj (u64 (colon_pos + 1)) (u64 (value_end - colon_pos - 1)) with
      | Throw what => Throw what
      | Ok text =>
          match trim text with
          | Throw what => Throw what
          | Ok value => Ok (Some value)
          end
      end.

(** The two header values, [decay_factor] and [max_users]. *)
Definition load_header (content : string) : M unit :=
  let* decay_value := of_result (extract_numeric content "decay_factor") in
  let* _ :=
    match decay_value with
    | Some text =>
        let* d := of_defined (Num.stod text) in
        let* td := of_result (TimeDecay.new d) in
        modify (fun lb => Some {| skip_list_ := skip_list_ lb; decay_ := td;
                                  max_users_ := max_users_ lb |})
    | None => ret tt
    end in
  let* max_users_value := of_result (extract_numeric content "max_users") in
  match max_users_value with
  | Some text =>
      let* n := of_result (Num.stoull text) in
      modify (fun lb => Some {| skip_list_ := skip_list_ lb; decay_ := decay_ lb;
                                max_users_ := n |})
  | None => ret tt
  end.

(** [skip_list_.clear()] *)
Definition clear_entries : M unit :=
  modify (fun lb => sl ← SkipList.clear (skip_list_ lb); Some (with_list lb sl)).

(** The body of the [if (user_opt && score_opt && timestamp_opt)]. *)
Definition load_entry (obj : string) : M unit :=
  let* user_opt := of_result (extract_value obj "user_id") in
  let* score_opt := of_result (extract_value obj "score") in
  let* timestamp_opt := of_result (extract_value obj "last_update") in
  match user_opt, score_opt, timestamp_opt with
  | Some user, Some score_text, Some timestamp_text =>
      let* score := of_defined (Num.stod score_text) in
      let* ts := of_result (Num.stoll timestamp_text) in
      modify (fun lb =>
                sl ← SkipList.upsert (skip_list_ lb) user score ts; Some (with_list lb sl))
  | _, _, _ => ret tt
  end.

(** The [while (true)] over the objects of the entries block. *)
Fixpoint load_entries (fuel : nat) (entries_block : string) (pos : Z) : M unit :=
  match fuel with
  | O => fun _ => None
  | S fuel' =>
      let obj_start := Str.find entries_block "{" pos in
      if obj_start =? Str.npos then ret tt
      else
        let obj_end := Str.find entries_block "}" obj_start in
        if obj_end =? Str.npos then ret tt
        else
          let* obj := of_result (Str.substr entries_block (u64 (obj_start + 1))
                                   (u64 (obj_end - obj_start - 1))) in
          let* _ := load_entry obj in
          load_entries fuel' entries_block (u64 (obj_end + 1))
  end.

(** From [content.find("\"entries\"")] to the end. *)
Definition load_array (content : string) : M unit :=
  let entries_pos := Str.find content (Str.quote ++ "entries" ++ Str.quote) 0 in
  if entries_pos =? Str.npos then ret tt
  else
    let array_start := Str.find content "[" entries_pos in
    let array_end := Str.find content "]" array_start in
    if (array_start =? Str.npos) || (array_end =? Str.npos) then ret tt
    else
      let* entries_block :=
        of_result (Str.substr content (u64 (array_start + 1))
                     (u64 (array_end - array_start - 1))) in
      load_entries (S (String.length entries_block)) entries_block 0.

(** [load_from_json] on the content of a file it could open. *)
Definition load_from_json (content : string) : M unit :=
  let* _ := load_header content in
  let* _ := clear_entries in
  load_array content.

End Leaderboard.

(** ** Time decay *)

(** C8, with the bound that [apply] needs: for every decay factor the
    constructor accepts, every score and every two time stamps whose
    difference [t_now - t_last] is at most [INT64_MAX], [apply] returns the
    score unchanged when [t_now <= t_last], and otherwise the score times
    [pow(decay_factor, days)], where [days] is the difference converted to
    [double] and divided by 86400. *)
Theorem time_decay_apply lm decay td s t_last t_now :
  TimeDecay.new decay = Ok td ->
  t_now - t_last <= TimeDecay.INT64_MAX ->
  TimeDecay.apply lm td s t_last t_now
  = Some (if t_now <=? t_last then s
          else (s * pow lm decay (double_of_Z (t_now - t_last) / 86400))%float).
Proof.
  intros Hnew Hdiff. unfold TimeDecay.apply, TimeDecay.INT64_MAX in *.
  destruct (Z.leb_spec t_now t_last) as [Hle|Hlt]; [reflexivity|].
  destruct (Z.ltb_spec (2 ^ 63 - 1) (t_now - t_last)) as [Hov|_]; [lia|].
  rewrite FloatFacts.days_positive by lia.
  unfold TimeDecay.new in Hnew. destruct (_ || _)%bool; [discriminate|].
  injection Hnew as <-. reflexivity.
Qed.

Lemma time_decay_apply_witness :
  exists td,
    TimeDecay.new 0.5 = Ok td
    /\ forall lm,
         TimeDecay.apply lm td 100 1000 87400
         = Some (100 * pow lm 0.5 (double_of_Z 86400 / 86400))%float.
Proof.
  eexists. split; [reflexivity|]. intros lm.
  apply (time_decay_apply lm 0.5 _ 100 1000 87400); [reflexivity|].
  unfold TimeDecay.INT64_MAX. lia.
Defined.

(** At equal time stamps the score is returned as it is. *)
Lemma time_decay_apply_same lm td s t : TimeDecay.apply lm td s t t = Some s.
Proof. unfold TimeDecay.apply. rewrite Z.leb_refl. reflexivity. Qed.

(** C8, as stated, fails on two time stamps further apart than
    [INT64_MAX]: the subtraction [current_timestamp -
    last_update_timestamp] overflows [int64_t], and nothing is returned by
    the rule of the claim. *)
Lemma time_decay_apply_overflow :
  exists td,
    TimeDecay.new 0.5 = Ok td
    /\ TimeDecay.INT64_MIN <= -1 <= TimeDecay.INT64_MAX
    /\ forall lm, TimeDecay.apply lm td 100 (-1) TimeDecay.INT64_MAX = None.
Proof.
  eexists. split; [reflexivity|]. split; [unfold TimeDecay.INT64_MIN, TimeDecay.INT64_MAX; lia|].
  intros lm. reflexivity.
Qed.

(** ** The leaderboard: capacity *)

Module LeaderboardFacts.
Import SkipList SkipListFacts Leaderboard.

(** The eviction on a well-formed list: when the size exceeds the bound,
    the last entry goes. *)
Lemma evict_spec max_users id sl l :
  inv sl l ->
  exists sl',
    evict max_users id sl = Some sl'
    /\ same_config sl sl'
    /\ if (0 <? max_users) && (max_users <? size_ sl)
       then exists A t, l = A ++ [t] /\ inv sl' A /\ erase sl (e_id t) = Some (true, sl')
       else sl' = sl.
Proof.
  intros Hinv. unfold evict, SkipList.size.
  destruct ((0 <? max_users) && (max_users <? size_ sl)) eqn:Hc;
    [|exists sl; repeat split].
  apply andb_prop in Hc as [Hpos Hgt].
  rewrite (tail_inv sl l Hinv). cbn [mbind option_bind].
  apply Z.ltb_lt in Hpos. pose proof Hgt as Hgt'. apply Z.ltb_lt in Hgt'.
  assert (Hne : l <> []).
  { intros ->. replace (size_ sl) with 0 in Hgt' by (rewrite (inv_size _ _ Hinv); reflexivity).
    lia. }
  destruct (exists_last Hne) as (A & t & ->). clear Hne. rename A into l.
  rewrite fmap_app. change (e_h <$> [t]) with [e_h t]. rewrite last_snoc.
  destruct (inv_models _ _ Hinv t) as (tnode & Htn & Hid & _).
  { apply elem_of_app. right. apply list_elem_of_here. }
  rewrite Htn. cbn [mbind option_bind]. rewrite Hgt, orb_true_r, Hid.
  destruct (erase_present sl l t [] Hinv) as (sl' & Herase & Hinv' & Hcfg & _).
  rewrite Herase. cbn. exists sl'. split; [reflexivity|]. split; [exact Hcfg|].
  exists l, t. rewrite app_nil_r in Hinv'. auto.
Qed.

Lemma length_filter_id id (l : list entry) :
  NoDup (e_id <$> l) ->
  length (filter (fun e => e_id e <> id) l)
  = if bool_decide (id ∈ e_id <$> l) then Nat.pred (length l) else length l.
Proof.
  intros Hnd. case_bool_decide as Hin.
  - destruct (elem_of_ids_split l id Hin) as (A & t & B & -> & <-).
    rewrite filter_id_present by (exact Hnd || reflexivity).
    rewrite !length_app. cbn. lia.
  - rewrite filter_id_absent by exact Hin. reflexivity.
Qed.

(** One call of [update_user] on a well-formed list within its bound. *)
Lemma update_user_inv lm lb l id points ts clock s :
  inv (skip_list_ lb) l ->
  (0 < max_users_ lb -> size_ (skip_list_ lb) <= max_users_ lb) ->
  new_score lm lb id points (now_of ts clock) = Some s ->
  Key.not_nan s ->
  exists lb' l',
    update_user lm lb id points ts clock = Some lb'
    /\ inv (skip_list_ lb') l'
    /\ max_users_ lb' = max_users_ lb
    /\ decay_ lb' = decay_ lb
    /\ (0 < max_users_ lb -> size_ (skip_list_ lb') <= max_users_ lb)
    /\ (lb' = lb
        \/ exists sl1,
             upsert (skip_list_ lb) id s (now_of ts clock) = Some sl1
             /\ if (0 <? max_users_ lb) && (max_users_ lb <? size_ sl1)
                then exists nds nd,
                       for_each sl1 = Some nds /\ last nds = Some nd
                       /\ erase sl1 (user_id nd) = Some (true, skip_list_ lb')
                else skip_list_ lb' = sl1).
Proof.
  intros Hinv Hbound Hscore Hs. unfold update_user.
  destruct ((points =? 0)%float && _) eqn:Hearly.
  { exists lb, l. repeat (split; [auto|]). left. reflexivity. }
  rewrite Hscore. cbn [mbind option_bind].
  destruct (upsert_inv _ l id s (now_of ts clock) Hinv Hs)
    as (sl1 & A & B & e & Hup & Hsplit & _ & _ & _ & Hinv1 & _).
  rewrite Hup. cbn [mbind option_bind].
  destruct (evict_spec (max_users_ lb) id sl1 _ Hinv1) as (sl2 & Hev & _ & Hcase).
  rewrite Hev. cbn [mbind option_bind].
  assert (Hlen1 : length (A ++ e :: B) = S (length (filter (fun x => e_id x <> id) l)))
    by (rewrite Hsplit, !length_app; cbn; lia).
  rewrite (length_filter_id id l (inv_ids _ _ Hinv)) in Hlen1.
  pose proof (inv_size _ _ Hinv) as Hsz. pose proof (inv_size _ _ Hinv1) as Hsz1.
  destruct ((0 <? max_users_ lb) && (max_users_ lb <? size_ sl1)) eqn:Hc.
  - destruct Hcase as (A' & t & Hl1 & Hinv2 & Herase).
    pose proof Hc as Hc'.
    apply andb_prop in Hc as [Hpos Hgt]. apply Z.ltb_lt in Hpos, Hgt.
    assert (Hlen' : S (length A') = length (A ++ e :: B))
      by (rewrite Hl1, length_app; cbn; lia).
    exists (with_list lb sl2), A'. split; [reflexivity|]. split; [exact Hinv2|].
    split; [reflexivity|]. split; [reflexivity|]. split.
    + intros _. cbn [skip_list_ with_list]. rewrite (inv_size _ _ Hinv2).
      case_bool_decide as Hin.
      * exfalso.
        assert (Hl : length l <> 0%nat)
          by (destruct l; [apply elem_of_nil in Hin; destruct Hin|discriminate]).
        assert (E : length (A ++ e :: B) = length l) by lia.
        rewrite Hsz1, E, <- Hsz in Hgt. specialize (Hbound Hpos). lia.
      * replace (length A') with (length l) by lia. rewrite <- Hsz. apply Hbound, Hpos.
    + right. exists sl1. split; [reflexivity|]. cbn [skip_list_ with_list].
      destruct (for_each_inv sl1 _ Hinv1) as (nds & Hfe & Hag).
      rewrite Hl1 in Hag. apply Forall2_app_inv_r in Hag as (ndsA & ndsT & _ & HagT & ->).
      apply Forall2_cons_inv_r in HagT as (nd & rest & (Hid & _) & Hrest & ->).
      inversion Hrest; subst.
      rewrite Hc'.
      exists (ndsA ++ [nd]), nd. split; [exact Hfe|]. split; [apply last_snoc|].
      rewrite Hid. exact Herase.
  - subst sl2. exists (with_list lb sl1), (A ++ e :: B). split; [reflexivity|].
    split; [exact Hinv1|]. split; [reflexivity|]. split; [reflexivity|]. split.
    + intros Hpos. cbn [skip_list_ with_list].
      apply andb_false_iff in Hc as [Hc|Hc]; [apply Z.ltb_ge in Hc; lia|].
      apply Z.ltb_ge in Hc. exact Hc.
    + right. exists sl1. split; [reflexivity|]. rewrite Hc. reflexivity.
Qed.

Lemma leaderboard_new_inv decay_factor max_users rng lb :
  new decay_factor max_users rng = Ok lb ->
  inv (skip_list_ lb) [] /\ max_users_ lb = max_users.
Proof.
  unfold new. destruct (SkipList.new 16 0.5 rng) as [sl|] eqn:Hsl; [|discriminate].
  destruct (TimeDecay.new decay_factor); [|discriminate]. intros [= <-].
  split; [apply (new_inv _ _ _ _ Hsl)|reflexivity].
Qed.

Lemma reachable_inv lm lb :
  reachable lm lb ->
  exists l, inv (skip_list_ lb) l
            /\ (0 < max_users_ lb -> size_ (skip_list_ lb) <= max_users_ lb).
Proof.
  induction 1 as [d m rng lb Hnew|lb id points ts clock s lb' _ IH Hscore Hs Hup].
  - destruct (leaderboard_new_inv _ _ _ _ Hnew) as [Hinv _].
    exists []. split; [exact Hinv|]. intros Hpos.
    rewrite (inv_size _ _ Hinv). change (u64 (Z.of_nat (length []))) with 0. lia.
  - destruct IH as (l & Hinv & Hbound).
    destruct (update_user_inv lm lb l id points ts clock s Hinv Hbound Hscore Hs)
      as (lb1 & l1 & Hup1 & Hinv1 & Hmax & _ & Hbound1 & _).
    rewrite Hup in Hup1. injection Hup1 as <-.
    exists l1. split; [exact Hinv1|]. rewrite Hmax. exact Hbound1.
Qed.

End LeaderboardFacts.

(** C5, for the states that [update_user] reaches from the constructor
    while no stored score is a NaN: with [max_users > 0], a call of
    [update_user] whose new score is not a NaN returns, and leaves at most
    [max_users] users. Either the call changes nothing (zero points for an
    absent user), or it upserts and then, exactly when the size exceeds
    [max_users], erases the last node of the level-0 traversal. *)
Theorem leaderboard_capacity lm lb user_id points timestamp clock score :
  Leaderboard.reachable lm lb ->
  0 < Leaderboard.max_users_ lb ->
  Leaderboard.new_score lm lb user_id points (Leaderboard.now_of timestamp clock)
  = Some score ->
  Key.not_nan score ->
  exists lb',
    Leaderboard.update_user lm lb user_id points timestamp clock = Some lb'
    /\ Leaderboard.max_users_ lb' = Leaderboard.max_users_ lb
    /\ Leaderboard.size lb' <= Leaderboard.max_users_ lb'
    /\ (lb' = lb
        \/ exists sl1,
             SkipList.upsert (Leaderboard.skip_list_ lb) user_id score
               (Leaderboard.now_of timestamp clock) = Some sl1
             /\ if (0 <? Leaderboard.max_users_ lb)
                   && (Leaderboard.max_users_ lb <? SkipList.size_ sl1)
                then exists nds nd,
                       SkipList.for_each sl1 = Some nds /\ last nds = Some nd
                       /\ SkipList.erase sl1 (SkipList.user_id nd)
                          = Some (true, Leaderboard.skip_list_ lb')
                else Leaderboard.skip_list_ lb' = sl1).
Proof.
  intros Hreach Hpos Hscore Hs.
  destruct (LeaderboardFacts.reachable_inv lm lb Hreach) as (l & Hinv & Hbound).
  destruct (LeaderboardFacts.update_user_inv lm lb l user_id points timestamp clock score
              Hinv Hbound Hscore Hs)
    as (lb' & l' & Hup & _ & Hmax & _ & Hbound' & Hstep).
  exists lb'. split; [exact Hup|]. split; [exact Hmax|].
  split; [|exact Hstep]. rewrite Hmax. apply Hbound', Hpos.
Qed.

Lemma leaderboard_capacity_witness :
  exists lb0,
    Leaderboard.new 0.5 2 flat_rng = Ok lb0
    /\ forall lm, exists lb1 lb2 lb3,
         Leaderboard.update_user lm lb0 "alice" 10 1000 0 = Some lb1
         /\ Leaderboard.update_user lm lb1 "bob" 20 1000 0 = Some lb2
         /\ Leaderboard.update_user lm lb2 "carol" 5 1000 0 = Some lb3
         /\ Leaderboard.size lb3 <= 2.
Proof.
  eexists. split; [reflexivity|]. intros lm.
  match goal with |- context [Leaderboard.update_user lm ?v "alice"] => set (lb0 := v) end.
  pose proof (Leaderboard.reachable_new lm 0.5 2 flat_rng lb0 eq_refl) as R0.
  eassert (H1 : Leaderboard.update_user lm lb0 "alice" 10 1000 0 = Some _)
    by (vm_compute; reflexivity).
  match type of H1 with _ = Some ?v => set (lb1 := v) in * end.
  assert (S1 : Leaderboard.new_score lm lb0 "alice" 10 (Leaderboard.now_of 1000 0) = Some 10%float)
    by (vm_compute; reflexivity).
  assert (N1 : Key.not_nan 10) by reflexivity.
  pose proof (Leaderboard.reachable_update lm lb0 _ _ _ _ _ lb1 R0 S1 N1 H1) as R1.
  eassert (H2 : Leaderboard.update_user lm lb1 "bob" 20 1000 0 = Some _)
    by (vm_compute; reflexivity).
  match type of H2 with _ = Some ?v => set (lb2 := v) in * end.
  assert (S2 : Leaderboard.new_score lm lb1 "bob" 20 (Leaderboard.now_of 1000 0) = Some 20%float)
    by (vm_compute; reflexivity).
  assert (N2 : Key.not_nan 20) by reflexivity.
  pose proof (Leaderboard.reachable_update lm lb1 _ _ _ _ _ lb2 R1 S2 N2 H2) as R2.
  assert (S3 : Leaderboard.new_score lm lb2 "carol" 5 (Leaderboard.now_of 1000 0) = Some 5%float)
    by (vm_compute; reflexivity).
  assert (N3 : Key.not_nan 5) by reflexivity.
  assert (P : 0 < Leaderboard.max_users_ lb2) by reflexivity.
  destruct (leaderboard_capacity lm lb2 "carol" 5 1000 0 5 R2 P S3 N3)
    as (lb3 & Hup & Hmax & Hsize & _).
  exists lb1, lb2, lb3. split; [exact H1|]. split; [exact H2|]. split; [exact Hup|].
  rewrite Hmax in Hsize. exact Hsize.
Defined.

(** The entries after a run of calls. *)
Definition entries_after (lm : libm) (calls : list Leaderboard.call)
    (lb : Leaderboard.Leaderboard) : option (list (string * (float * Z))) :=
  match Leaderboard.updates lm calls lb with
  | Some lb' => Leaderboard.entries lb'
  | None => None
  end.

(** With room for two, the third and lowest user is evicted at once. *)
Example leaderboard_evicts_lowest lm lb0 :
  Leaderboard.new 0.5 2 flat_rng = Ok lb0 ->
  entries_after lm
    [("alice"%string, 10%float, 1000, 0); ("bob"%string, 20%float, 1000, 0);
     ("carol"%string, 5%float, 1000, 0)] lb0
  = Some [("bob"%string, (20%float, 1000)); ("alice"%string, (10%float, 1000))].
Proof. intros [= <-]. vm_compute. reflexivity. Qed.

(** C5, as stated, fails when a score is a NaN: with [max_users = 2], after
    the third call three users are stored. The eviction calls [erase] on
    the tail, c; the search of [erase] stops in front of the NaN at the
    head and finds nothing to unlink. *)
Lemma leaderboard_nan_exceeds_max_users :
  exists lb0,
    Leaderboard.new 0.5 2 flat_rng = Ok lb0
    /\ forall lm, exists lb,
         Leaderboard.updates lm
           [("z"%string, 3%float, 1000, 0); ("c"%string, 0.5%float, 1000, 0);
            ("m"%string, nan, 1000, 0)] lb0 = Some lb
         /\ Leaderboard.max_users_ lb = 2
         /\ Leaderboard.size lb = 3
         /\ ~ (Leaderboard.size lb <= Leaderboard.max_users_ lb).
Proof.
  eexists. split; [reflexivity|]. intros lm.
  eexists. split; [vm_compute; reflexivity|].
  split; [reflexivity|]. split; [reflexivity|]. vm_compute. intros H. apply H. reflexivity.
Qed.

(** ** The leaderboard: loading a snapshot *)

Module StrFacts.
Import Str.

Lemma size_nonneg s : 0 <= size s.
Proof. unfold size. lia. Qed.

Lemma size_drop n s : (n <= String.length s)%nat -> size (drop n s) = size s - Z.of_nat n.
Proof.
  revert s. induction n as [|n IH]; intros s Hn.
  - destruct s; cbn [drop]; lia.
  - destruct s as [|c s]; cbn [String.length] in Hn; [lia|].
    cbn [drop]. rewrite IH by lia. unfold size. cbn [String.length]. lia.
Qed.

Lemma size_take n s : size (take n s) <= Z.of_nat n.
Proof.
  revert s. induction n as [|n IH]; intros s.
  - destruct s; unfold size; simpl; lia.
  - destruct s as [|c s]; [unfold size; simpl; lia|]. cbn [take]. unfold size in *.
    cbn [String.length]. specialize (IH s). lia.
Qed.

(** A search that succeeds returns a position of the text. *)
Lemma find_at_range needle s : forall i r,
  needle <> EmptyString -> find_at needle s i = r ->
  r = npos \/ i <= r < i + size s.
Proof.
  induction s as [|c s IH]; intros i r Hne <-; cbn [find_at].
  - destruct needle; [congruence|]. cbn. left. reflexivity.
  - destruct (String.prefix needle (String c s)).
    + right. unfold size. cbn [String.length]. lia.
    + destruct (IH (i + 1) _ Hne eq_refl) as [->|H]; [left; reflexivity|].
      right. unfold size in *. cbn [String.length]. lia.
Qed.

Lemma find_range s needle pos :
  needle <> EmptyString -> 0 <= pos ->
  find s needle pos = npos \/ pos <= find s needle pos < size s.
Proof.
  intros Hne Hpos. unfold find. destruct (Z.ltb_spec (size s) pos) as [|Hle]; [left; reflexivity|].
  destruct (find_at_range needle (drop (Z.to_nat pos) s) pos _ Hne eq_refl) as [->|H];
    [left; reflexivity|].
  right. rewrite size_drop in H by (unfold size in Hle; lia). lia.
Qed.

Lemma first_at_range chars negate s : forall i,
  first_at chars negate s i = npos \/ i <= first_at chars negate s i < i + size s.
Proof.
  induction s as [|c s IH]; intros i; cbn [first_at]; [left; reflexivity|].
  destruct (xorb _ _).
  - right. unfold size. cbn [String.length]. lia.
  - destruct (IH (i + 1)) as [->|H]; [left; reflexivity|].
    right. unfold size in *. cbn [String.length]. lia.
Qed.

(** [substr] from a position of the text does not throw. *)
Lemma substr_ok s pos n :
  0 <= pos <= size s -> exists t, substr s pos n = Ok t /\ size t <= size s - pos.
Proof.
  intros Hpos. unfold substr. destruct (Z.ltb_spec (size s) pos); [lia|].
  eexists. split; [reflexivity|].
  pose proof (size_take (Z.to_nat (Z.min n (size s - pos))) (drop (Z.to_nat pos) s)).
  pose proof (size_drop (Z.to_nat pos) s ltac:(unfold size in *; lia)).
  destruct (Z.le_ge_cases 0 (Z.min n (size s - pos))).
  - lia.
  - replace (Z.to_nat (Z.min n (size s - pos))) with 0%nat in * by lia. lia.
Qed.

Lemma u64_le_self x : 0 <= x -> 0 <= u64 x <= x.
Proof.
  intros Hx. unfold u64, modulus. split; [apply Z.mod_pos_bound; lia|].
  apply Z.mod_le; lia.
Qed.

End StrFacts.

Module LoadFacts.
Import Leaderboard Str StrFacts.

Lemma trim_ok s : exists t, trim s = Ok t.
Proof.
  unfold trim, find_first_not_of.
  destruct (Z.eqb_spec (first_at ws true s 0) npos) as [_|Hn]; [eauto|].
  destruct (first_at_range ws true s 0) as [H|H]; [contradiction|].
  destruct (substr_ok s (first_at ws true s 0)
              (u64 (find_last_not_of s ws - first_at ws true s 0 + 1)) ltac:(lia))
    as (t & Ht & _).
  eauto.
Qed.

Lemma substr_trim_ok s pos n :
  0 <= pos <= size s ->
  exists v,
    match substr s pos n with
    | Throw what => Throw what
    | Ok text => match trim text with
                 | Throw what => Throw what
                 | Ok value => Ok (Some value)
                 end
    end = Ok (Some v).
Proof.
  intros Hpos. destruct (substr_ok s pos n Hpos) as (t & -> & _).
  destruct (trim_ok t) as (v & ->). eauto.
Qed.

(** After a position of the text comes a position of the text, or its end. *)
Lemma next_position s r : 0 <= r < size s -> 0 <= u64 (r + 1) <= size s.
Proof. intros Hr. pose proof (u64_le_self (r + 1) ltac:(lia)). lia. Qed.

Lemma quoted_nonempty key : (quote ++ key ++ quote)%string <> EmptyString.
Proof. discriminate. Qed.

(** [extract_value] does not throw. *)
Lemma extract_value_ok obj key : exists o, extract_value obj key = Ok o.
Proof.
  unfold extract_value.
  set (needle := (quote ++ key ++ quote)%string).
  destruct (Z.eqb_spec (find obj needle 0) npos) as [_|Hk]; [eauto|].
  destruct (find_range obj needle 0 (quoted_nonempty key) ltac:(lia)) as [H|Hkr];
    [contradiction|].
  set (key_position := find obj needle 0) in *.
  destruct (Z.eqb_spec (find obj ":" key_position) npos) as [_|Hc]; [eauto|].
  destruct (find_range obj ":" key_position ltac:(discriminate) ltac:(lia)) as [H|Hcr];
    [contradiction|].
  set (colon_pos := find obj ":" key_position) in *.
  pose proof (next_position obj colon_pos ltac:(lia)) as Hnext.
  destruct (String.eqb key "user_id").
  - destruct (Z.eqb_spec (find obj quote (u64 (colon_pos + 1))) npos) as [_|Hq1]; [eauto|].
    destruct (find_range obj quote (u64 (colon_pos + 1)) ltac:(discriminate) ltac:(lia))
      as [H|Hq1r]; [contradiction|].
    set (first_quote := find obj quote (u64 (colon_pos + 1))) in *.
    destruct (Z.eqb_spec (find obj quote (u64 (first_quote + 1))) npos) as [_|Hq2]; [eauto|].
    pose proof (next_position obj first_quote ltac:(lia)) as Hnext1.
    destruct (substr_ok obj (u64 (first_quote + 1))
                (u64 (find obj quote (u64 (first_quote + 1)) - first_quote - 1)) Hnext1)
      as (t & -> & _).
    eauto.
  - destruct (substr_trim_ok obj (u64 (colon_pos + 1))
                (u64 (find_first_of obj delimiters (u64 (colon_pos + 1)) - colon_pos - 1))
                Hnext) as (v & ->).
    eauto.
Qed.

(** An object lacks a required field. *)
Definition lacks_field (obj : string) : Prop :=
  extract_value obj "user_id" = Ok None
  \/ extract_value obj "score" = Ok None
  \/ extract_value obj "last_update" = Ok None.

(** Such an object is skipped. *)
Lemma load_entry_lacks obj lb : lacks_field obj -> load_entry obj lb = Some (lb, Ok tt).
Proof.
  intros Hlacks. unfold load_entry, bind, of_result, ret.
  destruct (extract_value_ok obj "user_id") as (o1 & H1).
  destruct (extract_value_ok obj "score") as (o2 & H2).
  destruct (extract_value_ok obj "last_update") as (o3 & H3).
  rewrite H1, H2, H3.
  destruct Hlacks as [H|[H|H]]; destruct o1, o2, o3; congruence.
Qed.

(** The texts of the objects that the loop of [load_from_json] visits. *)
Fixpoint objects (fuel : nat) (entries_block : string) (pos : Z) : list string :=
  match fuel with
  | O => []
  | S fuel' =>
      let obj_start := find entries_block "{" pos in
      if obj_start =? npos then []
      else
        let obj_end := find entries_block "}" obj_start in
        if obj_end =? npos then []
        else
          match substr entries_block (u64 (obj_start + 1))
                  (u64 (obj_end - obj_start - 1)) with
          | Ok obj => obj :: objects fuel' entries_block (u64 (obj_end + 1))
          | Throw _ => []
          end
  end.

(** The objects of the entries array of a file. *)
Definition entry_objects (content : string) : list string :=
  let entries_pos := find content (quote ++ "entries" ++ quote) 0 in
  if entries_pos =? npos then []
  else
    let array_start := find content "[" entries_pos in
    let array_end := find content "]" array_start in
    if (array_start =? npos) || (array_end =? npos) then []
    else
      match substr content (u64 (array_start + 1)) (u64 (array_end - array_start - 1)) with
      | Ok entries_block => objects (S (String.length entries_block)) entries_block 0
      | Throw _ => []
      end.

(** The loop ends, and changes nothing when every object lacks a field. *)
Lemma load_entries_lacks entries_block lb : forall fuel pos,
  size entries_block < modulus ->
  0 <= pos <= size entries_block ->
  size entries_block - pos < Z.of_nat fuel ->
  Forall lacks_field (objects fuel entries_block pos) ->
  load_entries fuel entries_block pos lb = Some (lb, Ok tt).
Proof.
  induction fuel as [|fuel IH]; intros pos Hsize Hpos Hfuel Hall; [lia|].
  cbn [load_entries objects] in *.
  destruct (Z.eqb_spec (find entries_block "{" pos) npos) as [_|Hs]; [reflexivity|].
  destruct (find_range entries_block "{" pos ltac:(discriminate) ltac:(lia)) as [H|Hsr];
    [contradiction|].
  set (obj_start := find entries_block "{" pos) in *.
  destruct (Z.eqb_spec (find entries_block "}" obj_start) npos) as [_|He]; [reflexivity|].
  destruct (find_range entries_block "}" obj_start ltac:(discriminate) ltac:(lia))
    as [H|Her]; [contradiction|].
  set (obj_end := find entries_block "}" obj_start) in *.
  destruct (substr_ok entries_block (u64 (obj_start + 1)) (u64 (obj_end - obj_start - 1))
              (next_position entries_block obj_start ltac:(lia))) as (obj & Hobj & _).
  rewrite Hobj in Hall. apply Forall_cons in Hall as [Hlacks Hall].
  unfold bind at 1. unfold of_result at 1. rewrite Hobj.
  unfold bind at 1. rewrite (load_entry_lacks obj lb Hlacks).
  assert (Hnext : u64 (obj_end + 1) = obj_end + 1)
    by (unfold u64; apply Z.mod_small; lia).
  rewrite Hnext in *. apply IH; [exact Hsize|lia|lia|exact Hall].
Qed.

(** The header leaves the list as it is, whether or not it throws. *)
Lemma load_header_list content lb lb1 r :
  load_header content lb = Some (lb1, r) -> skip_list_ lb1 = skip_list_ lb.
Proof.
  unfold load_header, bind, of_result, of_defined, modify, ret.
  destruct (extract_numeric content "decay_factor") as [[text|]|];
    [| |intros [= <- _]; reflexivity].
  - destruct (Num.stod text) as [[d|]|]; [| intros [= <- _]; reflexivity | discriminate].
    destruct (TimeDecay.new d) as [td|]; [|intros [= <- _]; reflexivity].
    destruct (extract_numeric content "max_users") as [[text'|]|];
      [| intros [= <- _]; reflexivity | intros [= <- _]; reflexivity].
    destruct (Num.stoull text'); intros [= <- _]; reflexivity.
  - destruct (extract_numeric content "max_users") as [[text'|]|];
      [| intros [= <- _]; reflexivity | intros [= <- _]; reflexivity].
    destruct (Num.stoull text'); intros [= <- _]; reflexivity.
Qed.

End LoadFacts.

(** C9, for a header that parses: on a well-formed list, when the two
    header values of the file are read without an exception,
    [load_from_json] clears the list and goes on, from the empty list, to
    the entries array; the entries held before play no part. A file with no
    entries key, or whose objects all lack a required field, leaves zero
    entries. *)
Theorem load_from_json_clears_entries lb l content lb1 :
  SkipListFacts.inv (Leaderboard.skip_list_ lb) l ->
  Str.size content < U64.modulus ->
  Leaderboard.load_header content lb = Some (lb1, Ok tt) ->
  exists sl0,
    SkipList.clear (Leaderboard.skip_list_ lb) = Some sl0
    /\ SkipList.for_each sl0 = Some []
    /\ SkipList.size sl0 = 0
    /\ Leaderboard.load_from_json content lb
       = Leaderboard.load_array content (Leaderboard.with_list lb1 sl0)
    /\ (Str.find content (Str.quote ++ "entries" ++ Str.quote) 0 = Str.npos ->
        Leaderboard.load_from_json content lb
        = Some (Leaderboard.with_list lb1 sl0, Ok tt))
    /\ (Forall LoadFacts.lacks_field (LoadFacts.entry_objects content) ->
        Leaderboard.load_from_json content lb
        = Some (Leaderboard.with_list lb1 sl0, Ok tt)).
Proof.
  intros Hinv Hsize Hheader.
  destruct (SkipListFacts.clear_inv _ l Hinv) as (sl0 & Hclear & Hinv0 & _).
  exists sl0. split; [exact Hclear|]. split.
  { destruct (SkipListFacts.for_each_inv sl0 [] Hinv0) as (nds & -> & Hag).
    inversion Hag. reflexivity. }
  split; [apply (SkipListFacts.inv_size _ _ Hinv0)|].
  assert (Hload : Leaderboard.load_from_json content lb
                  = Leaderboard.load_array content (Leaderboard.with_list lb1 sl0)).
  { unfold Leaderboard.load_from_json. unfold Leaderboard.bind at 1. rewrite Hheader.
    unfold Leaderboard.bind at 1. unfold Leaderboard.clear_entries, Leaderboard.modify.
    rewrite (LoadFacts.load_header_list _ _ _ _ Hheader), Hclear. reflexivity. }
  split; [exact Hload|].
  assert (Hlacks : Forall LoadFacts.lacks_field (LoadFacts.entry_objects content) ->
                   Leaderboard.load_array content (Leaderboard.with_list lb1 sl0)
                   = Some (Leaderboard.with_list lb1 sl0, Ok tt)).
  { unfold LoadFacts.entry_objects, Leaderboard.load_array.
    set (entries_pos := Str.find content (Str.quote ++ "entries" ++ Str.quote) 0).
    destruct (Z.eqb_spec entries_pos Str.npos) as [_|Hp]; [reflexivity|].
    destruct (StrFacts.find_range content (Str.quote ++ "entries" ++ Str.quote) 0
                ltac:(discriminate) ltac:(lia)) as [H|Hpr]; [contradiction|].
    fold entries_pos in Hpr.
    set (array_start := Str.find content "[" entries_pos).
    destruct (Z.eqb_spec array_start Str.npos) as [_|Ha]; [reflexivity|].
    destruct (StrFacts.find_range content "[" entries_pos ltac:(discriminate) ltac:(lia))
      as [H|Har]; [contradiction|].
    fold array_start in Har.
    destruct (Z.eqb_spec (Str.find content "]" array_start) Str.npos) as [_|He];
      [reflexivity|].
    cbn [orb].
    destruct (StrFacts.substr_ok content (u64 (array_start + 1))
                (u64 (Str.find content "]" array_start - array_start - 1))
                (LoadFacts.next_position content array_start ltac:(lia)))
      as (block & Hblock & Hlen).
    rewrite Hblock. unfold Leaderboard.bind at 1. unfold Leaderboard.of_result at 1.
    intros Hall.
    pose proof (StrFacts.size_nonneg block) as Hb.
    pose proof (LoadFacts.next_position content array_start ltac:(lia)) as Hn.
    apply LoadFacts.load_entries_lacks; [lia|lia| |exact Hall].
    unfold Str.size. lia. }
  split; [|intros Hall; rewrite Hload; apply Hlacks, Hall].
  intros Hnone. rewrite Hload. apply Hlacks.
  unfold LoadFacts.entry_objects. rewrite Hnone. constructor.
Qed.

(** A file with the two header values and no entries array. *)
Definition header_only : string :=
  ("{" ++ Leaderboard.field "decay_factor" ++ "0.5, "
   ++ Leaderboard.field "max_users" ++ "7}")%string.

Lemma load_from_json_clears_entries_witness :
  exists lb0,
    Leaderboard.new 0.5 10 flat_rng = Ok lb0
    /\ forall lm, exists lb lb',
         Leaderboard.update_user lm lb0 "alice" 10 1000 0 = Some lb
         /\ Leaderboard.entries lb = Some [("alice"%string, (10%float, 1000))]
         /\ Leaderboard.load_from_json header_only lb = Some (lb', Ok tt)
         /\ Leaderboard.entries lb' = Some []
         /\ Leaderboard.max_users_ lb' = 7.
Proof.
  eexists. split; [reflexivity|]. intros lm.
  match goal with |- context [Leaderboard.update_user lm ?v "alice"] => set (lb0 := v) end.
  pose proof (Leaderboard.reachable_new lm 0.5 10 flat_rng lb0 eq_refl) as R0.
  eassert (H1 : Leaderboard.update_user lm lb0 "alice" 10 1000 0 = Some _)
    by (vm_compute; reflexivity).
  match type of H1 with _ = Some ?v => set (lb := v) in * end.
  assert (S1 : Leaderboard.new_score lm lb0 "alice" 10 (Leaderboard.now_of 1000 0) = Some 10%float)
    by (vm_compute; reflexivity).
  assert (N1 : Key.not_nan 10) by reflexivity.
  destruct (LeaderboardFacts.reachable_inv lm lb
              (Leaderboard.reachable_update lm lb0 _ _ _ _ _ lb R0 S1 N1 H1))
    as (l & Hinv & _).
  eassert (Hh : Leaderboard.load_header header_only lb = Some (_, Ok tt))
    by (vm_compute; reflexivity).
  match type of Hh with _ = Some (?v, _) => set (lb1 := v) in * end.
  assert (Hsz : Str.size header_only < U64.modulus) by (vm_compute; reflexivity).
  assert (Hnone : Str.find header_only (Str.quote ++ "entries" ++ Str.quote) 0 = Str.npos)
    by (vm_compute; reflexivity).
  destruct (load_from_json_clears_entries lb l header_only lb1 Hinv Hsz Hh)
    as (sl0 & _ & Hfe & _ & _ & Hload & _).
  exists lb, (Leaderboard.with_list lb1 sl0).
  split; [exact H1|]. split; [vm_compute; reflexivity|].
  split; [exact (Hload Hnone)|]. split; [|reflexivity].
  unfold Leaderboard.entries. cbn [Leaderboard.skip_list_ Leaderboard.with_list].
  rewrite Hfe. reflexivity.
Defined.

(** A file whose [max_users] value is not a number. *)
Definition bad_header : string :=
  ("{" ++ Leaderboard.field "max_users" ++ "many}")%string.

(** C9, as stated, fails on a file whose header does not parse: here
    [std::stoull] throws before [skip_list_.clear()] is reached, and the
    leaderboard, loaded from a file with no entries key, still holds its
    entry. *)
Lemma load_from_json_throw_keeps_entries :
  exists lb0,
    Leaderboard.new 0.5 10 flat_rng = Ok lb0
    /\ forall lm, exists lb lb',
         Leaderboard.update_user lm lb0 "alice" 10 1000 0 = Some lb
         /\ Str.find bad_header (Str.quote ++ "entries" ++ Str.quote) 0 = Str.npos
         /\ Leaderboard.load_from_json bad_header lb = Some (lb', Throw "stoull")
         /\ Leaderboard.entries lb' = Some [("alice"%string, (10%float, 1000))].
Proof.
  eexists. split; [reflexivity|]. intros lm.
  eexists. eexists. split; [vm_compute; reflexivity|].
  split; [vm_compute; reflexivity|]. split; [vm_compute; reflexivity|].
  vm_compute. reflexivity.
Qed.

(** ** The leaderboard: the round trip through a snapshot *)

(** The user ids a, double quote, b and a, backslash. *)
Definition quoted_id : string := ("a" ++ Str.quote ++ "b")%string.
Definition truncated_id : string := ("a" ++ Str.backslash)%string.

(** C1 fails on the code for a user id that holds a double quote:
    [save_to_json] writes it escaped, as backslash and quote, and
    [load_from_json], which takes the text up to the next quote and undoes
    no escape, reads the id back cut after the backslash. *)
Theorem json_round_trip_truncates_quoted_user_id (lm : libm) :
  exists lb0 lb content lb',
    Leaderboard.new 0.5 100 flat_rng = Ok lb0
    /\ Leaderboard.update_user lm lb0 quoted_id 1.5 1000 0 = Some lb
    /\ Leaderboard.entries lb = Some [(quoted_id, (1.5%float, 1000))]
    /\ Leaderboard.save_to_json lb = Some content
    /\ Leaderboard.load_from_json content lb0 = Some (lb', Ok tt)
    /\ Leaderboard.entries lb' = Some [(truncated_id, (1.5%float, 1000))]
    /\ truncated_id <> quoted_id.
Proof.
  eexists. eexists. eexists. eexists.
  split; [reflexivity|]. split; [vm_compute; reflexivity|].
  split; [vm_compute; reflexivity|]. split; [vm_compute; reflexivity|].
  split; [vm_compute; reflexivity|]. split; [vm_compute; reflexivity|].
  discriminate.
Qed.

(** Without the two escaped characters the same round trip gives the
    entries back. *)
Example json_round_trip_plain (lm : libm) :
  exists lb0 lb content lb',
    Leaderboard.new 0.5 100 flat_rng = Ok lb0
    /\ Leaderboard.updates lm
         [("alice"%string, 1.5%float, 1000, 0); ("bob"%string, 20%float, 2000, 0)] lb0
       = Some lb
    /\ Leaderboard.save_to_json lb = Some content
    /\ Leaderboard.load_from_json content lb0 = Some (lb', Ok tt)
    /\ Leaderboard.entries lb' = Leaderboard.entries lb
    /\ Leaderboard.entries lb
       = Some [("bob"%string, (20%float, 2000)); ("alice"%string, (1.5%float, 1000))].
Proof.
  eexists. eexists. eexists. eexists.
  split; [reflexivity|]. split; [vm_compute; reflexivity|].
  split; [vm_compute; reflexivity|]. split; [vm_compute; reflexivity|].
  split; vm_compute; reflexivity.
Qed.

(** ** The leaderboard: capacity after a load *)

Definition entry_text (user_id score last_update : string) : string :=
  ("{" ++ Leaderboard.field "user_id" ++ Str.quote ++ user_id ++ Str.quote ++ ", "
   ++ Leaderboard.field "score" ++ score ++ ", "
   ++ Leaderboard.field "last_update" ++ last_update ++ "}")%string.

(** A file with room for one user and three entries. *)
Definition crowded : string :=
  ("{" ++ Leaderboard.field "max_users" ++ "1, "
   ++ Str.quote ++ "entries" ++ Str.quote ++ ": ["
   ++ entry_text "a" "3" "1000" ++ ", " ++ entry_text "b" "2" "1000" ++ ", "
   ++ entry_text "c" "1" "1000" ++ "]}")%string.

(** [load_from_json] evicts nothing, and the next [update_user] evicts one
    user only: the size stays above [max_users]. *)
Example leaderboard_load_exceeds_max_users (lm : libm) :
  exists lb0 lb1 lb2,
    Leaderboard.new 0.5 1 flat_rng = Ok lb0
    /\ Leaderboard.load_from_json crowded lb0 = Some (lb1, Ok tt)
    /\ Leaderboard.size lb1 = 3
    /\ Leaderboard.update_user lm lb1 "d" 4 1000 0 = Some lb2
    /\ Leaderboard.max_users_ lb2 = 1
    /\ Leaderboard.size lb2 = 3.
Proof.
  eexists. eexists. eexists.
  split; [reflexivity|]. split; [vm_compute; reflexivity|].
  split; [reflexivity|]. split; [vm_compute; reflexivity|].
  split; reflexivity.
Qed.

(** * Further properties of the code *)

(** ** The ring: capacity, emptiness, the fixed-size class *)

Module RingMore.
Import Ring RingFifo.

(** The loop of [round_up_to_power_of_two] sets every bit below the
    highest one. *)
Lemma smear_ones w : 1 <= w < 2 ^ 64 -> smear 64 1 w = Z.ones (Z.log2 w + 1).
Proof.
  intros Hw. set (n := Z.log2 w).
  assert (Hn : 0 <= n < 64).
  { split; [apply Z.log2_nonneg|]. apply Z.log2_lt_pow2; lia. }
  assert (H0 : RingCapacity.smeared n 0 w).
  { split.
    - intros b Hb. apply Z.bits_above_log2; [lia|exact Hb].
    - intros b _ Hb. replace b with n by lia. apply Z.bit_log2. lia. }
  pose proof (RingCapacity.smear_step_smeared n 0 1 _ ltac:(lia) ltac:(lia) eq_refl H0) as H1.
  pose proof (RingCapacity.smear_step_smeared n 1 2 _ ltac:(lia) ltac:(lia) eq_refl H1) as H2.
  pose proof (RingCapacity.smear_step_smeared n 3 4 _ ltac:(lia) ltac:(lia) eq_refl H2) as H3.
  pose proof (RingCapacity.smear_step_smeared n 7 8 _ ltac:(lia) ltac:(lia) eq_refl H3) as H4.
  pose proof (RingCapacity.smear_step_smeared n 15 16 _ ltac:(lia) ltac:(lia) eq_refl H4) as H5.
  pose proof (RingCapacity.smear_step_smeared n 31 32 _ ltac:(lia) ltac:(lia) eq_refl H5)
    as [Hhigh Hset].
  cbn [Z.add Pos.add Pos.succ] in Hhigh, Hset.
  rewrite RingCapacity.smear_steps.
  apply Z.bits_inj'. intros b Hb.
  destruct (Z.le_gt_cases b n).
  - rewrite Z.ones_spec_low by lia. apply Hset; lia.
  - rewrite Z.ones_spec_high by lia. apply Hhigh. lia.
Qed.

(** The items a script leaves in the bounded queue. *)
Fixpoint fifo_items {T : Type} (cap : Z) (script : list (call T)) (items : list T) : list T :=
  match script with
  | [] => items
  | Push v :: script' =>
      if Z.of_nat (length items) <? cap
      then fifo_items cap script' (items ++ [v])
      else fifo_items cap script' items
  | Pop :: script' =>
      match items with
      | [] => fifo_items cap script' []
      | _ :: items' => fifo_items cap script' items'
      end
  end.

Lemma run_rep_items {T : Type} k (script : list (call T)) : forall q E D items fuel,
  1 <= k <= 63 -> rep k q E D items ->
  exists q' E' D',
    run (S fuel) script q = Some (fifo (2 ^ k) script items, q')
    /\ rep k q' E' D' (fifo_items (2 ^ k) script items).
Proof.
  induction script as [|[v|] script IH]; intros q E D items fuel Hk Hrep;
    cbn [run fifo fifo_items].
  - eauto.
  - pose proof (push_rep k q E D items v fuel Hk Hrep) as Hpush.
    destruct (Z.of_nat (length items) <? 2 ^ k).
    + destruct Hpush as (q1 & -> & Hrep1).
      destruct (IH q1 _ _ _ fuel Hk Hrep1) as (q' & E' & D' & -> & Hrep'). eauto.
    + rewrite Hpush. destruct (IH q _ _ _ fuel Hk Hrep) as (q' & E' & D' & -> & Hrep'). eauto.
  - pose proof (pop_rep k q E D items fuel Hk Hrep) as Hpop.
    destruct items as [|x items'].
    + rewrite Hpop. destruct (IH q _ _ _ fuel Hk Hrep) as (q' & E' & D' & -> & Hrep'). eauto.
    + destruct Hpop as (q1 & -> & Hrep1).
      destruct (IH q1 _ _ _ fuel Hk Hrep1) as (q' & E' & D' & -> & Hrep'). eauto.
Qed.

(** The two positions are equal exactly when nothing waits. *)
Lemma rep_empty {T : Type} k (q : LockFreeRingBuffer T) E D items :
  1 <= k <= 63 -> rep k q E D items -> (empty q = true <-> items = []).
Proof.
  intros Hk [_ _ _ He Hd Hord Hitems Hbound _ _].
  pose proof (pow2_le_63 k ltac:(lia)) as H63.
  unfold empty. rewrite He, Hd, Z.eqb_eq. split.
  - intros Heq. destruct items; [reflexivity|exfalso].
    cbn [length] in Hitems.
    assert (Hm : (E - D) mod 2 ^ 64 = 0).
    { unfold u64, modulus in Heq. rewrite Zminus_mod, Heq, Z.sub_diag. reflexivity. }
    rewrite Z.mod_small in Hm by lia. lia.
  - intros ->. cbn [length] in Hitems. replace E with D by lia. reflexivity.
Qed.

(** [LockFreeRingBuffer<T, Size>] of [ring_buffer.tpp]: the cells carry
    their index. Its [emplace] and [pop] are those of the runtime-sized
    class, with [Size - 1] for [mask_] and [pos + Size] for [pos + size_]:
    the record holds [Size] in those two fields. *)
Definition new_static {T : Type} (Size : Z) : LockFreeRingBuffer T :=
  {| size_ := Size;
     mask_ := u64 (Size - 1);
     buffer_ := (fun i => {| sequence := i; storage := None |}) <$> seqZ 0 Size;
     enqueue_pos_ := 0;
     dequeue_pos_ := 0 |}.

Lemma new_static_rep {T : Type} k : 0 <= k <= 63 -> rep k (@new_static T (2 ^ k)) 0 0 [].
Proof.
  intros Hk. pose proof (pow2_pos k ltac:(lia)) as Hpos.
  pose proof (pow2_le_63 k ltac:(lia)) as H63.
  constructor; cbn [new_static size_ mask_ buffer_ enqueue_pos_ dequeue_pos_ length].
  - reflexivity.
  - unfold u64, modulus. apply Z.mod_small. lia.
  - rewrite length_fmap, length_seqZ. lia.
  - reflexivity.
  - reflexivity.
  - lia.
  - reflexivity.
  - lia.
  - intros p x Hp. lia.
  - intros p Hp. rewrite Z.mod_small by lia.
    rewrite list_lookup_fmap, lookup_seqZ_lt by lia. cbn.
    rewrite Z2Nat.id by lia. unfold u64, modulus. rewrite Z.mod_small by lia. reflexivity.
Qed.

End RingMore.

(** X2. [round_up_to_power_of_two] on a [size_t]: 0 and 1 give 1; a value
    from 2 to 2^63 gives the least power of two that is at least the value;
    a value above 2^63 gives 0, the sum [value + 1] having wrapped. *)
Theorem round_up_to_power_of_two_spec value :
  0 <= value < 2 ^ 64 ->
  (value <= 1 -> Ring.round_up_to_power_of_two value = 1)
  /\ (2 <= value <= 2 ^ 63 ->
      exists k, 1 <= k <= 63
                /\ Ring.round_up_to_power_of_two value = 2 ^ k
                /\ 2 ^ (k - 1) < value <= 2 ^ k)
  /\ (2 ^ 63 < value -> Ring.round_up_to_power_of_two value = 0).
Proof.
  intros Hv. unfold Ring.round_up_to_power_of_two. split; [|split].
  - intros Hle. destruct (Z.leb_spec value 1); [reflexivity|lia].
  - intros Hr. destruct (Z.leb_spec value 1); [lia|].
    rewrite RingMore.smear_ones by lia. rewrite Z.ones_equiv.
    set (n := Z.log2 (value - 1)).
    assert (Hn : 0 <= n < 63).
    { split; [apply Z.log2_nonneg|]. apply Z.log2_lt_pow2; lia. }
    destruct (Z.log2_spec (value - 1) ltac:(lia)) as [Hlo Hhi]. fold n in Hlo, Hhi.
    replace (Z.succ n) with (n + 1) in Hhi by lia.
    assert (Hp : 2 ^ (n + 1) <= 2 ^ 63) by (apply Z.pow_le_mono_r; lia).
    exists (n + 1). split; [lia|]. split.
    + replace (Z.pred (2 ^ (n + 1)) + 1) with (2 ^ (n + 1)) by lia.
      unfold u64, modulus. apply Z.mod_small. lia.
    + replace (n + 1 - 1) with n by lia. lia.
  - intros Hr. destruct (Z.leb_spec value 1); [lia|].
    rewrite RingMore.smear_ones by lia. rewrite Z.ones_equiv.
    assert (Hn : Z.log2 (value - 1) = 63) by (apply Z.log2_unique; lia).
    rewrite Hn. reflexivity.
Qed.

Lemma round_up_to_power_of_two_spec_witness :
  Ring.round_up_to_power_of_two 0 = 1
  /\ (exists k, 1 <= k <= 63 /\ Ring.round_up_to_power_of_two 1000 = 2 ^ k
                /\ 2 ^ (k - 1) < 1000 <= 2 ^ k)
  /\ Ring.round_up_to_power_of_two (2 ^ 63 + 1) = 0.
Proof.
  split; [apply (round_up_to_power_of_two_spec 0); lia|].
  split; [apply (round_up_to_power_of_two_spec 1000); lia|].
  apply (round_up_to_power_of_two_spec (2 ^ 63 + 1)); lia.
Defined.

(** X3. After any single-threaded script on a ring of requested size from
    2 to 2^63, [empty()] is true exactly when the bounded queue holds no
    item, and [capacity()] is still the rounded size. *)
Theorem ring_empty_iff_no_items {T : Type} (size : Z) (script : list (Ring.call T))
    (fuel : nat) :
  2 <= size <= 2 ^ 63 ->
  exists obs q,
    Ring.run (S fuel) script (Ring.new size) = Some (obs, q)
    /\ Ring.capacity q = Ring.capacity (@Ring.new T size)
    /\ (Ring.empty q = true
        <-> RingMore.fifo_items (Ring.capacity (@Ring.new T size)) script [] = []).
Proof.
  intros Hsize.
  destruct (RingCapacity.round_up_spec size Hsize) as (k & Hk & Hcap & _).
  assert (Hnew : Ring.capacity (@Ring.new T size) = 2 ^ k).
  { unfold Ring.capacity, Ring.new. cbn [Ring.size_].
    destruct (Z.eqb_spec size 0); [lia|exact Hcap]. }
  destruct (RingMore.run_rep_items k script (Ring.new size) 0 0 [] fuel Hk
              (RingFifo.new_rep k size ltac:(lia) Hnew))
    as (q & E & D & Hrun & Hrep).
  exists (RingFifo.fifo (2 ^ k) script []), q. split; [exact Hrun|].
  rewrite Hnew. split; [apply (RingFifo.rep_size _ _ _ _ _ Hrep)|].
  apply (RingMore.rep_empty k q E D); [exact Hk|exact Hrep].
Qed.

Lemma ring_empty_iff_no_items_witness :
  exists obs q,
    Ring.run 1 [Ring.Push 7; Ring.Pop; Ring.Push 8] (Ring.new 3) = Some (obs, q)
    /\ Ring.capacity q = 4
    /\ Ring.empty q = false.
Proof.
  destruct (@ring_empty_iff_no_items Z 3 [Ring.Push 7; Ring.Pop; Ring.Push 8] 0 ltac:(lia))
    as (obs & q & Hrun & Hcap & Hempty).
  exists obs, q. split; [exact Hrun|]. split; [exact Hcap|].
  destruct (Ring.empty q); [|reflexivity].
  destruct Hempty as [H _]. specialize (H eq_refl). vm_compute in H. discriminate.
Defined.

(** X4. The fixed-size ring [LockFreeRingBuffer<T, Size>], for [Size] a
    power of two from 2 to 2^63, is in single-threaded use a FIFO queue
    bounded by [Size]: every script of pushes and pops returns, with the
    flags and values of the bounded queue. *)
Theorem static_ring_is_bounded_fifo {T : Type} (k : Z) (script : list (Ring.call T))
    (fuel : nat) :
  1 <= k <= 63 ->
  exists q,
    Ring.run (S fuel) script (RingMore.new_static (2 ^ k))
    = Some (RingFifo.fifo (2 ^ k) script [], q).
Proof.
  intros Hk.
  apply (RingFifo.run_rep k script _ 0 0 [] fuel Hk).
  apply RingMore.new_static_rep. lia.
Qed.

Lemma static_ring_is_bounded_fifo_witness :
  exists q,
    Ring.run 1 [Ring.Push 1; Ring.Push 2; Ring.Push 3; Ring.Pop] (RingMore.new_static (2 ^ 1))
    = Some ([Ring.Pushed true; Ring.Pushed true; Ring.Pushed false;
             Ring.Popped true (Some 1)], q).
Proof.
  destruct (@static_ring_is_bounded_fifo Z 1
              [Ring.Push 1; Ring.Push 2; Ring.Push 3; Ring.Pop] 0 ltac:(lia)) as (q & Hrun).
  exists q. exact Hrun.
Defined.

(** ** The sketch: both bounds, the zero width *)

Module CMSMore.
Import CMS CMSFacts.

Lemma total_nonneg ops :
  Forall (fun op : string * Z => 0 <= op.2) ops -> 0 <= total ops.
Proof. induction 1 as [|[k c] ops Hc _ IH]; cbn in *; lia. Qed.

Lemma true_count_le_total key ops :
  Forall (fun op : string * Z => 0 <= op.2) ops -> true_count key ops <= total ops.
Proof.
  induction 1 as [|[k c] ops Hc _ IH]; cbn in *; [lia|].
  destruct (String.eqb k key); lia.
Qed.


(** The invariant of a run whose counts sum to less than [UINT64_MAX]:
    every addressed counter of [k] lies between what the run counted for
    [k] and what it counted in all. *)
Lemma increments_between ops : forall s (base : string -> Z) B,
  shaped s ->
  Forall (fun op : string * Z => 0 <= op.2) ops ->
  B + total ops < UINT64_MAX ->
  (forall k, 0 <= base k) ->
  (forall k r, 0 <= r < depth_ s ->
     exists v, counter s k r = Some v /\ base k <= v <= B) ->
  exists s',
    increments ops s = Some s' /\ shaped s' /\ depth_ s' = depth_ s
    /\ forall k r, 0 <= r < depth_ s ->
         exists v, counter s' k r = Some v
                   /\ base k + true_count k ops <= v <= B + total ops.
Proof.
  induction ops as [|[key c] ops IH]; intros s base B Hs Hpos Hsum Hbase Hinv.
  - exists s. cbn [increments true_count total].
    split; [reflexivity|]. split; [exact Hs|]. split; [reflexivity|].
    intros k r Hr. destruct (Hinv k r Hr) as (v & Hv & Hb). exists v. split; [exact Hv|lia].
  - cbn [increments total snd] in *.
    destruct (increment_counter s key c Hs) as (s1 & Hinc & Hcnt).
    rewrite Hinc.
    destruct (increment_shaped s key c s1 Hs Hinc) as (Hs1 & Hw1 & Hd1 & Hseed1).
    inversion Hpos as [|? ? Hc Hpos']; subst. cbn in Hc.
    pose proof (total_nonneg ops Hpos') as Ht.
    destruct (IH s1 (fun k => base k + (if String.eqb key k then c else 0)) (B + c))
      as (s' & Hrun & Hs' & Hd' & Hfin); auto; [lia| | |].
    + intros k. specialize (Hbase k). destruct (String.eqb key k); lia.
    + intros k r Hr. rewrite Hd1 in Hr. rewrite (Hcnt k r Hr).
      destruct (Hinv k r Hr) as (v & Hv & Hb). rewrite Hv. specialize (Hbase k).
      destruct (bool_decide_reflect (slot s key r = slot s k r)) as [E|E].
      * cbn. eexists. split; [reflexivity|].
        rewrite u64_small by (unfold UINT64_MAX, modulus in *; lia).
        destruct (String.eqb key k); lia.
      * exists v. split; [reflexivity|].
        destruct (String.eqb_spec key k) as [->|_]; [congruence|lia].
    + exists s'. split; [exact Hrun|]. split; [exact Hs'|]. split; [congruence|].
      intros k r Hr. rewrite <- Hd1 in Hr. destruct (Hfin k r Hr) as (v & Hv & Hb).
      exists v. split; [exact Hv|]. cbn [true_count]. lia.
Qed.

End CMSMore.

Lemma cms_new_throws_iff_witness :
  (CMS.new 12 4 0 = Throw "CountMinSketch width must be power of two"
   <-> 12 <> 0 /\ ~ CMS.is_power_of_two 12)
  /\ (CMS.new 12 4 0 = Throw "CountMinSketch depth must be greater than zero"
      <-> (12 = 0 \/ CMS.is_power_of_two 12) /\ 4 = 0)
  /\ ((exists s, CMS.new 12 4 0 = Ok s)
      <-> (12 = 0 \/ CMS.is_power_of_two 12) /\ 4 <> 0).
Proof.
  apply (cms_new_throws_iff 12 4 0); [unfold modulus; lia|].
  vm_compute. reflexivity.
Defined.



(** X7. A sketch of width zero, which the constructor builds for every
    nonzero depth, has no counter: every [increment] and every [estimate]
    on it indexes the empty table out of range. *)
Theorem cms_zero_width_unusable depth seed key count :
  1 <= depth < modulus ->
  exists s,
    CMS.new 0 depth seed = Ok s
    /\ CMS.table_ s = []
    /\ CMS.increment s key count = None
    /\ CMS.estimate s key = None.
Proof.
  intros Hd. unfold CMS.new. cbn [CMS.width_ CMS.depth_].
  change (Z.land 0 (u64 (0 - 1)) =? 0) with true. cbn [negb].
  destruct (Z.eqb_spec depth 0) as [E0|_]; [lia|].
  eexists. split; [reflexivity|]. cbn [CMS.table_].
  assert (Hn : exists n, Z.to_nat depth = S n) by (exists (Z.to_nat (depth - 1)); lia).
  destruct Hn as (n & Hn).
  split; [reflexivity|]. unfold CMS.increment, CMS.estimate. cbn [CMS.depth_ CMS.table_].
  rewrite Hn. cbn [CMS.increment_rows CMS.estimate_rows CMS.table_].
  replace (Z.to_nat (u64 (0 * depth))) with 0%nat by reflexivity. cbn [replicate].
  unfold at_index. cbn [length]. 
  destruct ((0 <=? _) && (_ <? Z.of_nat 0)) eqn:E; [|split; reflexivity].
  apply andb_prop in E as [_ E]. apply Z.ltb_lt in E.
  pose proof (CMSFacts.slot_nonneg
                {| CMS.width_ := 0; CMS.depth_ := depth; CMS.seed_ := seed; CMS.table_ := [] |}
                key 0). cbn in E. lia.
Qed.

Lemma cms_zero_width_unusable_witness :
  exists s,
    CMS.new 0 4 12345 = Ok s
    /\ CMS.table_ s = []
    /\ CMS.increment s "general" 1 = None
    /\ CMS.estimate s "general" = None.
Proof. apply (cms_zero_width_unusable 4 12345 "general" 1). unfold modulus. lia. Defined.

(** ** HyperLogLog: [merge] *)

Module HLLMerge.
Import HLL HLLFacts.

(** The loop of [merge] takes the larger register at every index it visits. *)
Lemma merge_loop_lookup theirs n : forall i mine,
  0 <= i ->
  i + Z.of_nat n <= Z.of_nat (length mine) ->
  i + Z.of_nat n <= Z.of_nat (length theirs) ->
  exists regs,
    merge_loop n i mine theirs = Some regs
    /\ length regs = length mine
    /\ forall j a, mine !! j = Some a ->
         regs !! j =
         if bool_decide (i <= Z.of_nat j < i + Z.of_nat n)
         then Z.max a <$> theirs !! j
         else Some a.
Proof.
  induction n as [|n IH]; intros i mine Hi Hm Ht; cbn [merge_loop].
  - exists mine. split; [reflexivity|]. split; [reflexivity|].
    intros j a Ha. rewrite bool_decide_eq_false_2 by lia. exact Ha.
  - rewrite !at_index_lookup by lia.
    destruct (lookup_lt_is_Some_2 mine (Z.to_nat i) ltac:(lia)) as [a Ha].
    destruct (lookup_lt_is_Some_2 theirs (Z.to_nat i) ltac:(lia)) as [b Hb].
    rewrite Ha, Hb.
    destruct (IH (i + 1) (<[Z.to_nat i := Z.max a b]> mine))
      as (regs & Hrun & Hlen & Hspec); [lia|rewrite length_insert; lia|lia|].
    exists regs. split; [exact Hrun|]. split; [rewrite Hlen; apply length_insert|].
    intros j x Hx. destruct (decide (j = Z.to_nat i)) as [->|Hne].
    + rewrite (Hspec (Z.to_nat i) (Z.max a b))
        by (apply list_lookup_insert_eq; apply lookup_lt_Some in Ha; exact Ha).
      rewrite bool_decide_eq_false_2 by lia. rewrite bool_decide_eq_true_2 by lia.
      rewrite Hb. rewrite Ha in Hx. injection Hx as <-. reflexivity.
    + rewrite (Hspec j x) by (rewrite list_lookup_insert_ne by lia; exact Hx).
      destruct (decide (i + 1 <= Z.of_nat j < i + 1 + Z.of_nat n)).
      * rewrite !bool_decide_eq_true_2 by lia. reflexivity.
      * rewrite !bool_decide_eq_false_2 by lia. reflexivity.
Qed.

(** [merge] of two banks of one precision: the larger register, index by
    index. *)
Lemma merge_lookup p s o :
  0 <= p -> shaped p s -> shaped p o ->
  exists regs,
    merge s o = Ok (Some {| precision_ := precision_ s;
                            register_count_ := register_count_ s;
                            registers_ := regs |})
    /\ length regs = length (registers_ s)
    /\ forall j a b, registers_ s !! j = Some a -> registers_ o !! j = Some b ->
         regs !! j = Some (Z.max a b).
Proof.
  intros Hp [Hps Hcs Hls] [Hpo Hco Hlo]. unfold merge.
  rewrite Hpo, Hps, Z.eqb_refl. cbn [negb].
  pose proof (Z.pow_pos_nonneg 2 p ltac:(lia) Hp) as Hpos.
  destruct (merge_loop_lookup (registers_ o) (Z.to_nat (register_count_ s)) 0 (registers_ s))
    as (regs & Hrun & Hlen & Hspec); [lia|lia|lia|].
  rewrite Hrun. exists regs. split; [reflexivity|]. split; [exact Hlen|].
  intros j a b Ha Hb. rewrite (Hspec j a Ha).
  apply lookup_lt_Some in Ha as Hlt.
  rewrite bool_decide_eq_true_2 by lia. rewrite Hb. reflexivity.
Qed.

Lemma merge_shaped p s o s' :
  0 <= p -> shaped p s -> shaped p o -> merge s o = Ok (Some s') -> shaped p s'.
Proof.
  intros Hp Hs Ho Hm. destruct (merge_lookup p s o Hp Hs Ho) as (regs & E & Hlen & _).
  rewrite E in Hm. injection Hm as <-. destruct Hs as [H1 H2 H3].
  constructor; cbn; auto. rewrite Hlen. exact H3.
Qed.

(** Merging in a bank of zeros changes nothing. *)
Lemma merge_zero p s o :
  0 <= p -> shaped p s -> shaped p o ->
  Forall (fun r => 0 <= r) (registers_ s) ->
  Forall (fun r => r = 0) (registers_ o) ->
  merge s o = Ok (Some s).
Proof.
  intros Hp Hs Ho Hnn Hz. destruct (merge_lookup p s o Hp Hs Ho) as (regs & -> & Hlen & Hspec).
  destruct s as [ps cs rs]. cbn in *. do 3 f_equal.
  apply list_eq_same_length with (length rs); [reflexivity|exact Hlen|].
  intros j x y Hj Hx Hy.
  destruct (lookup_lt_is_Some_2 (registers_ o) j) as [b Hb].
  { destruct Hs as [_ _ H3], Ho as [_ _ H4]. cbn in *. lia. }
  rewrite (Hspec j y b Hy Hb) in Hx. injection Hx as <-.
  pose proof (Forall_lookup_1 _ _ _ _ Hnn Hy) as H0. cbn in H0.
  pose proof (Forall_lookup_1 _ _ _ _ Hz Hb) as H1. cbn in H1. lia.
Qed.

(** Merging in a bank to which a value was added is adding the value to
    the merge. *)
Lemma merge_add p s o v o' m :
  4 <= p <= 18 -> shaped p s -> shaped p o ->
  add o v = Some o' -> merge s o = Ok (Some m) ->
  exists m', add m v = Some m' /\ merge s o' = Ok (Some m').
Proof.
  intros Hp Hs Ho Hadd Hm.
  pose proof (add_shaped p o v o' Hp Ho Hadd) as Ho'.
  pose proof (merge_shaped p s o m ltac:(lia) Hs Ho Hm) as Hms.
  destruct (add_spec p o v Hp Ho) as (rank & r & Hrank & Hr & Eo).
  rewrite Eo in Hadd. injection Hadd as <-.
  destruct (add_spec p m v Hp Hms) as (rank' & rm & Hrank' & Hrm & Em).
  assert (Hidx : index_of m v = index_of o v).
  { unfold index_of. rewrite (shaped_precision _ _ Hms), (shaped_precision _ _ Ho). reflexivity. }
  assert (Hrk : rank' = rank).
  { unfold rank_of in *. rewrite (shaped_precision _ _ Hms) in Hrank'.
    rewrite (shaped_precision _ _ Ho) in Hrank. congruence. }
  subst rank'. rewrite Hidx in *.
  eexists. split; [exact Em|].
  destruct (merge_lookup p s o ltac:(lia) Hs Ho) as (regs & E & Hlen & Hspec).
  rewrite E in Hm. injection Hm as <-. cbn [precision_ register_count_ registers_] in *.
  destruct (merge_lookup p s _ ltac:(lia) Hs Ho') as (regs' & -> & Hlen' & Hspec').
  cbn [precision_ register_count_ registers_] in *.
  do 3 f_equal.
  apply list_eq_same_length with (length regs);
    [rewrite length_insert; reflexivity|congruence|].
  intros j x y Hj Hx Hy.
  destruct (lookup_lt_is_Some_2 (registers_ s) j ltac:(lia)) as [a Ha].
  destruct (decide (j = Z.to_nat (index_of o v))) as [->|Hne].
  - rewrite list_lookup_insert_eq in Hy by lia. injection Hy as <-.
    rewrite (Hspec' _ a (Z.max r rank) Ha) in Hx
      by (apply list_lookup_insert_eq; apply lookup_lt_Some in Hr; exact Hr).
    injection Hx as <-.
    rewrite (Hspec _ a r Ha Hr) in Hrm. injection Hrm as <-. lia.
  - rewrite list_lookup_insert_ne in Hy by lia.
    destruct (lookup_lt_is_Some_2 (registers_ o) j) as [b Hb].
    { destruct Hs as [_ _ H3], Ho as [_ _ H4]. lia. }
    rewrite (Hspec' j a b Ha) in Hx by (rewrite list_lookup_insert_ne by lia; exact Hb).
    rewrite (Hspec j a b Ha Hb) in Hy. congruence.
Qed.

Lemma adds_snoc l v s : adds (l ++ [v]) s = adds l s ≫= fun s' => add s' v.
Proof.
  revert s. induction l as [|x l IH]; intros s; cbn.
  - destruct (add s v); reflexivity.
  - destruct (add s x); [apply IH|reflexivity].
Qed.

Lemma adds_app l1 l2 s : adds (l1 ++ l2) s = adds l1 s ≫= adds l2.
Proof.
  revert s. induction l1 as [|x l1 IH]; intros s; cbn; [reflexivity|].
  destruct (add s x); [apply IH|reflexivity].
Qed.

(** Every run of [add] on a well-formed bank returns. *)
Lemma adds_shaped p l : forall s,
  4 <= p <= 18 -> shaped p s -> Forall (fun r => 0 <= r) (registers_ s) ->
  exists s', adds l s = Some s' /\ shaped p s' /\ Forall (fun r => 0 <= r) (registers_ s').
Proof.
  induction l as [|v l IH]; intros s Hp Hs Hnn; cbn [adds]; [eauto|].
  destruct (add_spec p s v Hp Hs) as (rank & r & Hrank & Hr & E).
  rewrite E. apply IH; [exact Hp|apply (add_shaped p s v _ Hp Hs E)|].
  cbn. apply Forall_insert; [exact Hnn|].
  pose proof (Forall_lookup_1 _ _ _ _ Hnn Hr) as H0. cbn in H0. lia.
Qed.

(** Merging in the bank of a run of adds is running the adds. *)
Lemma merge_adds p s s0 l :
  4 <= p <= 18 -> shaped p s -> Forall (fun r => 0 <= r) (registers_ s) ->
  shaped p s0 -> Forall (fun r => r = 0) (registers_ s0) ->
  exists o u, adds l s0 = Some o /\ adds l s = Some u /\ merge s o = Ok (Some u).
Proof.
  intros Hp Hs Hnn Hs0 Hz. induction l as [|v l IH] using rev_ind.
  - exists s0, s. split; [reflexivity|]. split; [reflexivity|].
    apply (merge_zero p); auto; lia.
  - destruct IH as (o & u & Ho & Hu & Hm).
    assert (Hso : shaped p o).
    { destruct (adds_shaped p l s0 Hp Hs0) as (o' & Ho' & Hsh & _).
      - eapply Forall_impl; [exact Hz|]. cbn. intros; lia.
      - congruence. }
    destruct (add_spec p o v Hp Hso) as (rank & r & _ & _ & Eo).
    destruct (merge_add p s o v _ u Hp Hs Hso Eo Hm) as (u' & Hu' & Hm').
    eexists _, u'. rewrite !adds_snoc, Ho, Hu. cbn. split; [exact Eo|]. split; [exact Hu'|].
    exact Hm'.
Qed.

End HLLMerge.

(** X8. [merge] is the union of what was added: for two banks of one
    precision built by [add] from fresh banks, merging either into the other
    gives the bank that adding all the values to one fresh bank gives. *)
Theorem hll_merge_is_union p l1 l2 :
  4 <= p <= 18 ->
  exists s0 a b u,
    HLL.new p = Ok s0
    /\ HLL.adds l1 s0 = Some a
    /\ HLL.adds l2 s0 = Some b
    /\ HLL.adds (l1 ++ l2) s0 = Some u
    /\ HLL.merge a b = Ok (Some u)
    /\ HLL.merge b a = Ok (Some u).
Proof.
  intros Hp.
  destruct (HLLFacts.hll_new_shaped p Hp) as (s0 & Hnew & Hs0 & Hregs).
  assert (Hz : Forall (fun r => r = 0) (HLL.registers_ s0))
    by (rewrite Hregs; apply Forall_replicate; reflexivity).
  assert (Hnn0 : Forall (fun r => 0 <= r) (HLL.registers_ s0))
    by (eapply Forall_impl; [exact Hz|]; cbn; intros; lia).
  destruct (HLLMerge.adds_shaped p l1 s0 Hp Hs0 Hnn0) as (a & Ha & Hsa & Hnna).
  destruct (HLLMerge.adds_shaped p l2 s0 Hp Hs0 Hnn0) as (b & Hb & Hsb & Hnnb).
  destruct (HLLMerge.merge_adds p a s0 l2 Hp Hsa Hnna Hs0 Hz) as (b' & u & Hb' & Hu & Hm).
  destruct (HLLMerge.merge_adds p b s0 l1 Hp Hsb Hnnb Hs0 Hz) as (a' & u' & Ha' & Hu' & Hm').
  rewrite Hb in Hb'. injection Hb' as <-. rewrite Ha in Ha'. injection Ha' as <-.
  assert (Hu12 : HLL.adds (l1 ++ l2) s0 = Some u)
    by (rewrite HLLMerge.adds_app, Ha; exact Hu).
  assert (Hu21 : HLL.adds (l2 ++ l1) s0 = Some u')
    by (rewrite HLLMerge.adds_app, Hb; exact Hu').
  assert (u' = u) as ->.
  { rewrite !HLLSet.adds_fold in Hu12, Hu21.
    rewrite (fold_opt_perm HLL.add HLLSet.add_commute (l2 ++ l1) (l1 ++ l2)) in Hu21
      by apply Permutation_app_comm.
    congruence. }
  exists s0, a, b, u. auto 10.
Qed.

Lemma hll_merge_is_union_witness :
  exists s0 a b u,
    HLL.new 4 = Ok s0
    /\ HLL.adds ["alice"; "bob"]%string s0 = Some a
    /\ HLL.adds ["bob"; "carol"]%string s0 = Some b
    /\ HLL.adds (["alice"%string; "bob"%string] ++ ["bob"%string; "carol"%string]) s0 = Some u
    /\ HLL.merge a b = Ok (Some u)
    /\ HLL.merge b a = Ok (Some u).
Proof. apply (hll_merge_is_union 4). lia. Defined.

(** ** The skip list: the queries *)

Module SkipListQueries.
Import SkipList SkipListFacts.

(** The loop of [top_k]: [while (current && results.size() < k) {
    results.push_back(current); current = current->forward[0]; }]. *)
Fixpoint top_k_loop (fuel : nat) (ns : gmap handle Node) (current : option handle)
    (k : Z) (results : list handle) : option (list handle) :=
  match current with
  | None => Some results
  | Some h =>
      if Z.of_nat (length results) <? k
      then match fuel with
           | O => None
           | S fuel' =>
               next ← forward_at ns h 0;
               top_k_loop fuel' ns next k (results ++ [h])
           end
      else Some results
  end.

Definition top_k (sl : SkipList) (k : Z) : option (list handle) :=
  first ← forward_at (nodes sl) header_ 0;
  top_k_loop (S (base.size (nodes sl))) (nodes sl) first k [].

(** The loop of [rank_of]: [while (current) { if (current->user_id ==
    user_id) return rank; ++rank; current = current->forward[0]; } return 0]. *)
Fixpoint rank_of_loop (fuel : nat) (ns : gmap handle Node) (current : option handle)
    (user_id : string) (rank : Z) : option Z :=
  match current with
  | None => Some 0
  | Some h =>
      match fuel with
      | O => None
      | S fuel' =>
          nd ← ns !! h;
          if String.eqb (SkipList.user_id nd) user_id then Some rank
          else next ← forward nd !! 0%nat;
               rank_of_loop fuel' ns next user_id (u64 (rank + 1))
      end
  end.

Definition rank_of (sl : SkipList) (user_id : string) : option Z :=
  first ← forward_at (nodes sl) header_ 0;
  rank_of_loop (S (base.size (nodes sl))) (nodes sl) first user_id 1.

(** Both loops walk the chain that [for_each] walks. *)
Lemma top_k_loop_traverse ns k : forall fuel current nds results,
  traverse fuel ns current = Some nds ->
  exists hs,
    top_k_loop fuel ns current k results = Some (results ++ hs)
    /\ Forall2 (fun h nd => ns !! h = Some nd) hs
         (take (Z.to_nat (k - Z.of_nat (length results))) nds).
Proof.
  induction fuel as [|fuel IH]; intros [h|] nds results Htr; cbn in Htr;
    try discriminate.
  - injection Htr as <-. exists []. rewrite app_nil_r, take_nil. split; [reflexivity|constructor].
  - cbn [top_k_loop]. destruct (Z.ltb_spec (Z.of_nat (length results)) k) as [Hlt|Hge].
    + destruct (ns !! h) as [nd|] eqn:Hnd; [|discriminate]. cbn in Htr.
      destruct (forward nd !! 0%nat) as [next|] eqn:Hnext; [|discriminate]. cbn in Htr.
      destruct (traverse fuel ns next) as [rest|] eqn:Hrest; [|discriminate].
      injection Htr as <-.
      unfold forward_at. rewrite Hnd. cbn. rewrite Hnext. cbn.
      destruct (IH next rest (results ++ [h]) Hrest) as (hs & Hrun & Hall).
      exists (h :: hs). rewrite Hrun, <- app_assoc. split; [reflexivity|].
      rewrite length_app in Hall. cbn [length] in Hall.
      replace (Z.to_nat (k - Z.of_nat (length results)))
        with (S (Z.to_nat (k - Z.of_nat (length results + 1)))) by lia.
      cbn [take]. constructor; [exact Hnd|exact Hall].
    + exists []. rewrite app_nil_r. split; [reflexivity|].
      replace (Z.to_nat (k - Z.of_nat (length results))) with 0%nat by lia.
      rewrite take_0. constructor.
  - injection Htr as <-. exists []. rewrite app_nil_r, take_nil. split; [reflexivity|constructor].
Qed.

Lemma top_k_for_each sl k nds :
  for_each sl = Some nds ->
  exists hs,
    top_k sl k = Some hs
    /\ Forall2 (fun h nd => nodes sl !! h = Some nd) hs (take (Z.to_nat k) nds).
Proof.
  unfold for_each, top_k. destruct (forward_at (nodes sl) header_ 0) as [first|]; [|discriminate].
  cbn [mbind option_bind]. intros Htr.
  destruct (top_k_loop_traverse (nodes sl) k _ _ _ [] Htr) as (hs & Hrun & Hall).
  exists hs. split; [exact Hrun|]. cbn in Hall. rewrite Z.sub_0_r in Hall. exact Hall.
Qed.

(** The position of the first node of [user_id], counted from [rank]. *)
Fixpoint rank_from (nds : list Node) (user_id : string) (rank : Z) : Z :=
  match nds with
  | [] => 0
  | nd :: rest =>
      if String.eqb (SkipList.user_id nd) user_id then rank
      else rank_from rest user_id (u64 (rank + 1))
  end.

Lemma rank_of_loop_traverse ns id : forall fuel current nds rank,
  traverse fuel ns current = Some nds ->
  rank_of_loop fuel ns current id rank = Some (rank_from nds id rank).
Proof.
  induction fuel as [|fuel IH]; intros [h|] nds rank Htr; cbn in Htr; try discriminate.
  - injection Htr as <-. reflexivity.
  - cbn [rank_of_loop].
    destruct (ns !! h) as [nd|] eqn:Hnd; [|discriminate]. cbn in Htr |- *.
    destruct (forward nd !! 0%nat) as [next|] eqn:Hnext; [|discriminate]. cbn in Htr |- *.
    destruct (traverse fuel ns next) as [rest|] eqn:Hrest; [|discriminate].
    injection Htr as <-. cbn [rank_from].
    destruct (String.eqb (user_id nd) id); [reflexivity|].
    apply IH, Hrest.
  - injection Htr as <-. reflexivity.
Qed.

Lemma rank_of_for_each sl id nds :
  for_each sl = Some nds -> rank_of sl id = Some (rank_from nds id 1).
Proof.
  unfold for_each, rank_of.
  destruct (forward_at (nodes sl) header_ 0) as [first|]; [|discriminate].
  cbn [mbind option_bind]. apply rank_of_loop_traverse.
Qed.

Lemma rank_from_absent id : forall nds rank,
  id ∉ user_id <$> nds -> rank_from nds id rank = 0.
Proof.
  induction nds as [|nd nds IH]; intros rank Hnin; [reflexivity|].
  rewrite fmap_cons in Hnin. apply not_elem_of_cons in Hnin as [Hne Hnin].
  cbn [rank_from]. destruct (String.eqb_spec (user_id nd) id) as [E|_]; [congruence|].
  apply IH, Hnin.
Qed.

Lemma rank_from_at : forall nds (i : nat) nd rank,
  NoDup (user_id <$> nds) -> nds !! i = Some nd -> 0 <= rank < modulus ->
  rank_from nds (user_id nd) rank = u64 (rank + Z.of_nat i).
Proof.
  induction nds as [|x nds IH]; intros i nd rank Hnd Hi Hr; [discriminate|].
  rewrite fmap_cons in Hnd. apply NoDup_cons in Hnd as [Hx Hnd]. cbn [rank_from].
  destruct i as [|i]; cbn in Hi.
  - injection Hi as ->. rewrite String.eqb_refl. rewrite Z.add_0_r.
    unfold u64. rewrite Z.mod_small; [reflexivity|exact Hr].
  - destruct (String.eqb_spec (user_id x) (user_id nd)) as [E|_].
    + exfalso. apply Hx. rewrite E. apply list_elem_of_fmap_2.
      apply (list_elem_of_lookup_2 _ _ _ Hi).
    + rewrite (IH i nd _ Hnd Hi); [|apply Z.mod_pos_bound; reflexivity].
      unfold u64. rewrite Zplus_mod_idemp_l. f_equal. lia.
Qed.

(** A program on a fresh list: its run, with the invariant. *)
Lemma run_fresh max_levels probability rng sl0 ops :
  new max_levels probability rng = Ok sl0 -> scores_ordered ops ->
  exists sl l,
    run ops sl0 = Some sl /\ inv sl l /\ represents l (present ops ∅).
Proof.
  intros Hnew Hok.
  apply (run_inv ops sl0 [] ∅ (new_inv _ _ _ _ Hnew)); [|exact Hok].
  intros id s ts. rewrite lookup_empty. split; [|discriminate].
  intros (e & []%elem_of_nil & _).
Qed.

Lemma represents_length (l : list entry) m :
  NoDup (e_id <$> l) -> represents l m -> length l = base.size m.
Proof.
  intros Hnd Hrep.
  rewrite <- (length_fmap (fun e => (e_id e, (e_score e, e_ts e))) l).
  rewrite (represents_permutation l m Hnd Hrep). apply length_map_to_list.
Qed.

Lemma represents_ids (l : list entry) m id :
  represents l m -> id ∈ e_id <$> l <-> is_Some (m !! id).
Proof.
  intros Hrep. split.
  - intros (e & -> & He)%list_elem_of_fmap. exists (e_score e, e_ts e).
    apply Hrep. eauto.
  - intros [[s ts] Hm]. apply Hrep in Hm as (e & He & <- & _).
    apply list_elem_of_fmap_2, He.
Qed.

Lemma find_inv sl l m id :
  inv sl l -> represents l m ->
  match find sl id with
  | Some h => exists nd, nodes sl !! h = Some nd /\ user_id nd = id
                         /\ m !! id = Some (score nd, last_update nd)
  | None => m !! id = None
  end.
Proof.
  intros Hinv Hrep. unfold find. destruct (index_ sl !! id) as [h|] eqn:E.
  - apply (inv_index _ _ Hinv) in E as (e & He & <- & <-).
    destruct (inv_models _ _ Hinv e He) as (nd & Hnd & E1 & E2 & E3 & _).
    exists nd. split; [exact Hnd|]. split; [exact E1|].
    rewrite E2, E3. apply Hrep. eauto.
  - destruct (m !! id) as [[s ts]|] eqn:Hm; [|reflexivity]. exfalso.
    apply Hrep in Hm as (e & He & <- & _).
    assert (index_ sl !! e_id e = Some (e_h e)) as Hi by (apply (inv_index _ _ Hinv); eauto).
    congruence.
Qed.

Lemma traverse_head ns fuel h nds :
  traverse fuel ns (Some h) = Some nds ->
  exists nd next rest,
    fuel <> O /\ ns !! h = Some nd /\ forward nd !! 0%nat = Some next
    /\ traverse (pred fuel) ns next = Some rest /\ nds = nd :: rest.
Proof.
  destruct fuel as [|fuel]; cbn; [discriminate|].
  destruct (ns !! h) as [nd|]; [|discriminate]. cbn.
  destruct (forward nd !! 0%nat) as [next|] eqn:Hnext; [|discriminate]. cbn.
  destruct (traverse fuel ns next) as [rest|] eqn:Hrest; [|discriminate]. cbn.
  intros [= <-]. exists nd, next, rest. split; [discriminate|]. auto.
Qed.

(** The loop of [tail] stops on the last node that [for_each] visits. *)
Lemma tail_loop_traverse ns : forall fuel h nds,
  traverse fuel ns (Some h) = Some nds ->
  exists hl, tail_loop fuel ns h = Some hl /\ ns !! hl = last nds.
Proof.
  induction fuel as [|fuel IH]; intros h nds Htr;
    destruct (traverse_head _ _ _ _ Htr) as (nd & next & rest & Hf & Hnd & Hnext & Hrest & ->);
    [congruence|].
  cbn [pred] in Hrest. cbn [tail_loop]. unfold forward_at. rewrite Hnd. cbn. rewrite Hnext. cbn.
  destruct next as [h'|].
  - destruct (IH h' rest Hrest) as (hl & Hrun & Hl). exists hl. split; [exact Hrun|].
    rewrite Hl.
    destruct (traverse_head _ _ _ _ Hrest) as (? & ? & ? & _ & _ & _ & _ & ->). reflexivity.
  - exists h. split; [reflexivity|].
    destruct fuel; cbn in Hrest; injection Hrest as <-; exact Hnd.
Qed.

Lemma tail_loop_more ns : forall fuel h hl,
  tail_loop fuel ns h = Some hl -> tail_loop (S fuel) ns h = Some hl.
Proof.
  induction fuel as [|fuel IH]; intros h hl Hrun; [discriminate|].
  cbn [tail_loop] in Hrun |- *.
  destruct (forward_at ns h 0) as [[h'|]|]; cbn in Hrun |- *; try discriminate.
  - apply IH, Hrun.
  - exact Hrun.
Qed.

Lemma tail_for_each sl l nds :
  inv sl l -> for_each sl = Some nds ->
  match nds with
  | [] => tail sl = Some None
  | _ :: _ => exists h, tail sl = Some (Some h) /\ nodes sl !! h = last nds
  end.
Proof.
  intros Hinv Hfe. pose proof (tail_inv sl l Hinv) as Htail.
  unfold for_each in Hfe. unfold tail in Htail |- *.
  destruct (forward_at (nodes sl) header_ 0) as [[h|]|];
    cbn [mbind option_bind] in Hfe, Htail |- *; try discriminate.
  - destruct (tail_loop (base.size (nodes sl)) (nodes sl) h) as [hl|] eqn:Hl;
      cbn [mbind option_bind] in Htail |- *; [|discriminate].
    destruct (tail_loop_traverse _ _ _ _ Hfe) as (hl' & Hl' & Hlast).
    rewrite (tail_loop_more _ _ _ _ Hl) in Hl'. injection Hl' as <-.
    destruct (traverse_head _ _ _ _ Hfe) as (? & ? & ? & _ & _ & _ & _ & ->).
    exists hl. split; [reflexivity|exact Hlast].
  - injection Hfe as <-. reflexivity.
Qed.

End SkipListQueries.

(** X9. [find] and [size] against the users present: after any program of
    [upsert] and [erase] calls on a fresh list whose scores are not NaN,
    [size] is the number of users present (modulo 2^64), and [find] returns
    the node of a present user, holding its id, score and time stamp, and
    [nullptr] for every other id. *)
Theorem skiplist_find_and_size max_levels probability rng sl0 ops :
  SkipList.new max_levels probability rng = Ok sl0 ->
  SkipList.scores_ordered ops ->
  exists sl,
    SkipList.run ops sl0 = Some sl
    /\ SkipList.size sl = u64 (Z.of_nat (base.size (SkipList.present ops ∅)))
    /\ forall id,
         match SkipList.find sl id with
         | Some h =>
             exists nd, SkipList.nodes sl !! h = Some nd
               /\ SkipList.user_id nd = id
               /\ SkipList.present ops ∅ !! id
                  = Some (SkipList.score nd, SkipList.last_update nd)
         | None => SkipList.present ops ∅ !! id = None
         end.
Proof.
  intros Hnew Hok.
  destruct (SkipListQueries.run_fresh _ _ _ _ _ Hnew Hok) as (sl & l & Hrun & Hinv & Hrep).
  exists sl. split; [exact Hrun|]. split.
  - unfold SkipList.size. rewrite (SkipListFacts.inv_size _ _ Hinv).
    rewrite (SkipListQueries.represents_length l _ (SkipListFacts.inv_ids _ _ Hinv) Hrep).
    reflexivity.
  - intros id. apply (SkipListQueries.find_inv sl l _ id Hinv Hrep).
Qed.

Lemma skiplist_find_and_size_witness :
  exists sl0,
    SkipList.new 16 0.5 demo_rng = Ok sl0
    /\ SkipList.scores_ordered demo_ops
    /\ exists sl,
         SkipList.run demo_ops sl0 = Some sl
         /\ SkipList.size sl = u64 (Z.of_nat (base.size (SkipList.present demo_ops ∅)))
         /\ forall id,
              match SkipList.find sl id with
              | Some h =>
                  exists nd, SkipList.nodes sl !! h = Some nd
                    /\ SkipList.user_id nd = id
                    /\ SkipList.present demo_ops ∅ !! id
                       = Some (SkipList.score nd, SkipList.last_update nd)
              | None => SkipList.present demo_ops ∅ !! id = None
              end.
Proof.
  eexists. split; [reflexivity|].
  split; [repeat constructor|].
  apply (skiplist_find_and_size 16 0.5 demo_rng _ demo_ops).
  - reflexivity.
  - repeat constructor.
Defined.

(** X10. [erase] reports presence: in a list reached by such a program,
    [erase] returns true exactly when the user is present; afterwards
    [find] no longer finds the user, finds every other id as before, and
    [size] is the number of the users left. *)
Theorem skiplist_erase_reports_presence max_levels probability rng sl0 ops id :
  SkipList.new max_levels probability rng = Ok sl0 ->
  SkipList.scores_ordered ops ->
  exists sl sl',
    SkipList.run ops sl0 = Some sl
    /\ SkipList.erase sl id
       = Some (bool_decide (is_Some (SkipList.present ops ∅ !! id)), sl')
    /\ SkipList.find sl' id = None
    /\ (forall id', id' <> id -> SkipList.find sl' id' = SkipList.find sl id')
    /\ SkipList.size sl'
       = u64 (Z.of_nat (base.size (delete id (SkipList.present ops ∅)))).
Proof.
  intros Hnew Hok.
  destruct (SkipListQueries.run_fresh _ _ _ _ _ Hnew Hok) as (sl & l & Hrun & Hinv & Hrep).
  destruct (SkipListFacts.erase_inv sl l id Hinv) as (sl' & Herase & Hinv' & _).
  pose proof (SkipListFacts.represents_erase l _ id Hrep) as Hrep'.
  exists sl, sl'. split; [exact Hrun|]. split; [|split; [|split]].
  - rewrite Herase. do 2 f_equal. apply bool_decide_ext.
    apply SkipListQueries.represents_ids, Hrep.
  - pose proof (SkipListQueries.find_inv sl' _ _ id Hinv' Hrep') as Hf.
    destruct (SkipList.find sl' id) as [h|]; [|reflexivity].
    destruct Hf as (nd & _ & _ & Hm). rewrite lookup_delete_eq in Hm. discriminate.
  - intros id' Hne. unfold SkipList.find. apply option_eq. intros h.
    rewrite (SkipListFacts.inv_index _ _ Hinv'), (SkipListFacts.inv_index _ _ Hinv). split.
    + intros (e & [_ He]%list_elem_of_filter & Hh & Hid). eauto.
    + intros (e & He & Hh & Hid). exists e. split; [|auto].
      apply list_elem_of_filter. split; [congruence|exact He].
  - unfold SkipList.size. rewrite (SkipListFacts.inv_size _ _ Hinv').
    rewrite (SkipListQueries.represents_length _ _ (SkipListFacts.inv_ids _ _ Hinv') Hrep').
    reflexivity.
Qed.

Lemma skiplist_erase_reports_presence_witness :
  exists sl0,
    SkipList.new 16 0.5 demo_rng = Ok sl0
    /\ SkipList.scores_ordered demo_ops
    /\ exists sl sl',
         SkipList.run demo_ops sl0 = Some sl
         /\ SkipList.erase sl "carol"
            = Some (bool_decide (is_Some (SkipList.present demo_ops ∅ !! "carol"%string)), sl')
         /\ SkipList.find sl' "carol" = None
         /\ (forall id', id' <> "carol"%string -> SkipList.find sl' id' = SkipList.find sl id')
         /\ SkipList.size sl'
            = u64 (Z.of_nat (base.size (delete "carol"%string (SkipList.present demo_ops ∅)))).
Proof.
  eexists. split; [reflexivity|].
  split; [repeat constructor|].
  apply (skiplist_erase_reports_presence 16 0.5 demo_rng _ demo_ops "carol").
  - reflexivity.
  - repeat constructor.
Defined.

(** X11. [top_k] is a prefix of the traversal: in a list reached by such a
    program, [top_k(k)] returns the addresses of the first [k] nodes that
    [for_each] visits, in that order (all of them when there are fewer). *)
Theorem skiplist_top_k_prefix max_levels probability rng sl0 ops k :
  SkipList.new max_levels probability rng = Ok sl0 ->
  SkipList.scores_ordered ops ->
  exists sl nds hs,
    SkipList.run ops sl0 = Some sl
    /\ SkipList.for_each sl = Some nds
    /\ SkipListQueries.top_k sl k = Some hs
    /\ Forall2 (fun h nd => SkipList.nodes sl !! h = Some nd) hs (take (Z.to_nat k) nds).
Proof.
  intros Hnew Hok.
  destruct (SkipListQueries.run_fresh _ _ _ _ _ Hnew Hok) as (sl & l & Hrun & Hinv & Hrep).
  destruct (SkipListFacts.for_each_inv sl l Hinv) as (nds & Hfe & _).
  destruct (SkipListQueries.top_k_for_each sl k nds Hfe) as (hs & Htop & Hall).
  exists sl, nds, hs. auto.
Qed.

Lemma skiplist_top_k_prefix_witness :
  exists sl0,
    SkipList.new 16 0.5 demo_rng = Ok sl0
    /\ SkipList.scores_ordered demo_ops
    /\ exists sl nds hs,
         SkipList.run demo_ops sl0 = Some sl
         /\ SkipList.for_each sl = Some nds
         /\ SkipListQueries.top_k sl 1 = Some hs
         /\ Forall2 (fun h nd => SkipList.nodes sl !! h = Some nd) hs (take (Z.to_nat 1) nds).
Proof.
  eexists. split; [reflexivity|].
  split; [repeat constructor|].
  apply (skiplist_top_k_prefix 16 0.5 demo_rng _ demo_ops 1).
  - reflexivity.
  - repeat constructor.
Defined.

(** X12. [rank_of] is the position in the traversal: in a list reached by
    such a program, the user of the node that [for_each] visits at index
    [i] (from zero) has rank [i + 1] (modulo 2^64), and a user that is not
    present has rank 0. *)
Theorem skiplist_rank_of_position max_levels probability rng sl0 ops :
  SkipList.new max_levels probability rng = Ok sl0 ->
  SkipList.scores_ordered ops ->
  exists sl nds,
    SkipList.run ops sl0 = Some sl
    /\ SkipList.for_each sl = Some nds
    /\ (forall (i : nat) nd, nds !! i = Some nd ->
          SkipListQueries.rank_of sl (SkipList.user_id nd) = Some (u64 (Z.of_nat i + 1)))
    /\ (forall id, SkipList.present ops ∅ !! id = None ->
          SkipListQueries.rank_of sl id = Some 0).
Proof.
  intros Hnew Hok.
  destruct (SkipListQueries.run_fresh _ _ _ _ _ Hnew Hok) as (sl & l & Hrun & Hinv & Hrep).
  destruct (SkipListFacts.for_each_inv sl l Hinv) as (nds & Hfe & Hag).
  assert (Hids : SkipList.user_id <$> nds = SkipListFacts.e_id <$> l).
  { pose proof (SkipListFacts.agrees_contents nds l Hag) as Hc.
    apply (f_equal (fmap fst)) in Hc. rewrite <- !list_fmap_compose in Hc. exact Hc. }
  assert (Hloop : forall id,
            SkipListQueries.rank_of sl id = Some (SkipListQueries.rank_from nds id 1))
    by (intros id; apply SkipListQueries.rank_of_for_each, Hfe).
  exists sl, nds. split; [exact Hrun|]. split; [exact Hfe|]. split.
  - intros i nd Hi. rewrite Hloop.
    rewrite (SkipListQueries.rank_from_at nds i nd 1); [do 2 f_equal; lia| |exact Hi|].
    + rewrite Hids. apply (SkipListFacts.inv_ids _ _ Hinv).
    + unfold modulus. lia.
  - intros id Hid. rewrite Hloop. rewrite SkipListQueries.rank_from_absent; [reflexivity|].
    rewrite Hids. intros Hin.
    apply (SkipListQueries.represents_ids l _ id Hrep) in Hin as [x Hx]. congruence.
Qed.

Lemma skiplist_rank_of_position_witness :
  exists sl0,
    SkipList.new 16 0.5 demo_rng = Ok sl0
    /\ SkipList.scores_ordered demo_ops
    /\ exists sl nds,
         SkipList.run demo_ops sl0 = Some sl
         /\ SkipList.for_each sl = Some nds
         /\ (forall (i : nat) nd, nds !! i = Some nd ->
               SkipListQueries.rank_of sl (SkipList.user_id nd) = Some (u64 (Z.of_nat i + 1)))
         /\ (forall id, SkipList.present demo_ops ∅ !! id = None ->
               SkipListQueries.rank_of sl id = Some 0).
Proof.
  eexists. split; [reflexivity|].
  split; [repeat constructor|].
  apply (skiplist_rank_of_position 16 0.5 demo_rng _ demo_ops).
  - reflexivity.
  - repeat constructor.
Defined.

(** X13. [tail] is the last node of the traversal: in a list reached by
    such a program, [tail] returns [nullptr] when [for_each] visits nothing,
    and otherwise the address of the last node it visits. *)
Theorem skiplist_tail_is_last max_levels probability rng sl0 ops :
  SkipList.new max_levels probability rng = Ok sl0 ->
  SkipList.scores_ordered ops ->
  exists sl nds,
    SkipList.run ops sl0 = Some sl
    /\ SkipList.for_each sl = Some nds
    /\ match last nds with
       | None => SkipList.tail sl = Some None
       | Some nd =>
           exists h, SkipList.tail sl = Some (Some h) /\ SkipList.nodes sl !! h = Some nd
       end.
Proof.
  intros Hnew Hok.
  destruct (SkipListQueries.run_fresh _ _ _ _ _ Hnew Hok) as (sl & l & Hrun & Hinv & Hrep).
  destruct (SkipListFacts.for_each_inv sl l Hinv) as (nds & Hfe & _).
  exists sl, nds. split; [exact Hrun|]. split; [exact Hfe|].
  pose proof (SkipListQueries.tail_for_each sl l nds Hinv Hfe) as Ht.
  destruct nds as [|nd nds]; [exact Ht|].
  destruct Ht as (h & Ht & Hh). rewrite <- Hh.
  destruct (SkipList.nodes sl !! h) as [x|] eqn:E.
  - exists h. auto.
  - exfalso. symmetry in Hh. apply last_None in Hh. discriminate.
Qed.

Lemma skiplist_tail_is_last_witness :
  exists sl0,
    SkipList.new 16 0.5 demo_rng = Ok sl0
    /\ SkipList.scores_ordered demo_ops
    /\ exists sl nds,
         SkipList.run demo_ops sl0 = Some sl
         /\ SkipList.for_each sl = Some nds
         /\ match last nds with
            | None => SkipList.tail sl = Some None
            | Some nd =>
                exists h, SkipList.tail sl = Some (Some h) /\ SkipList.nodes sl !! h = Some nd
            end.
Proof.
  eexists. split; [reflexivity|].
  split; [repeat constructor|].
  apply (skiplist_tail_is_last 16 0.5 demo_rng _ demo_ops).
  - reflexivity.
  - repeat constructor.
Defined.

(** X14. [clear] resets the list: in a list reached by such a program,
    [clear] returns, frees every node but the header, and leaves a list of
    size 0 in which [find] finds nothing and [for_each] visits nothing; any
    further program on it ends as it would on a fresh list, with a sorted
    traversal of exactly the users that program leaves present. *)
Theorem skiplist_clear_resets max_levels probability rng sl0 ops ops' :
  SkipList.new max_levels probability rng = Ok sl0 ->
  SkipList.scores_ordered ops ->
  SkipList.scores_ordered ops' ->
  exists sl cleared sl' nds,
    SkipList.run ops sl0 = Some sl
    /\ SkipList.clear sl = Some cleared
    /\ SkipList.size cleared = 0
    /\ base.size (SkipList.nodes cleared) = 1%nat
    /\ SkipList.for_each cleared = Some []
    /\ (forall id, SkipList.find cleared id = None)
    /\ SkipList.run ops' cleared = Some sl'
    /\ SkipList.for_each sl' = Some nds
    /\ StronglySorted
         (fun a b => SkipList.comes_before a (SkipList.score b) (SkipList.user_id b) = true)
         nds
    /\ SkipListFacts.contents <$> nds ≡ₚ map_to_list (SkipList.present ops' ∅).
Proof.
  intros Hnew Hok Hok'.
  destruct (SkipListQueries.run_fresh _ _ _ _ _ Hnew Hok) as (sl & l & Hrun & Hinv & _).
  destruct (SkipListFacts.clear_inv sl l Hinv) as (cleared & Hclear & Hinv0 & _).
  assert (Hrep0 : SkipListFacts.represents [] ∅).
  { intros id s ts. rewrite lookup_empty. split; [|discriminate].
    intros (e & []%elem_of_nil & _). }
  destruct (SkipListFacts.run_inv ops' cleared [] ∅ Hinv0 Hrep0 Hok')
    as (sl' & l' & Hrun' & Hinv' & Hrep').
  destruct (SkipListFacts.for_each_inv sl' l' Hinv') as (nds & Hfe & Hag).
  destruct (SkipListFacts.for_each_inv cleared [] Hinv0) as (nds0 & Hfe0 & Hag0).
  apply Forall2_nil_inv_r in Hag0 as ->.
  exists sl, cleared, sl', nds.
  split; [exact Hrun|]. split; [exact Hclear|].
  split; [apply (SkipListFacts.inv_size _ _ Hinv0)|].
  split; [apply (SkipListFacts.inv_count _ _ Hinv0)|].
  split; [exact Hfe0|]. split.
  { intros id. pose proof (SkipListQueries.find_inv cleared [] ∅ id Hinv0 Hrep0) as Hf.
    destruct (SkipList.find cleared id) as [h|]; [|reflexivity].
    destruct Hf as (nd & _ & _ & Hm). rewrite lookup_empty in Hm. discriminate. }
  split; [exact Hrun'|]. split; [exact Hfe|]. split.
  - apply (SkipListFacts.agrees_sorted nds l' Hag), (SkipListFacts.inv_sorted _ _ Hinv').
  - rewrite (SkipListFacts.agrees_contents nds l' Hag).
    apply SkipListFacts.represents_permutation; [|exact Hrep'].
    apply (SkipListFacts.inv_ids _ _ Hinv').
Qed.

Lemma skiplist_clear_resets_witness :
  exists sl0,
    SkipList.new 16 0.5 demo_rng = Ok sl0
    /\ SkipList.scores_ordered demo_ops
    /\ SkipList.scores_ordered [SkipList.Upsert "dave" 7 3000]
    /\ exists sl cleared sl' nds,
         SkipList.run demo_ops sl0 = Some sl
         /\ SkipList.clear sl = Some cleared
         /\ SkipList.size cleared = 0
         /\ base.size (SkipList.nodes cleared) = 1%nat
         /\ SkipList.for_each cleared = Some []
         /\ (forall id, SkipList.find cleared id = None)
         /\ SkipList.run [SkipList.Upsert "dave" 7 3000] cleared = Some sl'
         /\ SkipList.for_each sl' = Some nds
         /\ StronglySorted
              (fun a b => SkipList.comes_before a (SkipList.score b) (SkipList.user_id b) = true)
              nds
         /\ SkipListFacts.contents <$> nds
            ≡ₚ map_to_list (SkipList.present [SkipList.Upsert "dave" 7 3000] ∅).
Proof.
  eexists. split; [reflexivity|].
  split; [repeat constructor|]. split; [repeat constructor|].
  apply (skiplist_clear_resets 16 0.5 demo_rng _ demo_ops [SkipList.Upsert "dave" 7 3000]).
  - reflexivity.
  - repeat constructor.
  - repeat constructor.
Defined.

(** ** The leaderboard: refreshing and ranking *)

Module LeaderboardQueries.
Import Leaderboard.













End LeaderboardQueries.

Module LeaderboardQueriesFacts.
Import SkipList SkipListFacts SkipListQueries Leaderboard.
Module LQ := LeaderboardQueries.

Implicit Types (es : list (string * (float * Z))) (m : gmap string (float * Z)).

(** The contents of an entry of the list. *)
Definition ec (e : entry) : string * (float * Z) := (e_id e, (e_score e, e_ts e)).


Lemma entries_inv lb l :
  inv (skip_list_ lb) l -> entries lb = Some (ec <$> l).
Proof.
  intros Hinv. unfold entries.
  destruct (for_each_inv _ l Hinv) as (nds & -> & Hag).
  rewrite (agrees_contents nds l Hag). reflexivity.
Qed.


















End LeaderboardQueriesFacts.


(** A board of two users, both stamped 1000. *)
Definition demo_calls : list Leaderboard.call :=
  [("alice"%string, 10%float, 1000, 0); ("bob"%string, 20%float, 1000, 0)].








(** ** The event processor: the statistics ([event_processor.cpp]) *)

Module EventProcessor.

Definition kWindowSpanSeconds : Z := 3600.
Definition kBucketSpanSeconds : Z := 60.
Definition INT64_MIN : Z := - 2 ^ 63.

Record Event : Type := mkEvent {
  event_type : string;
  user_id : string;
  channel_id : string;
  timestamp : Z
}.

(** [bucket_start]; [clock] is the reading of the system clock, in seconds,
    that replaces a time stamp that is not positive. The division of two
    [int64_t] truncates. *)
Definition bucket_start (timestamp clock : Z) : Z :=
  let timestamp := if timestamp <=? 0 then clock else timestamp in
  Z.quot timestamp kBucketSpanSeconds * kBucketSpanSeconds.

Record HyperLogLogWindow : Type := mkWindow {
  window_start : Z;
  sketch : HLL.HyperLogLog
}.

(** The members that [stats_mutex_] guards, and the sketch of the
    channels. *)
Record Stats : Type := mkStats {
  channel_frequency_ : CMS.CountMinSketch;
  windows_ : list HyperLogLogWindow;
  channel_counts_ : gmap string Z
}.

(** The members as the constructor leaves them. *)
Definition new_stats : result Stats :=
  match CMS.new 2048 4 12345 with
  | Throw e => Throw e
  | Ok cms => Ok {| channel_frequency_ := cms; windows_ := []; channel_counts_ := ∅ |}
  end.

(** [while (!windows_.empty() && windows_.front().window_start < cutoff)
    windows_.pop_front()] *)
Fixpoint expire (cutoff : Z) (windows : list HyperLogLogWindow)
    : list HyperLogLogWindow :=
  match windows with
  | [] => []
  | w :: rest => if window_start w <? cutoff then expire cutoff rest else windows
  end.

Section Sort.
(** [std::sort] with the comparison of the window starts. *)
Variable sort : list HyperLogLogWindow -> list HyperLogLogWindow.

(** [process_event]. The difference [bucket - kWindowSpanSeconds] is an
    [int64_t] subtraction: where it overflows the behaviour is undefined. *)
Definition process_event (st : Stats) (event : Event) (clock : Z)
    : option (result Stats) :=
  let bucket := bucket_start (timestamp event) clock in
  let cutoff := bucket - kWindowSpanSeconds in
  if cutoff <? INT64_MIN then None
  else
    match CMS.increment (channel_frequency_ st) (channel_id event) 1 with
    | None => None
    | Some cms =>
        let counts :=
          <[channel_id event :=
              u64 (default 0 (channel_counts_ st !! channel_id event) + 1)]>
            (channel_counts_ st) in
        let windows := expire cutoff (windows_ st) in
        match list_find (fun w => window_start w = bucket) windows with
        | None =>
            match HLL.new 14 with
            | Throw e => Some (Throw e)
            | Ok fresh =>
                match HLL.add fresh (user_id event) with
                | None => None
                | Some sk =>
                    Some (Ok {| channel_frequency_ := cms;
                                windows_ :=
                                  sort (windows ++ [{| window_start := bucket;
                                                       sketch := sk |}]);
                                channel_counts_ := counts |})
                end
            end
        | Some (i, w) =>
            match HLL.add (sketch w) (user_id event) with
            | None => None
            | Some sk =>
                Some (Ok {| channel_frequency_ := cms;
                            windows_ := <[i := {| window_start := window_start w;
                                                  sketch := sk |}]> windows;
                            channel_counts_ := counts |})
            end
        end
    end.

(** The calls of [process_event] that the consumer makes, in order, each
    event with the clock reading of its call. *)
Fixpoint process_events (events : list (Event * Z)) (st : Stats)
    : option (result Stats) :=
  match events with
  | [] => Some (Ok st)
  | (event, clock) :: rest =>
      match process_event st event clock with
      | Some (Ok st') => process_events rest st'
      | other => other
      end
  end.

End Sort.



(** The bucket of an event and the clock reading of its call. *)
Definition bucket_of (ec : Event * Z) : Z := bucket_start (timestamp ec.1) ec.2.

(** The number of events of a channel. *)
Definition count_of (channel : string) (events : list (Event * Z)) : Z :=
  Z.of_nat (length (filter (fun ec => channel_id ec.1 = channel) events)).

(** The users of the events of a bucket, in order. *)
Definition users_of (bucket : Z) (events : list (Event * Z)) : list string :=
  (fun ec => user_id ec.1) <$> filter (fun ec => bucket_of ec = bucket) events.

(** The cutoff of the last event processed. *)
Definition horizon (events : list (Event * Z)) : Z :=
  match last events with
  | Some ec => bucket_of ec - kWindowSpanSeconds
  | None => 0
  end.


End EventProcessor.

Module EventProcessorFacts.
Import EventProcessor.

Implicit Types (events : list (Event * Z)) (st : Stats)
  (windows : list HyperLogLogWindow).

(** *** The bucket *)

Lemma bucket_start_floor ts :
  0 <= ts ->
  Z.quot ts kBucketSpanSeconds * kBucketSpanSeconds = 60 * (ts / 60).
Proof.
  intros Hts. unfold kBucketSpanSeconds. rewrite Z.quot_div_nonneg by lia. lia.
Qed.

(** *** The order of the windows *)

Definition earlier (a b : HyperLogLogWindow) : Prop := window_start a < window_start b.
Definition not_later (a b : HyperLogLogWindow) : Prop := window_start a <= window_start b.

#[global] Instance not_later_dec a b : Decision (not_later a b).
Proof. unfold not_later. apply _. Defined.

#[local] Instance not_later_trans : Transitive not_later.
Proof. intros a b c. unfold not_later. lia. Qed.

#[local] Instance earlier_antisymm : AntiSymm (=) earlier.
Proof. intros a b. unfold earlier. lia. Qed.

Lemma sorted_strict (l : list HyperLogLogWindow) :
  StronglySorted not_later l -> NoDup (window_start <$> l) -> StronglySorted earlier l.
Proof.
  induction 1 as [|x l _ IH Hall]; intros Hnd; [constructor|].
  rewrite fmap_cons in Hnd. apply NoDup_cons in Hnd as [Hx Hnd].
  constructor; [apply IH, Hnd|].
  apply Forall_forall. intros y Hy.
  pose proof (proj1 (Forall_forall _ _) Hall y Hy) as Hle. unfold earlier, not_later in *.
  assert (window_start x <> window_start y)
    by (intros E; apply Hx; rewrite E; apply list_elem_of_fmap_2, Hy).
  lia.
Qed.

Lemma sorted_starts (l : list HyperLogLogWindow) :
  StronglySorted earlier l -> NoDup (window_start <$> l).
Proof.
  induction 1 as [|x l _ IH Hall]; [constructor|].
  rewrite fmap_cons. apply NoDup_cons. split; [|exact IH].
  intros (y & E & Hy)%list_elem_of_fmap.
  pose proof (proj1 (Forall_forall _ _) Hall y Hy) as Hlt. unfold earlier in Hlt. lia.
Qed.

Lemma sorted_filter (P : HyperLogLogWindow -> Prop) `{!forall w, Decision (P w)} l :
  StronglySorted earlier l -> StronglySorted earlier (filter P l).
Proof.
  induction 1 as [|x l _ IH Hall]; [constructor|].
  rewrite filter_cons. destruct (decide (P x)); [|exact IH].
  constructor; [exact IH|].
  apply Forall_forall. intros y [_ Hy]%list_elem_of_filter.
  apply (proj1 (Forall_forall _ _) Hall y Hy).
Qed.

(** On windows in order, the loop of the eviction keeps exactly the
    windows that are not older than the cutoff. *)
Lemma filter_all {A} (P : A -> Prop) `{!forall x, Decision (P x)} (l : list A) :
  Forall P l -> filter P l = l.
Proof.
  induction 1 as [|x l Hx _ IH]; [reflexivity|].
  rewrite filter_cons, decide_True by exact Hx. f_equal. exact IH.
Qed.

Lemma expire_sorted cutoff l :
  StronglySorted earlier l ->
  expire cutoff l = filter (fun w => cutoff <= window_start w) l.
Proof.
  induction 1 as [|x l Hs IH Hall]; [reflexivity|].
  cbn [expire]. rewrite filter_cons.
  destruct (Z.ltb_spec (window_start x) cutoff) as [Hlt|Hge].
  - rewrite decide_False by lia. exact IH.
  - rewrite decide_True by lia. f_equal. symmetry. apply filter_all.
    eapply Forall_impl; [exact Hall|]. unfold earlier. intros y Hy. cbn. lia.
Qed.

Lemma Forall_filter_keep {A} (P Q : A -> Prop) `{!forall x, Decision (P x)} (l : list A) :
  Forall Q l -> Forall Q (filter P l).
Proof.
  intros Hall. apply Forall_forall. intros x [_ Hx]%list_elem_of_filter.
  apply (proj1 (Forall_forall _ _) Hall x Hx).
Qed.

Lemma sorted_by_starts (l1 : list HyperLogLogWindow) : forall l2,
  window_start <$> l1 = window_start <$> l2 ->
  StronglySorted earlier l1 -> StronglySorted earlier l2.
Proof.
  induction l1 as [|x l1 IH]; intros [|y l2] E Hs; try discriminate; [constructor|].
  rewrite !fmap_cons in E. injection E as Ex E.
  apply StronglySorted_cons in Hs as [Hall Hs]. constructor; [apply IH; assumption|].
  apply Forall_forall. intros z Hz.
  assert (Hin : window_start z ∈ window_start <$> l1)
    by (rewrite E; apply list_elem_of_fmap_2, Hz).
  apply list_elem_of_fmap in Hin as (z' & Ez & Hz').
  pose proof (proj1 (Forall_forall _ _) Hall z' Hz') as Hlt. unfold earlier in *. lia.
Qed.

Lemma starts_update (l : list HyperLogLogWindow) i w sk :
  l !! i = Some w ->
  window_start <$> <[i := {| window_start := window_start w; sketch := sk |}]> l
  = window_start <$> l.
Proof.
  intros Hi. rewrite list_fmap_insert. cbn [window_start].
  apply list_insert_id. rewrite list_lookup_fmap, Hi. reflexivity.
Qed.

(** *** The counters *)

Definition ops_of events : list (string * Z) := (fun ec => (channel_id ec.1, 1)) <$> events.

Lemma increments_snoc ops : forall op s,
  CMS.increments (ops ++ [op]) s
  = match CMS.increments ops s with
    | Some s' => CMS.increment s' op.1 op.2
    | None => None
    end.
Proof.
  induction ops as [|[k c] ops IH]; intros [k' c'] s; cbn.
  - destruct (CMS.increment s k' c'); reflexivity.
  - destruct (CMS.increment s k c); [apply IH|reflexivity].
Qed.

Lemma total_ops_of events : CMSFacts.total (ops_of events) = Z.of_nat (length events).
Proof.
  induction events as [|ec events IH]; [reflexivity|].
  cbn [ops_of fmap list_fmap CMSFacts.total length snd]. fold (ops_of events). lia.
Qed.

Lemma true_count_ops_of c events : CMS.true_count c (ops_of events) = count_of c events.
Proof.
  unfold count_of. induction events as [|ec events IH]; [reflexivity|].
  cbn [ops_of fmap list_fmap CMS.true_count]. fold (ops_of events).
  rewrite IH, filter_cons.
  destruct (String.eqb_spec (channel_id ec.1) c) as [E|E].
  - rewrite decide_True by exact E. cbn [length]. lia.
  - rewrite decide_False by exact E. lia.
Qed.

Lemma count_of_snoc c events ec :
  count_of c (events ++ [ec])
  = count_of c events + (if decide (channel_id ec.1 = c) then 1 else 0).
Proof.
  unfold count_of. rewrite filter_app, length_app, filter_cons, filter_nil.
  destruct (decide (channel_id ec.1 = c)); cbn [length]; lia.
Qed.

Lemma count_of_bounds c events : 0 <= count_of c events <= Z.of_nat (length events).
Proof.
  unfold count_of. pose proof (length_filter (fun ec : Event * Z => channel_id ec.1 = c) events).
  lia.
Qed.

(** The estimate, from bounds on the counters of the key. *)
Lemma estimate_between s k lo hi :
  CMSFacts.shaped s -> hi < UINT64_MAX ->
  (forall r, 0 <= r < CMS.depth_ s ->
     exists v, CMS.counter s k r = Some v /\ lo <= v <= hi) ->
  exists e, CMS.estimate s k = Some e /\ lo <= e <= hi.
Proof.
  intros Hs Hhi Hdom. pose proof (CMSFacts.shaped_depth _ Hs) as Hd.
  unfold CMS.estimate.
  destruct (CMSFacts.estimate_rows_spec s k (Z.to_nat (CMS.depth_ s)) 0 UINT64_MAX)
    as (m & Hest & Hle & Hmin & Hatt).
  { intros r Hr. rewrite Z2Nat.id in Hr by lia.
    destruct (Hdom r) as (v & Hv & _); [lia|]. rewrite Hv. eauto. }
  rewrite Hest. eexists. split; [reflexivity|].
  rewrite Z2Nat.id in Hmin, Hatt by lia.
  destruct (Hdom 0 ltac:(lia)) as (v0 & Hv0 & Hb0).
  pose proof (Hmin 0 v0 ltac:(lia) Hv0) as Hm0.
  destruct (Z.eqb_spec m UINT64_MAX) as [E|E]; [lia|].
  destruct Hatt as [?|(r & Hr & Hv)]; [contradiction|].
  destruct (Hdom r) as (v & Hv' & Hb); [lia|].
  rewrite Hv in Hv'. injection Hv' as <-. lia.
Qed.

(** *** The invariant of the statistics *)

Lemma default_cms_shaped :
  exists cms, CMS.new 2048 4 12345 = Ok cms /\ CMSFacts.shaped cms
    /\ CMS.depth_ cms = 4
    /\ CMS.table_ cms = replicate (Z.to_nat (2048 * 4)) 0.
Proof.
  destruct (CMSFacts.cms_new_shaped 2048 4 12345) as (cms & Hnew & Hs & _ & Hd & Ht).
  - exists 11. split; [lia|reflexivity].
  - lia.
  - reflexivity.
  - exists cms. auto.
Qed.

Lemma default_hll_shaped :
  exists fresh, HLL.new 14 = Ok fresh /\ HLLFacts.shaped 14 fresh
    /\ Forall (fun r => r = 0) (HLL.registers_ fresh).
Proof.
  destruct (HLLFacts.hll_new_shaped 14 ltac:(lia)) as (fresh & Hnew & Hs & Hregs).
  exists fresh. split; [exact Hnew|]. split; [exact Hs|].
  rewrite Hregs. apply Forall_replicate. reflexivity.
Qed.

Record stats_inv (cms0 : CMS.CountMinSketch) events st : Prop := {
  inv_cms_shaped : CMSFacts.shaped (channel_frequency_ st);
  inv_cms : CMS.increments (ops_of events) cms0 = Some (channel_frequency_ st);
  inv_counts : forall c,
    default 0 (channel_counts_ st !! c) = u64 (count_of c events);
  inv_keys : forall c, is_Some (channel_counts_ st !! c) <-> 0 < count_of c events;
  inv_sorted : StronglySorted earlier (windows_ st);
  inv_shaped : Forall (fun w => HLLFacts.shaped 14 (sketch w)) (windows_ st);
  inv_buckets : Forall (fun w => window_start w ∈ bucket_of <$> events) (windows_ st)
}.

Section Sort.
Variable sort : list HyperLogLogWindow -> list HyperLogLogWindow.
Hypothesis sort_permutation : forall l, sort l ≡ₚ l.
Hypothesis sort_sorted : forall l, Sorted not_later (sort l).

Lemma process_events_snoc events : forall st event clock,
  process_events sort (events ++ [(event, clock)]) st
  = match process_events sort events st with
    | Some (Ok st') => process_event sort st' event clock
    | other => other
    end.
Proof.
  induction events as [|[e c] events IH]; intros st event clock; cbn.
  - destruct (process_event sort st event clock) as [[?|?]|]; reflexivity.
  - destruct (process_event sort st e c) as [[st'|?]|]; [apply IH|reflexivity|reflexivity].
Qed.

Lemma sort_strict l :
  NoDup (window_start <$> l) -> StronglySorted earlier (sort l).
Proof.
  intros Hnd. apply sorted_strict.
  - apply Sorted_StronglySorted; [apply _|apply sort_sorted].
  - rewrite (sort_permutation l). exact Hnd.
Qed.

(** One call of [process_event]: it returns, keeps the invariant, and
    leaves the windows as described. *)
Lemma process_event_step cms0 events st event clock :
  stats_inv cms0 events st ->
  INT64_MIN + kWindowSpanSeconds <= bucket_of (event, clock) ->
  let bucket := bucket_of (event, clock) in
  let kept := filter (fun w => bucket - kWindowSpanSeconds <= window_start w) (windows_ st) in
  exists st',
    process_event sort st event clock = Some (Ok st')
    /\ stats_inv cms0 (events ++ [(event, clock)]) st'
    /\ match list_find (fun w => window_start w = bucket) kept with
       | Some (i, w) =>
           exists sk, HLL.add (sketch w) (user_id event) = Some sk
             /\ windows_ st' = <[i := {| window_start := bucket; sketch := sk |}]> kept
       | None =>
           exists fresh sk, HLL.new 14 = Ok fresh
             /\ HLL.add fresh (user_id event) = Some sk
             /\ windows_ st'
                = sort (kept ++ [{| window_start := bucket; sketch := sk |}])
       end.
Proof.
  intros [Hcs Hcms Hcounts Hkeys Hsorted Hshaped Hbuckets] Hbound bucket kept.
  unfold process_event. change (bucket_start (timestamp event) clock) with bucket.
  destruct (Z.ltb_spec (bucket - kWindowSpanSeconds) INT64_MIN) as [Hlt|_]; [lia|].
  destruct (CMSFacts.increment_counter _ (channel_id event) 1 Hcs) as (cms & Hinc & _).
  rewrite Hinc. rewrite (expire_sorted _ _ Hsorted).
  change (filter _ (windows_ st)) with kept.
  destruct (CMSFacts.increment_shaped _ _ _ _ Hcs Hinc) as (Hcs' & _).
  assert (Hcms' : CMS.increments (ops_of (events ++ [(event, clock)])) cms0 = Some cms).
  { unfold ops_of. rewrite fmap_app. cbn [fmap list_fmap].
    change (CMS.increments (ops_of events ++ [(channel_id event, 1)]) cms0 = Some cms).
    rewrite increments_snoc, Hcms. exact Hinc. }
  assert (Hcounts' : forall c,
    default 0 (<[channel_id event :=
                   u64 (default 0 (channel_counts_ st !! channel_id event) + 1)]>
                 (channel_counts_ st) !! c)
    = u64 (count_of c (events ++ [(event, clock)]))).
  { intros c. rewrite count_of_snoc. cbn [fst].
    destruct (decide (channel_id event = c)) as [<-|Hne].
    - rewrite lookup_insert_eq. cbn [default]. rewrite Hcounts.
      unfold u64. rewrite Zplus_mod_idemp_l. reflexivity.
    - rewrite lookup_insert_ne by exact Hne. rewrite Hcounts, Z.add_0_r. reflexivity. }
  assert (Hkeys' : forall c,
    is_Some (<[channel_id event :=
                 u64 (default 0 (channel_counts_ st !! channel_id event) + 1)]>
               (channel_counts_ st) !! c)
    <-> 0 < count_of c (events ++ [(event, clock)])).
  { intros c. rewrite count_of_snoc. cbn [fst].
    pose proof (count_of_bounds c events) as Hb.
    destruct (decide (channel_id event = c)) as [<-|Hne].
    - rewrite lookup_insert_eq. split; [lia|eauto].
    - rewrite lookup_insert_ne by exact Hne. rewrite Hkeys, Z.add_0_r. reflexivity. }
  assert (Hkept_sorted : StronglySorted earlier kept) by (apply sorted_filter, Hsorted).
  assert (Hkept_shaped : Forall (fun w => HLLFacts.shaped 14 (sketch w)) kept)
    by (apply Forall_filter_keep, Hshaped).
  assert (Hkept_buckets :
    Forall (fun w => window_start w ∈ bucket_of <$> events ++ [(event, clock)]) kept).
  { apply Forall_filter_keep. eapply Forall_impl; [exact Hbuckets|].
    intros w Hw. cbn. rewrite fmap_app. apply elem_of_app. left. exact Hw. }
  assert (Hself : bucket ∈ bucket_of <$> events ++ [(event, clock)]).
  { rewrite fmap_app. apply elem_of_app. right. apply list_elem_of_here. }
  destruct (list_find (fun w => window_start w = bucket) kept) as [[i w]|] eqn:Hfind.
  - apply list_find_Some in Hfind as (Hi & Hw & _).
    pose proof (Forall_lookup_1 _ _ _ _ Hkept_shaped Hi) as Hsw. cbn in Hsw.
    destruct (HLLFacts.add_spec 14 (sketch w) (user_id event) ltac:(lia) Hsw)
      as (rank & r & _ & _ & Hadd).
    rewrite Hadd. eexists. split; [reflexivity|]. split.
    + constructor; cbn [channel_frequency_ windows_ channel_counts_].
      * exact Hcs'.
      * exact Hcms'.
      * exact Hcounts'.
      * exact Hkeys'.
      * apply (sorted_by_starts kept); [|exact Hkept_sorted].
        symmetry. apply starts_update, Hi.
      * apply Forall_insert; [exact Hkept_shaped|]. cbn [sketch].
        apply (HLLFacts.add_shaped 14 _ _ _ ltac:(lia) Hsw Hadd).
      * apply Forall_insert; [exact Hkept_buckets|]. cbn [window_start].
        rewrite Hw. exact Hself.
    + eexists. split; [reflexivity|]. cbn [windows_]. rewrite Hw. reflexivity.
  - apply list_find_None in Hfind.
    destruct default_hll_shaped as (fresh & Hnew & Hsf & _). rewrite Hnew.
    destruct (HLLFacts.add_spec 14 fresh (user_id event) ltac:(lia) Hsf)
      as (rank & r & _ & _ & Hadd).
    rewrite Hadd. eexists. split; [reflexivity|]. split.
    + constructor; cbn [channel_frequency_ windows_ channel_counts_].
      * exact Hcs'.
      * exact Hcms'.
      * exact Hcounts'.
      * exact Hkeys'.
      * apply sort_strict. rewrite fmap_app. apply NoDup_app.
        split; [apply sorted_starts, Hkept_sorted|]. split; [|apply NoDup_singleton].
        intros b (w & -> & Hw)%list_elem_of_fmap Hb.
        apply list_elem_of_singleton in Hb. cbn in Hb.
        apply (proj1 (Forall_forall _ _) Hfind w Hw). exact Hb.
      * rewrite (sort_permutation _). apply Forall_app. split; [exact Hkept_shaped|].
        constructor; [|constructor]. cbn [sketch].
        apply (HLLFacts.add_shaped 14 _ _ _ ltac:(lia) Hsf Hadd).
      * rewrite (sort_permutation _). apply Forall_app. split; [exact Hkept_buckets|].
        constructor; [|constructor]. exact Hself.
    + exists fresh. eexists. split; [reflexivity|]. split; [exact Hadd|]. reflexivity.
Qed.

Lemma new_stats_inv :
  exists st0, new_stats = Ok st0
    /\ stats_inv (channel_frequency_ st0) [] st0
    /\ windows_ st0 = []
    /\ CMS.depth_ (channel_frequency_ st0) = 4
    /\ CMS.table_ (channel_frequency_ st0) = replicate (Z.to_nat (2048 * 4)) 0.
Proof.
  destruct default_cms_shaped as (cms & Hnew & Hs & Hd & Ht).
  unfold new_stats. rewrite Hnew. eexists. split; [reflexivity|].
  cbn [channel_frequency_ windows_]. split; [|auto].
  constructor; cbn [channel_frequency_ windows_ channel_counts_].
  - exact Hs.
  - reflexivity.
  - intros c. rewrite lookup_empty. reflexivity.
  - intros c. rewrite lookup_empty. split; [intros [? [=]]|unfold count_of; cbn; lia].
  - constructor.
  - constructor.
  - constructor.
Qed.

(** Every run returns, with the invariant. *)
Lemma process_events_inv cms0 events : forall st0,
  stats_inv cms0 [] st0 ->
  Forall (fun ec => INT64_MIN + kWindowSpanSeconds <= bucket_of ec) events ->
  exists st, process_events sort events st0 = Some (Ok st) /\ stats_inv cms0 events st.
Proof.
  intros st0 Hinv0. induction events as [|[event clock] events IH] using rev_ind; intros Hall.
  - exists st0. split; [reflexivity|exact Hinv0].
  - apply Forall_app in Hall as [Hall Hlast]. apply Forall_cons in Hlast as [Hlast _].
    destruct (IH Hall) as (st & Hrun & Hinv).
    destruct (process_event_step cms0 events st event clock Hinv Hlast)
      as (st' & Hstep & Hinv' & _).
    exists st'. rewrite process_events_snoc, Hrun. auto.
Qed.

(** *** Events in order: the windows of the last hour *)

Record window_inv (fresh : HLL.HyperLogLog) events st : Prop := {
  inv_exact : forall b,
    b ∈ window_start <$> windows_ st
    <-> b ∈ bucket_of <$> events /\ horizon events <= b;
  inv_users :
    Forall (fun w => HLL.adds (users_of (window_start w) events) fresh = Some (sketch w))
      (windows_ st)
}.

Lemma users_of_snoc b events ec :
  users_of b (events ++ [ec])
  = users_of b events ++ (if decide (bucket_of ec = b) then [user_id ec.1] else []).
Proof.
  unfold users_of. rewrite filter_app, fmap_app, filter_cons, filter_nil.
  destruct (decide (bucket_of ec = b)); reflexivity.
Qed.

Lemma horizon_snoc events ec : horizon (events ++ [ec]) = bucket_of ec - kWindowSpanSeconds.
Proof. unfold horizon. rewrite last_snoc. reflexivity. Qed.

Lemma horizon_le events bucket :
  (forall b, b ∈ bucket_of <$> events -> b <= bucket) ->
  events <> [] -> horizon events <= bucket - kWindowSpanSeconds.
Proof.
  intros Hord Hne. destruct (exists_last Hne) as (l & ec & ->).
  rewrite horizon_snoc. pose proof (Hord (bucket_of ec)) as H.
  rewrite fmap_app in H. specialize (H ltac:(apply elem_of_app; right; apply list_elem_of_here)).
  lia.
Qed.

Lemma process_event_window fresh cms0 events st event clock :
  HLL.new 14 = Ok fresh ->
  stats_inv cms0 events st -> window_inv fresh events st ->
  INT64_MIN + kWindowSpanSeconds <= bucket_of (event, clock) ->
  (forall b, b ∈ bucket_of <$> events -> b <= bucket_of (event, clock)) ->
  exists st',
    process_event sort st event clock = Some (Ok st')
    /\ stats_inv cms0 (events ++ [(event, clock)]) st'
    /\ window_inv fresh (events ++ [(event, clock)]) st'.
Proof.
  intros Hfresh Hinv [Hex Hus] Hbound Hord.
  destruct (process_event_step cms0 events st event clock Hinv Hbound)
    as (st' & Hrun & Hinv' & Hdesc).
  exists st'. split; [exact Hrun|]. split; [exact Hinv'|].
  set (bucket := bucket_of (event, clock)) in *.
  set (kept := filter (fun w => bucket - kWindowSpanSeconds <= window_start w) (windows_ st))
    in *.
  assert (Hkept : forall b, b ∈ window_start <$> kept
                  <-> b ∈ window_start <$> windows_ st /\ bucket - kWindowSpanSeconds <= b).
  { intros b. rewrite !list_elem_of_fmap. split.
    - intros (w & -> & [Hc Hw]%list_elem_of_filter). eauto.
    - intros [(w & -> & Hw) Hc]. exists w. split; [reflexivity|].
      apply list_elem_of_filter. auto. }
  assert (Hold : forall b, b ∈ bucket_of <$> events -> bucket - kWindowSpanSeconds <= b ->
                 b ∈ window_start <$> kept).
  { intros b Hb Hc. apply Hkept. split; [|exact Hc]. apply Hex. split; [exact Hb|].
    assert (events <> []) by (intros ->; apply elem_of_nil in Hb; exact Hb).
    pose proof (horizon_le events bucket Hord ltac:(assumption)). lia. }
  assert (Hkept_users :
    forall w, w ∈ kept -> window_start w <> bucket ->
      HLL.adds (users_of (window_start w) (events ++ [(event, clock)])) fresh
      = Some (sketch w)).
  { intros w [_ Hw]%list_elem_of_filter Hne. rewrite users_of_snoc.
    rewrite decide_False by (intros E; apply Hne; symmetry; exact E).
    rewrite app_nil_r. apply (proj1 (Forall_forall _ _) Hus w Hw). }
  assert (Hsplit : forall b,
    b ∈ bucket_of <$> events ++ [(event, clock)]
    <-> b ∈ bucket_of <$> events \/ b = bucket).
  { intros b. rewrite fmap_app, elem_of_app. cbn [fmap list_fmap].
    rewrite list_elem_of_singleton. reflexivity. }
  unfold kWindowSpanSeconds in *.
  destruct (list_find (fun w => window_start w = bucket) kept) as [[i w]|] eqn:Hfind.
  - destruct Hdesc as (sk & Hadd & Hwin).
    apply list_find_Some in Hfind as (Hi & Hw & _).
    assert (Hstarts : window_start <$> windows_ st' = window_start <$> kept).
    { rewrite Hwin, <- Hw. apply starts_update, Hi. }
    constructor.
    + intros b. rewrite Hstarts, horizon_snoc, Hsplit. fold bucket. split.
      * intros Hb. pose proof (proj1 (Hkept b) Hb) as [Hb' Hc]. split; [|unfold kWindowSpanSeconds; lia].
        left. apply Hex, Hb'.
      * intros [[Hb| ->] Hc].
        -- apply Hold; [exact Hb|unfold kWindowSpanSeconds in Hc; lia].
        -- rewrite <- Hw. apply list_elem_of_fmap_2. apply (list_elem_of_lookup_2 _ _ _ Hi).
    + rewrite Hwin. apply Forall_lookup. intros j x Hj.
      destruct (decide (j = i)) as [->|Hne].
      * rewrite list_lookup_insert_eq in Hj by (apply lookup_lt_Some in Hi; exact Hi).
        injection Hj as <-. cbn [window_start sketch].
        rewrite users_of_snoc, decide_True by reflexivity. cbn [fst].
        rewrite HLLMerge.adds_snoc.
        assert (Hw' : w ∈ windows_ st).
        { apply list_elem_of_lookup_2 in Hi. apply list_elem_of_filter in Hi as [_ Hi].
          exact Hi. }
        pose proof (proj1 (Forall_forall _ _) Hus w Hw') as Hold_w. cbn in Hold_w.
        rewrite <- Hw, Hold_w. exact Hadd.
      * rewrite list_lookup_insert_ne in Hj by congruence.
        apply Hkept_users; [apply (list_elem_of_lookup_2 _ _ _ Hj)|].
        intros E. apply Hne.
        pose proof (sorted_starts kept) as Hnd.
        specialize (Hnd ltac:(apply sorted_filter, (inv_sorted _ _ _ Hinv))).
        apply (NoDup_lookup _ j i bucket Hnd).
        -- rewrite list_lookup_fmap, Hj. cbn. rewrite E. reflexivity.
        -- rewrite list_lookup_fmap, Hi. cbn. rewrite Hw. reflexivity.
  - destruct Hdesc as (fresh' & sk & Hfresh' & Hadd & Hwin).
    rewrite Hfresh in Hfresh'. injection Hfresh' as <-.
    apply list_find_None in Hfind.
    assert (Hstarts : forall b, b ∈ window_start <$> windows_ st'
                      <-> b ∈ window_start <$> kept \/ b = bucket).
    { intros b. rewrite Hwin, (sort_permutation _), fmap_app, elem_of_app.
      cbn [fmap list_fmap window_start]. rewrite list_elem_of_singleton. reflexivity. }
    constructor.
    + intros b. rewrite Hstarts, horizon_snoc, Hsplit. fold bucket. split.
      * intros [Hb| ->]; [|split; [auto|unfold kWindowSpanSeconds; lia]].
        pose proof (proj1 (Hkept b) Hb) as [Hb' Hc].
        split; [|unfold kWindowSpanSeconds; lia]. left. apply Hex, Hb'.
      * intros [[Hb| ->] Hc]; [|auto].
        left. apply Hold; [exact Hb|unfold kWindowSpanSeconds in Hc; lia].
    + rewrite Hwin, (sort_permutation _). apply Forall_app. split.
      * apply Forall_forall. intros w Hw. apply Hkept_users; [exact Hw|].
        apply (proj1 (Forall_forall _ _) Hfind w Hw).
      * constructor; [|constructor]. cbn [window_start sketch].
        rewrite users_of_snoc, decide_True by reflexivity. cbn [fst].
        assert (Hnone : users_of bucket events = []).
        { unfold users_of.
          destruct (filter (fun ec => bucket_of ec = bucket) events) as [|ec rest] eqn:Hf;
            [reflexivity|exfalso].
          assert (Hin : ec ∈ filter (fun ec => bucket_of ec = bucket) events)
            by (rewrite Hf; apply list_elem_of_here).
          apply list_elem_of_filter in Hin as [Hb Hin].
          assert (Hk : bucket ∈ window_start <$> kept).
          { apply Hold; [|lia]. rewrite <- Hb. apply list_elem_of_fmap_2, Hin. }
          apply list_elem_of_fmap in Hk as (w & Ew & Hw).
          apply (proj1 (Forall_forall _ _) Hfind w Hw). symmetry. exact Ew. }
        rewrite Hnone. cbn [app HLL.adds]. rewrite Hadd. reflexivity.
Qed.

Lemma process_events_window fresh cms0 events : forall st0,
  HLL.new 14 = Ok fresh ->
  stats_inv cms0 [] st0 -> windows_ st0 = [] ->
  Forall (fun ec => INT64_MIN + kWindowSpanSeconds <= bucket_of ec) events ->
  StronglySorted Z.le (bucket_of <$> events) ->
  exists st,
    process_events sort events st0 = Some (Ok st)
    /\ stats_inv cms0 events st /\ window_inv fresh events st.
Proof.
  intros st0 Hfresh Hinv0 Hw0.
  induction events as [|[event clock] events IH] using rev_ind; intros Hall Hord.
  - exists st0. split; [reflexivity|]. split; [exact Hinv0|].
    constructor; rewrite Hw0; [|constructor].
    intros b. cbn. split; [intros []%elem_of_nil|intros [[]%elem_of_nil _]].
  - apply Forall_app in Hall as [Hall Hlast]. apply Forall_cons in Hlast as [Hlast _].
    rewrite fmap_app in Hord. apply StronglySorted_app in Hord as (Hle & Hord & _).
    destruct (IH Hall Hord) as (st & Hrun & Hinv & Hwin).
    destruct (process_event_window fresh cms0 events st event clock Hfresh Hinv Hwin Hlast)
      as (st' & Hstep & Hinv' & Hwin').
    { intros b Hb. apply (Hle b _ Hb). apply list_elem_of_here. }
    exists st'. rewrite process_events_snoc, Hrun. auto.
Qed.

End Sort.

(** *** The query *)



End EventProcessorFacts.

(** A sort for the runs: the merge sort of the library, on the window
    starts. *)
Definition window_sort (l : list EventProcessor.HyperLogLogWindow)
    : list EventProcessor.HyperLogLogWindow :=
  merge_sort EventProcessorFacts.not_later l.

Lemma window_sort_permutation l : window_sort l ≡ₚ l.
Proof. apply merge_sort_Permutation. Qed.

Lemma window_sort_sorted l : Sorted EventProcessorFacts.not_later (window_sort l).
Proof.
  apply Sorted_merge_sort. intros a b. unfold EventProcessorFacts.not_later. lia.
Qed.

(** Three events in order, the last 61 minutes after the first. *)
Definition demo_events : list (EventProcessor.Event * Z) :=
  [({| EventProcessor.event_type := "message"; EventProcessor.user_id := "alice";
       EventProcessor.channel_id := "general"; EventProcessor.timestamp := 1000 |}, 0);
   ({| EventProcessor.event_type := "message"; EventProcessor.user_id := "bob";
       EventProcessor.channel_id := "general"; EventProcessor.timestamp := 1030 |}, 0);
   ({| EventProcessor.event_type := "reaction"; EventProcessor.user_id := "carol";
       EventProcessor.channel_id := "random"; EventProcessor.timestamp := 4660 |}, 0)].

(** X18. [bucket_start] floors to the minute: with a clock that is not
    negative, the bucket is a multiple of 60, at most 59 seconds below the
    time stamp when that is positive, and below the clock reading
    otherwise. *)
Theorem bucket_start_minute timestamp clock :
  0 <= clock ->
  let t := if 0 <? timestamp then timestamp else clock in
  let bucket := EventProcessor.bucket_start timestamp clock in
  bucket mod 60 = 0 /\ bucket <= t < bucket + 60.
Proof.
  intros Hclock t bucket. unfold bucket, EventProcessor.bucket_start.
  assert (Ht : (if timestamp <=? 0 then clock else timestamp) = t).
  { unfold t. destruct (Z.leb_spec timestamp 0), (Z.ltb_spec 0 timestamp); lia. }
  rewrite Ht.
  assert (0 <= t) by (unfold t; destruct (Z.ltb_spec 0 timestamp); lia).
  rewrite EventProcessorFacts.bucket_start_floor by assumption.
  split.
  - rewrite Z.mul_comm. apply Z.mod_mul. lia.
  - pose proof (Z.mul_div_le t 60 ltac:(lia)).
    pose proof (Z.mul_succ_div_gt t 60 ltac:(lia)). lia.
Qed.

Lemma bucket_start_minute_witness :
  0 <= 7
  /\ EventProcessor.bucket_start 1030 7 mod 60 = 0
  /\ EventProcessor.bucket_start 1030 7 <= 1030 < EventProcessor.bucket_start 1030 7 + 60.
Proof. split; [lia|]. apply (bucket_start_minute 1030 7). lia. Defined.

(** X19. The channel statistics are exact and the sketch is above them:
    after any run of [process_event] calls on the statistics of a new
    processor, whose buckets leave room for the subtraction of the window
    span and whose number is below [UINT64_MAX], every call has returned,
    the windows are in strictly increasing order of their starts,
    [channel_counts_] holds for every channel the number of its events,
    and the estimate of [channel_frequency_] for a channel lies between that
    number and the number of all events. *)
Theorem event_channel_statistics sort events :
  (forall l, sort l ≡ₚ l) ->
  (forall l, Sorted EventProcessorFacts.not_later (sort l)) ->
  Forall (fun ec => EventProcessor.INT64_MIN + EventProcessor.kWindowSpanSeconds
                    <= EventProcessor.bucket_of ec) events ->
  Z.of_nat (length events) < UINT64_MAX ->
  exists st0 st,
    EventProcessor.new_stats = Ok st0
    /\ EventProcessor.process_events sort events st0 = Some (Ok st)
    /\ StronglySorted EventProcessorFacts.earlier (EventProcessor.windows_ st)
    /\ (forall c, default 0 (EventProcessor.channel_counts_ st !! c)
                  = EventProcessor.count_of c events)
    /\ (forall c, exists e,
          CMS.estimate (EventProcessor.channel_frequency_ st) c = Some e
          /\ EventProcessor.count_of c events <= e <= Z.of_nat (length events)).
Proof.
  intros Hperm Hsorted Hall Hlen.
  destruct EventProcessorFacts.new_stats_inv as (st0 & Hnew & Hinv0 & _ & Hd0 & Ht0).
  destruct (EventProcessorFacts.process_events_inv sort Hperm Hsorted _ events st0 Hinv0 Hall)
    as (st & Hrun & Hinv).
  exists st0, st. split; [exact Hnew|]. split; [exact Hrun|].
  split; [apply (EventProcessorFacts.inv_sorted _ _ _ Hinv)|].
  pose proof (EventProcessorFacts.inv_cms_shaped _ _ _ Hinv0) as Hs0.
  split.
  - intros c. rewrite (EventProcessorFacts.inv_counts _ _ _ Hinv).
    pose proof (EventProcessorFacts.count_of_bounds c events).
    unfold u64, modulus, UINT64_MAX in *. apply Z.mod_small. lia.
  - intros c.
    destruct (CMSMore.increments_between (EventProcessorFacts.ops_of events)
                (EventProcessor.channel_frequency_ st0) (fun _ => 0) 0 Hs0)
      as (s & Hincs & Hs & Hds & Hdom).
    { unfold EventProcessorFacts.ops_of. apply Forall_fmap, Forall_forall.
      intros ec _. cbn. lia. }
    { rewrite EventProcessorFacts.total_ops_of. lia. }
    { intros; lia. }
    { intros k r Hr. exists 0. split; [|lia].
      rewrite CMSFacts.counter_lookup, Ht0. apply lookup_replicate_2.
      pose proof (CMSFacts.slot_lt_length _ k r Hs0 Hr) as Hlt.
      rewrite Ht0, length_replicate in Hlt. exact Hlt. }
    rewrite (EventProcessorFacts.inv_cms _ _ _ Hinv) in Hincs. injection Hincs as <-.
    destruct (EventProcessorFacts.estimate_between (EventProcessor.channel_frequency_ st) c
                (EventProcessor.count_of c events) (Z.of_nat (length events)) Hs Hlen)
      as (e & He & Hb).
    { intros r Hr. rewrite Hds in Hr. destruct (Hdom c r Hr) as (v & Hv & Hb).
      rewrite EventProcessorFacts.true_count_ops_of, EventProcessorFacts.total_ops_of in Hb.
      exists v. split; [exact Hv|lia]. }
    exists e. auto.
Qed.

Lemma event_channel_statistics_witness :
  exists st0 st,
    EventProcessor.new_stats = Ok st0
    /\ EventProcessor.process_events window_sort demo_events st0 = Some (Ok st)
    /\ StronglySorted EventProcessorFacts.earlier (EventProcessor.windows_ st)
    /\ (forall c, default 0 (EventProcessor.channel_counts_ st !! c)
                  = EventProcessor.count_of c demo_events)
    /\ (forall c, exists e,
          CMS.estimate (EventProcessor.channel_frequency_ st) c = Some e
          /\ EventProcessor.count_of c demo_events <= e <= Z.of_nat (length demo_events)).
Proof.
  apply (event_channel_statistics window_sort demo_events
           window_sort_permutation window_sort_sorted).
  - repeat constructor; vm_compute; discriminate.
  - reflexivity.
Defined.

(** X20. For events in order the windows are those of the last hour: when
    the buckets of the events processed never decrease, the windows held
    afterwards are exactly the buckets of the events that are at most
    [kWindowSpanSeconds] older than the bucket of the last event, one
    window each, and the sketch of a window is the sketch of the users of
    the events of its bucket, added in order to a fresh sketch. *)
Theorem event_windows_cover_last_hour sort events :
  (forall l, sort l ≡ₚ l) ->
  (forall l, Sorted EventProcessorFacts.not_later (sort l)) ->
  Forall (fun ec => EventProcessor.INT64_MIN + EventProcessor.kWindowSpanSeconds
                    <= EventProcessor.bucket_of ec) events ->
  Sorted Z.le (EventProcessor.bucket_of <$> events) ->
  exists st0 st fresh,
    EventProcessor.new_stats = Ok st0
    /\ EventProcessor.process_events sort events st0 = Some (Ok st)
    /\ HLL.new 14 = Ok fresh
    /\ StronglySorted EventProcessorFacts.earlier (EventProcessor.windows_ st)
    /\ (forall b,
          b ∈ EventProcessor.window_start <$> EventProcessor.windows_ st
          <-> b ∈ EventProcessor.bucket_of <$> events
              /\ EventProcessor.horizon events <= b)
    /\ Forall (fun w =>
                 HLL.adds (EventProcessor.users_of (EventProcessor.window_start w) events)
                   fresh
                 = Some (EventProcessor.sketch w))
         (EventProcessor.windows_ st).
Proof.
  intros Hperm Hsorted Hall Hord.
  destruct EventProcessorFacts.new_stats_inv as (st0 & Hnew & Hinv0 & Hw0 & _).
  destruct EventProcessorFacts.default_hll_shaped as (fresh & Hfresh & _).
  destruct (EventProcessorFacts.process_events_window sort Hperm Hsorted fresh _ events st0
              Hfresh Hinv0 Hw0 Hall)
    as (st & Hrun & Hinv & [Hex Hus]).
  { apply Sorted_StronglySorted; [intros a b c; lia|exact Hord]. }
  exists st0, st, fresh. split; [exact Hnew|]. split; [exact Hrun|]. split; [exact Hfresh|].
  split; [apply (EventProcessorFacts.inv_sorted _ _ _ Hinv)|]. auto.
Qed.

Lemma event_windows_cover_last_hour_witness :
  exists st0 st fresh,
    EventProcessor.new_stats = Ok st0
    /\ EventProcessor.process_events window_sort demo_events st0 = Some (Ok st)
    /\ HLL.new 14 = Ok fresh
    /\ StronglySorted EventProcessorFacts.earlier (EventProcessor.windows_ st)
    /\ (forall b,
          b ∈ EventProcessor.window_start <$> EventProcessor.windows_ st
          <-> b ∈ EventProcessor.bucket_of <$> demo_events
              /\ EventProcessor.horizon demo_events <= b)
    /\ Forall (fun w =>
                 HLL.adds
                   (EventProcessor.users_of (EventProcessor.window_start w) demo_events)
                   fresh
                 = Some (EventProcessor.sketch w))
         (EventProcessor.windows_ st).
Proof.
  apply (event_windows_cover_last_hour window_sort demo_events
           window_sort_permutation window_sort_sorted).
  - repeat constructor; vm_compute; discriminate.
  - repeat constructor; vm_compute; discriminate.
Defined.



(** ** The event processor: the busiest channels *)

Module TopChannels.
Import EventProcessor.

(** Two entries in the order [get_top_channels] sorts them to: the
    comparison [lhs.second > rhs.second] does not put the second before the
    first. *)
Definition not_below (a b : string * Z) : Prop := b.2 <= a.2.

#[global] Instance not_below_dec a b : Decision (not_below a b).
Proof. unfold not_below. apply _. Defined.

Section Order.
(** The order in which the [unordered_map] is iterated; [std::sort] and
    [std::partial_sort(first, first + k, last)] with the comparison. *)
Variable iterate : gmap string Z -> list (string * Z).
Variable sort : list (string * Z) -> list (string * Z).
Variable partial_sort : nat -> list (string * Z) -> list (string * Z).

Definition get_top_channels (st : Stats) (k : Z) : list (string * Z) :=
  let entries := iterate (channel_counts_ st) in
  if k <? Z.of_nat (length entries)
  then take (Z.to_nat k) (partial_sort (Z.to_nat k) entries)
  else sort entries.

Hypothesis iterate_permutation : forall m, iterate m ≡ₚ map_to_list m.
Hypothesis sort_permutation : forall l, sort l ≡ₚ l.
Hypothesis sort_sorted : forall l, Sorted not_below (sort l).
Hypothesis partial_sort_permutation : forall n l, partial_sort n l ≡ₚ l.
Hypothesis partial_sort_sorted : forall n l, Sorted not_below (take n (partial_sort n l)).
Hypothesis partial_sort_least : forall n l x y,
  x ∈ take n (partial_sort n l) -> y ∈ drop n (partial_sort n l) -> not_below x y.

#[local] Instance not_below_trans : Transitive not_below.
Proof. intros a b c. unfold not_below. lia. Qed.

(** The entries returned, against the map of the counts. *)
Lemma get_top_channels_spec st k :
  0 <= k ->
  let top := get_top_channels st k in
  StronglySorted not_below top
  /\ NoDup top.*1
  /\ Z.of_nat (length top) = Z.min k (Z.of_nat (base.size (channel_counts_ st)))
  /\ (forall c n, (c, n) ∈ top -> channel_counts_ st !! c = Some n)
  /\ (forall c n, channel_counts_ st !! c = Some n -> c ∉ top.*1 ->
        forall e, e ∈ top -> n <= e.2).
Proof.
  intros Hk top. unfold top, get_top_channels.
  set (entries := iterate (channel_counts_ st)).
  assert (Hlen : length entries = base.size (channel_counts_ st))
    by (unfold entries; rewrite iterate_permutation; apply length_map_to_list).
  assert (Hin : forall c n, (c, n) ∈ entries <-> channel_counts_ st !! c = Some n).
  { intros c n. unfold entries. rewrite iterate_permutation. apply elem_of_map_to_list. }
  assert (Hnd : NoDup entries.*1)
    by (unfold entries; rewrite iterate_permutation; apply NoDup_fst_map_to_list).
  destruct (Z.ltb_spec k (Z.of_nat (length entries))) as [Hlt|Hge].
  - set (P := partial_sort (Z.to_nat k) entries).
    assert (HP : P ≡ₚ entries) by apply partial_sort_permutation.
    split; [apply Sorted_StronglySorted; [apply _|apply partial_sort_sorted]|].
    split.
    { rewrite fmap_take. apply (sublist_NoDup _ P.*1); [|apply sublist_take].
      rewrite HP. exact Hnd. }
    split.
    { rewrite length_take, HP, <- Hlen. lia. }
    split.
    { intros c n Hc. apply Hin. rewrite <- HP.
      apply elem_of_take in Hc as (i & Hi & _). apply (list_elem_of_lookup_2 _ _ _ Hi). }
    intros c n Hc Hnot e He.
    assert (Hc' : (c, n) ∈ take (Z.to_nat k) P ++ drop (Z.to_nat k) P)
      by (rewrite take_drop, HP; apply Hin, Hc).
    apply elem_of_app in Hc' as [Hc'|Hc'].
    + exfalso. apply Hnot. apply (list_elem_of_fmap_2 fst) in Hc'. exact Hc'.
    + apply (partial_sort_least _ _ e (c, n) He Hc').
  - split; [apply Sorted_StronglySorted; [apply _|apply sort_sorted]|].
    split; [rewrite sort_permutation; exact Hnd|].
    split; [rewrite sort_permutation, <- Hlen; lia|].
    split; [intros c n Hc; apply Hin; rewrite <- (sort_permutation entries); exact Hc|].
    intros c n Hc Hnot. exfalso. apply Hnot.
    apply (list_elem_of_fmap_2 fst (sort entries) (c, n)).
    rewrite sort_permutation. apply Hin, Hc.
Qed.

End Order.
End TopChannels.

(** Sorts for the runs: the merge sort of the library, which also sorts
    the first [k] entries. *)
Definition channel_sort (l : list (string * Z)) : list (string * Z) :=
  merge_sort TopChannels.not_below l.

Lemma channel_sort_permutation l : channel_sort l ≡ₚ l.
Proof. apply merge_sort_Permutation. Qed.

Lemma channel_sort_strongly l : StronglySorted TopChannels.not_below (channel_sort l).
Proof.
  apply StronglySorted_merge_sort.
  - intros a b c. unfold TopChannels.not_below. lia.
  - intros a b. unfold TopChannels.not_below. lia.
Qed.

Lemma channel_sort_sorted l : Sorted TopChannels.not_below (channel_sort l).
Proof. apply StronglySorted_Sorted, channel_sort_strongly. Qed.

Lemma channel_sort_take n l : Sorted TopChannels.not_below (take n (channel_sort l)).
Proof.
  apply StronglySorted_Sorted.
  pose proof (channel_sort_strongly l) as Hs.
  rewrite <- (take_drop n (channel_sort l)) in Hs.
  apply StronglySorted_app_1_l in Hs. exact Hs.
Qed.

Lemma channel_sort_least n l x y :
  x ∈ take n (channel_sort l) -> y ∈ drop n (channel_sort l) -> TopChannels.not_below x y.
Proof.
  intros Hx Hy. pose proof (channel_sort_strongly l) as Hs.
  rewrite <- (take_drop n (channel_sort l)) in Hs.
  apply (StronglySorted_app_1_elem_of _ _ _ _ _ Hs Hx Hy).
Qed.

(** X22. [get_top_channels] returns the busiest channels: after any run of
    [process_event] calls on the statistics of a new processor (fewer than
    [UINT64_MAX] events), whatever the iteration order of the map and
    whatever the two sorts do with equal counts, [get_top_channels(k)]
    returns [min(k, channels)] entries, by descending count, of distinct
    channels, each with the exact number of its events; and no channel that
    is left out has more events than one that is returned. *)
Theorem top_channels_are_the_busiest iterate sort partial_sort window_sort events k :
  (forall m, iterate m ≡ₚ map_to_list m) ->
  (forall l, sort l ≡ₚ l) ->
  (forall l, Sorted TopChannels.not_below (sort l)) ->
  (forall n l, partial_sort n l ≡ₚ l) ->
  (forall n l, Sorted TopChannels.not_below (take n (partial_sort n l))) ->
  (forall n l x y, x ∈ take n (partial_sort n l) -> y ∈ drop n (partial_sort n l) ->
                   TopChannels.not_below x y) ->
  (forall l, window_sort l ≡ₚ l) ->
  (forall l, Sorted EventProcessorFacts.not_later (window_sort l)) ->
  Forall (fun ec => EventProcessor.INT64_MIN + EventProcessor.kWindowSpanSeconds
                    <= EventProcessor.bucket_of ec) events ->
  Z.of_nat (length events) < UINT64_MAX ->
  0 <= k ->
  exists st0 st,
    EventProcessor.new_stats = Ok st0
    /\ EventProcessor.process_events window_sort events st0 = Some (Ok st)
    /\ let top := TopChannels.get_top_channels iterate sort partial_sort st k in
       StronglySorted TopChannels.not_below top
       /\ NoDup top.*1
       /\ Z.of_nat (length top)
          = Z.min k (Z.of_nat (base.size (EventProcessor.channel_counts_ st)))
       /\ (forall c n, (c, n) ∈ top -> n = EventProcessor.count_of c events /\ 0 < n)
       /\ (forall c, 0 < EventProcessor.count_of c events -> c ∉ top.*1 ->
             forall e, e ∈ top -> EventProcessor.count_of c events <= e.2).
Proof.
  intros Hit Hsp Hss Hpp Hps Hpl Hwp Hws Hall Hlen Hk.
  destruct EventProcessorFacts.new_stats_inv as (st0 & Hnew & Hinv0 & _).
  destruct (EventProcessorFacts.process_events_inv window_sort Hwp Hws _ events st0 Hinv0 Hall)
    as (st & Hrun & Hinv).
  exists st0, st. split; [exact Hnew|]. split; [exact Hrun|].
  destruct (TopChannels.get_top_channels_spec iterate sort partial_sort
              Hit Hsp Hss Hpp Hps Hpl st k Hk)
    as (Hsorted & Hnd & Hlength & Hin & Hout).
  assert (Hval : forall c n, EventProcessor.channel_counts_ st !! c = Some n ->
                 n = EventProcessor.count_of c events /\ 0 < n).
  { intros c n Hc.
    pose proof (EventProcessorFacts.inv_counts _ _ _ Hinv c) as Hcount.
    pose proof (proj1 (EventProcessorFacts.inv_keys _ _ _ Hinv c) (mk_is_Some _ _ Hc)) as Hpos.
    pose proof (EventProcessorFacts.count_of_bounds c events) as Hb.
    rewrite Hc in Hcount. cbn in Hcount. rewrite Hcount.
    unfold u64, modulus, UINT64_MAX in *. rewrite Z.mod_small by lia. lia. }
  cbv zeta. split; [exact Hsorted|]. split; [exact Hnd|]. split; [exact Hlength|]. split.
  - intros c n Hc. apply Hval, Hin, Hc.
  - intros c Hpos Hnot e He.
    destruct (proj2 (EventProcessorFacts.inv_keys _ _ _ Hinv c) Hpos) as [n Hn].
    destruct (Hval c n Hn) as [<- _]. apply (Hout c n Hn Hnot e He).
Qed.

Lemma top_channels_are_the_busiest_witness :
  exists st0 st,
    EventProcessor.new_stats = Ok st0
    /\ EventProcessor.process_events window_sort demo_events st0 = Some (Ok st)
    /\ let top := TopChannels.get_top_channels map_to_list channel_sort
                    (fun _ => channel_sort) st 1 in
       StronglySorted TopChannels.not_below top
       /\ NoDup top.*1
       /\ Z.of_nat (length top)
          = Z.min 1 (Z.of_nat (base.size (EventProcessor.channel_counts_ st)))
       /\ (forall c n, (c, n) ∈ top -> n = EventProcessor.count_of c demo_events /\ 0 < n)
       /\ (forall c, 0 < EventProcessor.count_of c demo_events -> c ∉ top.*1 ->
             forall e, e ∈ top -> EventProcessor.count_of c demo_events <= e.2).
Proof.
  apply (top_channels_are_the_busiest map_to_list channel_sort (fun _ => channel_sort)
           window_sort demo_events 1).
  - reflexivity.
  - apply channel_sort_permutation.
  - apply channel_sort_sorted.
  - intros _. apply channel_sort_permutation.
  - apply channel_sort_take.
  - apply channel_sort_least.
  - apply window_sort_permutation.
  - apply window_sort_sorted.
  - repeat constructor; vm_compute; discriminate.
  - reflexivity.
  - lia.
Defined.

(** ** The leaderboard: what a call of [update_user] stores *)

Module LeaderboardUpdate.
Import SkipList SkipListFacts SkipListQueries Leaderboard LeaderboardFacts
  LeaderboardQueriesFacts.







(** *** The constructors *)

Lemma leb_false_ltb a b :
  Key.not_nan a -> Key.not_nan b -> (a <=? b)%float = negb (b <? a)%float.
Proof.
  intros Ha Hb. destruct (Key.fcmp_some a b Ha Hb) as [c Hc].
  rewrite FloatAxioms.leb_spec, (Key.ltb_fcmp b a), (Key.fcmp_antisym _ _ _ Hc).
  unfold SFleb. unfold Key.fcmp in Hc. rewrite Hc. destruct c; reflexivity.
Qed.

Lemma nan_compares_false a b :
  ~ Key.not_nan a -> (a <=? b)%float = false /\ (b <? a)%float = false.
Proof.
  intros Ha. rewrite FloatAxioms.leb_spec, FloatAxioms.ltb_spec.
  assert (E : Prim2SF a = S754_nan).
  { destruct (Prim2SF a) eqn:E; try reflexivity; exfalso; apply Ha;
      apply Key.not_nan_sf; rewrite E; reflexivity. }
  rewrite E. unfold SFleb, SFltb. cbn. destruct (Prim2SF b); auto.
Qed.

End LeaderboardUpdate.



(** X24. What the constructors accept: [Leaderboard(decay_factor,
    max_users)] returns exactly when the decay factor is above 0 and at most
    1, or is a NaN, which both comparisons of [TimeDecay] let through; the
    leaderboard it returns is empty and holds the two arguments. *)
Theorem leaderboard_new_accepts decay_factor max_users rng :
  ((exists lb, Leaderboard.new decay_factor max_users rng = Ok lb)
   <-> ~ Key.not_nan decay_factor
       \/ ((0 <? decay_factor)%float = true /\ (decay_factor <=? 1)%float = true))
  /\ forall lb,
       Leaderboard.new decay_factor max_users rng = Ok lb ->
       Leaderboard.size lb = 0
       /\ Leaderboard.entries lb = Some []
       /\ Leaderboard.max_users_ lb = max_users
       /\ TimeDecay.decay_factor_ (Leaderboard.decay_ lb) = decay_factor.
Proof.
  assert (Hsl : exists sl, SkipList.new 16 0.5 rng = Ok sl) by (eexists; reflexivity).
  destruct Hsl as (sl & Hsl). split.
  - unfold Leaderboard.new, TimeDecay.new. rewrite Hsl.
    destruct (decay_factor =? decay_factor)%float eqn:Hnan.
    + assert (Hn : Key.not_nan decay_factor) by exact Hnan.
      rewrite (LeaderboardUpdate.leb_false_ltb decay_factor 0 Hn eq_refl).
      rewrite (LeaderboardUpdate.leb_false_ltb decay_factor 1 Hn eq_refl).
      destruct (0 <? decay_factor)%float, (1 <? decay_factor)%float; cbn;
        split; try (intros [? [=]]); try (intros [?|[? ?]]; congruence); eauto.
    + assert (Hn : ~ Key.not_nan decay_factor) by (unfold Key.not_nan; congruence).
      destruct (LeaderboardUpdate.nan_compares_false decay_factor 0 Hn) as [-> _].
      destruct (LeaderboardUpdate.nan_compares_false decay_factor 1 Hn) as [_ ->].
      cbn. split; eauto.
  - intros lb Hnew.
    destruct (LeaderboardFacts.leaderboard_new_inv _ _ _ _ Hnew) as [Hinv Hmax].
    split; [unfold Leaderboard.size, SkipList.size; apply (SkipListFacts.inv_size _ _ Hinv)|].
    split; [apply (LeaderboardQueriesFacts.entries_inv lb [] Hinv)|].
    split; [exact Hmax|].
    unfold Leaderboard.new, TimeDecay.new in Hnew. rewrite Hsl in Hnew.
    destruct (_ || _)%bool; [discriminate|]. injection Hnew as <-. reflexivity.
Qed.

(** ** The snapshot: reading back what was written *)

Module Text.
Import Str StrFacts.

(** A text in pieces. *)
Fixpoint cat (pieces : list string) : string :=
  match pieces with
  | [] => EmptyString
  | p :: pieces' => (p ++ cat pieces')%string
  end.

(** No character of [s] is one of [chars]. *)
Fixpoint avoids (chars s : string) : bool :=
  match s with
  | EmptyString => true
  | String c s' => negb (mem c chars) && avoids chars s'
  end.

(** Every character of [s] is one of [chars]. *)
Fixpoint within (chars s : string) : bool :=
  match s with
  | EmptyString => true
  | String c s' => mem c chars && within chars s'
  end.

Lemma append_cons c (a b : string) : (String c a ++ b)%string = String c (a ++ b)%string.
Proof. reflexivity. Qed.

Lemma append_nil_l (b : string) : ("" ++ b)%string = b.
Proof. reflexivity. Qed.

Ltac step_append := rewrite ?append_cons, ?append_nil_l.

Lemma append_nil_r (s : string) : (s ++ "")%string = s.
Proof.
  induction s as [|c s IH]; step_append; [reflexivity|]. rewrite IH. reflexivity.
Qed.

Lemma append_assoc (a b c : string) : ((a ++ b) ++ c)%string = (a ++ (b ++ c))%string.
Proof.
  induction a as [|x a IH]; step_append; [reflexivity|]. rewrite IH. reflexivity.
Qed.

Lemma cat_app ps qs : cat (ps ++ qs) = (cat ps ++ cat qs)%string.
Proof.
  induction ps as [|p ps IH]; cbn [cat app]; [reflexivity|].
  rewrite IH, append_assoc. reflexivity.
Qed.

Lemma size_append a b : size (a ++ b) = size a + size b.
Proof.
  unfold size. induction a as [|x a IH]; step_append; cbn [String.length]; lia.
Qed.

Lemma drop_append a b : drop (String.length a) (a ++ b) = b.
Proof.
  induction a as [|x a IH]; step_append; cbn [String.length drop];
    [destruct b; reflexivity|exact IH].
Qed.

Lemma take_append a b : take (String.length a) (a ++ b) = a.
Proof.
  induction a as [|x a IH]; step_append; cbn [String.length take];
    [destruct b; reflexivity|]. rewrite IH. reflexivity.
Qed.

Lemma take_all n a : (String.length a <= n)%nat -> take n a = a.
Proof.
  revert n. induction a as [|x a IH]; intros n Hn; [destruct n; reflexivity|].
  destruct n as [|n]; cbn [String.length] in Hn; [lia|]. cbn [take].
  rewrite IH by lia. reflexivity.
Qed.


Lemma within_append chars a b : within chars (a ++ b) = within chars a && within chars b.
Proof.
  induction a as [|x a IH]; step_append; cbn [within]; [reflexivity|].
  rewrite IH, andb_assoc. reflexivity.
Qed.

(** A text within one set of characters avoids a set that is disjoint
    from it. *)
Lemma within_avoids set chars s :
  avoids set chars = true -> within set s = true -> avoids chars s = true.
Proof.
  intros Hdis. induction s as [|c s IH]; cbn [within avoids]; [reflexivity|].
  intros [Hc Hs]%andb_prop. rewrite (IH Hs), andb_true_r.
  destruct (mem c chars) eqn:E; [|reflexivity]. exfalso.
  clear IH Hs. induction chars as [|d chars IH]; cbn in E; [discriminate|].
  cbn [avoids] in Hdis. apply andb_prop in Hdis as [Hd Hdis].
  apply orb_prop in E as [E|E]; [|exact (IH Hdis E)].
  apply Ascii.eqb_eq in E. subst d. rewrite Hc in Hd. discriminate.
Qed.

(** *** Searches *)

Lemma find_at_skip c n a rest : forall i,
  avoids (String c EmptyString) a = true ->
  find_at (String c n) (a ++ rest) i = find_at (String c n) rest (i + size a).
Proof.
  induction a as [|x a IH]; intros i Ha.
  - step_append. f_equal. unfold size. cbn. lia.
  - cbn [avoids mem] in Ha. apply andb_prop in Ha as [Hx Ha].
    rewrite orb_false_r in Hx. apply negb_true_iff in Hx.
    step_append. cbn [find_at String.prefix].
    destruct (Ascii.ascii_dec c x) as [->|_]; [rewrite Ascii.eqb_refl in Hx; discriminate|].
    rewrite (IH (i + 1) Ha). f_equal. unfold size. cbn [String.length]. lia.
Qed.

Lemma first_at_skip chars a rest : forall i,
  avoids chars a = true ->
  first_at chars false (a ++ rest) i = first_at chars false rest (i + size a).
Proof.
  induction a as [|x a IH]; intros i Ha.
  - step_append. f_equal. unfold size. cbn. lia.
  - cbn [avoids] in Ha. apply andb_prop in Ha as [Hx Ha]. apply negb_true_iff in Hx.
    step_append. cbn [first_at]. rewrite Hx. cbn [xorb].
    rewrite (IH (i + 1) Ha). f_equal. unfold size. cbn [String.length]. lia.
Qed.

Lemma substr_middle before middle rest n :
  size middle <= n ->
  (rest = EmptyString \/ n = size middle) ->
  substr (before ++ middle ++ rest) (size before) n = Ok middle.
Proof.
  intros Hn Hcase. unfold substr. rewrite !size_append.
  pose proof (size_nonneg middle). pose proof (size_nonneg rest).
  destruct (Z.ltb_spec (size before + (size middle + size rest)) (size before)); [lia|].
  f_equal. replace (Z.to_nat (size before)) with (String.length before)
    by (unfold size; lia).
  rewrite drop_append.
  destruct Hcase as [->| ->].
  - rewrite append_nil_r. apply take_all. unfold size in *. cbn [String.length] in *. lia.
  - replace (Z.to_nat _) with (String.length middle) by (unfold size in *; lia).
    apply take_append.
Qed.

Lemma substr_tail before middle n :
  size middle <= n -> substr (before ++ middle) (size before) n = Ok middle.
Proof.
  intros Hn. rewrite <- (append_nil_r middle) at 1.
  apply substr_middle; [exact Hn|left; reflexivity].
Qed.

(** *** [trim] *)

Lemma last_not_at_clean chars s : forall i found,
  avoids chars s = true -> s <> EmptyString ->
  last_not_at chars s i found = i + size s - 1.
Proof.
  induction s as [|c s IH]; intros i found Ha Hne; [congruence|].
  cbn [avoids] in Ha. apply andb_prop in Ha as [Hc Ha]. apply negb_true_iff in Hc.
  cbn [last_not_at]. rewrite Hc. destruct s as [|d s].
  - cbn. unfold size. cbn. lia.
  - rewrite (IH (i + 1) i Ha) by discriminate. unfold size. cbn [String.length]. lia.
Qed.

Lemma trim_value (v : string) :
  avoids ws v = true -> v <> EmptyString -> size v < 2 ^ 63 ->
  trim (" " ++ v) = Ok v.
Proof.
  intros Ha Hne Hsize. unfold trim, find_first_not_of, find_last_not_of.
  destruct v as [|c v]; [congruence|].
  pose proof Ha as Ha'. cbn [avoids] in Ha'. apply andb_prop in Ha' as [Hc _].
  apply negb_true_iff in Hc.
  step_append. cbn [first_at last_not_at].
  change (mem " " ws) with true. cbn [xorb]. rewrite Hc. cbn [xorb].
  change (0 + 1 =? npos) with false. cbv iota.
  change (0 + 1 + 1) with 2.
  assert (Hlast : last_not_at ws v 2 (0 + 1) = size (String c v)).
  { destruct v as [|d v]; [reflexivity|].
    cbn [avoids] in Ha. apply andb_prop in Ha as [_ Ha].
    rewrite (last_not_at_clean ws (String d v) 2 (0 + 1) Ha) by discriminate.
    unfold size. cbn [String.length]. lia. }
  rewrite Hlast.
  replace (u64 (size (String c v) - (0 + 1) + 1)) with (size (String c v)).
  2:{ unfold u64, modulus. rewrite Z.mod_small; [lia|].
      pose proof (size_nonneg (String c v)). lia. }
  change (String " " (String c v)) with (" " ++ String c v)%string.
  change (0 + 1) with (size " ").
  apply substr_tail. lia.
Qed.

End Text.

(** *** Integers as text *)

Module IntText.
Import Decimal DecimalZ DecimalN DecimalPos.
Import Text.


Definition digit_chars : string := "0123456789".






Lemma string_of_uint_pos p :
  NilZero.string_of_uint (Pos.to_uint p) = NilEmpty.string_of_uint (Pos.to_uint p).
Proof.
  pose proof (DecimalPos.Unsigned.to_uint_nonnil p) as H.
  destruct (Pos.to_uint p); try reflexivity. congruence.
Qed.

(** The text of an integer: an optional minus sign, then its digits. *)
Lemma print_int_cases n :
  (n = 0 /\ Num.print_int n = "0"%string)
  \/ (exists p, n = Z.pos p
        /\ Num.print_int n = NilEmpty.string_of_uint (Pos.to_uint p))
  \/ (exists p, n = Z.neg p
        /\ Num.print_int n = String "-" (NilEmpty.string_of_uint (Pos.to_uint p))).
Proof.
  unfold Num.print_int. destruct n as [|p|p]; cbn [Z.to_int NilZero.string_of_int].
  - left. auto.
  - right. left. exists p. rewrite string_of_uint_pos. auto.
  - right. right. exists p. rewrite string_of_uint_pos. auto.
Qed.

Lemma print_int_within n : within ("-" ++ digit_chars) (Num.print_int n) = true.
Proof.
  assert (Hd : forall d, within ("-" ++ digit_chars) (NilEmpty.string_of_uint d) = true).
  { induction d; cbn [NilEmpty.string_of_uint within]; try exact IHd; reflexivity. }
  destruct (print_int_cases n) as [[_ ->]|[(p & _ & ->)|(p & _ & ->)]];
    [reflexivity|apply Hd|]. cbn [within]. apply Hd.
Qed.





End IntText.

(** *** The text of a [double] *)

Module DoubleText.
Import Text.

Definition number_chars : string := "-+.0123456789einf".

Lemma within_list chars s :
  within chars s = forallb (fun c => Str.mem c chars) (list_ascii_of_string s).
Proof. induction s as [|c s IH]; cbn; [reflexivity|]. rewrite IH. reflexivity. Qed.

Lemma within_of_list chars l :
  within chars (string_of_list_ascii l) = forallb (fun c => Str.mem c chars) l.
Proof. rewrite within_list, list_ascii_of_string_of_list_ascii. reflexivity. Qed.

Lemma within_take chars n s : within chars s = true -> within chars (Str.take n s) = true.
Proof.
  revert s. induction n as [|n IH]; intros s Hs; [destruct s; reflexivity|].
  destruct s as [|c s]; [reflexivity|]. cbn [within Str.take] in *.
  apply andb_prop in Hs as [-> Hs]. apply IH, Hs.
Qed.

Lemma within_drop chars n s : within chars s = true -> within chars (Str.drop n s) = true.
Proof.
  revert s. induction n as [|n IH]; intros s Hs; [destruct s; exact Hs|].
  destruct s as [|c s]; [reflexivity|]. cbn [within Str.drop] in *.
  apply andb_prop in Hs as [_ Hs]. apply IH, Hs.
Qed.

Lemma forallb_strip_zeros_rev (P : ascii -> bool) l :
  forallb P l = true -> forallb P (Num.strip_zeros_rev l) = true.
Proof.
  induction l as [|c l IH]; [reflexivity|]. cbn [forallb Num.strip_zeros_rev].
  intros [Hc Hl]%andb_prop. destruct (Ascii.eqb c "0"); [apply IH, Hl|].
  cbn [forallb]. rewrite Hc, Hl. reflexivity.
Qed.

Lemma forallb_rev {A} (P : A -> bool) l : forallb P (rev l) = forallb P l.
Proof.
  induction l as [|x l IH]; [reflexivity|]. cbn [rev forallb].
  rewrite forallb_app, IH. cbn. rewrite andb_true_r. apply andb_comm.
Qed.

Lemma within_strip_zeros chars s :
  within chars s = true -> within chars (Num.strip_zeros s) = true.
Proof.
  intros Hs. unfold Num.strip_zeros. rewrite within_of_list, forallb_rev.
  apply forallb_strip_zeros_rev. rewrite forallb_rev, <- within_list. exact Hs.
Qed.

Lemma within_with_fraction chars a b :
  Str.mem "." chars = true ->
  within chars a = true -> within chars b = true ->
  within chars (Num.with_fraction a b) = true.
Proof.
  intros Hdot Ha Hb. unfold Num.with_fraction.
  pose proof (within_strip_zeros chars b Hb) as Hf.
  destruct (Num.strip_zeros b) as [|c f]; [exact Ha|].
  rewrite !within_append, Ha. cbn [within andb]. rewrite Hdot. exact Hf.
Qed.

Lemma within_zeros n : within number_chars (Num.zeros n) = true.
Proof.
  unfold Num.zeros. rewrite within_of_list. induction n as [|n IH]; [reflexivity|].
  cbn [repeat forallb]. rewrite IH. reflexivity.
Qed.

Lemma print_int_number n : within number_chars (Num.print_int n) = true.
Proof.
  pose proof (IntText.print_int_within n) as H.
  induction (Num.print_int n) as [|c s IH]; [reflexivity|].
  cbn [within] in *. apply andb_prop in H as [Hc Hs]. rewrite (IH Hs), andb_true_r.
  destruct c as [[|] [|] [|] [|] [|] [|] [|] [|]]; try discriminate Hc; reflexivity.
Qed.

Lemma print_g_within num den : within number_chars (Num.print_g num den) = true.
Proof.
  unfold Num.print_g.
  destruct (_ =? 1000000);
    (destruct (_ && _);
     [destruct (0 <=? _);
      apply within_with_fraction;
      [reflexivity|..];
      try (apply within_take, print_int_number);
      try (apply within_drop, print_int_number);
      try reflexivity;
      rewrite within_append, within_zeros; apply print_int_number
     |rewrite !within_append;
      rewrite within_with_fraction;
      [|reflexivity|apply within_take, print_int_number|apply within_drop, print_int_number];
      rewrite print_int_number;
      destruct (_ <? 0), (_ <? 10); reflexivity]).
Qed.

Lemma print_double_within x t :
  Num.print_double x = Some t -> within number_chars t = true.
Proof.
  unfold Num.print_double. destruct (Prim2SF x) as [s|s| |s m e]; intros [= <-].
  - destruct s; reflexivity.
  - destruct s; reflexivity.
  - destruct s, (0 <=? e); cbn [within]; rewrite ?print_g_within; reflexivity.
Qed.

Lemma stod_nonempty t v : Num.stod t = Some (Ok v) -> t <> EmptyString.
Proof. intros H ->. discriminate H. Qed.

End DoubleText.

(** *** Searches in a text in pieces *)

Module Pieces.
Import Str StrFacts Text.

Lemma size_nil : size EmptyString = 0.
Proof. reflexivity. Qed.

Lemma size_cons c s : size (String c s) = 1 + size s.
Proof. unfold size. cbn [String.length]. lia. Qed.

Lemma size_cat_nil : size (cat []) = 0.
Proof. reflexivity. Qed.

Lemma size_cat_cons p ps : size (cat (p :: ps)) = size p + size (cat ps).
Proof. cbn [cat]. apply size_append. Qed.

Lemma u64_position x : 0 <= x < 2 ^ 64 -> u64 x = x.
Proof. intros Hx. unfold u64, modulus. apply Z.mod_small. lia. Qed.

Lemma cat_split k L : cat L = (cat (firstn k L) ++ cat (skipn k L))%string.
Proof. rewrite <- cat_app, firstn_skipn. reflexivity. Qed.

(** A search from the end of the first [k] pieces goes through the others. *)
Lemma find_drop k L needle pos :
  pos = size (cat (firstn k L)) ->
  find (cat L) needle pos = find_at needle (cat (skipn k L)) pos.
Proof.
  intros ->. rewrite (cat_split k L) at 1. unfold find. rewrite size_append.
  pose proof (size_nonneg (cat (skipn k L))).
  destruct (Z.ltb_spec (size (cat (firstn k L)) + size (cat (skipn k L)))
              (size (cat (firstn k L)))); [lia|].
  unfold size at 1. rewrite Nat2Z.id, drop_append. reflexivity.
Qed.

Lemma find_first_of_drop k L chars pos :
  pos = size (cat (firstn k L)) ->
  find_first_of (cat L) chars pos = first_at chars false (cat (skipn k L)) pos.
Proof.
  intros ->. rewrite (cat_split k L) at 1. unfold find_first_of. rewrite size_append.
  pose proof (size_nonneg (cat (skipn k L))).
  destruct (Z.ltb_spec (size (cat (firstn k L)) + size (cat (skipn k L)))
              (size (cat (firstn k L)))); [lia|].
  unfold size at 1. rewrite Nat2Z.id, drop_append. reflexivity.
Qed.

(** The pieces from the [k]th, [j] of them. *)
Lemma substr_pieces k j L pos n :
  pos = size (cat (firstn k L)) ->
  size (cat (firstn j (skipn k L))) <= n ->
  (skipn j (skipn k L) = [] \/ n = size (cat (firstn j (skipn k L)))) ->
  substr (cat L) pos n = Ok (cat (firstn j (skipn k L))).
Proof.
  intros -> Hn Hcase. rewrite (cat_split k L), (cat_split j (skipn k L)).
  apply substr_middle; [exact Hn|]. destruct Hcase as [-> | ->]; [left|right]; reflexivity.
Qed.

Lemma find_at_step needle c s i :
  String.prefix needle (String c s) = false ->
  find_at needle (String c s) i = find_at needle s (i + 1).
Proof. intros H. cbn [find_at]. rewrite H. reflexivity. Qed.

Lemma find_at_hit needle s i : String.prefix needle s = true -> find_at needle s i = i.
Proof. intros H. destruct s; cbn [find_at]; rewrite H; reflexivity. Qed.

Lemma prefix_char c s : String.prefix (String c EmptyString) (String c s) = true.
Proof.
  cbn [String.prefix]. destruct (Ascii.ascii_dec c c) as [_|Hc]; [|contradiction].
  destruct s; reflexivity.
Qed.

Lemma not_npos x : x < 2 ^ 63 -> (x =? npos) = false.
Proof. intros Hx. apply Z.eqb_neq. unfold npos, UINT64_MAX. lia. Qed.

Lemma first_at_step chars c s i :
  mem c chars = false -> first_at chars false (String c s) i = first_at chars false s (i + 1).
Proof. intros H. cbn [first_at]. rewrite H. reflexivity. Qed.

Lemma first_at_hit chars c s i :
  mem c chars = true -> first_at chars false (String c s) i = i.
Proof. intros H. cbn [first_at]. rewrite H. reflexivity. Qed.


(** The quoted key does not start at the quote of a quoted value that is
    not the key. *)
Lemma prefix_quoted q key id rest :
  avoids (String q EmptyString) id = true -> avoids (String q EmptyString) key = true ->
  id <> key ->
  String.prefix (String q (key ++ String q EmptyString)) (String q (id ++ String q rest))
  = false.
Proof.
  intros Hid Hkey Hne. cbn [String.prefix].
  destruct (Ascii.ascii_dec q q) as [_|Hq]; [|contradiction].
  revert id Hid Hne. induction key as [|c key IH]; intros id Hid Hne.
  - destruct id as [|d id]; [contradiction|]. step_append. cbn [String.prefix].
    destruct (Ascii.ascii_dec q d) as [->|_]; [|reflexivity].
    cbn [avoids mem] in Hid. rewrite Ascii.eqb_refl in Hid. discriminate.
  - step_append. destruct id as [|d id].
    + step_append. cbn [String.prefix].
      destruct (Ascii.ascii_dec c q) as [->|_]; [|reflexivity].
      cbn [avoids mem] in Hkey. rewrite Ascii.eqb_refl in Hkey. discriminate.
    + step_append. cbn [String.prefix].
      destruct (Ascii.ascii_dec c d) as [->|_]; [|reflexivity].
      cbn [avoids mem] in Hkey, Hid.
      apply andb_prop in Hkey as [_ Hkey]. apply andb_prop in Hid as [_ Hid].
      apply IH; [exact Hkey|exact Hid|congruence].
Qed.

End Pieces.

(** *** One object of the entries array *)

Module RoundTrip.
Import Str StrFacts Text Pieces.

(** The key of a field in its quotes. *)
Definition K (key : string) : string := (quote ++ key ++ quote)%string.

(** The text between the braces of the object that [save_to_json] writes
    for an entry. *)
Definition obj_pieces (id score_text ts_text : string) : list string :=
  [K "user_id"; ":"; " "; quote; id; quote; ","; " ";
   K "score"; ":"; " "; score_text; ","; " ";
   K "last_update"; ":"; " "; ts_text]%string.

Definition obj_text (id score_text ts_text : string) : string :=
  cat (obj_pieces id score_text ts_text).

(** A user id that the snapshot can hold: no double quote, no backslash, no
    closing brace or bracket. *)
Definition special : string := (quote ++ backslash ++ "}]")%string.
Definition plain (id : string) : bool := avoids special id.

Ltac sizes :=
  unfold K, Leaderboard.field, quote, backslash, nl, char in *;
  rewrite ?size_cat_cons, ?size_cat_nil, ?size_append, ?size_cons, ?size_nil in *.

Ltac expose :=
  cbn [firstn skipn cat]; unfold K, Leaderboard.field, quote, backslash, nl, char;
  repeat (rewrite append_cons || rewrite append_nil_l).

Ltac lit := repeat (rewrite find_at_step by reflexivity).
Ltac lit1 := repeat (rewrite first_at_step by reflexivity).
Ltac here := rewrite find_at_hit by first [reflexivity | apply prefix_char].

Lemma plain_avoids id c :
  plain id = true -> mem c special = true -> avoids (String c EmptyString) id = true.
Proof.
  unfold plain. intros Hp Hc. induction id as [|x id IH]; [reflexivity|].
  cbn [avoids mem] in *. apply andb_prop in Hp as [Hx Hp]. rewrite (IH Hp), andb_true_r.
  rewrite orb_false_r. destruct (Ascii.eqb x c) eqn:E; [|reflexivity].
  apply Ascii.eqb_eq in E. subst x. rewrite Hc in Hx. discriminate.
Qed.

Lemma escape_plain id : plain id = true -> escape_json id = id.
Proof.
  unfold plain. induction id as [|c id IH]; [reflexivity|]. cbn [avoids escape_json].
  intros [Hc Hp]%andb_prop. rewrite (IH Hp). apply negb_true_iff in Hc.
  unfold special, quote, backslash, char in Hc.
  rewrite !append_cons, !append_nil_l in Hc. cbn [mem] in Hc.
  apply orb_false_iff in Hc as [H1 Hc]. apply orb_false_iff in Hc as [H2 _].
  rewrite H1, H2. reflexivity.
Qed.

Section Object.
Variables id score_text ts_text : string.
Hypothesis id_plain : plain id = true.
Hypothesis id_not_score : id <> "score"%string.
Hypothesis id_not_last_update : id <> "last_update"%string.
Hypothesis score_number : within DoubleText.number_chars score_text = true.
Hypothesis ts_number : within DoubleText.number_chars ts_text = true.
Hypothesis score_nonempty : score_text <> EmptyString.
Hypothesis ts_nonempty : ts_text <> EmptyString.
Hypothesis obj_small : size (obj_text id score_text ts_text) < 2 ^ 63.

Let obj : string := obj_text id score_text ts_text.

Lemma id_no_quote : avoids (String (ascii_of_nat 34) EmptyString) id = true.
Proof. apply plain_avoids; [exact id_plain|reflexivity]. Qed.

Lemma score_avoids chars :
  avoids DoubleText.number_chars chars = true -> avoids chars score_text = true.
Proof. intros H. apply (within_avoids _ _ _ H score_number). Qed.


Lemma obj_sizes :
  0 <= size id /\ 0 <= size score_text /\ 0 <= size ts_text
  /\ size id + size score_text + size ts_text + 41 < 2 ^ 63.
Proof.
  pose proof (size_nonneg id) as Hn1. pose proof (size_nonneg score_text) as Hn2.
  pose proof (size_nonneg ts_text) as Hn3.
  pose proof obj_small as Hsmall. unfold obj_text, obj_pieces in Hsmall. sizes.
  repeat split; lia.
Qed.

Ltac at_piece k :=
  unfold obj, obj_text, obj_pieces;
  rewrite (find_drop k) by (cbn [firstn]; sizes; lia); expose.
Ltac at_piece1 k :=
  unfold obj, obj_text, obj_pieces;
  rewrite (find_first_of_drop k) by (cbn [firstn]; sizes; lia); expose.

Lemma extract_user_id : Leaderboard.extract_value obj "user_id" = Ok (Some id).
Proof.
  destruct obj_sizes as (Hn1 & Hn2 & Hn3 & Hsmall). pose proof id_no_quote as Hq.
  assert (F1 : find obj (quote ++ "user_id" ++ quote) 0 = 0).
  { at_piece 0%nat. here. reflexivity. }
  assert (F2 : find obj ":" 0 = 9).
  { at_piece 0%nat. lit. here. reflexivity. }
  assert (F3 : find obj quote 10 = 11).
  { at_piece 2%nat. lit. here. reflexivity. }
  assert (F4 : find obj quote 12 = 12 + size id).
  { at_piece 4%nat. rewrite find_at_skip by exact Hq. here. reflexivity. }
  assert (F5 : substr obj 12 (size id) = Ok id).
  { unfold obj, obj_text, obj_pieces.
    rewrite (substr_pieces 4 1); cbn [firstn skipn cat]; rewrite ?append_nil_r.
    - reflexivity.
    - sizes. lia.
    - lia.
    - right. reflexivity. }
  unfold Leaderboard.extract_value. cbv zeta. rewrite F1. change (0 =? npos) with false.
  cbv iota. rewrite F2. change (9 =? npos) with false. cbv iota.
  change (String.eqb "user_id" "user_id") with true. cbv iota.
  change (u64 (9 + 1)) with 10. rewrite F3. change (11 =? npos) with false. cbv iota.
  change (u64 (11 + 1)) with 12. rewrite F4, (not_npos (12 + size id)) by lia.
  replace (u64 (12 + size id - 11 - 1)) with (size id) by (rewrite u64_position; lia).
  rewrite F5. reflexivity.
Qed.

Lemma extract_score : Leaderboard.extract_value obj "score" = Ok (Some score_text).
Proof.
  destruct obj_sizes as (Hn1 & Hn2 & Hn3 & Hsmall). pose proof id_no_quote as Hq.
  assert (F1 : find obj (quote ++ "score" ++ quote) 0 = 15 + size id).
  { at_piece 0%nat. lit.
    rewrite find_at_step
      by (apply (prefix_quoted _ "score"); [exact Hq|reflexivity|exact id_not_score]).
    rewrite find_at_skip by exact Hq. lit. here. lia. }
  assert (F2 : find obj ":" (15 + size id) = 22 + size id).
  { at_piece 8%nat. lit. here. lia. }
  assert (F3 : find_first_of obj Leaderboard.delimiters (23 + size id)
               = 24 + size id + size score_text).
  { at_piece1 10%nat. lit1.
    rewrite first_at_skip by (apply score_avoids; reflexivity).
    rewrite first_at_hit by reflexivity. lia. }
  assert (F4 : substr obj (23 + size id) (1 + size score_text) = Ok (" " ++ score_text)%string).
  { unfold obj, obj_text, obj_pieces.
    rewrite (substr_pieces 10 2); cbn [firstn skipn cat]; rewrite ?append_nil_r.
    - reflexivity.
    - sizes. lia.
    - sizes. lia.
    - right. sizes. lia. }
  unfold Leaderboard.extract_value. cbv zeta.
  rewrite F1, (not_npos (15 + size id)) by lia.
  rewrite F2, (not_npos (22 + size id)) by lia.
  change (String.eqb "score" "user_id") with false. cbv iota.
  replace (u64 (22 + size id + 1)) with (23 + size id) by (rewrite u64_position; lia).
  rewrite F3.
  replace (u64 (24 + size id + size score_text - (22 + size id) - 1))
    with (1 + size score_text) by (rewrite u64_position; lia).
  rewrite F4, trim_value; [reflexivity| |exact score_nonempty|lia].
  apply score_avoids. reflexivity.
Qed.




Variables (score : float) (ts : Z).
Hypothesis score_read : Num.stod score_text = Some (Ok score).
Hypothesis ts_read : Num.stoll ts_text = Ok ts.


End Object.

(** *** The rows of the entries array *)

(** A row: the user id, the text of the score and the text of the time
    stamp. *)
Definition row : Type := string * string * string.

Definition row_text (r : row) : string :=
  ("    {" ++ obj_text r.1.1 r.1.2 r.2 ++ "}")%string.









(** *** The whole file *)

Definition content_pieces (decay_text max_text block : string) : list string :=
  ["{"; nl; "  "; K "decay_factor"; ":"; " "; decay_text; ","; nl; "  ";
   K "max_users"; ":"; " "; max_text; ","; nl; "  ";
   K "entries"; ":"; " "; "["; block; "]"; nl; "}"; nl]%string.

Definition content_text (decay_text max_text block : string) : string :=
  cat (content_pieces decay_text max_text block).

Section File.
Variables decay_text max_text block : string.
Hypothesis decay_number : within DoubleText.number_chars decay_text = true.
Hypothesis max_number : within DoubleText.number_chars max_text = true.
Hypothesis decay_nonempty : decay_text <> EmptyString.
Hypothesis max_nonempty : max_text <> EmptyString.
Hypothesis block_no_bracket : avoids "]" block = true.
Hypothesis content_small : size (content_text decay_text max_text block) < 2 ^ 63.

Let content : string := content_text decay_text max_text block.




Ltac pieces k j :=
  unfold content, content_text, content_pieces;
  rewrite (substr_pieces k j); cbn [firstn skipn cat]; rewrite ?append_nil_r;
  [reflexivity | sizes; lia | sizes; lia | right; sizes; lia].




End File.

(** *** What [save_to_json] writes *)

Lemma save_entry_row nd t :
  plain (SkipList.user_id nd) = true ->
  Num.print_double (SkipList.score nd) = Some t ->
  Leaderboard.save_entry nd
  = Some (row_text (SkipList.user_id nd, t, Num.print_int (SkipList.last_update nd))).
Proof.
  intros Hp Ht. unfold Leaderboard.save_entry. rewrite Ht. cbn [mbind option_bind].
  rewrite (escape_plain _ Hp). unfold row_text, obj_text, obj_pieces. cbn [fst snd cat].
  unfold Leaderboard.field, K. rewrite !append_assoc. reflexivity.
Qed.

(** An entry as it is read back: the score goes through its text. *)
Definition reread_entry (e : string * (float * Z)) : option (string * (float * Z)) :=
  t ← Num.print_double e.2.1;
  match Num.stod t with
  | Some (Ok s) => Some (e.1, (s, e.2.2))
  | _ => None
  end.





End RoundTrip.


(** The condition of the next theorem on the scores is a real one: the
    least normal [double] is printed as [2.22507e-308], which is below the
    least normal [double]; [std::stod] does not read it back (the value is
    left undefined here, glibc reports a range error). *)
Lemma reread_fails_at_least_normal :
  Num.print_double 0x1p-1022 = Some "2.22507e-308"%string
  /\ RoundTrip.reread_entry ("u"%string, (0x1p-1022%float, 0)) = None.
Proof. split; vm_compute; reflexivity. Qed.



(** X26. A user named [last_update] loses its time stamp in a snapshot: in
    the object that [save_to_json] writes for such an entry, the reader
    finds the key [last_update] first in the value of [user_id], takes the
    colon of the next field, and so reads the text of the score where the
    time stamp is expected: the entry is loaded with the integer that
    [std::stoll] reads from the printed score as its time stamp. *)
Theorem leaderboard_snapshot_shadowed_time_stamp nd row score_text score n lb :
  SkipList.user_id nd = "last_update"%string ->
  Leaderboard.save_entry nd = Some row ->
  Str.size row < 2 ^ 63 ->
  Num.print_double (SkipList.score nd) = Some score_text ->
  Num.stod score_text = Some (Ok score) ->
  Num.stoll score_text = Ok n ->
  exists obj,
    row = ("    {" ++ obj ++ "}")%string
    /\ Leaderboard.extract_value obj "last_update" = Ok (Some score_text)
    /\ Leaderboard.load_entry obj lb
       = match SkipList.upsert (Leaderboard.skip_list_ lb) "last_update" score n with
         | Some sl => Some (Leaderboard.with_list lb sl, Ok tt)
         | None => None
         end.
Proof.
  intros Hid Hrow Hsize Ht Hs Hn.
  set (ts_text := Num.print_int (SkipList.last_update nd)).
  exists (RoundTrip.obj_text "last_update" score_text ts_text).
  assert (Hplain : RoundTrip.plain "last_update" = true) by reflexivity.
  assert (Htn : Text.within DoubleText.number_chars score_text = true)
    by apply (DoubleText.print_double_within _ _ Ht).
  assert (Htne : score_text <> EmptyString) by apply (DoubleText.stod_nonempty _ _ Hs).
  assert (Hav : forall chars, Text.avoids DoubleText.number_chars chars = true ->
                              Text.avoids chars score_text = true)
    by (intros chars H; apply (Text.within_avoids _ _ _ H Htn)).
  pose proof (StrFacts.size_nonneg score_text) as Hn1.
  pose proof (StrFacts.size_nonneg ts_text) as Hn2.
  assert (Hrow' : row = ("    {" ++ RoundTrip.obj_text "last_update" score_text ts_text
                          ++ "}")%string).
  { rewrite (RoundTrip.save_entry_row nd score_text) in Hrow by (rewrite ?Hid; assumption).
    rewrite Hid in Hrow. injection Hrow as <-. reflexivity. }
  assert (Hsmall : Str.size (RoundTrip.obj_text "last_update" score_text ts_text) < 2 ^ 63).
  { rewrite Hrow', !Text.size_append in Hsize.
    pose proof (StrFacts.size_nonneg "}") as Hb. change (Str.size "    {") with 5 in Hsize.
    lia. }
  assert (Hbound : Str.size score_text + Str.size ts_text + 52 < 2 ^ 63).
  { pose proof Hsmall as Hsm. unfold RoundTrip.obj_text, RoundTrip.obj_pieces in Hsm.
    RoundTrip.sizes. lia. }
  split; [exact Hrow'|].
  assert (Hlast : Leaderboard.extract_value
                    (RoundTrip.obj_text "last_update" score_text ts_text) "last_update"
                  = Ok (Some score_text)).
  { set (obj := RoundTrip.obj_text "last_update" score_text ts_text).
    assert (F1 : Str.find obj (Str.quote ++ "last_update" ++ Str.quote) 0 = 11).
    { unfold obj, RoundTrip.obj_text, RoundTrip.obj_pieces.
      rewrite (Pieces.find_drop 0) by reflexivity. RoundTrip.expose. RoundTrip.lit.
      RoundTrip.here. reflexivity. }
    assert (F2 : Str.find obj ":" 11 = 33).
    { unfold obj, RoundTrip.obj_text, RoundTrip.obj_pieces.
      rewrite (Pieces.find_drop 3) by reflexivity. RoundTrip.expose. RoundTrip.lit.
      RoundTrip.here. reflexivity. }
    assert (F3 : Str.find_first_of obj Leaderboard.delimiters 34 = 35 + Str.size score_text).
    { unfold obj, RoundTrip.obj_text, RoundTrip.obj_pieces.
      rewrite (Pieces.find_first_of_drop 10) by reflexivity. RoundTrip.expose.
      RoundTrip.lit1. rewrite Text.first_at_skip by (apply Hav; reflexivity).
      rewrite Pieces.first_at_hit by reflexivity. lia. }
    assert (F4 : Str.substr obj 34 (1 + Str.size score_text)
                 = Ok (" " ++ score_text)%string).
    { unfold obj, RoundTrip.obj_text, RoundTrip.obj_pieces.
      rewrite (Pieces.substr_pieces 10 2); cbn [firstn skipn Text.cat];
        rewrite ?Text.append_nil_r.
      - reflexivity.
      - reflexivity.
      - RoundTrip.sizes. lia.
      - right. RoundTrip.sizes. lia. }
    unfold Leaderboard.extract_value. cbv zeta.
    rewrite F1. change (11 =? Str.npos) with false. cbv iota.
    rewrite F2. change (33 =? Str.npos) with false. cbv iota.
    change (String.eqb "last_update" "user_id") with false. cbv iota.
    change (u64 (33 + 1)) with 34. rewrite F3.
    replace (u64 (35 + Str.size score_text - 33 - 1)) with (1 + Str.size score_text)
      by (rewrite Pieces.u64_position; lia).
    rewrite F4, Text.trim_value; [reflexivity| |exact Htne|lia].
    apply Hav. reflexivity. }
  split; [exact Hlast|].
  unfold Leaderboard.load_entry, Leaderboard.bind, Leaderboard.of_result,
    Leaderboard.of_defined, Leaderboard.modify.
  rewrite RoundTrip.extract_user_id, RoundTrip.extract_score, Hlast, Hs, Hn;
    try assumption; try discriminate.
  destruct (SkipList.upsert _ _ _ _); reflexivity.
Qed.

Lemma leaderboard_snapshot_shadowed_time_stamp_witness :
  exists lb0 nd row,
    Leaderboard.new 0.5 2 flat_rng = Ok lb0
    /\ nd = SkipList.mkNode "last_update" 20 1000 [None]
    /\ Leaderboard.save_entry nd = Some row
    /\ Str.size row < 2 ^ 63
    /\ Num.print_double (SkipList.score nd) = Some "20"%string
    /\ Num.stod "20" = Some (Ok 20%float)
    /\ Num.stoll "20" = Ok 20
    /\ exists obj,
         row = ("    {" ++ obj ++ "}")%string
         /\ Leaderboard.extract_value obj "last_update" = Ok (Some "20"%string)
         /\ Leaderboard.load_entry obj lb0
            = match SkipList.upsert (Leaderboard.skip_list_ lb0) "last_update" 20 20 with
              | Some sl => Some (Leaderboard.with_list lb0 sl, Ok tt)
              | None => None
              end.
Proof.
  eassert (H0 : Leaderboard.new 0.5 2 flat_rng = Ok _) by reflexivity.
  match type of H0 with _ = Ok ?v => set (lb0 := v) in * end.
  set (nd := SkipList.mkNode "last_update" 20 1000 [None]).
  eassert (Hrow : Leaderboard.save_entry nd = Some _) by (vm_compute; reflexivity).
  match type of Hrow with _ = Some ?v => set (row := v) in * end.
  assert (Hsize : Str.size row < 2 ^ 63) by (vm_compute; reflexivity).
  assert (Ht : Num.print_double (SkipList.score nd) = Some "20"%string)
    by (vm_compute; reflexivity).
  assert (Hs : Num.stod "20" = Some (Ok 20%float)) by (vm_compute; reflexivity).
  assert (Hn : Num.stoll "20" = Ok 20) by (vm_compute; reflexivity).
  exists lb0, nd, row. split; [exact H0|]. split; [reflexivity|]. split; [exact Hrow|].
  split; [exact Hsize|]. split; [exact Ht|]. split; [exact Hs|]. split; [exact Hn|].
  exact (leaderboard_snapshot_shadowed_time_stamp nd row "20" 20 20 lb0 eq_refl Hrow Hsize
           Ht Hs Hn).
Defined.
